(** * user_events: registration, field parsing and emission

    A shallow embedding of the registration and emission paths of
    [kernel/trace/trace_events_user.c] and the properties its specification
    states about them.

    Conventions of the embedding:
    - C integers are [Z]; a conversion or an addition that can leave the range
      of its type is written with [u32], [s32] or [u64].
    - C strings are [string]; a [char *] that may be [NULL] is an
      [option string].
    - Kernel objects that are shared by pointer ([struct user_event]) live in a
      store indexed by [ptr]; the hash table, the per-file reference arrays and
      the enablers hold pointers into that store.
    - Calls into the rest of the kernel whose result the code branches on
      (allocation, the trace core, page pinning) take their result from an
      explicit environment, so every failure path of the source is reachable. *)

From Stdlib Require Import ZArith String Ascii List Bool Lia.
From stdpp Require Import base option list gmap strings.

Local Open Scope Z_scope.

(** ** Machine integers *)

Definition u32 (z : Z) : Z := z mod 2 ^ 32.
Definition s32 (z : Z) : Z := (z + 2 ^ 31) mod 2 ^ 32 - 2 ^ 31.
Definition u64 (z : Z) : Z := z mod 2 ^ 64.
Definition u8 (z : Z) : Z := z mod 2 ^ 8.

Definition UINT_MAX : Z := 2 ^ 32 - 1.
Definition ULLONG_MAX : Z := 2 ^ 64 - 1.

(** ** Error numbers (include/uapi/asm-generic/errno-base.h) *)

Definition EPERM : Z := 1.
Definition ENOENT : Z := 2.
Definition E2BIG : Z := 7.
Definition ENOMEM : Z := 12.
Definition EFAULT : Z := 14.
Definition EBUSY : Z := 16.
Definition ENODEV : Z := 19.
Definition EINVAL : Z := 22.
Definition EMFILE : Z := 24.

(** ** Constants of the source file *)

Definition FIELD_DEPTH_TYPE : Z := 0.
Definition FIELD_DEPTH_NAME : Z := 1.
Definition FIELD_DEPTH_SIZE : Z := 2.
Definition MAX_EVENT_DESC : Z := 512.
Definition MAX_FIELD_ARRAY_SIZE : Z := 1024.
Definition EVENT_STATUS_FTRACE : Z := 1.
Definition EVENT_STATUS_PERF : Z := 2.
Definition EVENT_STATUS_OTHER : Z := 128.
Definition ENABLE_VAL_BIT_MASK : Z := 63.
Definition ENABLE_VAL_FAULTING_BIT : Z := 6.
Definition ENABLE_VAL_FREEING_BIT : Z := 7.
Definition VALIDATOR_ENSURE_NULL : Z := 1.
Definition VALIDATOR_REL : Z := 2.
Definition FILTER_OTHER : Z := 0.
Definition BITS_PER_BYTE : Z := 8.

(** The default of the [user_events_max] tunable (line 67). *)
Definition max_user_events_default : Z := 32768.

(** ** What the platform fixes

    Declarations the source uses but does not contain: the size of the common
    record header, the name hash and its bucket, the word and page sizes. *)

Class Platform := {
  (** [sizeof(struct trace_entry)], the header every record starts with. *)
  sizeof_trace_entry : Z;
  sizeof_trace_entry_range : 0 <= sizeof_trace_entry < 2 ^ 16;
  (** [jhash(name, strlen(name), 0)]. *)
  jhash : string -> Z;
  (** [hash_min(key, 8)]: the bucket of a key in [register_table]. *)
  hash_min : Z -> Z;
  BITS_PER_LONG : Z;
  PAGE_SIZE : Z;
  (** The end of the user address range, for [access_ok]. *)
  TASK_SIZE_MAX : Z
}.

(** ** The string functions of lib/string.c and lib/kstrtox.c that the parser calls *)

Module CStr.

(** [isspace] of lib/ctype.c: tab to carriage return, space, and 0xa0. *)
Definition isspace (c : ascii) : bool :=
  let n := N_of_ascii c in
  (((9 <=? n) && (n <=? 13)) || (n =? 32) || (n =? 160))%N.

Fixpoint skip_spaces (s : string) : string :=
  match s with
  | String c s' => if isspace c then skip_spaces s' else s
  | EmptyString => EmptyString
  end.

(** [str_has_prefix(str, prefix)]: the length of [prefix] when [str] starts
    with it, else 0. *)
Definition str_has_prefix (str pre : string) : nat :=
  if String.prefix pre str then String.length pre else 0%nat.

Definition strcmp_eq (a b : string) : bool := String.eqb a b.

(** The text before and after the first [c] of [s]. [strchr(s, c)] and
    [strpbrk(s, "c")] return a pointer to that [c] (here: [Some]), the text
    after it is what [p + 1] reads, and storing a NUL at [p] leaves the text
    before it. *)
Fixpoint split_at (c : ascii) (s : string) : option (string * string) :=
  match s with
  | EmptyString => None
  | String a s' =>
      if Ascii.eqb a c then Some (EmptyString, s')
      else match split_at c s' with
           | Some (before, after) => Some (String a before, after)
           | None => None
           end
  end.

(** One call [strsep(&s, "d")] on a non-NULL [s]: the token, and the new [s]. *)
Definition strsep (s : string) (d : ascii) : string * option string :=
  match split_at d s with
  | Some (tok, rest) => (tok, Some rest)
  | None => (s, None)
  end.

(** The tokens successive calls of [strsep] return until [s] is NULL. *)
Fixpoint strsep_all (d : ascii) (s : string) : list string :=
  match s with
  | EmptyString => [EmptyString]
  | String a s' =>
      if Ascii.eqb a d then EmptyString :: strsep_all d s'
      else match strsep_all d s' with
           | tok :: toks => String a tok :: toks
           | [] => [String a EmptyString]
           end
  end.

(** [strstr(hay, needle) != NULL]. *)
Fixpoint strstr (hay needle : string) : bool :=
  String.prefix needle hay ||
  match hay with
  | String _ hay' => strstr hay' needle
  | EmptyString => false
  end.

Fixpoint string_drop (n : nat) (s : string) : string :=
  match n, s with
  | S n', String _ s' => string_drop n' s'
  | _, _ => s
  end.

Fixpoint string_take (n : nat) (s : string) : string :=
  match n, s with
  | S n', String a s' => String a (string_take n' s')
  | _, _ => EmptyString
  end.

(** [strscpy(dst, src, count)]: copies at most [count - 1] characters; returns
    the number copied, or [-E2BIG] when [src] did not fit. *)
Definition strscpy (src : string) (count : nat) : Z * string :=
  if (String.length src <? count)%nat
  then (Z.of_nat (String.length src), src)
  else (- E2BIG, string_take (count - 1) src).

(** The value of a digit as [_parse_integer] reads it: decimal digits, and
    letters a to f in either case. *)
Definition digit_value (c : ascii) : option Z :=
  let n := Z.of_N (N_of_ascii c) in
  if (48 <=? n) && (n <=? 57) then Some (n - 48)
  else
    let lc := Z.lor n 32 in
    if (97 <=? lc) && (lc <=? 102) then Some (lc - 97 + 10) else None.

(** [_parse_integer]: the value of the longest run of digits below [base], how
    many characters it took, and the text after it. The value is not wrapped
    here; [kstrtoull] refuses one above [ULLONG_MAX]. *)
Fixpoint parse_integer (base : Z) (s : string) (acc : Z) (rv : nat)
  : Z * nat * string :=
  match s with
  | String c s' =>
      match digit_value c with
      | Some v =>
          if v <? base then parse_integer base s' (acc * base + v) (S rv)
          else (acc, rv, s)
      | None => (acc, rv, s)
      end
  | EmptyString => (acc, rv, s)
  end.

Definition is_x (c : ascii) : bool :=
  Ascii.eqb c "x"%char || Ascii.eqb c "X"%char.

(** [_parse_integer_fixup_radix]. *)
Definition parse_integer_fixup_radix (s : string) (base : Z) : Z * string :=
  let base :=
    if base =? 0 then
      match s with
      | String "0"%char (String x (String d _)) =>
          if is_x x && bool_decide (is_Some (digit_value d)) then 16 else 8
      | String "0"%char _ => 8
      | _ => 10
      end
    else base in
  match s with
  | String "0"%char (String x s') =>
      if (base =? 16) && is_x x then (base, s') else (base, s)
  | _ => (base, s)
  end.

(** [kstrtoull(s, base, &res) == 0] gives [Some res]; every failure is [None]. *)
Definition kstrtoull (s : string) (base : Z) : option Z :=
  let s := match s with String "+"%char s' => s' | _ => s end in
  let '(base, s) := parse_integer_fixup_radix s base in
  let '(res, rv, rest) := parse_integer base s 0 0%nat in
  if ULLONG_MAX <? res then None
  else if (rv =? 0)%nat then None
  else
    let rest := match rest with String "010"%char r => r | _ => rest end in
    match rest with
    | EmptyString => Some res
    | _ => None
    end.

Definition kstrtouint (s : string) (base : Z) : option Z :=
  match kstrtoull s base with
  | Some v => if v <=? UINT_MAX then Some v else None
  | None => None
  end.

Definition kstrtou32 (s : string) (base : Z) : option Z := kstrtouint s base.

End CStr.

Import CStr.

(** ** Data model *)

(** A [struct user_event *]. *)
Definition ptr := positive.

(** [struct ftrace_event_field], as [user_event_add_field] fills it. *)
Record ftrace_event_field := {
  f_type : string;
  f_name : string;
  f_offset : Z;
  f_size : Z;
  f_is_signed : Z;
  f_filter_type : Z
}.

(** [struct user_event_validator]. *)
Record user_event_validator := {
  v_offset : Z;
  v_flags : Z
}.

(** [struct trace_event_file], as far as [user_event_ftrace] reads it. *)
Record trace_event_file := {
  (** [flags & EVENT_FILE_FL_ENABLED] *)
  file_enabled : bool;
  (** [trace_trigger_soft_disabled(file)] *)
  file_soft_disabled : bool
}.

(** The probe functions a tracepoint of this file can carry. *)
Inductive probe_func :=
| user_event_ftrace_fn
| user_event_perf_fn
| other_probe_fn.

(** [struct tracepoint_func]: the probe and its [data]; [None] is a NULL
    [data]. *)
Record tracepoint_func := {
  tf_func : probe_func;
  tf_data : option trace_event_file
}.

(** [struct tracepoint]: [tp_funcs = []] stands for a NULL [funcs]; a
    non-NULL array holds at least one probe before its terminator. *)
Record tracepoint := {
  tp_name : string;
  tp_key_enabled : Z;
  tp_funcs : list tracepoint_func
}.

(** [struct user_event]. [fields] is the list as linked, head first
    ([list_add] pushes at the head, so the last field parsed comes first);
    [validators] is in parse order ([list_add_tail]). *)
Record user_event := {
  ue_tracepoint : tracepoint;
  fields : list ftrace_event_field;
  validators : list user_event_validator;
  refcnt : Z;
  min_size : Z;
  status : Z;
  print_fmt : option string
}.

Definition EVENT_NAME (user : user_event) : string := tp_name (ue_tracepoint user).

Definition set_fields (fs : list ftrace_event_field) (u : user_event) : user_event :=
  {| ue_tracepoint := ue_tracepoint u; fields := fs; validators := validators u;
     refcnt := refcnt u; min_size := min_size u; status := status u;
     print_fmt := print_fmt u |}.

Definition set_validators (vs : list user_event_validator) (u : user_event)
  : user_event :=
  {| ue_tracepoint := ue_tracepoint u; fields := fields u; validators := vs;
     refcnt := refcnt u; min_size := min_size u; status := status u;
     print_fmt := print_fmt u |}.

Definition set_refcnt (n : Z) (u : user_event) : user_event :=
  {| ue_tracepoint := ue_tracepoint u; fields := fields u;
     validators := validators u; refcnt := n; min_size := min_size u;
     status := status u; print_fmt := print_fmt u |}.

Definition set_min_size (n : Z) (u : user_event) : user_event :=
  {| ue_tracepoint := ue_tracepoint u; fields := fields u;
     validators := validators u; refcnt := refcnt u; min_size := n;
     status := status u; print_fmt := print_fmt u |}.

Definition set_print_fmt (f : option string) (u : user_event) : user_event :=
  {| ue_tracepoint := ue_tracepoint u; fields := fields u;
     validators := validators u; refcnt := refcnt u; min_size := min_size u;
     status := status u; print_fmt := f |}.

(** ** Allocation

    [kmalloc] and [kzalloc] can fail. The outcome of each coming allocation is
    read off [alloc_plan] ([true]: it succeeds; an exhausted plan: it
    succeeds); [live] counts the objects allocated and not yet freed. *)

Record kmem := {
  alloc_plan : list bool;
  live : Z
}.

Definition kmalloc (m : kmem) : bool * kmem :=
  match alloc_plan m with
  | [] => (true, {| alloc_plan := []; live := live m + 1 |})
  | ok :: plan =>
      (ok, {| alloc_plan := plan; live := if ok then live m + 1 else live m |})
  end.

Definition kfree (n : Z) (m : kmem) : kmem :=
  {| alloc_plan := alloc_plan m; live := live m - n |}.

(** ** The field parser (lines 778-1044) *)

Definition user_field_array_size (type : string) : Z :=
  match split_at "["%char type with
  | None => - EINVAL
  | Some (_, start1) =>
      let '(n, val) := strscpy start1 8 in
      if n <=? 0 then - EINVAL
      else
        match split_at "]"%char val with
        | None => - EINVAL
        | Some (val, _) =>
            match kstrtouint val 0 with
            | None => - EINVAL
            | Some v =>
                let size := s32 v in
                if size >? MAX_FIELD_ARRAY_SIZE then - EINVAL else size
            end
        end
  end.

Definition user_field_size (type : string) : Z :=
  if strcmp_eq type "s64" then 8
  else if strcmp_eq type "u64" then 8
  else if strcmp_eq type "s32" then 4
  else if strcmp_eq type "u32" then 4
  else if strcmp_eq type "int" then 4
  else if strcmp_eq type "unsigned int" then 4
  else if strcmp_eq type "s16" then 2
  else if strcmp_eq type "u16" then 2
  else if strcmp_eq type "short" then 2
  else if strcmp_eq type "unsigned short" then 2
  else if strcmp_eq type "s8" then 1
  else if strcmp_eq type "u8" then 1
  else if strcmp_eq type "char" then 1
  else if strcmp_eq type "unsigned char" then 1
  else if negb (str_has_prefix type "char[" =? 0)%nat
  then user_field_array_size type
  else if negb (str_has_prefix type "unsigned char[" =? 0)%nat
  then user_field_array_size type
  else if negb (str_has_prefix type "__data_loc " =? 0)%nat then 4
  else if negb (str_has_prefix type "__rel_loc " =? 0)%nat then 4
  else - EINVAL.

Definition user_event_destroy_validators (user : user_event) (m : kmem)
  : user_event * kmem :=
  (set_validators [] user, kfree (Z.of_nat (length (validators user))) m).

Definition user_event_destroy_fields (user : user_event) (m : kmem)
  : user_event * kmem :=
  (set_fields [] user, kfree (Z.of_nat (length (fields user))) m).

Section Parser.
Context `{Platform}.

(** [offset], [size], [is_signed] and [filter_type] are the [int] arguments as
    the callee sees them. The minimum size is [(offset + size)] in [int],
    less [sizeof(struct trace_entry)] in [size_t], stored in an [int]. *)
Definition user_event_add_field (user : user_event) (type name : string)
    (offset size is_signed filter_type : Z) (m : kmem)
  : Z * user_event * kmem :=
  let '(field_ok, m) := kmalloc m in
  if negb field_ok then (- ENOMEM, user, m)
  else
    let field :=
      {| f_type := type; f_name := name; f_offset := offset; f_size := size;
         f_is_signed := is_signed; f_filter_type := filter_type |} in
    let add_field (user : user_event) : user_event :=
      set_min_size (s32 (u64 (s32 (offset + size) - sizeof_trace_entry)))
        (set_fields (field :: fields user) user) in
    let add_validator (validator_flags : Z) : Z * user_event * kmem :=
      let validator_flags :=
        if strstr type "char"
        then Z.lor validator_flags VALIDATOR_ENSURE_NULL
        else validator_flags in
      let '(validator_ok, m) := kmalloc m in
      if negb validator_ok then (- ENOMEM, user, kfree 1 m)
      else
        let validator := {| v_offset := offset; v_flags := validator_flags |} in
        (0, add_field (set_validators (validators user ++ [validator]) user), m)
    in
    if negb (str_has_prefix type "__data_loc " =? 0)%nat then add_validator 0
    else if negb (str_has_prefix type "__rel_loc " =? 0)%nat
    then add_validator (Z.lor 0 VALIDATOR_REL)
    else (0, add_field user, m).

(** The type prefixes that contain a space (lines 949-974): the length of
    the first that matches, and whether it was ["struct "]. *)
Definition field_type_prefix (field : string) : nat * bool :=
  let len := str_has_prefix field "unsigned " in
  if negb (len =? 0)%nat then (len, false) else
  let len := str_has_prefix field "struct " in
  if negb (len =? 0)%nat then (len, true) else
  let len := str_has_prefix field "__data_loc unsigned " in
  if negb (len =? 0)%nat then (len, false) else
  let len := str_has_prefix field "__data_loc " in
  if negb (len =? 0)%nat then (len, false) else
  let len := str_has_prefix field "__rel_loc unsigned " in
  if negb (len =? 0)%nat then (len, false) else
  let len := str_has_prefix field "__rel_loc " in
  if negb (len =? 0)%nat then (len, false) else
  (0%nat, false).

(** The locals of [user_event_parse_field] that its token loop updates. *)
Record field_parts := {
  fp_depth : Z;
  fp_type : string;
  fp_name : option string;
  fp_size : Z
}.

(** The loop [while ((part = strsep(&field, " ")) != NULL) switch (depth++)]
    over the tokens [strsep] returns: [inl] is an early [return]. *)
Fixpoint parse_parts (parts : list string) (is_struct : bool) (st : field_parts)
  : Z + field_parts :=
  match parts with
  | [] => inr st
  | part :: parts =>
      let depth := fp_depth st in
      if depth =? FIELD_DEPTH_TYPE then
        parse_parts parts is_struct
          {| fp_depth := depth + 1; fp_type := part; fp_name := fp_name st;
             fp_size := fp_size st |}
      else if depth =? FIELD_DEPTH_NAME then
        parse_parts parts is_struct
          {| fp_depth := depth + 1; fp_type := fp_type st; fp_name := Some part;
             fp_size := fp_size st |}
      else if depth =? FIELD_DEPTH_SIZE then
        if negb is_struct then inl (- EINVAL)
        else
          match kstrtou32 part 10 with
          | None => inl (- EINVAL)
          | Some v =>
              parse_parts parts is_struct
                {| fp_depth := depth + 1; fp_type := fp_type st;
                   fp_name := fp_name st; fp_size := s32 v |}
          end
      else inl (- EINVAL)
  end.

(** Lines 944-1007: the field split into its type, name and size. [None] is
    the empty field (the function returns 0 at once). *)
Definition split_field (field : string) : option (Z + field_parts) :=
  let field := skip_spaces field in
  match field with
  | EmptyString => None
  | _ =>
      let '(len, is_struct) := field_type_prefix field in
      let start :=
        {| fp_depth := 0; fp_type := EmptyString; fp_name := None;
           fp_size := - EINVAL |} in
      if (len =? 0)%nat then
        Some (parse_parts (strsep_all " "%char field) is_struct start)
      else
        match split_at " "%char (string_drop len field) with
        | None => Some (inl (- EINVAL))
        | Some (type_tail, rest) =>
            Some (parse_parts (strsep_all " "%char rest) is_struct
                    {| fp_depth := 1;
                       fp_type := string_take len field +:+ type_tail;
                       fp_name := None; fp_size := - EINVAL |})
        end
  end.

(** [user_event_parse_field(field, user, &offset)]: the return value, the
    event and the new [*offset] (a [u32]). *)
Definition user_event_parse_field (field : string) (user : user_event)
    (offset : Z) (m : kmem) : Z * user_event * Z * kmem :=
  let saved_offset := offset in
  match split_field field with
  | None => (0, user, offset, m)
  | Some (inl err) => (err, user, offset, m)
  | Some (inr parts) =>
      match fp_name parts with
      | None => (- EINVAL, user, offset, m)
      | Some name =>
          if fp_depth parts <? FIELD_DEPTH_SIZE then (- EINVAL, user, offset, m)
          else
            let type := fp_type parts in
            let size :=
              if fp_depth parts =? FIELD_DEPTH_SIZE
              then user_field_size type else fp_size parts in
            if size =? 0 then (- EINVAL, user, offset, m)
            else if size <? 0 then (size, user, offset, m)
            else
              let offset := u32 (saved_offset + size) in
              let is_signed :=
                match type with
                | String "u"%char _ => 0
                | _ => 1
                end in
              let '(ret, user, m) :=
                user_event_add_field user type name (s32 saved_offset) size
                  is_signed FILTER_OTHER m in
              (ret, user, offset, m)
      end
  end.

(** The loop of [user_event_parse_fields] over the fields [strsep(&args, ";")]
    returns, stopping at the first non-zero [ret]. *)
Fixpoint parse_fields_loop (flds : list string) (ret : Z) (user : user_event)
    (offset : Z) (m : kmem) : Z * user_event * kmem :=
  match flds with
  | [] => (ret, user, m)
  | field :: flds =>
      let '(ret, user, offset, m) := user_event_parse_field field user offset m in
      if negb (ret =? 0) then (ret, user, m)
      else parse_fields_loop flds ret user offset m
  end.

Definition user_event_parse_fields (user : user_event) (args : option string)
    (m : kmem) : Z * user_event * kmem :=
  let offset := u32 sizeof_trace_entry in
  let ret := - EINVAL in
  match args with
  | None => (0, user, m)
  | Some args => parse_fields_loop (strsep_all ";"%char args) ret user offset m
  end.

End Parser.

(** ** The output format (lines 1048-1196) *)

Definition user_field_format (type : string) : string :=
  if strcmp_eq type "s64" then "%lld"
  else if strcmp_eq type "u64" then "%llu"
  else if strcmp_eq type "s32" then "%d"
  else if strcmp_eq type "u32" then "%u"
  else if strcmp_eq type "int" then "%d"
  else if strcmp_eq type "unsigned int" then "%u"
  else if strcmp_eq type "s16" then "%d"
  else if strcmp_eq type "u16" then "%u"
  else if strcmp_eq type "short" then "%d"
  else if strcmp_eq type "unsigned short" then "%u"
  else if strcmp_eq type "s8" then "%d"
  else if strcmp_eq type "u8" then "%u"
  else if strcmp_eq type "char" then "%d"
  else if strcmp_eq type "unsigned char" then "%u"
  else if strstr type "char[" then "%s"
  else "%llu".

(** [user_field_is_dyn_string]: the accessor to print with, when the field is
    a variable-length string. *)
Definition user_field_is_dyn_string (type : string) : option string :=
  if negb (str_has_prefix type "__data_loc " =? 0)%nat
  then (if strstr type "char" then Some "__get_str" else None)
  else if negb (str_has_prefix type "__rel_loc " =? 0)%nat
  then (if strstr type "char" then Some "__get_rel_str" else None)
  else None.

Definition dquote : string := String (ascii_of_nat 34) EmptyString.

(** The text [user_event_set_print_fmt] writes; both loops walk the field list
    in reverse, that is in the order the fields were declared. *)
Definition user_event_set_print_fmt (user : user_event) : string :=
  let declared := rev (fields user) in
  let formats :=
    fold_left
      (fun '(acc, depth) field =>
         ((acc +:+ (if (depth =? 0)%nat then "" else " ")
               +:+ f_name field +:+ "=" +:+ user_field_format (f_type field))%string,
          S depth))
      declared (EmptyString, 0%nat) in
  let arguments :=
    fold_left
      (fun acc field =>
         match user_field_is_dyn_string (f_type field) with
         | Some str_func =>
             acc +:+ ", " +:+ str_func +:+ "(" +:+ f_name field +:+ ")"
         | None => acc +:+ ", REC->" +:+ f_name field
         end)
      declared EmptyString in
  dquote +:+ fst formats +:+ dquote +:+ arguments.

Definition user_event_create_print_fmt (user : user_event) (m : kmem)
  : Z * user_event * kmem :=
  let '(ok, m) := kmalloc m in
  if negb ok then (- ENOMEM, user, m)
  else (0, set_print_fmt (Some (user_event_set_print_fmt user)) user, m).

(** ** The registry (lines 1209-1289 and 1673-1807)

    There is one group in this version of the source ([init_group]); its
    table and the global counters are the fields of [kstate].
    - [events]: the allocated [struct user_event]s.
    - [register_table]: the chain of each bucket, head first.
    - [dyn_events], [trace_events], [event_calls]: the events that
      [dyn_event_add], [register_trace_event] and [trace_add_event_call] have
      made known to the trace core; an event in [event_calls] is visible to
      sinks. *)

Record kstate := {
  events : gmap ptr user_event;
  register_table : Z -> list ptr;
  current_user_events : Z;
  max_user_events : Z;
  dyn_events : list ptr;
  trace_events : list ptr;
  event_calls : list ptr;
  mem : kmem
}.

Definition set_events (e : gmap ptr user_event) (st : kstate) : kstate :=
  {| events := e; register_table := register_table st;
     current_user_events := current_user_events st;
     max_user_events := max_user_events st; dyn_events := dyn_events st;
     trace_events := trace_events st; event_calls := event_calls st;
     mem := mem st |}.

Definition set_register_table (t : Z -> list ptr) (st : kstate) : kstate :=
  {| events := events st; register_table := t;
     current_user_events := current_user_events st;
     max_user_events := max_user_events st; dyn_events := dyn_events st;
     trace_events := trace_events st; event_calls := event_calls st;
     mem := mem st |}.

Definition set_current_user_events (n : Z) (st : kstate) : kstate :=
  {| events := events st; register_table := register_table st;
     current_user_events := n;
     max_user_events := max_user_events st; dyn_events := dyn_events st;
     trace_events := trace_events st; event_calls := event_calls st;
     mem := mem st |}.

Definition set_dyn_events (l : list ptr) (st : kstate) : kstate :=
  {| events := events st; register_table := register_table st;
     current_user_events := current_user_events st;
     max_user_events := max_user_events st; dyn_events := l;
     trace_events := trace_events st; event_calls := event_calls st;
     mem := mem st |}.

Definition set_trace_events (l : list ptr) (st : kstate) : kstate :=
  {| events := events st; register_table := register_table st;
     current_user_events := current_user_events st;
     max_user_events := max_user_events st; dyn_events := dyn_events st;
     trace_events := l; event_calls := event_calls st;
     mem := mem st |}.

Definition set_event_calls (l : list ptr) (st : kstate) : kstate :=
  {| events := events st; register_table := register_table st;
     current_user_events := current_user_events st;
     max_user_events := max_user_events st; dyn_events := dyn_events st;
     trace_events := trace_events st; event_calls := l;
     mem := mem st |}.

Definition set_mem (m : kmem) (st : kstate) : kstate :=
  {| events := events st; register_table := register_table st;
     current_user_events := current_user_events st;
     max_user_events := max_user_events st; dyn_events := dyn_events st;
     trace_events := trace_events st; event_calls := event_calls st;
     mem := m |}.

(** A write to the [user_events_max] tunable ([set_max_user_events_sysctl]). *)
Definition set_max_user_events (n : Z) (st : kstate) : kstate :=
  {| events := events st; register_table := register_table st;
     current_user_events := current_user_events st;
     max_user_events := n; dyn_events := dyn_events st;
     trace_events := trace_events st; event_calls := event_calls st;
     mem := mem st |}.

(** What the trace core answers to the calls of one operation:
    [register_trace_event] (0 is its failure), [prepare_creds],
    [trace_add_event_call] and [trace_remove_event_call]. *)
Record trace_env := {
  register_trace_event_ret : Z;
  prepare_creds_ok : bool;
  trace_add_event_call_ret : Z;
  trace_remove_event_call_ret : Z
}.

(** A node unlinked from a list ([list_del], [hlist_del]): [l] without its
    first [p]. *)
Fixpoint unlink (p : ptr) (l : list ptr) : list ptr :=
  match l with
  | [] => []
  | q :: l => if decide (q = p) then l else q :: unlink p l
  end.

Definition refcount_inc (p : ptr) (st : kstate) : kstate :=
  set_events (alter (fun u => set_refcnt (refcnt u + 1) u) p (events st)) st.

Definition refcount_dec (p : ptr) (st : kstate) : kstate :=
  set_events (alter (fun u => set_refcnt (refcnt u - 1) u) p (events st)) st.

(** [refcount_read(&user->refcnt) == 1]. *)
Definition user_event_last_ref (p : ptr) (st : kstate) : bool :=
  match events st !! p with
  | Some user => refcnt user =? 1
  | None => false
  end.

Section Registry.
Context `{Platform}.

Definition user_event_key (name : string) : Z := jhash name.

(** [hash_add(register_table, &user->node, key)]: at the head of the chain. *)
Definition hash_add (t : Z -> list ptr) (p : ptr) (key : Z) : Z -> list ptr :=
  fun b => if b =? hash_min key then p :: t b else t b.

(** [hash_del(&user->node)]: the node leaves the chain it is on. *)
Definition hash_del (t : Z -> list ptr) (p : ptr) : Z -> list ptr :=
  fun b => unlink p (t b).

(** The body of [hash_for_each_possible] in [find_user_event]: the first
    event of the chain whose name is [name]. Every pointer on a chain is a
    live event ([hash_del] comes before [kfree]); one that is not is passed
    over. *)
Fixpoint find_in_chain (evs : gmap ptr user_event) (chain : list ptr)
    (name : string) : option ptr :=
  match chain with
  | [] => None
  | p :: chain =>
      match evs !! p with
      | Some user =>
          if strcmp_eq (EVENT_NAME user) name then Some p
          else find_in_chain evs chain name
      | None => find_in_chain evs chain name
      end
  end.

(** [find_user_event(group, name, &key)]: the event, [*outkey], the state. *)
Definition find_user_event (st : kstate) (name : string)
  : option ptr * Z * kstate :=
  let key := user_event_key name in
  match find_in_chain (events st) (register_table st (hash_min key)) name with
  | Some p => (Some p, key, refcount_inc p st)
  | None => (None, key, st)
  end.

Definition user_event_set_call_visible (env : trace_env) (p : ptr)
    (visible : bool) (st : kstate) : Z * kstate :=
  if negb (prepare_creds_ok env) then (- ENOMEM, st)
  else if visible then
    let ret := trace_add_event_call_ret env in
    (ret, if ret =? 0 then set_event_calls (p :: event_calls st) st else st)
  else
    let ret := trace_remove_event_call_ret env in
    (ret,
     if ret =? 0
     then set_trace_events (unlink p (trace_events st))
            (set_event_calls (unlink p (event_calls st)) st)
     else st).

(** [destroy_user_event(user)]. A [p] that is no live event does not occur:
    the callers pass a pointer they found in the table. *)
Definition destroy_user_event (env : trace_env) (p : ptr) (st : kstate)
  : Z * kstate :=
  match events st !! p with
  | None => (- EFAULT, st)
  | Some user =>
      let '(user, m) := user_event_destroy_fields user (mem st) in
      let st := set_mem m (set_events (<[p := user]> (events st)) st) in
      let '(ret, st) := user_event_set_call_visible env p false st in
      if negb (ret =? 0) then (ret, st)
      else
        let st := set_dyn_events (unlink p (dyn_events st)) st in
        let st := set_register_table (hash_del (register_table st) p) st in
        let '(user, m) := user_event_destroy_validators user (mem st) in
        let m := match print_fmt user with Some _ => kfree 1 m | None => m end in
        let m := kfree 1 m in
        let m := kfree 1 m in
        let st := set_mem m (set_events (delete p (events st)) st) in
        let st :=
          if current_user_events st >? 0
          then set_current_user_events (current_user_events st - 1) st
          else st in
        (ret, st)
  end.

Definition user_event_trace_register (env : trace_env) (p : ptr) (st : kstate)
  : Z * kstate :=
  let ret := register_trace_event_ret env in
  if ret =? 0 then (- ENODEV, st)
  else
    let st := set_trace_events (p :: trace_events st) st in
    let '(ret, st) := user_event_set_call_visible env p true st in
    if negb (ret =? 0)
    then (ret, set_trace_events (unlink p (trace_events st)) st)
    else (ret, st).

(** The labels [put_user] and [put_user_lock] of [user_event_parse]. *)
Definition put_user (ret : Z) (user : user_event) (st : kstate) (m : kmem)
  : Z * option ptr * kstate :=
  let '(user, m) := user_event_destroy_fields user m in
  let '(user, m) := user_event_destroy_validators user m in
  let m := match print_fmt user with Some _ => kfree 1 m | None => m end in
  let m := kfree 1 m in
  (ret, None, set_mem m st).

(** [user_event_parse(group, name, args, flags, &newuser)]: the return value,
    [*newuser] and the state. [name] is a buffer the caller allocated. The new
    event is built in [user] and enters [events] at its address [p] when it is
    complete; until then nothing else holds [p]. *)
Definition user_event_parse (env : trace_env) (st : kstate) (name : string)
    (args flags : option string) : Z * option ptr * kstate :=
  let '(found, key, st) := find_user_event st name in
  match found with
  | Some p => (0, Some p, set_mem (kfree 1 (mem st)) st)
  | None =>
      let '(ok, m) := kmalloc (mem st) in
      if negb ok then (- ENOMEM, None, set_mem m st)
      else
        let p := fresh (dom (events st)) in
        let user :=
          {| ue_tracepoint :=
               {| tp_name := name; tp_key_enabled := 0; tp_funcs := [] |};
             fields := []; validators := []; refcnt := 0; min_size := 0;
             status := 0; print_fmt := None |} in
        let '(ret, user, m) := user_event_parse_fields user args m in
        if negb (ret =? 0) then put_user ret user st m
        else
          let '(ret, user, m) := user_event_create_print_fmt user m in
          if negb (ret =? 0) then put_user ret user st m
          else if max_user_events st <=? current_user_events st
          then put_user (- EMFILE) user st m
          else
            let '(ret, st) := user_event_trace_register env p st in
            if negb (ret =? 0) then put_user ret user st m
            else
              let user := set_refcnt 2 user in
              let st := set_dyn_events (p :: dyn_events st) st in
              let st := set_register_table (hash_add (register_table st) p key) st in
              let st := set_events (<[p := user]> (events st)) st in
              let st :=
                set_current_user_events (u32 (current_user_events st + 1)) st in
              (0, Some p, set_mem m st)
  end.

(** [delete_user_event(group, name)]. *)
Definition delete_user_event (env : trace_env) (st : kstate) (name : string)
  : Z * kstate :=
  let '(found, key, st) := find_user_event st name in
  match found with
  | None => (- ENOENT, st)
  | Some p =>
      let st := refcount_dec p st in
      if negb (user_event_last_ref p st) then (- EBUSY, st)
      else destroy_user_event env p st
  end.

(** [user_event_parse_cmd]: the command split at its first space into name
    and arguments, the name at its first colon into name and flags. *)
Definition user_event_parse_cmd (env : trace_env) (st : kstate)
    (raw_command : string) : Z * option ptr * kstate :=
  let '(name, args) := strsep raw_command " "%char in
  let '(name, flags) := strsep name ":"%char in
  user_event_parse env st name args flags.

End Registry.

(** ** Emission (lines 1291-1406 and 1812-1882) *)

(** The memory of a record and around it: the byte at an offset from the
    start of the entry. Offsets below 0 and beyond the record are the ring
    buffer's own bytes, which the code can reach. *)
Definition buffer := Z -> Z.

(** The [u32] read at [pos], little-endian. *)
Definition read_u32 (data : buffer) (pos : Z) : Z :=
  u8 (data pos) + 2 ^ 8 * u8 (data (pos + 1)) + 2 ^ 16 * u8 (data (pos + 2))
  + 2 ^ 24 * u8 (data (pos + 3)).

Definition has_flag (flags flag : Z) : bool := negb (Z.land flags flag =? 0).

(** The loop of [user_event_validate] over the validator list; [pos] and
    [end] are offsets from [data]. *)
Fixpoint validate_loop (vs : list user_event_validator) (data : buffer) (len : Z)
  : Z :=
  match vs with
  | [] => 0
  | validator :: vs =>
      let pos := v_offset validator in
      let loc := read_u32 data pos in
      let offset := Z.land loc 65535 in
      let size := Z.shiftr loc 16 in
      let pos :=
        if has_flag (v_flags validator) VALIDATOR_REL
        then pos + (offset + 4)
        else offset in
      let pos := pos + size in
      if pos >? len then - EFAULT
      else if has_flag (v_flags validator) VALIDATOR_ENSURE_NULL
              && negb (u8 (data (pos - 1)) =? 0)
      then - EFAULT
      else validate_loop vs data len
  end.

Definition user_event_validate (user : user_event) (data : buffer) (len : Z) : Z :=
  validate_loop (validators user) data len.

(** [struct iov_iter] over user memory: the bytes still to be consumed, how
    many of them a copy that may fault pages in can read ([iov_mapped]), and
    how many a copy with page faults disabled can read ([iov_resident]). *)
Record iov_iter := {
  iov_bytes : list Z;
  iov_mapped : nat;
  iov_resident : nat
}.

Definition iov_count (i : iov_iter) : Z := Z.of_nat (length (iov_bytes i)).

Definition iov_advance (n : nat) (i : iov_iter) : iov_iter :=
  {| iov_bytes := drop n (iov_bytes i); iov_mapped := iov_mapped i - n;
     iov_resident := iov_resident i - n |}.

(** [copy_from_iter(addr, bytes, i)]: the bytes copied, and the iterator. *)
Definition copy_from_iter (bytes : nat) (i : iov_iter) : list Z * iov_iter :=
  let n := (bytes `min` iov_mapped i)%nat in
  (take n (iov_bytes i), iov_advance (length (take n (iov_bytes i))) i).

(** [copy_nofault(addr, bytes, i)]. *)
Definition copy_nofault (bytes : nat) (i : iov_iter) : list Z * iov_iter :=
  let n := (bytes `min` iov_resident i)%nat in
  (take n (iov_bytes i), iov_advance (length (take n (iov_bytes i))) i).

(** [fault_in_iov_iter_readable(i, size)]: the number of bytes not faulted in. *)
Definition fault_in_iov_iter_readable (i : iov_iter) (size : Z) : Z :=
  size - Z.min size (Z.of_nat (iov_mapped i)).

(** [dst] with [bytes] stored from offset [at] on. *)
Definition store_bytes (dst : buffer) (at_ : Z) (bytes : list Z) : buffer :=
  fun pos =>
    if (at_ <=? pos) && (pos <? at_ + Z.of_nat (length bytes))
    then nth (Z.to_nat (pos - at_)) bytes 0
    else dst pos.

(** The first [size] bytes of a record, as a sink publishes them. *)
Definition record_bytes (data : buffer) (size : Z) : list Z :=
  map (fun k => data (Z.of_nat k)) (seq 0 (Z.to_nat size)).

(** The trace ring buffer: whether a reservation finds room, what a reserved
    entry holds (its header filled in) and what surrounds it, and the counts
    and records of what was done with it. *)
Record ring_buffer := {
  rb_reserve_ok : bool;
  rb_memory : buffer;
  rb_reserved : Z;
  rb_committed : list (list Z);
  rb_discarded : Z
}.

(** The perf ring buffer, likewise; [perf_has_events] is
    [perf_head && !hlist_empty(perf_head)]. *)
Record perf_buffer := {
  perf_has_events : bool;
  perf_alloc_ok : bool;
  perf_memory : buffer;
  perf_allocated : Z;
  perf_submitted : list (list Z);
  perf_dropped : Z
}.

Record sinks := {
  ftrace_sink : ring_buffer;
  perf_sink : perf_buffer
}.

(** The records published to the sinks so far. *)
Definition published (s : sinks) : list (list Z) :=
  rb_committed (ftrace_sink s) ++ perf_submitted (perf_sink s).

(** The records reserved in the sinks so far, published or not. *)
Definition reserved (s : sinks) : Z :=
  rb_reserved (ftrace_sink s) + perf_allocated (perf_sink s).

Definition rb_reserve (rb : ring_buffer) : ring_buffer :=
  {| rb_reserve_ok := rb_reserve_ok rb; rb_memory := rb_memory rb;
     rb_reserved := rb_reserved rb + 1; rb_committed := rb_committed rb;
     rb_discarded := rb_discarded rb |}.

Definition rb_commit (record : list Z) (rb : ring_buffer) : ring_buffer :=
  {| rb_reserve_ok := rb_reserve_ok rb; rb_memory := rb_memory rb;
     rb_reserved := rb_reserved rb;
     rb_committed := rb_committed rb ++ [record];
     rb_discarded := rb_discarded rb |}.

Definition rb_discard (rb : ring_buffer) : ring_buffer :=
  {| rb_reserve_ok := rb_reserve_ok rb; rb_memory := rb_memory rb;
     rb_reserved := rb_reserved rb; rb_committed := rb_committed rb;
     rb_discarded := rb_discarded rb + 1 |}.

Definition perf_alloc (pb : perf_buffer) : perf_buffer :=
  {| perf_has_events := perf_has_events pb; perf_alloc_ok := perf_alloc_ok pb;
     perf_memory := perf_memory pb; perf_allocated := perf_allocated pb + 1;
     perf_submitted := perf_submitted pb; perf_dropped := perf_dropped pb |}.

Definition perf_submit (record : list Z) (pb : perf_buffer) : perf_buffer :=
  {| perf_has_events := perf_has_events pb; perf_alloc_ok := perf_alloc_ok pb;
     perf_memory := perf_memory pb; perf_allocated := perf_allocated pb;
     perf_submitted := perf_submitted pb ++ [record];
     perf_dropped := perf_dropped pb |}.

Definition perf_drop (pb : perf_buffer) : perf_buffer :=
  {| perf_has_events := perf_has_events pb; perf_alloc_ok := perf_alloc_ok pb;
     perf_memory := perf_memory pb; perf_allocated := perf_allocated pb;
     perf_submitted := perf_submitted pb; perf_dropped := perf_dropped pb + 1 |}.

(** [struct user_event_file_info]: [refs] is the [events] array of
    [struct user_event_refs], its length the [count]; [None] is a NULL [refs],
    and a [None] in the array a NULL slot. *)
Record user_event_file_info := {
  refs : option (list (option ptr))
}.

(** How a write ends: with a return value, or in a read the C code performs
    outside an object. *)
Inductive write_outcome :=
| Returned (ret : Z) (s : sinks)
| OutOfBounds (idx : Z)
| BadPointer (p : ptr).

Section Emission.
Context `{Platform}.

(** The record as [user_event_ftrace] and [user_event_perf] fill it: the
    bytes [copy_nofault] could read, stored after the header. *)
Definition fill_entry (entry : buffer) (copied : list Z) : buffer :=
  store_bytes entry sizeof_trace_entry copied.

(** [user_event_ftrace(user, i, tpdata, &faulted)]. [size] stays below 2^31
    (a write is capped at MAX_RW_COUNT), so passing it as the [int len] of
    [user_event_validate] keeps its value. *)
Definition user_event_ftrace (user : user_event) (i : iov_iter)
    (tpdata : option trace_event_file) (faulted : bool) (rb : ring_buffer)
  : bool * ring_buffer :=
  let size := sizeof_trace_entry + iov_count i in
  match tpdata with
  | None => (faulted, rb)
  | Some file =>
      if negb (file_enabled file) || file_soft_disabled file then (faulted, rb)
      else if negb (rb_reserve_ok rb) then (faulted, rb)
      else
        let rb := rb_reserve rb in
        let '(copied, _) := copy_nofault (Z.to_nat (iov_count i)) i in
        let entry := fill_entry (rb_memory rb) copied in
        if (length copied =? 0)%nat then (true, rb_discard rb)
        else if negb (bool_decide (validators user = []))
                && negb (user_event_validate user entry size =? 0)
        then (true, rb_discard rb)
        else (faulted, rb_commit (record_bytes entry size) rb)
  end.

(** [user_event_perf(user, i, tpdata, &faulted)]. *)
Definition user_event_perf (user : user_event) (i : iov_iter)
    (faulted : bool) (pb : perf_buffer) : bool * perf_buffer :=
  if perf_has_events pb then
    let size := sizeof_trace_entry + iov_count i in
    if negb (perf_alloc_ok pb) then (faulted, pb)
    else
      let pb := perf_alloc pb in
      let '(copied, _) := copy_nofault (Z.to_nat (iov_count i)) i in
      let perf_entry := fill_entry (perf_memory pb) copied in
      if (length copied =? 0)%nat then (true, perf_drop pb)
      else if negb (bool_decide (validators user = []))
              && negb (user_event_validate user perf_entry size =? 0)
      then (true, perf_drop pb)
      else (faulted, perf_submit (record_bytes perf_entry size) pb)
  else (faulted, pb).

(** One turn of the probe loop of [user_events_write_core]: the probe is
    called on a copy of the iterator. A probe that is neither of this file's
    has no sink in this model. *)
Definition call_probe (user : user_event) (i : iov_iter)
    (acc : bool * sinks) (probe : tracepoint_func) : bool * sinks :=
  let '(faulted, s) := acc in
  match tf_func probe with
  | user_event_ftrace_fn =>
      let '(faulted, rb) :=
        user_event_ftrace user i (tf_data probe) faulted (ftrace_sink s) in
      (faulted, {| ftrace_sink := rb; perf_sink := perf_sink s |})
  | user_event_perf_fn =>
      let '(faulted, pb) := user_event_perf user i faulted (perf_sink s) in
      (faulted, {| ftrace_sink := ftrace_sink s; perf_sink := pb |})
  | other_probe_fn => (faulted, s)
  end.

(** The 32-bit value of four bytes, little-endian. *)
Definition le32 (bytes : list Z) : Z :=
  read_u32 (fun k => nth (Z.to_nat k) bytes 0) 0.

(** [user_events_write_core(file, i)], with [evs] the events the pointers of
    [info->refs] point into. The index is an [int]; the sizes compared are
    [size_t], to which the [int min_size] is converted. *)
Definition user_events_write_core (evs : gmap ptr user_event)
    (info : user_event_file_info) (i : iov_iter) (s : sinks) : write_outcome :=
  let ret := iov_count i in
  let '(idx_bytes, i) := copy_from_iter 4 i in
  if negb (length idx_bytes =? 4)%nat then Returned (- EFAULT) s
  else
    let idx := s32 (le32 idx_bytes) in
    let slot : option (option ptr) + Z :=
      match refs info with
      | Some events =>
          if idx <? Z.of_nat (length events) then
            if 0 <=? idx then inl (events !! Z.to_nat idx) else inr idx
          else inl None
      | None => inl None
      end in
    match slot with
    | inr idx => OutOfBounds idx
    | inl slot =>
        match mjoin slot with
        | None => Returned (- ENOENT) s
        | Some p =>
            match evs !! p with
            | None => BadPointer p
            | Some user =>
                if iov_count i <? u64 (min_size user) then Returned (- EINVAL) s
                else
                  let tp := ue_tracepoint user in
                  if tp_key_enabled tp >? 0 then
                    if negb (fault_in_iov_iter_readable i (iov_count i) =? 0)
                    then Returned (- EFAULT) s
                    else
                      let '(faulted, s) :=
                        fold_left (call_probe user i) (tp_funcs tp) (false, s) in
                      if faulted then Returned (- EFAULT) s else Returned ret s
                  else Returned ret s
            end
        end
    end.

(** The value [update_enable_bit_for] stores in [user->status] (lines
    1414-1442): which kinds of probe the tracepoint carries. *)
Definition tracepoint_status (tp : tracepoint) : Z :=
  if tp_key_enabled tp >? 0 then
    fold_left
      (fun status probe =>
         match tf_func probe with
         | user_event_ftrace_fn => Z.lor status EVENT_STATUS_FTRACE
         | user_event_perf_fn => Z.lor status EVENT_STATUS_PERF
         | other_probe_fn => Z.lor status EVENT_STATUS_OTHER
         end)
      (tp_funcs tp) 0
  else 0.

End Emission.

(** ** Registration requests (lines 259-267, 373-420, 508-574, 660-717 and
    1927-2093) *)

(** The memory of the calling process: the byte at an address, [None] where
    nothing is mapped. *)
Definition user_memory := Z -> option Z.

(** [struct user_reg] (include/uapi/linux/user_events.h), packed: [size] at
    offset 0, [enable_bit] at 4, [enable_size] at 5, [flags] at 6,
    [enable_addr] at 8, [name_args] at 16, [write_index] at 24. *)
Record user_reg := {
  reg_size : Z;
  enable_bit : Z;
  enable_size : Z;
  reg_flags : Z;
  enable_addr : Z;
  name_args : Z;
  write_index : Z
}.

Definition sizeof_user_reg : Z := 28.
Definition offsetofend_write_index : Z := 28.
Definition offsetof_write_index : Z := 24.

(** [struct user_event_enabler]. *)
Record user_event_enabler := {
  en_event : ptr;
  en_addr : Z;
  en_values : Z
}.

(** [struct user_event_mm]: the enablers, head first, and the two counts. *)
Record user_event_mm := {
  mm_enablers : list user_event_enabler;
  mm_refcnt : Z;
  mm_tasks : Z
}.

(** The calling task: its memory and its [user_event_mm] pointer. *)
Record task := {
  user_mem : user_memory;
  task_mm : option user_event_mm
}.

(** What the memory manager answers while an enabler is created: whether
    each attempt to pin the page succeeds (an exhausted plan: it does), and
    what each [fixup_user_fault] returns (an exhausted plan: [-EFAULT]).
    And the addresses the calling process may store to: a byte of a
    read-only mapping can be read, and a store to it faults. *)
Record mm_env := {
  pin_plan : list bool;
  fault_in_plan : list Z;
  user_writable : Z -> bool
}.

(** [n] bytes from [addr], when all of them are mapped. *)
Fixpoint user_read (um : user_memory) (addr : Z) (n : nat) : option (list Z) :=
  match n with
  | O => Some []
  | S n =>
      match um addr, user_read um (addr + 1) n with
      | Some b, Some bs => Some (u8 b :: bs)
      | _, _ => None
      end
  end.

(** [addr] onward overwritten with [bytes], where the memory is mapped. *)
Definition user_write (um : user_memory) (addr : Z) (bytes : list Z)
  : user_memory :=
  fun a =>
    match um a with
    | Some b =>
        if (addr <=? a) && (a <? addr + Z.of_nat (length bytes))
        then Some (nth (Z.to_nat (a - addr)) bytes 0)
        else Some b
    | None => None
    end.

Definition le_bytes (n : nat) (v : Z) : list Z :=
  map (fun k => u8 (Z.shiftr v (8 * Z.of_nat k))) (seq 0 n).

Fixpoint le_value (bytes : list Z) : Z :=
  match bytes with
  | [] => 0
  | b :: bytes => u8 b + 2 ^ 8 * le_value bytes
  end.

(** [get_user(x, ptr)] of a [u32]: the return value and [x]. *)
Definition get_user_u32 (um : user_memory) (addr : Z) : Z * Z :=
  match user_read um addr 4 with
  | Some bytes => (0, le_value bytes)
  | None => (- EFAULT, 0)
  end.

(** Whether the process may store to each of the four bytes at [addr]. *)
Definition user_word_writable (menv : mm_env) (addr : Z) : bool :=
  forallb (user_writable menv) [addr; addr + 1; addr + 2; addr + 3].

(** [put_user((u32)x, ptr)]: the return value and the memory. The word is
    stored when its four bytes are mapped and may be written; on a fault
    nothing is stored and the result is [-EFAULT]. *)
Definition put_user_u32 (menv : mm_env) (um : user_memory) (addr : Z) (x : Z)
  : Z * user_memory :=
  match user_read um addr 4 with
  | Some _ =>
      if user_word_writable menv addr
      then (0, user_write um addr (le_bytes 4 (u32 x)))
      else (- EFAULT, um)
  | None => (- EFAULT, um)
  end.

(** [check_zeroed_user(from, size)]: 1 when every byte is zero, 0 when one is
    not, [-EFAULT] on a fault. *)
Definition check_zeroed_user (um : user_memory) (from : Z) (size : Z) : Z :=
  match user_read um from (Z.to_nat size) with
  | None => - EFAULT
  | Some bytes => if forallb (fun b => b =? 0) bytes then 1 else 0
  end.

(** [copy_struct_from_user(dst, ksize, src, usize)]: the return value and the
    [ksize] bytes of [dst]. *)
Definition copy_struct_from_user (um : user_memory) (ksize : Z) (src : Z)
    (usize : Z) : Z * list Z :=
  let size := Z.min ksize usize in
  let rest := Z.max ksize usize - size in
  let ret :=
    if ksize <? usize then
      let ret := check_zeroed_user um (src + size) rest in
      if ret <=? 0 then (if ret =? 0 then - E2BIG else ret) else 0
    else 0 in
  if negb (ret =? 0) then (ret, [])
  else
    match user_read um src (Z.to_nat size) with
    | None => (- EFAULT, [])
    | Some bytes => (0, bytes ++ repeat 0 (Z.to_nat (ksize - size)))
    end.

(** The fields of a [struct user_reg] held in 28 bytes. *)
Definition user_reg_of_bytes (bytes : list Z) : user_reg :=
  {| reg_size := le_value (take 4 bytes);
     enable_bit := le_value (take 1 (drop 4 bytes));
     enable_size := le_value (take 1 (drop 5 bytes));
     reg_flags := le_value (take 2 (drop 6 bytes));
     enable_addr := le_value (take 8 (drop 8 bytes));
     name_args := le_value (take 8 (drop 16 bytes));
     write_index := le_value (take 4 (drop 24 bytes)) |}.

Definition set_reg_size (size : Z) (r : user_reg) : user_reg :=
  {| reg_size := size; enable_bit := enable_bit r; enable_size := enable_size r;
     reg_flags := reg_flags r; enable_addr := enable_addr r;
     name_args := name_args r; write_index := write_index r |}.

Fixpoint string_of_bytes (bytes : list Z) : string :=
  match bytes with
  | [] => EmptyString
  | b :: bytes => String (ascii_of_N (Z.to_N b)) (string_of_bytes bytes)
  end.

(** The scan of [strnlen_user]: the bytes before the first NUL among the
    first [n]; [inl] is the error [strndup_user] returns ([-EFAULT] on a
    fault, [-EINVAL] when there is no NUL among them). *)
Fixpoint user_string (um : user_memory) (addr : Z) (n : nat) : Z + list Z :=
  match n with
  | O => inl (- EINVAL)
  | S n =>
      match um addr with
      | None => inl (- EFAULT)
      | Some b =>
          if u8 b =? 0 then inr []
          else match user_string um (addr + 1) n with
               | inr bs => inr (u8 b :: bs)
               | inl err => inl err
               end
      end
  end.

(** [strndup_user(s, n)]: an error pointer, or the copy. *)
Definition strndup_user (um : user_memory) (s : Z) (n : Z) (m : kmem)
  : (Z + string) * kmem :=
  match user_string um s (Z.to_nat n) with
  | inl err => (inl err, m)
  | inr bytes =>
      let '(ok, m) := kmalloc m in
      if negb ok then (inl (- ENOMEM), m)
      else (inr (string_of_bytes bytes), m)
  end.

(** [set_bit(nr, ptr)] and [clear_bit(nr, ptr)] on the page mapped at
    [uaddr], for [nr < 64] on a little-endian machine: bit [nr mod 8] of the
    byte at [uaddr + nr / 8]. *)
Definition write_bit (on : bool) (nr : Z) (uaddr : Z) (um : user_memory)
  : user_memory :=
  fun a =>
    match um a with
    | Some b =>
        if a =? uaddr + nr / 8
        then Some (if on then Z.setbit (u8 b) (nr mod 8)
                   else Z.clearbit (u8 b) (nr mod 8))
        else Some b
    | None => None
    end.

(** [user_event_enabler_write(mm, enabler, fixup_fault)] as the registration
    path calls it, with [fixup_fault] false: a page that cannot be pinned is
    [-EFAULT] at once (the other branch queues an asynchronous fault-in and
    belongs to the status fan-out). [pin_ok] is whether
    [pin_user_pages_remote] pins the page. *)
Definition user_event_enabler_write (evs : gmap ptr user_event)
    (mm : user_event_mm) (enabler : user_event_enabler) (pin_ok : bool)
    (um : user_memory) : Z * user_memory :=
  let uaddr := en_addr enabler in
  if mm_tasks mm =? 0 then (- ENOENT, um)
  else if Z.testbit (en_values enabler) ENABLE_VAL_FAULTING_BIT
          || Z.testbit (en_values enabler) ENABLE_VAL_FREEING_BIT
  then (- EBUSY, um)
  else if negb pin_ok then (- EFAULT, um)
  else
    let on :=
      match evs !! en_event enabler with
      | Some user => negb (status user =? 0)
      | None => false
      end in
    (0, write_bit on (Z.land (en_values enabler) ENABLE_VAL_BIT_MASK) uaddr um).

(** [user_event_mm_fault_in(mm, uaddr)]; [fixup] is what [fixup_user_fault]
    returns. *)
Definition user_event_mm_fault_in (mm : user_event_mm) (fixup : Z) : Z :=
  if mm_tasks mm =? 0 then - ENOENT else fixup.

(** The [retry] loop of [user_event_enabler_create]: write, and after a
    failed write fault the page in and write again. Each turn uses up one
    entry of the pin plan; with the plan used up the page is pinned, and a
    write that still fails is not retried. Returns [*write_result] and the
    memory. *)
Fixpoint enabler_write_retry (pins : list bool) (faults : list Z)
    (evs : gmap ptr user_event) (mm : user_event_mm)
    (enabler : user_event_enabler) (um : user_memory) : Z * user_memory :=
  match pins with
  | [] => user_event_enabler_write evs mm enabler true um
  | pin_ok :: pins =>
      let '(write_result, um) :=
        user_event_enabler_write evs mm enabler pin_ok um in
      if write_result =? 0 then (write_result, um)
      else if user_event_mm_fault_in mm (hd (- EFAULT) faults) =? 0
      then enabler_write_retry pins (tl faults) evs mm enabler um
      else (write_result, um)
  end.

(** [user_event_enabler_destroy(enabler)]. *)
Definition user_event_enabler_destroy (enabler : user_event_enabler)
    (st : kstate) : kstate :=
  let st := refcount_dec (en_event enabler) st in
  set_mem (kfree 1 (mem st)) st.

(** [user_event_mm_put(mm)]: the task's pointer after it, and the state. The
    last reference destroys the enablers and frees the [user_event_mm]. *)
Definition user_event_mm_put (mm : user_event_mm) (st : kstate)
  : option user_event_mm * kstate :=
  if mm_refcnt mm - 1 =? 0 then
    let st := fold_right user_event_enabler_destroy st (mm_enablers mm) in
    (None, set_mem (kfree 1 (mem st)) st)
  else
    (Some {| mm_enablers := mm_enablers mm; mm_refcnt := mm_refcnt mm - 1;
             mm_tasks := mm_tasks mm |}, st).

(** [current_user_event_mm()]: the task's [user_event_mm] with one more
    reference, created on first use; [None] when the creation fails. *)
Definition current_user_event_mm (t : task) (m : kmem)
  : option user_event_mm * kmem :=
  match task_mm t with
  | Some mm =>
      (Some {| mm_enablers := mm_enablers mm; mm_refcnt := mm_refcnt mm + 1;
               mm_tasks := mm_tasks mm |}, m)
  | None =>
      let '(ok, m) := kmalloc m in
      if negb ok then (None, m)
      else (Some {| mm_enablers := []; mm_refcnt := 1 + 1; mm_tasks := 1 |}, m)
  end.

(** [user_event_enabler_create(reg, user, &write_result)]: whether an enabler
    is returned, [*write_result] (0 where the code leaves it unset), the
    state and the task. *)
Definition user_event_enabler_create (reg : user_reg) (user : ptr)
    (menv : mm_env) (st : kstate) (t : task)
  : option user_event_enabler * Z * kstate * task :=
  let uaddr := enable_addr reg in
  let '(user_mm, m) := current_user_event_mm t (mem st) in
  let st := set_mem m st in
  match user_mm with
  | None => (None, 0, st, t)
  | Some user_mm =>
      let '(ok, m) := kmalloc (mem st) in
      let st := set_mem m st in
      if negb ok then
        let '(mm, st) := user_event_mm_put user_mm st in
        (None, 0, st, {| user_mem := user_mem t; task_mm := mm |})
      else
        let enabler :=
          {| en_event := user; en_addr := uaddr; en_values := enable_bit reg |} in
        let '(write_result, um) :=
          enabler_write_retry (pin_plan menv) (fault_in_plan menv) (events st)
            user_mm enabler (user_mem t) in
        if write_result =? 0 then
          let st := refcount_inc (en_event enabler) st in
          let user_mm :=
            {| mm_enablers := enabler :: mm_enablers user_mm;
               mm_refcnt := mm_refcnt user_mm; mm_tasks := mm_tasks user_mm |} in
          let '(mm, st) := user_event_mm_put user_mm st in
          (Some enabler, write_result, st, {| user_mem := um; task_mm := mm |})
        else
          let st := set_mem (kfree 1 (mem st)) st in
          let '(mm, st) := user_event_mm_put user_mm st in
          (None, write_result, st, {| user_mem := um; task_mm := mm |})
  end.

(** The index of the first slot of [events] that holds [user]. *)
Fixpoint refs_index (events : list (option ptr)) (user : ptr) (i : Z)
  : option Z :=
  match events with
  | [] => None
  | slot :: events =>
      if bool_decide (slot = Some user) then Some i
      else refs_index events user (i + 1)
  end.

(** [user_events_ref_add(info, user)]: the return value, the file and the
    state. The old array is freed after its grace period; the model frees it
    at once. *)
Definition user_events_ref_add (info : user_event_file_info) (user : ptr)
    (st : kstate) : Z * user_event_file_info * kstate :=
  let old := default [] (refs info) in
  match refs_index old user 0 with
  | Some i => (i, info, st)
  | None =>
      let count := Z.of_nat (length old) in
      let '(ok, m) := kmalloc (mem st) in
      if negb ok then (- ENOMEM, info, set_mem m st)
      else
        let st := refcount_inc user (set_mem m st) in
        let st :=
          match refs info with
          | Some _ => set_mem (kfree 1 (mem st)) st
          | None => st
          end in
        (count, {| refs := Some (old ++ [Some user]) |}, st)
  end.

Section Ioctl.
Context `{Platform}.

(** [access_ok(addr, size)]. *)
Definition access_ok (addr size : Z) : bool :=
  (size <=? TASK_SIZE_MAX) && (addr <=? TASK_SIZE_MAX - size).

(** [user_reg_get(ureg, kreg)]: [inl] is a non-zero return value, [inr] the
    descriptor in [*kreg] when it returns 0. *)
Definition user_reg_get (um : user_memory) (ureg : Z) : Z + user_reg :=
  let '(ret, size) := get_user_u32 um ureg in
  if negb (ret =? 0) then inl ret
  else if size >? PAGE_SIZE then inl (- E2BIG)
  else if size <? offsetofend_write_index then inl (- EINVAL)
  else
    let '(ret, bytes) := copy_struct_from_user um sizeof_user_reg ureg size in
    if negb (ret =? 0) then inl ret
    else
      let kreg := user_reg_of_bytes bytes in
      if negb (reg_flags kreg =? 0) then inl (- EINVAL)
      else if negb ((enable_size kreg =? 4)
                    || ((64 <=? BITS_PER_LONG) && (enable_size kreg =? 8)))
      then inl (- EINVAL)
      else if negb (enable_addr kreg mod enable_size kreg =? 0)
      then inl (- EINVAL)
      else if enable_bit kreg >? enable_size kreg * BITS_PER_BYTE - 1
      then inl (- EINVAL)
      else if negb (access_ok (enable_addr kreg) (enable_size kreg))
      then inl (- EFAULT)
      else inr (set_reg_size size kreg).

(** [user_events_ioctl_reg(info, uarg)]: the return value, the registry, the
    file and the calling task. *)
Definition user_events_ioctl_reg (env : trace_env) (menv : mm_env)
    (st : kstate) (info : user_event_file_info) (t : task) (uarg : Z)
  : Z * kstate * user_event_file_info * task :=
  match user_reg_get (user_mem t) uarg with
  | inl ret => (ret, st, info, t)
  | inr reg =>
      let '(name, m) :=
        strndup_user (user_mem t) (name_args reg) MAX_EVENT_DESC (mem st) in
      let st := set_mem m st in
      match name with
      | inl err => (err, st, info, t)
      | inr name =>
          let '(ret, user, st) := user_event_parse_cmd env st name in
          match (if ret =? 0 then user else None) with
          | None => (ret, set_mem (kfree 1 (mem st)) st, info, t)
          | Some user =>
              let '(ret, info, st) := user_events_ref_add info user st in
              let st := refcount_dec user st in
              if ret <? 0 then (ret, st, info, t)
              else
                let '(enabler, write_result, st, t) :=
                  user_event_enabler_create reg user menv st t in
                match enabler with
                | None => (- ENOMEM, st, info, t)
                | Some _ =>
                    if negb (write_result =? 0) then (write_result, st, info, t)
                    else
                      (* line 2090: the result of [put_user] is dropped *)
                      let '(_, um) :=
                        put_user_u32 menv (user_mem t)
                          (uarg + offsetof_write_index) ret in
                      (0, st, info, {| user_mem := um; task_mm := task_mm t |})
                end
          end
      end
  end.

End Ioctl.

(** * The terms the properties are stated in *)

(** ** Validation and emission *)

Section EmissionTerms.
Context `{Platform}.

(** The two halves of the 32-bit locator a validator points at. *)
Definition embedded_offset (data : buffer) (v : user_event_validator) : Z :=
  Z.land (read_u32 data (v_offset v)) 65535.

Definition embedded_length (data : buffer) (v : user_event_validator) : Z :=
  Z.shiftr (read_u32 data (v_offset v)) 16.

Definition is_relative (v : user_event_validator) : bool :=
  has_flag (v_flags v) VALIDATOR_REL.

Definition requires_null (v : user_event_validator) : bool :=
  has_flag (v_flags v) VALIDATOR_ENSURE_NULL.

(** The end offset of the region a locator describes, in the words of the
    specification: for a relative locator the validator's offset, the
    embedded offset, 4 and the embedded length; for an absolute one the
    embedded offset and length, from the start of the record. *)
Definition computed_end (data : buffer) (v : user_event_validator) : Z :=
  if is_relative v
  then v_offset v + embedded_offset data v + 4 + embedded_length data v
  else embedded_offset data v + embedded_length data v.

(** A validator rejects a record of [len] bytes: the region ends beyond the
    record, or it has to end in a NUL and its last byte is not one. *)
Definition validator_rejects (data : buffer) (len : Z)
    (v : user_event_validator) : Prop :=
  computed_end data v > len \/
  (requires_null v = true /\ u8 (data (computed_end data v - 1)) <> 0).

(** The index of a write: the first four bytes, as an [int]; [None] when
    they cannot be read. *)
Definition write_index_of (i : iov_iter) : option Z :=
  let idx_bytes := (copy_from_iter 4 i).1 in
  if (length idx_bytes =? 4)%nat then Some (s32 (le32 idx_bytes)) else None.

(** The payload of a write: what follows the index. *)
Definition payload_count (i : iov_iter) : Z := iov_count i - 4.

(** The event a non-negative index resolves to. *)
Definition resolve (evs : gmap ptr user_event) (info : user_event_file_info)
    (idx : Z) : option user_event :=
  events ← refs info; slot ← events !! Z.to_nat idx; p ← slot; evs !! p.

(** An event is consistent when its [status] is the one
    [update_enable_bit_for] computes from its tracepoint, and the
    tracepoint's key is enabled only while it carries a probe (the
    tracepoint core enables the key after installing the first probe and
    disables it before removing the last). *)
Definition event_consistent (user : user_event) : Prop :=
  status user = tracepoint_status (ue_tracepoint user)
  /\ (tp_key_enabled (ue_tracepoint user) > 0 -> tp_funcs (ue_tracepoint user) <> []).

End EmissionTerms.

(** ** The registry and the field parser *)

Section RegistryTerms.
Context `{Platform}.

(** The objects an event owns besides itself and its name: one per field
    and per validator, and the format string once it is built. *)
Definition owned (user : user_event) : Z :=
  Z.of_nat (length (fields user)) + Z.of_nat (length (validators user))
  + match print_fmt user with Some _ => 1 | None => 0 end.

(** The event [find_user_event] finds under a name. *)
Definition lookup_name (st : kstate) (name : string) : option ptr :=
  find_in_chain (events st) (register_table st (hash_min (user_event_key name)))
    name.

(** The event [user_event_parse] starts from: zeroed, but for its name. *)
Definition new_user_event (name : string) : user_event :=
  {| ue_tracepoint := {| tp_name := name; tp_key_enabled := 0; tp_funcs := [] |};
     fields := []; validators := []; refcnt := 0; min_size := 0; status := 0;
     print_fmt := None |}.





Definition is_indirect_type (type : string) : bool :=
  String.prefix "__data_loc " type || String.prefix "__rel_loc " type.








(** The validator an indirect field gets: relative for [__rel_loc], and
    required to end in a NUL when the type mentions [char]. *)
Definition validator_flags_of (type : string) : Z :=
  Z.lor (if String.prefix "__data_loc " type then 0 else VALIDATOR_REL)
        (if strstr type "char" then VALIDATOR_ENSURE_NULL else 0).

(** Offsets assigned one after the other from [start]. *)
Fixpoint offsets_from (start : Z) (fs : list ftrace_event_field) : Prop :=
  match fs with
  | [] => True
  | f :: fs => f_offset f = start /\ offsets_from (start + f_size f) fs
  end.

Definition sizes_sum (fs : list ftrace_event_field) : Z :=
  foldr (fun f acc => f_size f + acc) 0 fs.

(** A field as the parser sizes it: a positive size, which is 4 for an
    indirect field. *)
Definition field_sized (f : ftrace_event_field) : Prop :=
  0 < f_size f /\ (is_indirect_type (f_type f) = true -> f_size f = 4).

(** The layout of an event whose fields have been parsed up to [offset]:
    the offset is the header size plus the sizes so far, the fields stand
    one after the other from the header on, and the minimum size is the sum
    of their sizes. *)
Definition layout_ok (user : user_event) (offset : Z) : Prop :=
  offset = sizeof_trace_entry + sizes_sum (fields user)
  /\ offsets_from sizeof_trace_entry (rev (fields user))
  /\ Forall field_sized (fields user)
  /\ min_size user = sizes_sum (fields user).

(** The error of a registration of a new name that finds the count at or
    above the cap: that of the first step to fail, in the code's order the
    allocation of the event ([-ENOMEM]), the parse of its fields (the
    parser's error), the allocation of its output format ([-ENOMEM]) and
    the test of the cap ([-EMFILE]). *)
Definition cap_refusal (name : string) (args : option string) (m : kmem) : Z :=
  let '(ok, m) := kmalloc m in
  if negb ok then - ENOMEM
  else
    let '(ret, user, m) :=
      user_event_parse_fields (new_user_event name) args m in
    if negb (ret =? 0) then ret
    else
      let '(ret, _, _) := user_event_create_print_fmt user m in
      if negb (ret =? 0) then ret else - EMFILE.

End RegistryTerms.

(** ** Registration requests *)

Section IoctlTerms.
Context `{Platform}.



End IoctlTerms.

(** ** An instance to evaluate the model on

    The header, word and page sizes of x86-64. The hash is a stand-in: the
    properties below are proved for every [Platform]. *)

Definition linux_x86_64 : Platform :=
  {| sizeof_trace_entry := 8;
     sizeof_trace_entry_range := ltac:(lia);
     jhash := fun name => Z.of_nat (String.length name);
     hash_min := fun key => key mod 256;
     BITS_PER_LONG := 64;
     PAGE_SIZE := 4096;
     TASK_SIZE_MAX := 2 ^ 47 - 4096 |}.

Definition mem0 : kmem := {| alloc_plan := []; live := 0 |}.

(** The registry before any event is registered. *)
Definition boot_state : kstate :=
  {| events := ∅; register_table := fun _ => []; current_user_events := 0;
     max_user_events := max_user_events_default; dyn_events := [];
     trace_events := []; event_calls := []; mem := mem0 |}.

(** A trace core that accepts every call, and one that cannot allocate
    credentials. *)
Definition trace_ok : trace_env :=
  {| register_trace_event_ret := 1; prepare_creds_ok := true;
     trace_add_event_call_ret := 0; trace_remove_event_call_ret := 0 |}.

Definition no_creds : trace_env :=
  {| register_trace_event_ret := 1; prepare_creds_ok := false;
     trace_add_event_call_ret := 0; trace_remove_event_call_ret := 0 |}.

(** The example command of the source (line 752). *)
Definition test_command : string := "test char[20] msg;unsigned int id".

(** [test] registered, the caller still holding its reference; then with
    that reference dropped, as [user_event_create] does (line 1539); then
    with the tunable lowered to the one event there is. *)
Definition registered_state : kstate :=
  (user_event_parse_cmd (H:=linux_x86_64) trace_ok boot_state test_command).2.

Definition idle_state : kstate := refcount_dec 1%positive registered_state.

Definition capped_state : kstate := set_max_user_events 1 idle_state.

(** An iterator over bytes that are all mapped and resident. *)
Definition iter_of (bytes : list Z) : iov_iter :=
  {| iov_bytes := bytes; iov_mapped := length bytes;
     iov_resident := length bytes |}.

Definition empty_ring : ring_buffer :=
  {| rb_reserve_ok := true; rb_memory := fun _ => 0; rb_reserved := 0;
     rb_committed := []; rb_discarded := 0 |}.

Definition empty_perf : perf_buffer :=
  {| perf_has_events := true; perf_alloc_ok := true;
     perf_memory := fun _ => 0; perf_allocated := 0; perf_submitted := [];
     perf_dropped := 0 |}.

Definition empty_sinks : sinks :=
  {| ftrace_sink := empty_ring; perf_sink := empty_perf |}.

Definition file_on : trace_event_file :=
  {| file_enabled := true; file_soft_disabled := false |}.

(** An event with one [__rel_loc char[]] field, traced by ftrace. *)
Definition string_event : user_event :=
  {| ue_tracepoint :=
       {| tp_name := "log"; tp_key_enabled := 1;
          tp_funcs := [{| tf_func := user_event_ftrace_fn;
                          tf_data := Some file_on |}] |};
     fields := [{| f_type := "__rel_loc char[]"; f_name := "s"; f_offset := 8;
                   f_size := 4; f_is_signed := 1; f_filter_type := 0 |}];
     validators := [{| v_offset := 8; v_flags := 3 |}];
     refcnt := 2; min_size := 4; status := 1; print_fmt := None |}.

(** The [test] event with no sink attached. *)
Definition quiet_event : user_event :=
  {| ue_tracepoint := {| tp_name := "test"; tp_key_enabled := 0; tp_funcs := [] |};
     fields := []; validators := []; refcnt := 2; min_size := 24; status := 0;
     print_fmt := None |}.



(** C5 as the specification words its last case: an event that nothing but
    the table references is removed from the table and freed. *)
Definition delete_as_specified `{Platform} (env : trace_env) (st : kstate)
    (name : string) : Prop :=
  forall p user,
    lookup_name st name = Some p ->
    events st !! p = Some user ->
    refcnt user <= 1 ->
    let st' := (delete_user_event env st name).2 in
    lookup_name st' name = None /\ events st' !! p = None.

(** C9 as the specification words it: at the cap, registering a new name
    fails with the resource-limit error. *)
Definition cap_error_as_specified `{Platform} (env : trace_env) (st : kstate)
    (name : string) (args flags : option string) : Prop :=
  lookup_name st name = None ->
  max_user_events st <= current_user_events st ->
  (user_event_parse env st name args flags).1.1 = - EMFILE.

(** The steps that change the registry: a registration, a deletion and a
    write to the tunable, which is an [unsigned int]. *)
Inductive registry_step `{Platform} (env : trace_env) (st : kstate)
  : kstate -> Prop :=
| step_register (name : string) (args flags : option string) :
    registry_step env st (user_event_parse env st name args flags).2
| step_delete (name : string) :
    registry_step env st (delete_user_event env st name).2
| step_tunable (n : Z) :
    0 <= n <= UINT_MAX -> registry_step env st (set_max_user_events n st).

Inductive reachable `{Platform} (env : trace_env) : kstate -> Prop :=
| reachable_boot : reachable env boot_state
| reachable_step (st st' : kstate) :
    reachable env st -> registry_step env st st' -> reachable env st'.

(** C9's last clause as the specification words it: the count of live
    events never exceeds the cap. *)
Definition count_within_cap_as_specified `{Platform} (env : trace_env) : Prop :=
  forall st, reachable env st -> current_user_events st <= max_user_events st.



(** The registry at its cap of one event, the next allocation failing. *)
Definition capped_state_no_memory : kstate :=
  set_mem {| alloc_plan := [false]; live := live (mem capped_state) |}
    capped_state.

(** The payload [string_event]'s validator rejects: a locator that claims 8
    bytes after itself, in a payload that ends with the locator. *)
Definition rejected_payload : list Z := [0; 0; 8; 0].

(** The registry and the file of a process that writes to [string_event]
    at index 0. *)
Definition string_events : gmap ptr user_event := {[ 1%positive := string_event ]}.

Definition string_file : user_event_file_info :=
  {| refs := Some [Some 1%positive] |}.

(** A write of [rejected_payload] to index 0 whose eight bytes are mapped,
    the first five of them resident when the probe copies the payload with
    page faults disabled: the page of the rest has left memory since
    [fault_in_iov_iter_readable] looked at it. *)
Definition partial_write : iov_iter :=
  {| iov_bytes := [0; 0; 0; 0] ++ rejected_payload; iov_mapped := 8;
     iov_resident := 5 |}.

(** * Further operations of the file

    The operations of [trace_events_user.c] around the ones above: opening
    and closing the data file, the delete and unregister requests, and the
    entry points the dynamic-event interface calls. *)

Definition ECANCELED : Z := 125.

(** The prefix of a user event in the dynamic-event interface
    (include/linux/user_events.h). *)
Definition USER_EVENTS_PREFIX : string := "u:".

(** ** The data file (lines 1884-1904 and 2229-2273) *)

(** [user_events_open(node, file)]: the return value, [file->private_data]
    and the state. [group] is whether [current_user_event_group()] finds a
    group. *)
Definition user_events_open (group : bool) (st : kstate)
  : Z * option user_event_file_info * kstate :=
  if negb group then (- ENOENT, None, st)
  else
    let '(ok, m) := kmalloc (mem st) in
    if negb ok then (- ENOMEM, None, set_mem m st)
    else (0, Some {| refs := None |}, set_mem m st).

(** The loop of [user_events_release] over the reference array: one
    reference dropped for every slot that holds an event. *)
Definition release_refs (events : list (option ptr)) (st : kstate) : kstate :=
  fold_left
    (fun st slot =>
       match slot with
       | Some user => refcount_dec user st
       | None => st
       end)
    events st.

(** [user_events_release(node, file)]: the return value,
    [file->private_data] and the state. *)
Definition user_events_release (info : option user_event_file_info)
    (st : kstate) : Z * option user_event_file_info * kstate :=
  match info with
  | None => (- EINVAL, None, st)
  | Some info =>
      let st :=
        match refs info with
        | Some events => release_refs events st
        | None => st
        end in
      let st :=
        match refs info with
        | Some _ => set_mem (kfree 1 (mem st)) st
        | None => st
        end in
      (0, None, set_mem (kfree 1 (mem st)) st)
  end.

(** ** The dynamic-event entry points (lines 1509-1594) *)

(** [user_event_is_busy(ev)]. *)
Definition user_event_is_busy (p : ptr) (st : kstate) : bool :=
  negb (user_event_last_ref p st).

Section MoreOperations.
Context `{Platform}.

(** [user_event_free(ev)]. *)
Definition user_event_free (env : trace_env) (p : ptr) (st : kstate)
  : Z * kstate :=
  if negb (user_event_last_ref p st) then (- EBUSY, st)
  else destroy_user_event env p st.

(** [user_event_create(raw_command)]: the return value and the state.
    [group] is whether [current_user_event_group()] finds a group. The copy
    of the command is the name buffer the event keeps. *)
Definition user_event_create (env : trace_env) (group : bool) (st : kstate)
    (raw_command : string) : Z * kstate :=
  if (str_has_prefix raw_command USER_EVENTS_PREFIX =? 0)%nat
  then (- ECANCELED, st)
  else
    let raw_command :=
      skip_spaces (string_drop (String.length USER_EVENTS_PREFIX) raw_command) in
    let '(ok, m) := kmalloc (mem st) in
    let st := set_mem m st in
    if negb ok then (- ENOMEM, st)
    else if negb group then (- ENOENT, set_mem (kfree 1 (mem st)) st)
    else
      let '(ret, user, st) := user_event_parse_cmd env st raw_command in
      if ret =? 0 then
        match user with
        | Some p => (ret, refcount_dec p st)
        | None => (ret, st)
        end
      else (ret, set_mem (kfree 1 (mem st)) st).

(** ** The delete and unregister requests (lines 2098-2190) *)

(** [user_events_ioctl_del(info, uarg)]: the return value and the state;
    [um] is the memory of the caller. *)
Definition user_events_ioctl_del (env : trace_env) (st : kstate)
    (um : user_memory) (uarg : Z) : Z * kstate :=
  let '(name, m) := strndup_user um uarg MAX_EVENT_DESC (mem st) in
  let st := set_mem m st in
  match name with
  | inl err => (err, st)
  | inr name =>
      let '(ret, st) := delete_user_event env st name in
      (ret, set_mem (kfree 1 (mem st)) st)
  end.

End MoreOperations.

(** [struct user_unreg] (include/uapi/linux/user_events.h), packed: [size]
    at offset 0, [disable_bit] at 4, [__reserved] at 5, [__reserved2] at 6,
    [disable_addr] at 8. *)
Record user_unreg := {
  unreg_size : Z;
  disable_bit : Z;
  unreg_reserved : Z;
  unreg_reserved2 : Z;
  disable_addr : Z
}.

Definition sizeof_user_unreg : Z := 16.
Definition offsetofend_disable_addr : Z := 16.

(** The fields of a [struct user_unreg] held in 16 bytes. *)
Definition user_unreg_of_bytes (bytes : list Z) : user_unreg :=
  {| unreg_size := le_value (take 4 bytes);
     disable_bit := le_value (take 1 (drop 4 bytes));
     unreg_reserved := le_value (take 1 (drop 5 bytes));
     unreg_reserved2 := le_value (take 2 (drop 6 bytes));
     disable_addr := le_value (take 8 (drop 8 bytes)) |}.

(** An enabler with the freeing bit set in its [values]. *)
Definition set_freeing (enabler : user_event_enabler) : user_event_enabler :=
  {| en_event := en_event enabler; en_addr := en_addr enabler;
     en_values := Z.setbit (en_values enabler) ENABLE_VAL_FREEING_BIT |}.

(** The loop of [user_events_ioctl_unreg] over the enablers of the task:
    [ret], the enablers left on the list and the state. An enabler that
    matches is marked as being freed and, unless a fault-in is pending on
    it, destroyed. *)
Fixpoint unreg_loop (enablers : list user_event_enabler) (reg : user_unreg)
    (ret : Z) (st : kstate) : Z * list user_event_enabler * kstate :=
  match enablers with
  | [] => (ret, [], st)
  | enabler :: enablers =>
      if (en_addr enabler =? disable_addr reg)
         && (Z.land (en_values enabler) ENABLE_VAL_BIT_MASK =? disable_bit reg)
      then
        let enabler := set_freeing enabler in
        if negb (Z.testbit (en_values enabler) ENABLE_VAL_FAULTING_BIT) then
          let st := user_event_enabler_destroy enabler st in
          unreg_loop enablers reg 0 st
        else
          let '(ret, kept, st) := unreg_loop enablers reg 0 st in
          (ret, enabler :: kept, st)
      else
        let '(ret, kept, st) := unreg_loop enablers reg ret st in
        (ret, enabler :: kept, st)
  end.

Section Unregister.
Context `{Platform}.

(** [user_unreg_get(ureg, kreg)]: the return value and [*kreg]. The code
    looks at the reserved fields of [*kreg] before it looks at the result of
    the copy; [stale] is what [*kreg] holds when the copy has failed. *)
Definition user_unreg_get (um : user_memory) (ureg : Z) (stale : user_unreg)
  : Z * user_unreg :=
  let '(ret, size) := get_user_u32 um ureg in
  if negb (ret =? 0) then (ret, stale)
  else if size >? PAGE_SIZE then (- E2BIG, stale)
  else if size <? offsetofend_disable_addr then (- EINVAL, stale)
  else
    let '(ret, bytes) := copy_struct_from_user um sizeof_user_unreg ureg size in
    let kreg := if ret =? 0 then user_unreg_of_bytes bytes else stale in
    if negb (unreg_reserved kreg =? 0) || negb (unreg_reserved2 kreg =? 0)
    then (- EINVAL, kreg)
    else (ret, kreg).

(** [user_events_ioctl_unreg(uarg)]: the return value, the state and the
    calling task. *)
Definition user_events_ioctl_unreg (st : kstate) (t : task) (uarg : Z)
    (stale : user_unreg) : Z * kstate * task :=
  let '(ret, reg) := user_unreg_get (user_mem t) uarg stale in
  if negb (ret =? 0) then (ret, st, t)
  else
    match task_mm t with
    | None => (- ENOENT, st, t)
    | Some mm =>
        let '(ret, kept, st) := unreg_loop (mm_enablers mm) reg (- ENOENT) st in
        (ret, st,
         {| user_mem := user_mem t;
            task_mm := Some {| mm_enablers := kept; mm_refcnt := mm_refcnt mm;
                               mm_tasks := mm_tasks mm |} |})
    end.

End Unregister.

(** ** Forks and exits (lines 444-468, 508-540 and 559-658) *)

(** Only the bit number is duplicated. *)
Definition ENABLE_VAL_DUP_MASK : Z := ENABLE_VAL_BIT_MASK.

(** [user_event_enabler_dup(orig, mm)]: the return value, [mm] and the
    state. *)
Definition user_event_enabler_dup (orig : user_event_enabler)
    (mm : user_event_mm) (st : kstate) : bool * user_event_mm * kstate :=
  if Z.testbit (en_values orig) ENABLE_VAL_FREEING_BIT then (true, mm, st)
  else
    let '(ok, m) := kmalloc (mem st) in
    let st := set_mem m st in
    if negb ok then (false, mm, st)
    else
      let enabler :=
        {| en_event := en_event orig; en_addr := en_addr orig;
           en_values := Z.land (en_values orig) ENABLE_VAL_DUP_MASK |} in
      let st := refcount_inc (en_event enabler) st in
      (true,
       {| mm_enablers := enabler :: mm_enablers mm; mm_refcnt := mm_refcnt mm;
          mm_tasks := mm_tasks mm |},
       st).

(** [user_event_mm_create(t)]: [t->user_event_mm] and the allocator. *)
Definition user_event_mm_create (m : kmem) : option user_event_mm * kmem :=
  let '(ok, m) := kmalloc m in
  if negb ok then (None, m)
  else (Some {| mm_enablers := []; mm_refcnt := 1; mm_tasks := 1 |}, m).

(** [user_event_mm_remove(t)] for a task whose descriptor is [mm]. The
    task's pointer is cleared. Returned are the descriptor with the task
    counted out, and whether it was the last task, in which case the put of
    the descriptor is queued to run after a grace period. *)
Definition user_event_mm_remove (mm : user_event_mm) : user_event_mm * bool :=
  let mm :=
    {| mm_enablers := mm_enablers mm; mm_refcnt := mm_refcnt mm;
       mm_tasks := mm_tasks mm - 1 |} in
  (mm, mm_tasks mm =? 0).

(** [delayed_user_event_mm_put(work)], the queued put when it runs. *)
Definition delayed_user_event_mm_put (mm : user_event_mm) (st : kstate)
  : option user_event_mm * kstate :=
  user_event_mm_put mm st.

(** The loop of [user_event_mm_dup] over the enablers of the old
    descriptor: whether every duplication succeeded, the new descriptor and
    the state. *)
Fixpoint dup_loop (enablers : list user_event_enabler) (mm : user_event_mm)
    (st : kstate) : bool * user_event_mm * kstate :=
  match enablers with
  | [] => (true, mm, st)
  | enabler :: enablers =>
      let '(ok, mm, st) := user_event_enabler_dup enabler mm st in
      if negb ok then (false, mm, st) else dup_loop enablers mm st
  end.

(** [user_event_mm_dup(t, old_mm)]: [t->user_event_mm], the descriptor whose
    put has been queued, and the state. *)
Definition user_event_mm_dup (old_mm : user_event_mm) (st : kstate)
  : option user_event_mm * option user_event_mm * kstate :=
  let '(mm, m) := user_event_mm_create (mem st) in
  let st := set_mem m st in
  match mm with
  | None => (None, None, st)
  | Some mm =>
      let '(ok, mm, st) := dup_loop (mm_enablers old_mm) mm st in
      if ok then (Some mm, None, st)
      else
        let '(mm, queued) := user_event_mm_remove mm in
        (None, if queued then Some mm else None, st)
  end.

(** ** The status fan-out (lines 343-442 and 470-506) *)

(** [user_event_mm_get(mm)]. *)
Definition user_event_mm_get (mm : user_event_mm) : user_event_mm :=
  {| mm_enablers := mm_enablers mm; mm_refcnt := mm_refcnt mm + 1;
     mm_tasks := mm_tasks mm |}.

(** The descriptor with the [values] of its enabler at place [i] changed. *)
Definition set_values (i : nat) (f : Z -> Z) (mm : user_event_mm)
  : user_event_mm :=
  {| mm_enablers :=
       alter (fun e => {| en_event := en_event e; en_addr := en_addr e;
                          en_values := f (en_values e) |}) i (mm_enablers mm);
     mm_refcnt := mm_refcnt mm; mm_tasks := mm_tasks mm |}.

(** [user_event_enabler_queue_fault(mm, enabler)], for the enabler at place
    [i] of [mm]: the return value, the descriptor ([None] once it is freed)
    and the state. [scheduled] is what [schedule_work] returns. The fault
    record is one allocation; the work itself runs later. *)
Definition user_event_enabler_queue_fault (scheduled : bool)
    (mm : user_event_mm) (i : nat) (st : kstate)
  : bool * option user_event_mm * kstate :=
  let '(ok, m) := kmalloc (mem st) in
  let st := set_mem m st in
  if negb ok then (false, Some mm, st)
  else
    let mm := user_event_mm_get mm in
    let mm := set_values i (fun v => Z.setbit v ENABLE_VAL_FAULTING_BIT) mm in
    if negb scheduled then
      let mm :=
        set_values i (fun v => Z.clearbit v ENABLE_VAL_FAULTING_BIT) mm in
      let '(mm, st) := user_event_mm_put mm st in
      (false, mm, set_mem (kfree 1 (mem st)) st)
    else (true, Some mm, st).

(** [user_event_enabler_write(mm, enabler, fixup_fault)] with [fixup_fault]
    true, for the enabler at place [i] of [mm]: the return value, the
    descriptor, the memory of the process, what is left of the pin plan, and
    the state. A page that cannot be pinned gets a fault-in queued. *)
Definition user_event_enabler_write_fixup (scheduled : bool)
    (pins : list bool) (mm : user_event_mm) (i : nat)
    (enabler : user_event_enabler) (um : user_memory) (st : kstate)
  : Z * option user_event_mm * user_memory * list bool * kstate :=
  let uaddr := en_addr enabler in
  if mm_tasks mm =? 0 then (- ENOENT, Some mm, um, pins, st)
  else if Z.testbit (en_values enabler) ENABLE_VAL_FAULTING_BIT
          || Z.testbit (en_values enabler) ENABLE_VAL_FREEING_BIT
  then (- EBUSY, Some mm, um, pins, st)
  else if negb (hd true pins) then
    let '(_, mm, st) := user_event_enabler_queue_fault scheduled mm i st in
    (- EFAULT, mm, um, tl pins, st)
  else
    let on :=
      match events st !! en_event enabler with
      | Some user => negb (status user =? 0)
      | None => false
      end in
    (0, Some mm,
     write_bit on (Z.land (en_values enabler) ENABLE_VAL_BIT_MASK) uaddr um,
     tl pins, st).

(** The walk of [user_event_enabler_update] over the enablers of one
    descriptor, by their places. *)
Fixpoint update_enablers (user : ptr) (scheduled : bool) (places : list nat)
    (pins : list bool) (mm : option user_event_mm) (um : user_memory)
    (st : kstate)
  : option user_event_mm * user_memory * list bool * kstate :=
  match places, mm with
  | [], _ | _, None => (mm, um, pins, st)
  | i :: places, Some m =>
      match mm_enablers m !! i with
      | Some enabler =>
          if bool_decide (en_event enabler = user) then
            let '(_, mm, um, pins, st) :=
              user_event_enabler_write_fixup scheduled pins m i enabler um st in
            update_enablers user scheduled places pins mm um st
          else update_enablers user scheduled places pins mm um st
      | None => update_enablers user scheduled places pins mm um st
      end
  end.

(** One turn of the loop of [user_event_enabler_update]: the enablers of the
    event in one process are written, and the reference
    [user_event_mm_get_all] took is put. *)
Definition update_process (user : ptr) (scheduled : bool) (pins : list bool)
    (t : task) (st : kstate) : task * list bool * kstate :=
  match task_mm t with
  | None => (t, pins, st)
  | Some mm =>
      let '(mm, um, pins, st) :=
        update_enablers user scheduled (seq 0 (length (mm_enablers mm))) pins
          (Some mm) (user_mem t) st in
      let '(mm, st) :=
        match mm with
        | Some mm => user_event_mm_put mm st
        | None => (None, st)
        end in
      ({| user_mem := um; task_mm := mm |}, pins, st)
  end.

(** Whether a process has an enabler for the event. *)
Definition has_enabler (user : ptr) (t : task) : bool :=
  match task_mm t with
  | Some mm => existsb (fun e => bool_decide (en_event e = user)) (mm_enablers mm)
  | None => false
  end.

(** The walk of [user_event_mm_get_all] over the processes on
    [user_event_mms], from place [i] on: each process that has an enabler
    for the event is put in front of the chain [found] and gets one more
    reference. *)
Fixpoint mm_get_all_from (user : ptr) (i : nat) (world : list task)
    (found : list nat) : list nat * list task :=
  match world with
  | [] => (found, [])
  | t :: world =>
      if has_enabler user t then
        let '(found, world) := mm_get_all_from user (S i) world (i :: found) in
        (found,
         {| user_mem := user_mem t;
            task_mm := user_event_mm_get <$> task_mm t |} :: world)
      else
        let '(found, world) := mm_get_all_from user (S i) world found in
        (found, t :: world)
  end.

(** [user_event_mm_get_all(user)]: the places of the processes found, the
    last found first, and the processes. *)
Definition user_event_mm_get_all (user : ptr) (world : list task)
  : list nat * list task :=
  mm_get_all_from user 0 world [].

(** [user_event_enabler_update(user)]: the processes, what is left of the
    pin plan, and the state. *)
Definition user_event_enabler_update (user : ptr) (scheduled : bool)
    (pins : list bool) (world : list task) (st : kstate)
  : list task * list bool * kstate :=
  let '(found, world) := user_event_mm_get_all user world in
  fold_left
    (fun '(world, pins, st) i =>
       match world !! i with
       | Some t =>
           let '(t, pins, st) := update_process user scheduled pins t st in
           (<[i := t]> world, pins, st)
       | None => (world, pins, st)
       end)
    found (world, pins, st).

Definition set_status (s : Z) (u : user_event) : user_event :=
  {| ue_tracepoint := ue_tracepoint u; fields := fields u;
     validators := validators u; refcnt := refcnt u; min_size := min_size u;
     status := s; print_fmt := print_fmt u |}.

(** [update_enable_bit_for(user)] (lines 1411-1445): the status is computed
    from the tracepoint and stored, and fanned out. *)
Definition update_enable_bit_for (user : ptr) (scheduled : bool)
    (pins : list bool) (world : list task) (st : kstate)
  : list task * list bool * kstate :=
  let st :=
    set_events
      (alter (fun u => set_status (tracepoint_status (ue_tracepoint u)) u) user
         (events st)) st in
  user_event_enabler_update user scheduled pins world st.

(** [user_event_enabler_fault_fixup(work)], the queued fault-in when it
    runs, for the enabler at place [i] of [mm]: the descriptor, the memory
    of the process, what is left of the pin plan, and the state. [fixup] is
    what [fixup_user_fault] returns. The work holds a reference on [mm] and
    the fault record; it gives both back. *)
Definition user_event_enabler_fault_fixup (fixup : Z) (scheduled : bool)
    (pins : list bool) (mm : user_event_mm) (i : nat) (um : user_memory)
    (st : kstate) : option user_event_mm * user_memory * list bool * kstate :=
  match mm_enablers mm !! i with
  | None => (Some mm, um, pins, st)
  | Some enabler =>
      let ret := user_event_mm_fault_in mm fixup in
      let '(mm, um, pins, st) :=
        if Z.testbit (en_values enabler) ENABLE_VAL_FREEING_BIT then
          (Some {| mm_enablers := delete i (mm_enablers mm);
                   mm_refcnt := mm_refcnt mm; mm_tasks := mm_tasks mm |},
           um, pins, user_event_enabler_destroy enabler st)
        else
          let mm :=
            set_values i (fun v => Z.clearbit v ENABLE_VAL_FAULTING_BIT) mm in
          if ret =? 0 then
            let enabler :=
              {| en_event := en_event enabler; en_addr := en_addr enabler;
                 en_values :=
                   Z.clearbit (en_values enabler) ENABLE_VAL_FAULTING_BIT |} in
            let '(_, mm, um, pins, st) :=
              user_event_enabler_write_fixup scheduled pins mm i enabler um st in
            (mm, um, pins, st)
          else (Some mm, um, pins, st) in
      let '(mm, st) :=
        match mm with
        | Some mm => user_event_mm_put mm st
        | None => (None, st)
        end in
      (mm, um, pins, set_mem (kfree 1 (mem st)) st)
  end.

(** ** Matching a dynamic-event command (lines 1103-1143 and 1596-1663) *)

(** The system name of user events (include/linux/user_events.h). *)
Definition USER_EVENTS_SYSTEM : string := "user_events".

(** The loop of [user_dyn_field_set_string] over the arguments from
    [*iout] on: the text it writes, how many arguments it takes, and
    [*colon]. [first] is whether the argument is the one at [*iout]. *)
Fixpoint dyn_field_loop (args : list string) (first : bool)
  : string * nat * bool :=
  match args with
  | [] => (EmptyString, 0%nat, false)
  | arg :: args =>
      let sep := if first then EmptyString else " "%string in
      match split_at ";"%char arg with
      | Some _ => ((sep ++ arg)%string, 1%nat, true)
      | None =>
          let '(text, n, colon) := dyn_field_loop args false in
          ((sep ++ arg ++ text)%string, S n, colon)
      end
  end.

(** [user_dyn_field_set_string(argc, argv, iout, buf, len, colon)]: the
    text (its return value is the length of the text plus 1), the index
    [*iout] is set to when [len] is not 0, and [*colon]. *)
Definition user_dyn_field_set_string (argv : list string) (iout : nat)
  : string * nat * bool :=
  let '(text, n, colon) := dyn_field_loop (drop iout argv) true in
  (text, (iout + n)%nat, colon).

(** [user_field_set_string(field, buf, len, colon)]: the text. *)
Definition user_field_set_string (field : ftrace_event_field) (colon : bool)
  : string :=
  (f_type field ++ " " ++ f_name field
   ++ (if colon then ";" else EmptyString))%string.

(** [user_field_match(field, argc, argv, iout)]: the return value, [*iout]
    and the allocator. *)
Definition user_field_match (field : ftrace_event_field) (argv : list string)
    (iout : nat) (m : kmem) : bool * nat * kmem :=
  if (length argv <=? iout)%nat then (false, iout, m)
  else
    let '(dyn_field_name, i, colon) := user_dyn_field_set_string argv iout in
    let dyn_len := Z.of_nat (String.length dyn_field_name) + 1 in
    let field_name := user_field_set_string field colon in
    let len := Z.of_nat (String.length field_name) + 1 in
    if negb (dyn_len =? len) then (false, iout, m)
    else
      let '(ok1, m) := kmalloc m in
      let '(ok2, m) := kmalloc m in
      let m := kfree (if ok1 then 1 else 0) m in
      let m := kfree (if ok2 then 1 else 0) m in
      if negb ok1 || negb ok2 then (false, iout, m)
      else (strcmp_eq dyn_field_name field_name, i, m).

(** The loop of [user_fields_match] over the fields, the first declared
    first. *)
Fixpoint fields_match_loop (fs : list ftrace_event_field) (argv : list string)
    (i : nat) (m : kmem) : bool * nat * kmem :=
  match fs with
  | [] => (true, i, m)
  | field :: fs =>
      let '(ok, i, m) := user_field_match field argv i m in
      if negb ok then (false, i, m) else fields_match_loop fs argv i m
  end.

(** [user_fields_match(user, argc, argv)]. *)
Definition user_fields_match (user : user_event) (argv : list string)
    (m : kmem) : bool * kmem :=
  let '(ok, i, m) := fields_match_loop (rev (fields user)) argv 0 m in
  if negb ok then (false, m)
  else if negb (i =? length argv)%nat then (false, m)
  else (true, m).

(** [user_event_match(system, event, argc, argv, ev)]. *)
Definition user_event_match (system : option string) (event : string)
    (argv : list string) (user : user_event) (m : kmem) : bool * kmem :=
  let matched :=
    strcmp_eq (EVENT_NAME user) event
    && match system with
       | None => true
       | Some s => strcmp_eq s USER_EVENTS_SYSTEM
       end in
  if matched && (0 <? length argv)%nat then user_fields_match user argv m
  else (matched, m).

(** * Further terms

    What the properties beyond the specification's are stated in. *)

(** ** Emission *)

(** The payload of a write: the bytes after the index. *)
Definition payload_of (i : iov_iter) : list Z := drop 4 (iov_bytes i).

(** Every byte of the write can be read, with and without page faults. *)
Definition readable (i : iov_iter) : Prop :=
  (length (iov_bytes i) <= iov_mapped i)%nat
  /\ (length (iov_bytes i) <= iov_resident i)%nat.

(** Every pointer in the file's reference array is a live event (the array
    holds a reference on each). *)
Definition refs_live (evs : gmap ptr user_event) (info : user_event_file_info)
  : Prop :=
  forall events p,
    refs info = Some events -> Some p ∈ events -> is_Some (evs !! p).

(** The probe ftrace installs for a trace file. *)
Definition ftrace_probe (file : trace_event_file) : tracepoint_func :=
  {| tf_func := user_event_ftrace_fn; tf_data := Some file |}.

(** A trace file that takes records: enabled and not soft-disabled. *)
Definition file_live (file : trace_event_file) : Prop :=
  file_enabled file = true /\ file_soft_disabled file = false.

(** The bit of the status byte a probe of each kind sets. *)
Definition status_bit (fn : probe_func) : Z :=
  match fn with
  | user_event_ftrace_fn => 0
  | user_event_perf_fn => 1
  | other_probe_fn => 7
  end.

(** ** The field parser *)

(** The validators a list of fields calls for, in the order of the fields:
    one per indirect field, at the field's offset. *)
Definition validators_for (declared : list ftrace_event_field)
  : list user_event_validator :=
  flat_map
    (fun f =>
       if is_indirect_type (f_type f)
       then [{| v_offset := f_offset f; v_flags := validator_flags_of (f_type f) |}]
       else [])
    declared.

(** A field with nothing in it but white space. *)
Definition blank (field : string) : Prop := skip_spaces field = EmptyString.

(** The event name of a command, as [user_event_parse_cmd] cuts it out: the
    text before the first space, and of that the text before the first
    colon. *)
Definition command_name (raw_command : string) : string :=
  (strsep (strsep raw_command " "%char).1 ":"%char).1.

(** ** The registry *)

(** Whether the event at [q] answers to [name] in [find_user_event]. *)
Definition answers_to (evs : gmap ptr user_event) (name : string) (q : ptr)
  : bool :=
  match evs !! q with
  | Some user => strcmp_eq (EVENT_NAME user) name
  | None => false
  end.

(** The table is well formed: no chain holds a pointer twice, and every
    pointer on a chain is a live event that sits in the bucket of its own
    name and is the one found under that name. No two registered events
    have the same name. *)
Definition registry_wf `{Platform} (st : kstate) : Prop :=
  (forall b, NoDup (register_table st b))
  /\ forall b p, p ∈ register_table st b ->
       exists user,
         events st !! p = Some user
         /\ b = hash_min (user_event_key (EVENT_NAME user))
         /\ lookup_name st (EVENT_NAME user) = Some p.

(** ** The data file *)

(** How many slots of a reference array hold the event at [p]. *)
Definition count_refs (p : ptr) (events : list (option ptr)) : Z :=
  Z.of_nat (length (filter (fun slot => slot = Some p) events)).

(** The record of an event with [n] references dropped. *)
Definition drop_refs (n : Z) (user : user_event) : user_event :=
  set_refcnt (refcnt user - n) user.

(** Whether a file has a reference array: 1 when it has. *)
Definition has_refs (info : user_event_file_info) : Z :=
  match refs info with Some _ => 1 | None => 0 end.

(** A file that takes the events [ps] one after the other, as successive
    registrations do; an addition that fails is skipped. *)
Fixpoint ref_add_all (ps : list ptr) (info : user_event_file_info)
    (st : kstate) : user_event_file_info * kstate :=
  match ps with
  | [] => (info, st)
  | p :: ps =>
      let '(_, info, st) := user_events_ref_add info p st in
      ref_add_all ps info st
  end.

(** ** Enablers *)

(** The bit an enabler stands for in its word. *)
Definition enabler_bit (enabler : user_event_enabler) : Z :=
  Z.land (en_values enabler) ENABLE_VAL_BIT_MASK.

(** Whether the event an enabler tracks is being traced. *)
Definition event_on (evs : gmap ptr user_event) (enabler : user_event_enabler)
  : bool :=
  match evs !! en_event enabler with
  | Some user => negb (status user =? 0)
  | None => false
  end.

(** The enabler a registration request asks for. *)
Definition enabler_of (reg : user_reg) (user : ptr) : user_event_enabler :=
  {| en_event := user; en_addr := enable_addr reg; en_values := enable_bit reg |}.

(** The enablers of a task. *)
Definition enablers_of (t : task) : list user_event_enabler :=
  match task_mm t with
  | Some mm => mm_enablers mm
  | None => []
  end.

(** The memory descriptor of a task, when it has one, is referenced. *)
Definition mm_referenced (t : task) : Prop :=
  forall mm, task_mm t = Some mm -> 1 <= mm_refcnt mm.

(** Whether an unregister request names an enabler: same address, same
    bit. *)
Definition unreg_matches (reg : user_unreg) (enabler : user_event_enabler)
  : bool :=
  (en_addr enabler =? disable_addr reg)
  && (Z.land (en_values enabler) ENABLE_VAL_BIT_MASK =? disable_bit reg).

(** Whether an asynchronous fault-in is pending on an enabler. *)
Definition is_faulting (enabler : user_event_enabler) : bool :=
  Z.testbit (en_values enabler) ENABLE_VAL_FAULTING_BIT.

(** What an unregister request leaves of one enabler. *)
Definition after_unreg (reg : user_unreg) (enabler : user_event_enabler)
  : list user_event_enabler :=
  if unreg_matches reg enabler
  then (if is_faulting enabler then [set_freeing enabler] else [])
  else [enabler].

(** The enablers an unregister request destroys. *)
Definition destroyed_by (reg : user_unreg) (enablers : list user_event_enabler)
  : list user_event_enabler :=
  filter (fun e => unreg_matches reg e && negb (is_faulting e) = true) enablers.

(** How many of [enablers] track the event at [p]. *)
Definition count_enablers (p : ptr) (enablers : list user_event_enabler) : Z :=
  Z.of_nat (length (filter (fun e => en_event e = p) enablers)).

(** ** Forks *)

(** Whether an enabler is marked as being freed. *)
Definition is_freeing (enabler : user_event_enabler) : bool :=
  Z.testbit (en_values enabler) ENABLE_VAL_FREEING_BIT.

(** The copy of an enabler a fork makes: same event, same address, the bit
    number alone of its values. *)
Definition dup_of (enabler : user_event_enabler) : user_event_enabler :=
  {| en_event := en_event enabler; en_addr := en_addr enabler;
     en_values := Z.land (en_values enabler) ENABLE_VAL_BIT_MASK |}.

(** The enablers a fork duplicates: those that are not being freed. *)
Definition duplicated (enablers : list user_event_enabler)
  : list user_event_enabler :=
  filter (fun e => is_freeing e = false) enablers.

(** ** The status fan-out *)

(** Bit [k] of the byte a process has at [a], where one is mapped. *)
Definition byte_bit (um : user_memory) (a k : Z) : option bool :=
  (fun b => Z.testbit (u8 b) k) <$> um a.

(** Whether an enabler can be written: no fault-in is pending on it and it
    is not being freed. *)
Definition usable (enabler : user_event_enabler) : bool :=
  negb (Z.testbit (en_values enabler) ENABLE_VAL_FAULTING_BIT
        || Z.testbit (en_values enabler) ENABLE_VAL_FREEING_BIT).

(** Whether an enabler stands for bit [k] of the byte at [a]. *)
Definition points_at (a k : Z) (enabler : user_event_enabler) : bool :=
  (a =? en_addr enabler + enabler_bit enabler / 8)
  && (k =? enabler_bit enabler mod 8).

(** Whether bit [k] of the byte at [a] of a process is the bit of a usable
    enabler of the process for the event at [user], the process still
    having tasks. *)
Definition tracks (user : ptr) (t : task) (a k : Z) : bool :=
  match task_mm t with
  | Some mm =>
      negb (mm_tasks mm =? 0)
      && existsb (fun e => bool_decide (en_event e = user) && usable e
                           && points_at a k e) (mm_enablers mm)
  | None => false
  end.

(** Whether the event at [user] is being traced. *)
Definition traced (st : kstate) (user : ptr) : bool :=
  match events st !! user with
  | Some u => negb (status u =? 0)
  | None => false
  end.

(** What the fan-out does to the memory of a process for one of its
    enablers. *)
Definition write_enabler (st : kstate) (mm : user_event_mm) (um : user_memory)
    (e : user_event_enabler) : user_memory :=
  if negb (mm_tasks mm =? 0) && usable e
  then write_bit (event_on (events st) e) (enabler_bit e) (en_addr e) um
  else um.

(** And for those of its enablers that track the event at [user]. *)
Definition write_enablers (user : ptr) (st : kstate) (mm : user_event_mm)
    (es : list user_event_enabler) (um : user_memory) : user_memory :=
  fold_left
    (fun um e =>
       if bool_decide (en_event e = user) then write_enabler st mm um e else um)
    es um.

(** A process as [user_event_mm_get_all] leaves it, and as the fan-out
    leaves it when every page can be pinned. *)
Definition got (user : ptr) (t : task) : task :=
  if has_enabler user t then
    {| user_mem := user_mem t; task_mm := user_event_mm_get <$> task_mm t |}
  else t.

Definition updated (user : ptr) (st : kstate) (t : task) : task :=
  match task_mm t with
  | Some mm =>
      if has_enabler user t then
        {| user_mem := write_enablers user st mm (mm_enablers mm) (user_mem t);
           task_mm := Some mm |}
      else t
  | None => t
  end.

(** An enabler with a fault-in pending, and with none. *)
Definition set_faulting (e : user_event_enabler) : user_event_enabler :=
  {| en_event := en_event e; en_addr := en_addr e;
     en_values := Z.setbit (en_values e) ENABLE_VAL_FAULTING_BIT |}.

Definition clear_faulting (e : user_event_enabler) : user_event_enabler :=
  {| en_event := en_event e; en_addr := en_addr e;
     en_values := Z.clearbit (en_values e) ENABLE_VAL_FAULTING_BIT |}.

(** ** Matching *)

(** The words of a declaration: whether a word holds a semicolon. *)
Definition has_semi (w : string) : Prop := split_at ";"%char w <> None.

Definition no_semi (w : string) : Prop := split_at ";"%char w = None.

(** The arguments spell the fields, one declaration after the other: every
    declaration but the last is its type, a space, its name and a
    semicolon, cut into words at single spaces, the semicolon in its last
    word alone; the last declaration may leave the semicolon out. *)
Inductive spells_fields : list ftrace_event_field -> list string -> Prop :=
| spells_nil : spells_fields [] []
| spells_last (f : ftrace_event_field) (ws : list string) :
    ws <> [] ->
    Forall no_semi ws ->
    String.concat " " ws = user_field_set_string f false ->
    spells_fields [f] ws
| spells_cons (f : ftrace_event_field) (fs : list ftrace_event_field)
    (ws : list string) (w : string) (rest : list string) :
    Forall no_semi ws ->
    has_semi w ->
    String.concat " " (ws ++ [w]) = user_field_set_string f true ->
    spells_fields fs rest ->
    spells_fields (f :: fs) (ws ++ w :: rest).

(** Every allocation succeeds. *)
Definition allocates (m : kmem) : Prop :=
  Forall (fun b => b = true) (alloc_plan m).

(** The words of a list, a space before each. *)
Fixpoint spaced (ws : list string) : string :=
  match ws with
  | [] => EmptyString
  | w :: ws => (" " ++ w ++ spaced ws)%string
  end.

(** ** Further inputs *)

(** The file of a process that has registered one event, the event at
    address 1. *)
Definition one_ref : user_event_file_info := {| refs := Some [Some 1%positive] |}.

Definition traced_events : gmap ptr user_event := {[ 1%positive := string_event ]}.

(** A payload for [string_event]: a relative locator of a two-byte string
    that starts right after it, and the string. *)
Definition string_payload : list Z := [0; 0; 2; 0; 97; 0].

(** An event without fields, traced by ftrace. *)
Definition bare_event : user_event :=
  {| ue_tracepoint :=
       {| tp_name := "tick"; tp_key_enabled := 1;
          tp_funcs := [ftrace_probe file_on] |};
     fields := []; validators := []; refcnt := 2; min_size := 0; status := 1;
     print_fmt := None |}.

(** The memory of a process that registers [test]: the descriptor at 4096
    (28 bytes; bit 31 of the 4-byte word at 8192; the command at 12288, no
    flags), the word, and the command. *)
Definition reg_memory : user_memory :=
  fun a =>
    if (4096 <=? a) && (a <? 4096 + 28)
    then Some (nth (Z.to_nat (a - 4096))
                 [28; 0; 0; 0; 31; 4; 0; 0; 0; 32; 0; 0; 0; 0; 0; 0;
                  0; 48; 0; 0; 0; 0; 0; 0; 0; 0; 0; 0] 0)
    else if (8192 <=? a) && (a <? 8192 + 4) then Some 0
    else if (12288 <=? a) && (a <? 12288 + 5)
    then Some (nth (Z.to_nat (a - 12288)) [116; 101; 115; 116; 0] 0)
    else None.

Definition reg_task : task := {| user_mem := reg_memory; task_mm := None |}.

(** The descriptor [reg_memory] holds. *)
Definition test_reg : user_reg :=
  {| reg_size := 28; enable_bit := 31; enable_size := 4; reg_flags := 0;
     enable_addr := 8192; name_args := 12288; write_index := 0 |}.

(** A memory manager that pins every page, of a process that may store to
    all its memory. *)
Definition pins_ok : mm_env :=
  {| pin_plan := []; fault_in_plan := []; user_writable := fun _ => true |}.

(** The same for a process whose descriptor lies in a read-only mapping
    (a [const struct user_reg]), and such a descriptor at 4096, its
    [write_index] holding 7 as the call begins. *)
Definition const_descriptor : mm_env :=
  {| pin_plan := []; fault_in_plan := [];
     user_writable := fun a => negb ((4096 <=? a) && (a <? 4096 + 28)) |}.

Definition const_reg_memory : user_memory :=
  fun a => if (4120 =? a) then Some 7 else reg_memory a.

Definition const_reg : user_reg :=
  {| reg_size := 28; enable_bit := 31; enable_size := 4; reg_flags := 0;
     enable_addr := 8192; name_args := 12288; write_index := 7 |}.

Definition const_reg_task : task :=
  {| user_mem := const_reg_memory; task_mm := None |}.

(** A file that has not registered anything yet. *)
Definition fresh_file : user_event_file_info := {| refs := None |}.

(** A process that tracks the event at address 1 with the enabler
    [test_reg] asks for, and the same with a fault-in pending on it. *)
Definition tracking_mm : user_event_mm :=
  {| mm_enablers := [enabler_of test_reg 1%positive]; mm_refcnt := 1;
     mm_tasks := 1 |}.

Definition tracking_task : task :=
  {| user_mem := reg_memory; task_mm := Some tracking_mm |}.

Definition faulting_mm : user_event_mm :=
  {| mm_enablers := [set_faulting (enabler_of test_reg 1%positive)];
     mm_refcnt := 2; mm_tasks := 1 |}.

(** A registry whose only event, at address 1, is being traced. *)
Definition tracing_state : kstate := set_events traced_events boot_state.

(** The event the example command declares, as the field parser leaves
    it. *)
Definition declared_event : user_event :=
  (user_event_parse_fields (H:=linux_x86_64) (new_user_event "test")
     (Some "char[20] msg;unsigned int id") mem0).1.2.

(** * Properties *)

(** ** Validation and emission *)

Section EmissionProperties.
Context `{Platform}.

Lemma validate_loop_cons (v : user_event_validator)
    (vs : list user_event_validator) (data : buffer) (len : Z) :
  validate_loop (v :: vs) data len =
    if computed_end data v >? len then - EFAULT
    else if requires_null v && negb (u8 (data (computed_end data v - 1)) =? 0)
    then - EFAULT
    else validate_loop vs data len.
Proof.
  cbn [validate_loop].
  replace (computed_end data v)
    with ((if has_flag (v_flags v) VALIDATOR_REL
           then v_offset v + (Z.land (read_u32 data (v_offset v)) 65535 + 4)
           else Z.land (read_u32 data (v_offset v)) 65535)
          + Z.shiftr (read_u32 data (v_offset v)) 16).
  - reflexivity.
  - unfold computed_end, is_relative, embedded_offset, embedded_length.
    destruct (has_flag (v_flags v) VALIDATOR_REL); lia.
Qed.

Lemma validator_rejects_dec (data : buffer) (len : Z) (v : user_event_validator) :
  validator_rejects data len v <->
  (computed_end data v >? len)
  || (requires_null v && negb (u8 (data (computed_end data v - 1)) =? 0)) = true.
Proof.
  unfold validator_rejects.
  rewrite orb_true_iff, andb_true_iff, negb_true_iff, Z.eqb_neq, Z.gtb_ltb,
    Z.ltb_lt, Z.gt_lt_iff.
  reflexivity.
Qed.

(** The loop returns [-EFAULT] exactly when some validator rejects, and 0
    exactly when none does. *)
Lemma validate_loop_spec (vs : list user_event_validator) (data : buffer)
    (len : Z) :
  (validate_loop vs data len = - EFAULT /\ Exists (validator_rejects data len) vs)
  \/ (validate_loop vs data len = 0
      /\ Forall (fun v => ~ validator_rejects data len v) vs).
Proof.
  induction vs as [|v vs IH].
  - right. split; [reflexivity | constructor].
  - rewrite validate_loop_cons.
    destruct (computed_end data v >? len) eqn:Hgt.
    { left. split; [reflexivity|].
      apply Exists_cons_hd. apply validator_rejects_dec.
      rewrite Hgt. reflexivity. }
    destruct (requires_null v && negb (u8 (data (computed_end data v - 1)) =? 0))
      eqn:Hnull.
    { left. split; [reflexivity|].
      apply Exists_cons_hd. apply validator_rejects_dec.
      rewrite Hgt, Hnull. reflexivity. }
    destruct IH as [[Hret Hex] | [Hret Hall]].
    + left. split; [exact Hret | apply Exists_cons_tl; exact Hex].
    + right. split; [exact Hret|].
      constructor; [|exact Hall].
      intros Hrej. apply validator_rejects_dec in Hrej.
      rewrite Hgt, Hnull in Hrej. discriminate.
Qed.

Lemma validate_rejected (user : user_event) (data : buffer) (len : Z) :
  Exists (validator_rejects data len) (validators user) ->
  user_event_validate user data len = - EFAULT.
Proof.
  intros Hex. unfold user_event_validate.
  destruct (validate_loop_spec (validators user) data len) as [[Hret _] | [_ Hall]].
  - exact Hret.
  - exfalso. apply Exists_exists in Hex as (v & Hin & Hrej).
    rewrite Forall_forall in Hall. exact (Hall v Hin Hrej).
Qed.

Lemma validate_passed (user : user_event) (data : buffer) (len : Z) :
  user_event_validate user data len = 0 ->
  Forall (fun v => ~ validator_rejects data len v) (validators user).
Proof.
  intros Hret. unfold user_event_validate in Hret.
  destruct (validate_loop_spec (validators user) data len) as [[Hf _] | [_ Hall]].
  - rewrite Hf in Hret. discriminate.
  - exact Hall.
Qed.

Lemma rb_commit_grows (record : list Z) (rb : ring_buffer) :
  rb_committed (rb_commit record rb) <> rb_committed rb.
Proof.
  cbn. intros Heq.
  apply (f_equal (@length (list Z))) in Heq.
  rewrite length_app in Heq. cbn in Heq. lia.
Qed.

Lemma perf_submit_grows (record : list Z) (pb : perf_buffer) :
  perf_submitted (perf_submit record pb) <> perf_submitted pb.
Proof.
  cbn. intros Heq.
  apply (f_equal (@length (list Z))) in Heq.
  rewrite length_app in Heq. cbn in Heq. lia.
Qed.

(** What [user_event_ftrace] can do with a record: leave the buffer alone,
    discard the record it reserved and report a fault, or commit it; and it
    commits only when the validators pass. *)
Lemma user_event_ftrace_cases (user : user_event) (i : iov_iter)
    (tpdata : option trace_event_file) (faulted : bool) (rb : ring_buffer) :
  let size := sizeof_trace_entry + iov_count i in
  let entry :=
    fill_entry (rb_memory rb) (copy_nofault (Z.to_nat (iov_count i)) i).1 in
  user_event_ftrace user i tpdata faulted rb = (faulted, rb)
  \/ user_event_ftrace user i tpdata faulted rb = (true, rb_discard (rb_reserve rb))
  \/ (user_event_ftrace user i tpdata faulted rb
        = (faulted, rb_commit (record_bytes entry size) (rb_reserve rb))
      /\ (validators user = [] \/ user_event_validate user entry size = 0)).
Proof.
  intros size entry. unfold user_event_ftrace.
  destruct tpdata as [file|]; [|left; reflexivity].
  destruct (negb (file_enabled file) || file_soft_disabled file);
    [left; reflexivity|].
  destruct (negb (rb_reserve_ok rb)); [left; reflexivity|].
  fold size.
  destruct (copy_nofault (Z.to_nat (iov_count i)) i) as [copied i'] eqn:Hcopy.
  subst entry. cbn [fst rb_memory rb_reserve].
  destruct (length copied =? 0)%nat; [right; left; reflexivity|].
  destruct (bool_decide (validators user = [])) eqn:Hvs.
  - right; right. cbn. split; [reflexivity|].
    left. apply bool_decide_eq_true in Hvs. exact Hvs.
  - cbn [negb andb].
    destruct (user_event_validate user _ size =? 0) eqn:Hval.
    + right; right. cbn. split; [reflexivity|].
      right. apply Z.eqb_eq. exact Hval.
    + right; left. reflexivity.
Qed.

Lemma user_event_perf_cases (user : user_event) (i : iov_iter)
    (faulted : bool) (pb : perf_buffer) :
  let size := sizeof_trace_entry + iov_count i in
  let entry :=
    fill_entry (perf_memory pb) (copy_nofault (Z.to_nat (iov_count i)) i).1 in
  user_event_perf user i faulted pb = (faulted, pb)
  \/ user_event_perf user i faulted pb = (true, perf_drop (perf_alloc pb))
  \/ (user_event_perf user i faulted pb
        = (faulted, perf_submit (record_bytes entry size) (perf_alloc pb))
      /\ (validators user = [] \/ user_event_validate user entry size = 0)).
Proof.
  intros size entry. unfold user_event_perf.
  destruct (perf_has_events pb); [|left; reflexivity].
  destruct (negb (perf_alloc_ok pb)); [left; reflexivity|].
  fold size.
  destruct (copy_nofault (Z.to_nat (iov_count i)) i) as [copied i'] eqn:Hcopy.
  subst entry. cbn [fst perf_memory perf_alloc].
  destruct (length copied =? 0)%nat; [right; left; reflexivity|].
  destruct (bool_decide (validators user = [])) eqn:Hvs.
  - right; right. cbn. split; [reflexivity|].
    left. apply bool_decide_eq_true in Hvs. exact Hvs.
  - cbn [negb andb].
    destruct (user_event_validate user _ size =? 0) eqn:Hval.
    + right; right. cbn. split; [reflexivity|].
      right. apply Z.eqb_eq. exact Hval.
    + right; left. reflexivity.
Qed.

(** What the probes do with the record as it stands in the sink's memory
    after the copy, [entry]: the header, then the bytes [copy_nofault]
    copied, then what the memory held. When some validator's computed end
    in [entry] lies beyond the record, or its last byte there is not NUL
    where one is required, [user_event_validate] returns [-EFAULT], and
    [user_event_ftrace] and [user_event_perf] publish nothing (a record they
    had reserved is discarded and the fault flag set). Conversely a record
    is published only with every validator of the event satisfied by
    [entry]. Its length [size] is what the validators' ends are compared
    with. [entry] holds the whole payload only when the copy is complete. *)
Theorem validator_rejection (user : user_event) (i : iov_iter)
    (tpdata : option trace_event_file) (faulted : bool) (rb : ring_buffer)
    (pb : perf_buffer) :
  let size := sizeof_trace_entry + iov_count i in
  let copied := (copy_nofault (Z.to_nat (iov_count i)) i).1 in
  let entry := fill_entry (rb_memory rb) copied in
  let perf_entry := fill_entry (perf_memory pb) copied in
  let ft := user_event_ftrace user i tpdata faulted rb in
  let pf := user_event_perf user i faulted pb in
  (Exists (validator_rejects entry size) (validators user) ->
     user_event_validate user entry size = - EFAULT
     /\ rb_committed ft.2 = rb_committed rb
     /\ (ft = (faulted, rb) \/ ft = (true, rb_discard (rb_reserve rb))))
  /\ (Exists (validator_rejects perf_entry size) (validators user) ->
     user_event_validate user perf_entry size = - EFAULT
     /\ perf_submitted pf.2 = perf_submitted pb
     /\ (pf = (faulted, pb) \/ pf = (true, perf_drop (perf_alloc pb))))
  /\ (rb_committed ft.2 <> rb_committed rb ->
     rb_committed ft.2 = rb_committed rb ++ [record_bytes entry size]
     /\ Forall (fun v => ~ validator_rejects entry size v) (validators user))
  /\ (perf_submitted pf.2 <> perf_submitted pb ->
     perf_submitted pf.2 = perf_submitted pb ++ [record_bytes perf_entry size]
     /\ Forall (fun v => ~ validator_rejects perf_entry size v) (validators user)).
Proof.
  intros size copied entry perf_entry ft pf.
  pose proof (user_event_ftrace_cases user i tpdata faulted rb) as Hft.
  pose proof (user_event_perf_cases user i faulted pb) as Hpf.
  cbv zeta in Hft, Hpf.
  fold size copied entry ft in Hft. fold size copied perf_entry pf in Hpf.
  assert (Hnil : forall data, validators user = [] ->
            Forall (fun v => ~ validator_rejects data size v) (validators user)).
  { intros data ->. constructor. }
  split; [intros Hrej; repeat split
        | split; [intros Hrej; repeat split
                 | split; intros Hpub; split]].
  - apply validate_rejected; assumption.
  - destruct Hft as [-> | [-> | [-> [Hvs | Hval]]]]; try reflexivity; exfalso.
    + rewrite Hvs in Hrej. inversion Hrej.
    + rewrite (validate_rejected user entry size Hrej) in Hval. discriminate.
  - destruct Hft as [-> | [-> | [_ [Hvs | Hval]]]]; auto; exfalso.
    + rewrite Hvs in Hrej. inversion Hrej.
    + rewrite (validate_rejected user entry size Hrej) in Hval. discriminate.
  - apply validate_rejected; assumption.
  - destruct Hpf as [-> | [-> | [-> [Hvs | Hval]]]]; try reflexivity; exfalso.
    + rewrite Hvs in Hrej. inversion Hrej.
    + rewrite (validate_rejected user perf_entry size Hrej) in Hval. discriminate.
  - destruct Hpf as [-> | [-> | [_ [Hvs | Hval]]]]; auto; exfalso.
    + rewrite Hvs in Hrej. inversion Hrej.
    + rewrite (validate_rejected user perf_entry size Hrej) in Hval. discriminate.
  - destruct Hft as [Heq | [Heq | [Heq _]]]; rewrite Heq in Hpub |- *;
      cbn in Hpub |- *; congruence.
  - destruct Hft as [Heq | [Heq | [Heq [Hvs | Hval]]]];
      try (rewrite Heq in Hpub; cbn in Hpub; congruence).
    + apply Hnil, Hvs.
    + apply validate_passed, Hval.
  - destruct Hpf as [Heq | [Heq | [Heq _]]]; rewrite Heq in Hpub |- *;
      cbn in Hpub |- *; congruence.
  - destruct Hpf as [Heq | [Heq | [Heq [Hvs | Hval]]]];
      try (rewrite Heq in Hpub; cbn in Hpub; congruence).
    + apply Hnil, Hvs.
    + apply validate_passed, Hval.
Qed.

Lemma copy_index_count (i : iov_iter) (idx : Z) :
  write_index_of i = Some idx ->
  iov_count (copy_from_iter 4 i).2 = payload_count i.
Proof.
  unfold write_index_of, payload_count, copy_from_iter, iov_count, iov_advance.
  cbn [fst snd iov_bytes].
  destruct (length (take (4 `min` iov_mapped i) (iov_bytes i)) =? 4)%nat eqn:Hlen;
    [|discriminate].
  intros _. apply Nat.eqb_eq in Hlen. rewrite Hlen, length_drop.
  rewrite length_take in Hlen. lia.
Qed.

(** The checks of [user_events_write_core] for an index that is not
    negative: an absent array, an index at or beyond its count and an empty
    slot give [-ENOENT]; a payload shorter than the event's minimum size
    gives [-EINVAL]; in both cases the sinks are left as they were, nothing
    reserved. *)
Lemma emit_checks_nonnegative_index (evs : gmap ptr user_event)
    (info : user_event_file_info) (i : iov_iter) (s : sinks) (idx : Z) :
  write_index_of i = Some idx ->
  0 <= idx ->
  (refs info = None
   \/ (exists events, refs info = Some events
         /\ (Z.of_nat (length events) <= idx
             \/ events !! Z.to_nat idx = Some None)) ->
   user_events_write_core evs info i s = Returned (- ENOENT) s)
  /\ (forall user, resolve evs info idx = Some user ->
        payload_count i < u64 (min_size user) ->
        user_events_write_core evs info i s = Returned (- EINVAL) s).
Proof.
  intros Hidx Hnonneg.
  pose proof (copy_index_count i idx Hidx) as Hcount.
  unfold write_index_of in Hidx. unfold user_events_write_core.
  destruct (copy_from_iter 4 i) as [idx_bytes i'] eqn:Hcopy.
  cbn [fst snd] in Hidx, Hcount.
  destruct (length idx_bytes =? 4)%nat; [|discriminate].
  injection Hidx as Hidx. rewrite Hidx. cbn [negb].
  split.
  - intros [Hnone | (events & Hrefs & Hslot)].
    + rewrite Hnone. reflexivity.
    + rewrite Hrefs. destruct Hslot as [Hbig | Hempty].
      * destruct (idx <? Z.of_nat (length events)) eqn:Hlt; [lia | reflexivity].
      * destruct (idx <? Z.of_nat (length events)); [|reflexivity].
        destruct (0 <=? idx) eqn:Hle; [|lia].
        rewrite Hempty. reflexivity.
  - intros user Hres Hshort. unfold resolve in Hres.
    destruct (refs info) as [events|]; [|discriminate].
    cbn in Hres.
    destruct (events !! Z.to_nat idx) as [slot|] eqn:Hslot; [|discriminate].
    cbn in Hres. destruct slot as [p|]; [|discriminate]. cbn in Hres.
    apply lookup_lt_Some in Hslot as Hlen.
    destruct (idx <? Z.of_nat (length events)) eqn:Hlt; [|lia].
    destruct (0 <=? idx) eqn:Hle; [|lia].
    cbn. rewrite Hres, Hcount.
    destruct (payload_count i <? u64 (min_size user)) eqn:Hmin; [reflexivity|lia].
Qed.

(** C2, at the input on which the code departs from it. An index whose four
    bytes are all 0xff is -1: it is below the array's count, so the bounds
    test passes, and the code reads [events[-1]], outside the array, instead
    of returning [-ENOENT]. *)
Theorem emit_negative_index_reads_outside (evs : gmap ptr user_event)
    (events : list (option ptr)) (payload : list Z) (s : sinks) :
  let i := {| iov_bytes := [255; 255; 255; 255] ++ payload;
              iov_mapped := 4 + length payload;
              iov_resident := 4 + length payload |} in
  write_index_of i = Some (-1)
  /\ user_events_write_core evs {| refs := Some events |} i s = OutOfBounds (-1)
  /\ user_events_write_core evs {| refs := Some events |} i s
     <> Returned (- ENOENT) s.
Proof.
  intros i.
  assert (Hcore : user_events_write_core evs {| refs := Some events |} i s
                  = OutOfBounds (-1)).
  { unfold user_events_write_core, i, copy_from_iter. cbn [iov_mapped iov_bytes].
    replace (4 `min` (4 + length payload))%nat with 4%nat by lia.
    cbn [firstn app]. rewrite take_0. cbn [length Nat.eqb negb refs].
    change (s32 (le32 [255; 255; 255; 255])) with (-1).
    destruct (-1 <? Z.of_nat (length events)) eqn:Hlt; [reflexivity|].
    exfalso. apply Z.ltb_ge in Hlt. lia. }
  split; [|split].
  - unfold write_index_of, i, copy_from_iter. cbn [iov_mapped iov_bytes fst].
    replace (4 `min` (4 + length payload))%nat with 4%nat by lia.
    cbn [firstn app]. rewrite take_0. reflexivity.
  - exact Hcore.
  - rewrite Hcore. discriminate.
Qed.

Lemma tracepoint_status_fold_pos (probes : list tracepoint_func) (acc : Z) :
  0 < acc ->
  0 < fold_left
        (fun status probe =>
           match tf_func probe with
           | user_event_ftrace_fn => Z.lor status EVENT_STATUS_FTRACE
           | user_event_perf_fn => Z.lor status EVENT_STATUS_PERF
           | other_probe_fn => Z.lor status EVENT_STATUS_OTHER
           end) probes acc.
Proof.
  revert acc. induction probes as [|probe probes IH]; intros acc Hacc.
  - exact Hacc.
  - cbn [fold_left]. apply IH.
    assert (Hlor : forall b, 0 < b -> 0 < Z.lor acc b).
    { intros b Hb.
      assert (0 <= Z.lor acc b) by (apply Z.lor_nonneg; lia).
      destruct (Z.eq_dec (Z.lor acc b) 0) as [Hz|]; [|lia].
      apply Z.lor_eq_0_iff in Hz. lia. }
    destruct (tf_func probe); apply Hlor; reflexivity.
Qed.

(** A consistent event with status 0 has its tracepoint key off. *)
Lemma status_zero_key_off (user : user_event) :
  event_consistent user -> status user = 0 ->
  tp_key_enabled (ue_tracepoint user) <= 0.
Proof.
  intros [Hstatus Hfuncs] Hzero.
  destruct (Z.lt_ge_cases 0 (tp_key_enabled (ue_tracepoint user))) as [Hon|]; [|lia].
  exfalso. rewrite Hstatus in Hzero. unfold tracepoint_status in Hzero.
  destruct (tp_key_enabled (ue_tracepoint user) >? 0) eqn:Hgt; [|lia].
  destruct (tp_funcs (ue_tracepoint user)) as [|probe probes] eqn:Hprobes.
  - apply Hfuncs; [lia | reflexivity].
  - cbn [fold_left] in Hzero.
    assert (Hpos : 0 < fold_left
        (fun status probe =>
           match tf_func probe with
           | user_event_ftrace_fn => Z.lor status EVENT_STATUS_FTRACE
           | user_event_perf_fn => Z.lor status EVENT_STATUS_PERF
           | other_probe_fn => Z.lor status EVENT_STATUS_OTHER
           end) probes
        (match tf_func probe with
         | user_event_ftrace_fn => Z.lor 0 EVENT_STATUS_FTRACE
         | user_event_perf_fn => Z.lor 0 EVENT_STATUS_PERF
         | other_probe_fn => Z.lor 0 EVENT_STATUS_OTHER
         end)).
    { apply tracepoint_status_fold_pos. destruct (tf_func probe); reflexivity. }
    lia.
Qed.

(** C3. A write whose index resolves to an event with live status 0, and
    whose payload is not shorter than the event's minimum size (as the code
    compares them), returns the byte count it was given and leaves every
    sink as it was: nothing reserved, copied or validated. *)
Theorem emit_without_sink (evs : gmap ptr user_event)
    (info : user_event_file_info) (i : iov_iter) (s : sinks) (idx : Z)
    (user : user_event) :
  write_index_of i = Some idx ->
  0 <= idx ->
  resolve evs info idx = Some user ->
  event_consistent user ->
  status user = 0 ->
  u64 (min_size user) <= payload_count i ->
  user_events_write_core evs info i s = Returned (iov_count i) s.
Proof.
  intros Hidx Hnonneg Hres Hcons Hzero Hmin.
  pose proof (copy_index_count i idx Hidx) as Hcount.
  pose proof (status_zero_key_off user Hcons Hzero) as Hoff.
  unfold write_index_of in Hidx. unfold user_events_write_core.
  destruct (copy_from_iter 4 i) as [idx_bytes i'] eqn:Hcopy.
  cbn [fst snd] in Hidx, Hcount.
  destruct (length idx_bytes =? 4)%nat; [|discriminate].
  injection Hidx as Hidx. rewrite Hidx. cbn [negb].
  unfold resolve in Hres.
  destruct (refs info) as [events|]; [|discriminate].
  cbn in Hres.
  destruct (events !! Z.to_nat idx) as [slot|] eqn:Hslot; [|discriminate].
  cbn in Hres. destruct slot as [p|]; [|discriminate]. cbn in Hres.
  apply lookup_lt_Some in Hslot as Hlen.
  destruct (idx <? Z.of_nat (length events)) eqn:Hlt; [|lia].
  destruct (0 <=? idx) eqn:Hle; [|lia].
  cbn. rewrite Hres, Hcount.
  destruct (payload_count i <? u64 (min_size user)) eqn:Hshort; [lia|].
  destruct (tp_key_enabled (ue_tracepoint user) >? 0) eqn:Hgt; [lia|].
  reflexivity.
Qed.

End EmissionProperties.

(** ** The parser and the registry *)

Section RegistryProperties.
Context `{Platform}.

Lemma kmalloc_live (m m' : kmem) (ok : bool) :
  kmalloc m = (ok, m') -> live m' = live m + (if ok then 1 else 0).
Proof.
  unfold kmalloc. destruct (alloc_plan m) as [|b plan]; intros [= <- <-]; cbn.
  - reflexivity.
  - destruct b; lia.
Qed.

(** What [user_event_add_field] keeps: the allocations balance what the
    event owns, the return value is 0 or negative, and nothing but the
    field list, the validator list and the minimum size changes. *)
Lemma add_field_account (user user' : user_event) (type name : string)
    (offset size is_signed filter_type ret : Z) (m m' : kmem) :
  user_event_add_field user type name offset size is_signed filter_type m
    = (ret, user', m') ->
  ret <= 0
  /\ live m' - owned user' = live m - owned user
  /\ print_fmt user' = print_fmt user
  /\ ue_tracepoint user' = ue_tracepoint user
  /\ (ret <> 0 -> user' = user).
Proof.
  unfold user_event_add_field.
  destruct (kmalloc m) as [field_ok m1] eqn:Hk1.
  apply kmalloc_live in Hk1.
  destruct field_ok; cbn [negb].
  2:{ intros [= <- <- <-]. unfold ENOMEM. repeat split; try lia. }
  destruct (negb (str_has_prefix type "__data_loc " =? 0)%nat);
    [|destruct (negb (str_has_prefix type "__rel_loc " =? 0)%nat)].
  1,2: destruct (kmalloc m1) as [validator_ok m2] eqn:Hk2;
       apply kmalloc_live in Hk2;
       destruct validator_ok; cbn [negb];
       intros [= <- <- <-]; unfold owned, ENOMEM; cbn;
       rewrite ?length_app; cbn; repeat split; try lia; try congruence.
  intros [= <- <- <-]. unfold owned; cbn. repeat split; try lia; congruence.
Qed.

Lemma parse_field_account (field : string) (user user' : user_event)
    (offset offset' ret : Z) (m m' : kmem) :
  user_event_parse_field field user offset m = (ret, user', offset', m') ->
  ret <= 0
  /\ live m' - owned user' = live m - owned user
  /\ print_fmt user' = print_fmt user
  /\ ue_tracepoint user' = ue_tracepoint user
  /\ (ret <> 0 -> user' = user).
Proof.
  unfold user_event_parse_field.
  assert (Hkeep : forall err, err <= 0 ->
            (err, user, offset, m) = (ret, user', offset', m') ->
            ret <= 0 /\ live m' - owned user' = live m - owned user
            /\ print_fmt user' = print_fmt user
            /\ ue_tracepoint user' = ue_tracepoint user
            /\ (ret <> 0 -> user' = user)).
  { intros err Herr [= <- <- <- <-]. repeat split; lia. }
  destruct (split_field field) as [[err | parts]|] eqn:Hsplit.
  - (* an early return of the token loop: always -EINVAL *)
    assert (Herr : err = - EINVAL).
    { unfold split_field in Hsplit.
      destruct (skip_spaces field) as [|c rest] eqn:Hskip; [discriminate|].
      destruct (field_type_prefix (String c rest)) as [len is_struct].
      assert (Hloop : forall parts st e,
                parse_parts parts is_struct st = inl e -> e = - EINVAL).
      { clear. induction parts as [|part parts IH]; intros st e; cbn.
        - discriminate.
        - repeat match goal with
                 | |- context [if ?b then _ else _] => destruct b
                 | |- context [match kstrtou32 ?a ?b with _ => _ end] =>
                     destruct (kstrtou32 a b)
                 end; try (intros [= <-]; reflexivity); apply IH. }
      destruct (len =? 0)%nat.
      - injection Hsplit as Hsplit. eapply Hloop, Hsplit.
      - destruct (split_at " " (string_drop len (String c rest)))
          as [[type_tail rest']|].
        + injection Hsplit as Hsplit. eapply Hloop, Hsplit.
        + injection Hsplit as <-. reflexivity. }
    subst err. apply Hkeep. unfold EINVAL. lia.
  - destruct (fp_name parts) as [name|]; [|apply Hkeep; unfold EINVAL; lia].
    destruct (fp_depth parts <? FIELD_DEPTH_SIZE);
      [apply Hkeep; unfold EINVAL; lia|].
    set (size := if fp_depth parts =? FIELD_DEPTH_SIZE
                 then user_field_size (fp_type parts) else fp_size parts).
    destruct (size =? 0); [apply Hkeep; unfold EINVAL; lia|].
    destruct (size <? 0) eqn:Hneg; [apply Hkeep; lia|].
    destruct (user_event_add_field _ _ _ _ _ _ _ _) as [[ret1 user1] m1] eqn:Hadd.
    intros [= <- <- <- <-]. eapply add_field_account, Hadd.
  - apply Hkeep. lia.
Qed.

Lemma parse_fields_loop_account (flds : list string) (user user' : user_event)
    (offset ret0 ret : Z) (m m' : kmem) :
  ret0 <= 0 ->
  parse_fields_loop flds ret0 user offset m = (ret, user', m') ->
  ret <= 0
  /\ live m' - owned user' = live m - owned user
  /\ print_fmt user' = print_fmt user
  /\ ue_tracepoint user' = ue_tracepoint user.
Proof.
  revert user offset ret0 m.
  induction flds as [|field flds IH]; intros user offset ret0 m Hret0; cbn.
  - intros [= <- <- <-]. repeat split; lia.
  - destruct (user_event_parse_field field user offset m)
      as [[[ret1 user1] offset1] m1] eqn:Hfield.
    apply parse_field_account in Hfield as (Hle & Hlive & Hfmt & Htp & _).
    destruct (negb (ret1 =? 0)).
    + intros [= <- <- <-]. repeat split; assumption.
    + intros Hloop. apply IH in Hloop as (? & ? & ? & ?); [|exact Hle].
      repeat split; [assumption | lia | congruence | congruence].
Qed.

Lemma parse_fields_account (user user' : user_event) (args : option string)
    (ret : Z) (m m' : kmem) :
  user_event_parse_fields user args m = (ret, user', m') ->
  ret <= 0
  /\ live m' - owned user' = live m - owned user
  /\ print_fmt user' = print_fmt user
  /\ ue_tracepoint user' = ue_tracepoint user.
Proof.
  unfold user_event_parse_fields. destruct args as [args|].
  - apply parse_fields_loop_account. unfold EINVAL. lia.
  - intros [= <- <- <-]. repeat split; lia.
Qed.

Lemma create_print_fmt_account (user user' : user_event) (ret : Z)
    (m m' : kmem) :
  print_fmt user = None ->
  user_event_create_print_fmt user m = (ret, user', m') ->
  (ret = 0 \/ ret = - ENOMEM)
  /\ live m' - owned user' = live m - owned user
  /\ (ret = 0 -> print_fmt user' = Some (user_event_set_print_fmt user)
                 /\ fields user' = fields user
                 /\ validators user' = validators user
                 /\ min_size user' = min_size user
                 /\ ue_tracepoint user' = ue_tracepoint user).
Proof.
  intros Hnone. unfold user_event_create_print_fmt.
  destruct (kmalloc m) as [ok m1] eqn:Hk. apply kmalloc_live in Hk.
  destruct ok; cbn [negb]; intros [= <- <- <-]; unfold owned, ENOMEM; cbn;
    rewrite ?Hnone; repeat split; try lia; auto.
Qed.

(** The error path of [user_event_parse] frees every object the event owns
    and the event itself, and changes nothing else. *)
Lemma put_user_frees (ret : Z) (user : user_event) (st : kstate) (m : kmem) :
  exists m',
    put_user ret user st m = (ret, None, set_mem m' st)
    /\ live m' = live m - owned user - 1.
Proof.
  unfold put_user, user_event_destroy_fields, user_event_destroy_validators.
  cbn. eexists. split; [reflexivity|].
  unfold owned. destruct (print_fmt user); cbn; lia.
Qed.

Lemma find_in_chain_Some (evs : gmap ptr user_event) (chain : list ptr)
    (name : string) (p : ptr) :
  find_in_chain evs chain name = Some p ->
  p ∈ chain /\ exists user, evs !! p = Some user /\ EVENT_NAME user = name.
Proof.
  induction chain as [|q chain IH]; cbn; [discriminate|].
  destruct (evs !! q) as [user|] eqn:Hq.
  - unfold strcmp_eq. destruct (String.eqb (EVENT_NAME user) name) eqn:Hname.
    + intros [= <-]. split; [apply list_elem_of_here|].
      exists user. split; [exact Hq | apply String.eqb_eq, Hname].
    + intros Hfind. destruct (IH Hfind) as [Hin Huser].
      split; [apply list_elem_of_further, Hin | exact Huser].
  - intros Hfind. destruct (IH Hfind) as [Hin Huser].
    split; [apply list_elem_of_further, Hin | exact Huser].
Qed.

Lemma find_in_chain_None (evs : gmap ptr user_event) (chain : list ptr)
    (name : string) :
  find_in_chain evs chain name = None ->
  forall p user, p ∈ chain -> evs !! p = Some user -> EVENT_NAME user <> name.
Proof.
  induction chain as [|q chain IH]; cbn; intros Hfind p user Hin Hp.
  - inversion Hin.
  - apply elem_of_cons in Hin as [-> | Hin].
    + rewrite Hp in Hfind. unfold strcmp_eq in Hfind.
      destruct (String.eqb (EVENT_NAME user) name) eqn:Hname; [discriminate|].
      apply String.eqb_neq, Hname.
    + destruct (evs !! q) as [user'|].
      * unfold strcmp_eq in Hfind.
        destruct (String.eqb (EVENT_NAME user') name); [discriminate|].
        exact (IH Hfind p user Hin Hp).
      * exact (IH Hfind p user Hin Hp).
Qed.

(** Lookup depends on the events only through their names. *)
Lemma find_in_chain_names (evs evs' : gmap ptr user_event) (chain : list ptr)
    (name : string) :
  (forall q, q ∈ chain -> EVENT_NAME <$> evs' !! q = EVENT_NAME <$> evs !! q) ->
  find_in_chain evs' chain name = find_in_chain evs chain name.
Proof.
  induction chain as [|q chain IH]; intros Hnames; [reflexivity|]. cbn.
  pose proof (Hnames q (list_elem_of_here _ _)) as Hq.
  assert (IH' : find_in_chain evs' chain name = find_in_chain evs chain name).
  { apply IH. intros r Hr. apply Hnames, list_elem_of_further, Hr. }
  destruct (evs' !! q) as [u'|], (evs !! q) as [u|]; cbn in Hq;
    try discriminate; [|exact IH'].
  injection Hq as ->. rewrite IH'. reflexivity.
Qed.

Lemma set_refcnt_id (user : user_event) : set_refcnt (refcnt user) user = user.
Proof. destruct user. reflexivity. Qed.

Lemma set_events_id (st : kstate) : set_events (events st) st = st.
Proof. destruct st. reflexivity. Qed.

(** Taking a reference and dropping it again leaves the state as it was. *)
Lemma refcount_dec_inc (p : ptr) (st : kstate) :
  refcount_dec p (refcount_inc p st) = st.
Proof.
  unfold refcount_dec, refcount_inc. destruct st as [evs ? ? ? ? ? ? ?]. cbn.
  unfold set_events. cbn. f_equal.
  apply map_eq. intros q. destruct (decide (p = q)) as [<- | Hne].
  - rewrite !lookup_alter_eq. destruct (evs !! p) as [user|]; [|reflexivity].
    cbn. f_equal. destruct user. cbn. unfold set_refcnt. cbn. f_equal. lia.
  - rewrite !lookup_alter_ne by exact Hne. reflexivity.
Qed.

(** C6. Registering a name that is already in the table returns the
    existing event with one more reference and nothing else about it
    changed; the table and every other event stay as they were; and the
    result is the same whatever field specification, flags and trace-core
    answers come with the call: the new specification is neither parsed nor
    compared. *)
Theorem register_existing_name (env : trace_env) (st : kstate) (name : string)
    (args flags : option string) (p : ptr) :
  lookup_name st name = Some p ->
  exists (user : user_event) (st' : kstate),
    events st !! p = Some user
    /\ EVENT_NAME user = name
    /\ user_event_parse env st name args flags = (0, Some p, st')
    /\ events st' = <[p := set_refcnt (refcnt user + 1) user]> (events st)
    /\ register_table st' = register_table st
    /\ current_user_events st' = current_user_events st
    /\ event_calls st' = event_calls st
    /\ (forall env' args' flags',
          user_event_parse env' st name args' flags' = (0, Some p, st')).
Proof.
  intros Hlookup.
  destruct (find_in_chain_Some _ _ _ _ Hlookup) as (_ & user & Hp & Hname).
  exists user.
  exists (set_mem (kfree 1 (mem (refcount_inc p st))) (refcount_inc p st)).
  assert (Hparse : forall env' args' flags',
            user_event_parse env' st name args' flags'
            = (0, Some p,
               set_mem (kfree 1 (mem (refcount_inc p st))) (refcount_inc p st))).
  { intros env' args' flags'. unfold user_event_parse, find_user_event.
    unfold lookup_name in Hlookup. rewrite Hlookup. reflexivity. }
  repeat split; try assumption; try reflexivity; [apply Hparse|].
  cbn. apply map_eq. intros q. destruct (decide (p = q)) as [<- | Hne].
  - rewrite lookup_alter_eq, lookup_insert_eq, Hp. reflexivity.
  - rewrite lookup_alter_ne, lookup_insert_ne by exact Hne. reflexivity.
Qed.

Lemma unlink_head (p : ptr) (l : list ptr) : unlink p (p :: l) = l.
Proof. cbn. destruct (decide (p = p)); [reflexivity | contradiction]. Qed.

(** [user_event_trace_register] touches the two lists of the trace core
    only, and only when it succeeds. *)
Lemma trace_register_result (env : trace_env) (p : ptr) (st st' : kstate)
    (ret : Z) :
  user_event_trace_register env p st = (ret, st') ->
  events st' = events st
  /\ register_table st' = register_table st
  /\ current_user_events st' = current_user_events st
  /\ max_user_events st' = max_user_events st
  /\ dyn_events st' = dyn_events st
  /\ mem st' = mem st
  /\ (ret <> 0 ->
      trace_events st' = trace_events st /\ event_calls st' = event_calls st)
  /\ (ret = 0 ->
      trace_events st' = p :: trace_events st
      /\ event_calls st' = p :: event_calls st
      /\ register_trace_event_ret env <> 0
      /\ prepare_creds_ok env = true
      /\ trace_add_event_call_ret env = 0).
Proof.
  unfold user_event_trace_register, user_event_set_call_visible.
  destruct (register_trace_event_ret env =? 0) eqn:Hreg.
  { intros [= <- <-]. unfold ENODEV. repeat split; try reflexivity; lia. }
  apply Z.eqb_neq in Hreg.
  destruct (prepare_creds_ok env); cbn [negb].
  - destruct (trace_add_event_call_ret env =? 0) eqn:Hadd; cbn [negb].
    + apply Z.eqb_eq in Hadd. rewrite Hadd. cbn.
      intros [= <- <-]. cbn. repeat split; try reflexivity; try lia; auto.
    + apply Z.eqb_neq in Hadd. intros [= <- <-]. cbn.
      destruct (decide (p = p)); [|contradiction].
      repeat split; try reflexivity; try lia; auto.
  - intros [= <- <-]. cbn. destruct (decide (p = p)); [|contradiction].
    unfold ENOMEM. repeat split; try reflexivity; lia.
Qed.

(** Closes an error branch of [user_event_parse]: the branch ends in
    [put_user], which frees what was built and leaves the rest alone. *)
Ltac parse_failed :=
  match goal with
  | |- context [put_user ?ret ?user ?st ?m] =>
      let m' := fresh "m'" in
      let Hm' := fresh "Hm'" in
      destruct (put_user_frees ret user st m) as (m' & -> & Hm');
      split;
      [ intros Hz; exfalso; first [contradiction | discriminate Hz]
      | intros _; cbn; repeat split;
        first [assumption | reflexivity | congruence | lia] ]
  end.

(** C4. For a name that is not in the table: when [user_event_parse]
    returns 0, the allocation, the field parsing, the construction of the
    output format and the registration with the trace core have all
    succeeded, and the event stands in the table, found under its name, with
    a reference count of exactly 2; when it returns an error, the table, the
    events, what the trace core knows and the event count are as before, and
    everything allocated for the event has been freed. *)
Theorem register_new_name (env : trace_env) (st : kstate) (name : string)
    (args flags : option string) :
  lookup_name st name = None ->
  let p := fresh (dom (events st)) in
  let '(ret, newuser, st') := user_event_parse env st name args flags in
  (ret = 0 ->
     exists (m0 m1 m2 : kmem) (user1 user2 : user_event) (st_vis : kstate),
       kmalloc (mem st) = (true, m0)
       /\ user_event_parse_fields (new_user_event name) args m0 = (0, user1, m1)
       /\ user_event_create_print_fmt user1 m1 = (0, user2, m2)
       /\ current_user_events st < max_user_events st
       /\ user_event_trace_register env p st = (0, st_vis)
       /\ newuser = Some p
       /\ events st !! p = None
       /\ events st' = <[p := set_refcnt 2 user2]> (events st)
       /\ register_table st'
          = hash_add (register_table st) p (user_event_key name)
       /\ lookup_name st' name = Some p
       /\ refcnt <$> events st' !! p = Some 2
       /\ event_calls st' = p :: event_calls st
       /\ current_user_events st' = u32 (current_user_events st + 1))
  /\ (ret <> 0 ->
      newuser = None
      /\ events st' = events st
      /\ register_table st' = register_table st
      /\ dyn_events st' = dyn_events st
      /\ trace_events st' = trace_events st
      /\ event_calls st' = event_calls st
      /\ current_user_events st' = current_user_events st
      /\ live (mem st') = live (mem st)).
Proof.
  intros Hlookup p. unfold lookup_name in Hlookup.
  unfold user_event_parse, find_user_event. rewrite Hlookup.
  fold (new_user_event name). fold p.
  destruct (kmalloc (mem st)) as [ok m0] eqn:Hk0.
  pose proof (kmalloc_live _ _ _ Hk0) as Hlive0.
  destruct ok; cbn [negb].
  2:{ split; [discriminate|]. intros _. cbn. repeat split; try reflexivity. lia. }
  destruct (user_event_parse_fields (new_user_event name) args m0)
    as [[ret1 user1] m1] eqn:Hfields.
  destruct (parse_fields_account _ _ _ _ _ _ Hfields) as (_ & Hlive1 & Hfmt1 & Htp1).
  unfold owned in Hlive1 at 2. cbn in Hlive1.
  destruct (ret1 =? 0) eqn:Hret1; cbn [negb].
  2:{ apply Z.eqb_neq in Hret1. parse_failed. }
  apply Z.eqb_eq in Hret1. subst ret1.
  destruct (user_event_create_print_fmt user1 m1) as [[ret2 user2] m2] eqn:Hcreate.
  cbn in Hfmt1.
  destruct (create_print_fmt_account _ _ _ _ _ Hfmt1 Hcreate)
    as (_ & Hlive2 & Hok2).
  destruct (ret2 =? 0) eqn:Hret2; cbn [negb].
  2:{ apply Z.eqb_neq in Hret2. parse_failed. }
  apply Z.eqb_eq in Hret2. subst ret2.
  destruct (Hok2 eq_refl) as (Hfmt2 & _ & _ & _ & Htp2).
  destruct (max_user_events st <=? current_user_events st) eqn:Hcap.
  { parse_failed. }
  apply Z.leb_gt in Hcap.
  destruct (user_event_trace_register env p st) as [ret3 st3] eqn:Hreg.
  destruct (trace_register_result _ _ _ _ _ Hreg)
    as (He3 & Ht3 & Hn3 & Hx3 & Hd3 & Hm3 & Hbad3 & Hgood3).
  destruct (ret3 =? 0) eqn:Hret3; cbn [negb].
  2:{ apply Z.eqb_neq in Hret3. destruct (Hbad3 Hret3) as [Htr3 Hc3].
      parse_failed. }
  apply Z.eqb_eq in Hret3. subst ret3.
  destruct (Hgood3 eq_refl) as (Htr3 & Hc3 & _).
  assert (Hfresh : events st !! p = None).
  { apply not_elem_of_dom. apply is_fresh. }
  split; [|intros Hne; contradiction].
  intros _. exists m0, m1, m2, user1, user2, st3. cbn.
  rewrite He3, Ht3, Hn3, Hc3.
  repeat split; try reflexivity; try assumption.
  - unfold hash_add. rewrite Z.eqb_refl. cbn.
    rewrite lookup_insert_eq. unfold EVENT_NAME, strcmp_eq. cbn.
    rewrite Htp2, Htp1. cbn. rewrite String.eqb_refl. reflexivity.
  - rewrite lookup_insert_eq. reflexivity.
Qed.

Lemma set_fields_name (fs : list ftrace_event_field) (user : user_event) :
  EVENT_NAME (set_fields fs user) = EVENT_NAME user.
Proof. reflexivity. Qed.

(** [delete_user_event] on an event that nothing but the table references:
    what becomes of it depends on whether the trace core lets the call go. *)
Lemma destroy_user_event_result (env : trace_env) (p : ptr) (st : kstate)
    (user : user_event) :
  events st !! p = Some user ->
  let '(ret, st') := destroy_user_event env p st in
  let unregistered :=
    prepare_creds_ok env && (trace_remove_event_call_ret env =? 0) in
  (unregistered = true ->
     ret = 0
     /\ events st' = delete p (events st)
     /\ register_table st' = hash_del (register_table st) p
     /\ dyn_events st' = unlink p (dyn_events st)
     /\ trace_events st' = unlink p (trace_events st)
     /\ event_calls st' = unlink p (event_calls st)
     /\ live (mem st') = live (mem st) - owned user - 2
     /\ current_user_events st'
        = (if current_user_events st >? 0 then current_user_events st - 1
           else current_user_events st)
     /\ max_user_events st' = max_user_events st)
  /\ (unregistered = false ->
      ret <> 0
      /\ ret = (if prepare_creds_ok env then trace_remove_event_call_ret env
                else - ENOMEM)
      /\ register_table st' = register_table st
      /\ EVENT_NAME <$> events st' !! p = Some (EVENT_NAME user)
      /\ (forall q, q <> p -> events st' !! q = events st !! q)
      /\ event_calls st' = event_calls st
      /\ current_user_events st' = current_user_events st
      /\ max_user_events st' = max_user_events st).
Proof.
  intros Hp. unfold destroy_user_event. rewrite Hp.
  unfold user_event_destroy_fields, user_event_set_call_visible.
  destruct (prepare_creds_ok env); cbn [negb andb].
  - destruct (trace_remove_event_call_ret env =? 0) eqn:Hrem; cbn [negb].
    + apply Z.eqb_eq in Hrem. rewrite Hrem.
      split; [|discriminate]. intros _.
      cbn -[Z.gtb]. rewrite delete_insert_eq.
      assert (Hcount : forall c m,
                current_user_events
                  (if c >? 0 then set_current_user_events (c - 1) m else m)
                = if c >? 0 then c - 1 else current_user_events m).
      { intros c m. destruct (c >? 0); reflexivity. }
      repeat split.
      * destruct (current_user_events st >? 0); reflexivity.
      * destruct (current_user_events st >? 0); reflexivity.
      * destruct (current_user_events st >? 0); reflexivity.
      * destruct (current_user_events st >? 0); reflexivity.
      * destruct (current_user_events st >? 0); reflexivity.
      * destruct (current_user_events st >? 0); cbn; unfold owned;
          destruct (print_fmt user); cbn; lia.
      * destruct (current_user_events st >? 0); reflexivity.
      * destruct (current_user_events st >? 0); reflexivity.
    + apply Z.eqb_neq in Hrem. split; [discriminate|]. intros _. cbn.
      repeat split; try reflexivity; try assumption.
      * rewrite lookup_insert_eq. reflexivity.
      * intros q Hq. apply lookup_insert_ne. congruence.
  - split; [discriminate|]. intros _. cbn. unfold ENOMEM.
    repeat split; try reflexivity; try lia.
    + rewrite lookup_insert_eq. reflexivity.
    + intros q Hq. apply lookup_insert_ne. congruence.
Qed.

(** C5, as the code has it. Deleting a name that is not registered is
    [-ENOENT]. Deleting an event that something besides the table references
    (a count above 1 when the call is made) is [-EBUSY], and the whole state,
    the count included, is as before. An event only the table references is
    first unregistered from the sinks: when that succeeds, [delete] returns
    0 and the event is off the table and off the trace core's lists, its
    fields, validators, format, name and itself freed; when the trace core
    refuses (or credentials cannot be allocated), [delete] returns that error
    and the event stays in the table under its name. *)
Theorem delete_event (env : trace_env) (st : kstate) (name : string) :
  (lookup_name st name = None ->
     delete_user_event env st name = (- ENOENT, st))
  /\ (forall (p : ptr) (user : user_event),
        lookup_name st name = Some p ->
        events st !! p = Some user ->
        (refcnt user > 1 -> delete_user_event env st name = (- EBUSY, st))
        /\ (refcnt user = 1 ->
            let '(ret, st') := delete_user_event env st name in
            let unregistered :=
              prepare_creds_ok env && (trace_remove_event_call_ret env =? 0) in
            (unregistered = true ->
               ret = 0
               /\ events st' = delete p (events st)
               /\ register_table st' = hash_del (register_table st) p
               /\ trace_events st' = unlink p (trace_events st)
               /\ event_calls st' = unlink p (event_calls st)
               /\ live (mem st') = live (mem st) - owned user - 2)
            /\ (unregistered = false ->
                ret <> 0
                /\ ret = (if prepare_creds_ok env
                          then trace_remove_event_call_ret env else - ENOMEM)
                /\ lookup_name st' name = Some p
                /\ event_calls st' = event_calls st
                /\ current_user_events st' = current_user_events st))).
Proof.
  split.
  - intros Hlookup. unfold delete_user_event, find_user_event.
    unfold lookup_name in Hlookup. rewrite Hlookup. reflexivity.
  - intros p user Hlookup Hp.
    unfold delete_user_event, find_user_event.
    pose proof Hlookup as Hfind. unfold lookup_name in Hfind. rewrite Hfind.
    rewrite refcount_dec_inc. unfold user_event_last_ref. rewrite Hp.
    split.
    + intros Hbusy. destruct (refcnt user =? 1) eqn:Hone; [lia | reflexivity].
    + intros Hone. rewrite Hone. cbn [Z.eqb Pos.eqb negb].
      pose proof (destroy_user_event_result env p st user Hp) as Hdestroy.
      destruct (destroy_user_event env p st) as [ret st'].
      cbv zeta in Hdestroy |- *.
      destruct Hdestroy as [Hgone Hkept]. split.
      * intros Hun. destruct (Hgone Hun) as (? & ? & ? & ? & ? & ? & ? & ? & ?).
        repeat split; assumption.
      * intros Hun.
        destruct (Hkept Hun) as (? & ? & Htable & Hname & Hrest & ? & ? & ?).
        repeat split; try assumption.
        unfold lookup_name. rewrite Htable, <- Hfind.
        apply find_in_chain_names. intros q _.
        destruct (decide (q = p)) as [-> | Hq].
        -- rewrite Hname, Hp. reflexivity.
        -- rewrite (Hrest q Hq). reflexivity.
Qed.

(** A count within the cap stays within it through a registration and
    through a deletion, neither of which touches the cap. *)
Lemma count_stays_within_cap (env : trace_env) (st : kstate) (name : string)
    (args flags : option string) :
  0 <= current_user_events st <= max_user_events st ->
  max_user_events st <= UINT_MAX ->
  forall st',
    st' = (user_event_parse env st name args flags).2
    \/ st' = (delete_user_event env st name).2 ->
    max_user_events st' = max_user_events st
    /\ 0 <= current_user_events st' <= max_user_events st'.
Proof.
  intros Hrange Hmax st' [-> | ->].
  - unfold user_event_parse, find_user_event.
    destruct (find_in_chain _ _ _) as [p|]; [cbn; lia|].
    destruct (kmalloc (mem st)) as [ok m0].
    destruct ok; cbn [negb]; [|cbn; lia].
    destruct (user_event_parse_fields _ args m0) as [[ret1 user1] m1].
    destruct (negb (ret1 =? 0)).
    { destruct (put_user_frees ret1 user1 st m1) as (m' & -> & _). cbn. lia. }
    destruct (user_event_create_print_fmt user1 m1) as [[ret2 user2] m2].
    destruct (negb (ret2 =? 0)).
    { destruct (put_user_frees ret2 user2 st m2) as (m' & -> & _). cbn. lia. }
    destruct (max_user_events st <=? current_user_events st) eqn:Hfull.
    { destruct (put_user_frees (- EMFILE) user2 st m2) as (m' & -> & _).
      cbn. lia. }
    apply Z.leb_gt in Hfull.
    destruct (user_event_trace_register env _ st) as [ret3 st3] eqn:Hreg.
    destruct (trace_register_result _ _ _ _ _ Hreg)
      as (_ & _ & Hn3 & Hx3 & _).
    destruct (negb (ret3 =? 0)).
    { destruct (put_user_frees ret3 user2 st3 m2) as (m' & -> & _). cbn. lia. }
    cbn. rewrite Hn3, Hx3. unfold u32, UINT_MAX in *.
    rewrite Z.mod_small by lia. lia.
  - unfold delete_user_event, find_user_event.
    destruct (find_in_chain _ _ _) as [p|]; [|cbn; lia].
    rewrite refcount_dec_inc.
    destruct (negb (user_event_last_ref p st)) eqn:Hlast; [cbn; lia|].
    unfold user_event_last_ref in Hlast.
    destruct (events st !! p) as [user|] eqn:Hp; [|discriminate].
    pose proof (destroy_user_event_result env p st user Hp) as Hdestroy.
    destruct (destroy_user_event env p st) as [ret st'].
    cbv zeta in Hdestroy. cbn [snd].
    destruct Hdestroy as [Hgone Hkept].
    destruct (prepare_creds_ok env && (trace_remove_event_call_ret env =? 0)).
    * destruct (Hgone eq_refl) as (_ & _ & _ & _ & _ & _ & _ & Hn & Hx).
      rewrite Hn, Hx. destruct (current_user_events st >? 0) eqn:Hpos; lia.
    * destruct (Hkept eq_refl) as (_ & _ & _ & _ & _ & _ & Hn & Hx).
      rewrite Hn, Hx. lia.
Qed.

(** C9, as the code has it. The default cap is 32768. With the count at or
    above the cap, registering a new name fails and leaves the table, the
    events, the trace core's lists and the count as they were: the event is
    neither visible nor inserted. The error is [-EMFILE] whenever the steps
    the code takes before it looks at the cap (allocating the event, parsing
    its fields, building its format) succeed; when one of them fails, it is
    that step's error ([cap_refusal]), which is negative. And a count within
    the cap stays within it through every registration and deletion: of the
    steps that change the registry, only a write to the tunable that lowers
    it below the count takes the count above the cap. *)
Theorem registration_cap (env : trace_env) (st : kstate) (name : string)
    (args flags : option string) :
  max_user_events_default = 32768
  /\ (lookup_name st name = None ->
      max_user_events st <= current_user_events st ->
      let '(ret, newuser, st') := user_event_parse env st name args flags in
      ret = cap_refusal name args (mem st)
      /\ ret < 0
      /\ newuser = None
      /\ events st' = events st
      /\ register_table st' = register_table st
      /\ trace_events st' = trace_events st
      /\ event_calls st' = event_calls st
      /\ current_user_events st' = current_user_events st
      /\ (forall m0 user1 m1 user2 m2,
            kmalloc (mem st) = (true, m0) ->
            user_event_parse_fields (new_user_event name) args m0
              = (0, user1, m1) ->
            user_event_create_print_fmt user1 m1 = (0, user2, m2) ->
            ret = - EMFILE))
  /\ (0 <= current_user_events st <= max_user_events st ->
      max_user_events st <= UINT_MAX ->
      forall st',
        st' = (user_event_parse env st name args flags).2
        \/ st' = (delete_user_event env st name).2 ->
        max_user_events st' = max_user_events st
        /\ 0 <= current_user_events st' <= max_user_events st')
  /\ (0 <= current_user_events st <= max_user_events st ->
      max_user_events st <= UINT_MAX ->
      forall st',
        registry_step env st st' ->
        0 <= current_user_events st' <= max_user_events st'
        \/ exists n, st' = set_max_user_events n st
                     /\ n < current_user_events st).
Proof.
  split; [reflexivity|]. split; [|split].
  - intros Hlookup Hcap. unfold lookup_name in Hlookup.
    unfold user_event_parse, find_user_event, cap_refusal. rewrite Hlookup.
    fold (new_user_event name).
    destruct (kmalloc (mem st)) as [ok m0] eqn:Hk0.
    destruct ok; cbn [negb].
    2:{ cbn. unfold ENOMEM. repeat split; try reflexivity; try lia.
        intros; discriminate. }
    destruct (user_event_parse_fields (new_user_event name) args m0)
      as [[ret1 user1] m1] eqn:Hfields.
    destruct (parse_fields_account _ _ _ _ _ _ Hfields) as (Hle1 & _ & Hfmt1 & _).
    destruct (ret1 =? 0) eqn:Hret1; cbn [negb].
    2:{ apply Z.eqb_neq in Hret1.
        destruct (put_user_frees ret1 user1 st m1) as (m' & -> & _). cbn.
        repeat split; try reflexivity; try lia.
        intros m0' user1' m1' user2' m2' [= <-] Hf _.
        rewrite Hfields in Hf. injection Hf as Hz _ _. contradiction. }
    destruct (user_event_create_print_fmt user1 m1) as [[ret2 user2] m2] eqn:Hcreate.
    destruct (create_print_fmt_account _ _ _ _ _ Hfmt1 Hcreate) as (Hret2v & _ & _).
    destruct (ret2 =? 0) eqn:Hret2; cbn [negb].
    2:{ apply Z.eqb_neq in Hret2.
        destruct (put_user_frees ret2 user2 st m2) as (m' & -> & _). cbn.
        repeat split; try reflexivity.
        - destruct Hret2v as [-> | ->]; [contradiction | unfold ENOMEM; lia].
        - intros m0' user1' m1' user2' m2' [= <-] Hf Hc.
          apply Z.eqb_eq in Hret1. subst ret1.
          rewrite Hfields in Hf. injection Hf as <- <-.
          rewrite Hcreate in Hc. injection Hc as Hz _ _. contradiction. }
    destruct (max_user_events st <=? current_user_events st) eqn:Hfull; [|lia].
    destruct (put_user_frees (- EMFILE) user2 st m2) as (m' & -> & _). cbn.
    unfold EMFILE. repeat split; try reflexivity; lia.
  - intros Hrange Hmax st' Hst'.
    exact (count_stays_within_cap env st name args flags Hrange Hmax st' Hst').
  - intros Hrange Hmax st' Hstep.
    destruct Hstep as [name' args' flags' | name' | n Hn].
    + left.
      apply (count_stays_within_cap env st name' args' flags' Hrange Hmax).
      left. reflexivity.
    + left.
      apply (count_stays_within_cap env st name' None None Hrange Hmax).
      right. reflexivity.
    + destruct (Z_lt_le_dec n (current_user_events st)) as [Hlow | Hhigh].
      * right. exists n. split; [reflexivity | exact Hlow].
      * left. cbn. lia.
Qed.

(** *** Field errors *)








(** *** Offsets and the minimum size *)

Lemma prefix_app (pre s : string) :
  String.prefix pre s = true -> exists rest, s = pre +:+ rest.
Proof.
  revert s. induction pre as [|a pre IH]; intros s.
  - intros _. exists s. reflexivity.
  - destruct s as [|b s]; cbn; [discriminate|].
    destruct (ascii_dec a b) as [<- | Hne]; [|discriminate].
    intros Hpre. destruct (IH s Hpre) as (rest & ->).
    exists rest. reflexivity.
Qed.

Lemma str_has_prefix_test (s pre : string) :
  pre <> EmptyString ->
  negb (str_has_prefix s pre =? 0)%nat = String.prefix pre s.
Proof.
  intros Hpre. unfold str_has_prefix.
  destruct (String.prefix pre s); [|reflexivity].
  destruct pre; [contradiction | reflexivity].
Qed.

Lemma indirect_size (type : string) :
  is_indirect_type type = true -> user_field_size type = 4.
Proof.
  unfold is_indirect_type. intros Hind.
  apply orb_true_iff in Hind as [Hpre | Hpre];
    apply prefix_app in Hpre as (rest & ->); destruct rest; reflexivity.
Qed.

Lemma struct_not_indirect (field type_tail : string) (len : nat) :
  field_type_prefix field = (len, true) ->
  is_indirect_type (string_take len field +:+ type_tail) = false.
Proof.
  unfold field_type_prefix. rewrite !str_has_prefix_test by discriminate.
  unfold str_has_prefix.
  destruct (String.prefix "unsigned " field); [discriminate|].
  destruct (String.prefix "struct " field) eqn:Hstruct.
  - intros [= <-]. apply prefix_app in Hstruct as (rest & ->).
    destruct rest; reflexivity.
  - destruct (String.prefix "__data_loc unsigned " field); [discriminate|].
    destruct (String.prefix "__data_loc " field); [discriminate|].
    destruct (String.prefix "__rel_loc unsigned " field); [discriminate|].
    destruct (String.prefix "__rel_loc " field); discriminate.
Qed.

Lemma add_field_ok (user user' : user_event) (type name : string)
    (offset size is_signed filter_type : Z) (m m' : kmem) :
  user_event_add_field user type name offset size is_signed filter_type m
    = (0, user', m') ->
  fields user'
    = {| f_type := type; f_name := name; f_offset := offset; f_size := size;
         f_is_signed := is_signed; f_filter_type := filter_type |}
      :: fields user
  /\ min_size user' = s32 (u64 (s32 (offset + size) - sizeof_trace_entry))
  /\ validators user'
     = validators user
       ++ (if is_indirect_type type
           then [{| v_offset := offset; v_flags := validator_flags_of type |}]
           else []).
Proof.
  unfold user_event_add_field, is_indirect_type, validator_flags_of.
  rewrite !str_has_prefix_test by discriminate.
  destruct (kmalloc m) as [field_ok m1]. destruct field_ok; cbn [negb];
    [|discriminate].
  destruct (String.prefix "__data_loc " type); cbn [orb].
  - destruct (kmalloc m1) as [validator_ok m2].
    destruct validator_ok; cbn [negb]; [|discriminate].
    intros [= <- <-]. cbn. destruct (strstr type "char"); repeat split; reflexivity.
  - destruct (String.prefix "__rel_loc " type).
    + destruct (kmalloc m1) as [validator_ok m2].
      destruct validator_ok; cbn [negb]; [|discriminate].
      intros [= <- <-]. cbn.
      destruct (strstr type "char"); repeat split; reflexivity.
    + intros [= <- <-]. cbn. rewrite app_nil_r. repeat split; reflexivity.
Qed.

(** A successful [user_event_parse_field] either skipped an empty field, or
    added one field at the running offset, advanced the offset by its size
    and set the minimum size from them; an indirect field is 4 bytes and
    gets a validator at its offset. *)
Lemma parse_field_ok (field : string) (user user' : user_event)
    (offset offset' : Z) (m m' : kmem) :
  user_event_parse_field field user offset m = (0, user', offset', m') ->
  (user' = user /\ offset' = offset)
  \/ exists f,
       fields user' = f :: fields user
       /\ f_offset f = s32 offset
       /\ field_sized f
       /\ offset' = u32 (offset + f_size f)
       /\ min_size user'
          = s32 (u64 (s32 (s32 offset + f_size f) - sizeof_trace_entry))
       /\ validators user'
          = validators user
            ++ (if is_indirect_type (f_type f)
                then [{| v_offset := s32 offset;
                         v_flags := validator_flags_of (f_type f) |}]
                else []).
Proof.
  unfold user_event_parse_field.
  destruct (split_field field) as [[err | parts]|] eqn:Hsplit.
  - intros [= -> <- <- <-]. left. split; reflexivity.
  - destruct (fp_name parts) as [name|];
      [|intros [= Hz]; unfold EINVAL in Hz; lia].
    destruct (fp_depth parts <? FIELD_DEPTH_SIZE) eqn:Hdepth;
      [intros [= Hz]; unfold EINVAL in Hz; lia|].
    set (size := if fp_depth parts =? FIELD_DEPTH_SIZE
                 then user_field_size (fp_type parts) else fp_size parts).
    destruct (size =? 0) eqn:Hzero; [intros [= Hz]; unfold EINVAL in Hz; lia|].
    destruct (size <? 0) eqn:Hneg; [intros [= Hz]; lia|].
    destruct (user_event_add_field _ _ _ _ _ _ _ _) as [[ret1 user1] m1] eqn:Hadd.
    intros [= -> <- <- <-]. right.
    destruct (add_field_ok _ _ _ _ _ _ _ _ _ _ Hadd) as (Hfields & Hmin & Hvals).
    apply Z.eqb_neq in Hzero. apply Z.ltb_ge in Hneg.
    eexists. split; [exact Hfields|].
    unfold field_sized. simpl f_size. simpl f_type. simpl f_offset.
    repeat split; try assumption; try lia.
    (* an indirect field is sized by its type *)
    intros Hind. subst size.
    destruct (fp_depth parts =? FIELD_DEPTH_SIZE) eqn:Htwo;
      [apply indirect_size, Hind|].
    exfalso.
    (* a field with a size token is a struct, and a struct is not indirect *)
    unfold split_field in Hsplit.
    destruct (skip_spaces field) as [|c body]; [discriminate|].
    destruct (field_type_prefix (String c body)) as [len is_struct] eqn:Hprefix.
    assert (Hloop : forall toks st parts',
              parse_parts toks is_struct st = inr parts' ->
              fp_depth st <= 2 ->
              (fp_depth parts' <= 2
               \/ (is_struct = true /\ fp_depth parts' = 3
                   /\ (1 <= fp_depth st -> fp_type parts' = fp_type st)))).
    { clear. induction toks as [|tok toks IH]; intros st parts'; cbn.
      - intros [= <-] Hle. left. exact Hle.
      - unfold FIELD_DEPTH_TYPE, FIELD_DEPTH_NAME, FIELD_DEPTH_SIZE.
        destruct (fp_depth st =? 0) eqn:H0.
        + intros Hp Hle. apply IH in Hp; cbn in *; [|lia].
          destruct Hp as [Hp | (Hs & Hd & Ht)]; [left; exact Hp|].
          right. repeat split; try assumption. lia.
        + destruct (fp_depth st =? 1) eqn:H1.
          * intros Hp Hle. apply IH in Hp; cbn in *; [|lia].
            destruct Hp as [Hp | (Hs & Hd & Ht)]; [left; exact Hp|].
            right. repeat split; try assumption. intros _. apply Ht. lia.
          * destruct (fp_depth st =? 2) eqn:H2; [|discriminate].
            destruct is_struct; cbn [negb]; [|discriminate].
            destruct (kstrtou32 tok 10) as [v|]; [|discriminate].
            intros Hp _. destruct toks as [|tok' toks]; cbn in Hp.
            -- injection Hp as <-. cbn. right. repeat split; lia.
            -- apply Z.eqb_eq in H2. rewrite H2 in Hp. cbn in Hp. discriminate. }
    unfold FIELD_DEPTH_SIZE in Htwo, Hdepth.
    destruct (len =? 0)%nat eqn:Hlen.
    + injection Hsplit as Hsplit. apply Hloop in Hsplit; cbn; [|lia].
      destruct Hsplit as [Hle | (Hs & _)]; [lia|]. subst is_struct.
      apply Nat.eqb_eq in Hlen. subst len.
      unfold field_type_prefix in Hprefix.
      rewrite !str_has_prefix_test in Hprefix by discriminate.
      unfold str_has_prefix in Hprefix.
      repeat match type of Hprefix with
             | context [String.prefix ?pre ?f] => destruct (String.prefix pre f)
             end; discriminate.
    + destruct (split_at " " (string_drop len (String c body)))
        as [[type_tail rest]|]; [|discriminate].
      injection Hsplit as Hsplit. apply Hloop in Hsplit; cbn; [|lia].
      destruct Hsplit as [Hle | (Hs & _ & Htype)]; [lia|]. subst is_struct.
      cbn in Htype. rewrite Htype in Hind by lia.
      rewrite (struct_not_indirect _ _ _ Hprefix) in Hind. discriminate.
  - intros [= <- <- <-]. left. split; reflexivity.
Qed.

Lemma s32_small (z : Z) : - 2 ^ 31 <= z < 2 ^ 31 -> s32 z = z.
Proof. intros Hz. unfold s32. rewrite Z.mod_small; lia. Qed.

Lemma u32_small (z : Z) : 0 <= z < 2 ^ 32 -> u32 z = z.
Proof. intros Hz. unfold u32. apply Z.mod_small. exact Hz. Qed.

Lemma u64_small (z : Z) : 0 <= z < 2 ^ 64 -> u64 z = z.
Proof. intros Hz. unfold u64. apply Z.mod_small. exact Hz. Qed.

Lemma sizes_sum_cons (f : ftrace_event_field) (fs : list ftrace_event_field) :
  sizes_sum (f :: fs) = f_size f + sizes_sum fs.
Proof. reflexivity. Qed.

Lemma sizes_sum_app (fs gs : list ftrace_event_field) :
  sizes_sum (fs ++ gs) = sizes_sum fs + sizes_sum gs.
Proof.
  unfold sizes_sum. induction fs as [|f fs IH]; cbn; [reflexivity|].
  rewrite IH. lia.
Qed.

Lemma sizes_sum_rev (fs : list ftrace_event_field) :
  sizes_sum (rev fs) = sizes_sum fs.
Proof.
  induction fs as [|f fs IH]; [reflexivity|].
  cbn [rev]. rewrite sizes_sum_app, IH. unfold sizes_sum. cbn. lia.
Qed.

Lemma sizes_sum_nonneg (fs : list ftrace_event_field) :
  Forall field_sized fs -> 0 <= sizes_sum fs.
Proof.
  induction 1 as [|f fs [Hpos _] _ IH]; unfold sizes_sum in *; cbn; lia.
Qed.

Lemma offsets_from_snoc (start : Z) (fs : list ftrace_event_field)
    (f : ftrace_event_field) :
  offsets_from start fs ->
  f_offset f = start + sizes_sum fs ->
  offsets_from start (fs ++ [f]).
Proof.
  unfold sizes_sum.
  revert start. induction fs as [|g fs IH]; intros start; cbn.
  - intros _ Hf. split; [lia | exact I].
  - intros [Hg Hrest] Hf. split; [exact Hg|]. apply IH; [exact Hrest | lia].
Qed.

(** The loop only adds sized fields, so the sum of the sizes only grows. *)
Lemma parse_fields_loop_grows (flds : list string) (user user' : user_event)
    (offset ret0 ret : Z) (m m' : kmem) :
  parse_fields_loop flds ret0 user offset m = (ret, user', m') ->
  Forall field_sized (fields user) ->
  Forall field_sized (fields user')
  /\ sizes_sum (fields user) <= sizes_sum (fields user').
Proof.
  revert user offset ret0 m.
  induction flds as [|field flds IH]; intros user offset ret0 m; cbn.
  - intros [= <- <- <-] Hsized. split; [exact Hsized | lia].
  - destruct (user_event_parse_field field user offset m)
      as [[[ret1 user1] offset1] m1] eqn:Hfield.
    destruct (ret1 =? 0) eqn:Hret1; cbn [negb].
    + apply Z.eqb_eq in Hret1. subst ret1.
      intros Hloop Hsized.
      apply parse_field_ok in Hfield as [[-> ->] | (f & Hf & _ & Hfs & _)].
      * exact (IH _ _ _ _ Hloop Hsized).
      * assert (Hsized1 : Forall field_sized (fields user1)).
        { rewrite Hf. constructor; assumption. }
        destruct (IH _ _ _ _ Hloop Hsized1) as [Hall Hle].
        split; [exact Hall|]. rewrite Hf, sizes_sum_cons in Hle.
        destruct Hfs as [Hpos _]. lia.
    + intros [= <- <- <-] Hsized.
      apply parse_field_account in Hfield as (_ & _ & _ & _ & Hsame).
      apply Z.eqb_neq in Hret1. rewrite (Hsame Hret1).
      split; [exact Hsized | lia].
Qed.

Lemma parse_fields_loop_layout (flds : list string) (user user' : user_event)
    (offset ret0 ret : Z) (m m' : kmem) :
  layout_ok user offset ->
  parse_fields_loop flds ret0 user offset m = (ret, user', m') ->
  sizeof_trace_entry + sizes_sum (fields user') < 2 ^ 31 ->
  exists offset', layout_ok user' offset'.
Proof.
  pose proof sizeof_trace_entry_range as Hhdr.
  revert user offset ret0 m.
  induction flds as [|field flds IH]; intros user offset ret0 m Hlay; cbn.
  - intros [= <- <- <-] _. exists offset. exact Hlay.
  - destruct (user_event_parse_field field user offset m)
      as [[[ret1 user1] offset1] m1] eqn:Hfield.
    destruct (ret1 =? 0) eqn:Hret1; cbn [negb].
    + apply Z.eqb_eq in Hret1. subst ret1. intros Hloop Hbound.
      apply parse_field_ok in Hfield
        as [[-> ->] | (f & Hf & Hoff & Hfs & Hnext & Hmin & _)].
      * exact (IH _ _ _ _ Hlay Hloop Hbound).
      * destruct Hlay as (Hoffset & Hseq & Hsized & Hmin0).
        assert (Hsized1 : Forall field_sized (fields user1)).
        { rewrite Hf. constructor; assumption. }
        destruct (parse_fields_loop_grows _ _ _ _ _ _ _ _ Hloop Hsized1)
          as [_ Hle].
        rewrite Hf, sizes_sum_cons in Hle.
        pose proof (sizes_sum_nonneg _ Hsized) as Hnonneg.
        destruct Hfs as [Hpos Hind].
        assert (Hs32 : s32 offset = offset) by (apply s32_small; lia).
        apply (IH user1 offset1 0 m1); [|exact Hloop | exact Hbound].
        unfold layout_ok. rewrite Hf, sizes_sum_cons. cbn [rev].
        repeat split.
        -- rewrite Hnext, u32_small by lia. lia.
        -- apply offsets_from_snoc; [exact Hseq|].
           rewrite sizes_sum_rev. lia.
        -- constructor; [split; assumption | exact Hsized].
        -- rewrite Hmin, Hs32, (s32_small (offset + f_size f)) by lia.
           rewrite u64_small by lia. rewrite s32_small by lia. lia.
    + intros [= <- <- <-] _.
      apply parse_field_account in Hfield as (_ & _ & _ & _ & Hsame).
      apply Z.eqb_neq in Hret1. rewrite (Hsame Hret1).
      exists offset. exact Hlay.
Qed.

(** The part of C8 that holds on the code: for a field specification that
    parses and whose record (header and fields) is shorter than 2^31 bytes,
    the fields stand one after the other from the end of the header on,
    every field has a positive size, an indirect field has size 4, and the
    minimum payload size is the sum of the field sizes. *)
Lemma parse_fields_layout (name : string) (args : option string)
    (user' : user_event) (m m' : kmem) :
  user_event_parse_fields (new_user_event name) args m = (0, user', m') ->
  sizeof_trace_entry + sizes_sum (fields user') < 2 ^ 31 ->
  let declared := rev (fields user') in
  offsets_from sizeof_trace_entry declared
  /\ Forall field_sized declared
  /\ min_size user' = sizes_sum declared.
Proof.
  pose proof sizeof_trace_entry_range as Hhdr.
  intros Hparse Hbound declared. subst declared.
  assert (Hstart : layout_ok (new_user_event name) (u32 sizeof_trace_entry)).
  { unfold layout_ok. cbn. rewrite u32_small by lia.
    repeat split; [lia | constructor]. }
  assert (Hend : exists offset', layout_ok user' offset').
  { unfold user_event_parse_fields in Hparse. destruct args as [args|].
    - exact (parse_fields_loop_layout _ _ _ _ _ _ _ _ Hstart Hparse Hbound).
    - injection Hparse as <- <-. eexists. exact Hstart. }
  destruct Hend as (offset' & _ & Hseq & Hsized & Hmin).
  rewrite sizes_sum_rev. repeat split; try assumption.
  apply Forall_rev. exact Hsized.
Qed.

End RegistryProperties.

(** ** Registration requests *)

Section IoctlProperties.
Context `{Platform}.



End IoctlProperties.

(** ** The properties at concrete inputs *)

(** The example of the specification, for every header size: [msg] stands
    at the end of the header with size 20, [id] 20 bytes further with size
    4, and the minimum payload size is 24. *)
Lemma parse_spec_example `{Platform} (n : Z) :
  exists user' m',
    user_event_parse_fields (new_user_event "test")
      (Some "char[20] msg;unsigned int id") {| alloc_plan := []; live := n |}
    = (0, user', m')
    /\ rev (fields user')
       = [ {| f_type := "char[20]"; f_name := "msg";
              f_offset := sizeof_trace_entry; f_size := 20; f_is_signed := 1;
              f_filter_type := FILTER_OTHER |};
           {| f_type := "unsigned int"; f_name := "id";
              f_offset := sizeof_trace_entry + 20; f_size := 4;
              f_is_signed := 0; f_filter_type := FILTER_OTHER |} ]
    /\ validators user' = []
    /\ min_size user' = 24.
Proof.
  pose proof sizeof_trace_entry_range as Hhdr.
  unfold user_event_parse_fields.
  change (strsep_all ";" "char[20] msg;unsigned int id")
    with ["char[20] msg"; "unsigned int id"]%string.
  cbn [parse_fields_loop]. unfold user_event_parse_field.
  change (split_field "char[20] msg")
    with (Some (inr (A:=Z)
                  {| fp_depth := 2; fp_type := "char[20]";
                     fp_name := Some "msg"%string; fp_size := - EINVAL |})).
  change (split_field "unsigned int id")
    with (Some (inr (A:=Z)
                  {| fp_depth := 2; fp_type := "unsigned int";
                     fp_name := Some "id"%string; fp_size := - EINVAL |})).
  cbn [fp_name fp_depth fp_type fp_size].
  change (user_field_size "char[20]") with 20.
  change (user_field_size "unsigned int") with 4.
  cbn [Z.ltb Z.eqb Z.compare Pos.compare Pos.compare_cont Pos.eqb
       FIELD_DEPTH_SIZE].
  unfold user_event_add_field.
  change (str_has_prefix "char[20]" "__data_loc ") with 0%nat.
  change (str_has_prefix "char[20]" "__rel_loc ") with 0%nat.
  change (str_has_prefix "unsigned int" "__data_loc ") with 0%nat.
  change (str_has_prefix "unsigned int" "__rel_loc ") with 0%nat.
  cbn [kmalloc alloc_plan live negb Nat.eqb Z.eqb].
  do 2 eexists. split; [reflexivity|].
  cbn [fields set_fields set_min_size rev app min_size validators
       new_user_event].
  rewrite !(u32_small sizeof_trace_entry) by lia.
  rewrite !(s32_small sizeof_trace_entry) by lia.
  rewrite (u32_small (sizeof_trace_entry + 20)) by lia.
  rewrite !(s32_small (sizeof_trace_entry + 20)) by lia.
  rewrite (s32_small (sizeof_trace_entry + 20 + 4)) by lia.
  replace (sizeof_trace_entry + 20 + 4 - sizeof_trace_entry) with 24 by lia.
  repeat split; reflexivity.
Qed.

(** C8, at the input on which the code departs from it. Two [struct]
    fields of 1500000000 bytes each parse; their sizes sum to 3000000000,
    and the minimum size the code stores is that sum wrapped into an [int],
    -1294967296. Compared as a [size_t], it refuses every payload. *)
Theorem min_size_overflow :
  let spec := "struct a x 1500000000;struct b y 1500000000"%string in
  let '(ret, user, _) :=
    user_event_parse_fields (H:=linux_x86_64) (new_user_event "e") (Some spec)
      mem0 in
  ret = 0
  /\ map f_size (rev (fields user)) = [1500000000; 1500000000]
  /\ map f_offset (rev (fields user)) = [8; 1500000008]
  /\ sizes_sum (rev (fields user)) = 3000000000
  /\ min_size user = -1294967296
  /\ min_size user <> sizes_sum (rev (fields user))
  /\ u64 (min_size user) = 2 ^ 64 - 1294967296.
Proof. vm_compute. repeat split; try reflexivity. discriminate. Qed.

(** C1. The claim is checked at a payload the validator of [string_event]
    rejects: a lone locator that claims 8 bytes after itself, in a record of
    12 bytes whose region would end at offset 20. Written from memory that
    is resident, the write returns [-EFAULT] and the record is discarded,
    as the claim says. Written while only the first byte of the payload is
    resident, [fault_in_iov_iter_readable] having succeeded before,
    [copy_nofault] copies that one byte; [user_event_ftrace] takes a copy
    for failed only when it copied nothing (line 1348), so the validator
    runs on that byte followed by what the ring held, is satisfied, and the
    record is committed: the write returns 8, the whole count. *)
Theorem partial_copy_escapes_validation :
  Exists (validator_rejects
            (fill_entry (H:=linux_x86_64) (rb_memory empty_ring)
               rejected_payload) 12)
    (validators string_event)
  /\ user_events_write_core (H:=linux_x86_64) string_events string_file
       (iter_of ([0; 0; 0; 0] ++ rejected_payload)) empty_sinks
     = Returned (- EFAULT)
         {| ftrace_sink := rb_discard (rb_reserve empty_ring);
            perf_sink := empty_perf |}
  /\ fault_in_iov_iter_readable (copy_from_iter 4 partial_write).2 4 = 0
  /\ (copy_nofault 4 (copy_from_iter 4 partial_write).2).1 = [0]
  /\ user_events_write_core (H:=linux_x86_64) string_events string_file
       partial_write empty_sinks
     = Returned 8
         {| ftrace_sink := rb_commit (repeat 0 12) (rb_reserve empty_ring);
            perf_sink := empty_perf |}.
Proof.
  split.
  { apply Exists_cons_hd. left. vm_compute. reflexivity. }
  split; [vm_compute; reflexivity|].
  split; [reflexivity|]. split; [reflexivity|].
  vm_compute. reflexivity.
Qed.

(** An instance of [validator_rejection]: the rejected payload, copied
    whole, is discarded. *)
Lemma validator_rejection_witness :
  let i := iter_of [0; 0; 8; 0] in
  let entry := fill_entry (H:=linux_x86_64) (rb_memory empty_ring) [0; 0; 8; 0] in
  Exists (validator_rejects entry 12) (validators string_event)
  /\ user_event_ftrace (H:=linux_x86_64) string_event i (Some file_on) false
       empty_ring
     = (true, rb_discard (rb_reserve empty_ring)).
Proof.
  intros i entry.
  assert (Hrej : Exists (validator_rejects entry 12) (validators string_event)).
  { apply Exists_cons_hd. left. vm_compute. reflexivity. }
  split; [exact Hrej|].
  destruct (validator_rejection (H:=linux_x86_64) string_event i (Some file_on)
              false empty_ring empty_perf) as [Hft _].
  destruct (Hft Hrej) as (_ & _ & [Hsame | Hdiscard]).
  - vm_compute in Hsame. discriminate Hsame.
  - exact Hdiscard.
Defined.

(** The witness of C3: a 24-byte payload for the [test] event at index 0,
    with no sink attached. *)
Lemma emit_without_sink_witness :
  let i := iter_of ([0; 0; 0; 0] ++ repeat 65 24) in
  let evs : gmap ptr user_event := {[ 1%positive := quiet_event ]} in
  let info := {| refs := Some [Some 1%positive] |} in
  write_index_of i = Some 0
  /\ resolve evs info 0 = Some quiet_event
  /\ event_consistent quiet_event
  /\ user_events_write_core (H:=linux_x86_64) evs info i empty_sinks
     = Returned 28 empty_sinks.
Proof.
  intros i evs info.
  assert (Hidx : write_index_of i = Some 0) by reflexivity.
  assert (Hres : resolve evs info 0 = Some quiet_event) by reflexivity.
  assert (Hcons : event_consistent quiet_event).
  { split; [reflexivity|]. cbn. lia. }
  split; [exact Hidx|]. split; [exact Hres|]. split; [exact Hcons|].
  change 28 with (iov_count i).
  apply (emit_without_sink (H:=linux_x86_64) evs info i empty_sinks 0 quiet_event
           Hidx (Z.le_refl 0) Hres Hcons eq_refl).
  vm_compute. discriminate.
Defined.

(** The witness of C4: registering [test] in the empty registry. *)
Lemma register_new_name_witness :
  lookup_name (H:=linux_x86_64) boot_state "test" = None
  /\ exists st',
       user_event_parse (H:=linux_x86_64) trace_ok boot_state "test"
         (Some "char[20] msg;unsigned int id") None
       = (0, Some 1%positive, st')
       /\ refcnt <$> events st' !! 1%positive = Some 2
       /\ lookup_name (H:=linux_x86_64) st' "test" = Some 1%positive.
Proof.
  split; [reflexivity|].
  pose proof (register_new_name (H:=linux_x86_64) trace_ok boot_state "test"
                (Some "char[20] msg;unsigned int id") None eq_refl) as Hnew.
  cbv zeta in Hnew.
  destruct (user_event_parse trace_ok boot_state "test"
              (Some "char[20] msg;unsigned int id") None)
    as [[ret newuser] st'] eqn:Hparse.
  assert (Hret : ret = 0).
  { apply (f_equal (fun r => r.1.1)) in Hparse. vm_compute in Hparse.
    symmetry. exact Hparse. }
  destruct Hnew as [Hok _].
  destruct (Hok Hret)
    as (m0 & m1 & m2 & user1 & user2 & st_vis & _ & _ & _ & _ & _ & Hp & _ & _
        & _ & Hfind & Hcnt & _).
  change (fresh (dom (events boot_state))) with 1%positive in Hp, Hfind, Hcnt.
  exists st'. subst ret newuser. repeat split; assumption.
Defined.

(** The witness of C5: deleting [test] while the caller of the registration
    still holds its reference is [-EBUSY] and changes nothing. *)
Lemma delete_event_witness :
  lookup_name (H:=linux_x86_64) registered_state "test" = Some 1%positive
  /\ refcnt <$> events registered_state !! 1%positive = Some 2
  /\ delete_user_event (H:=linux_x86_64) trace_ok registered_state "test"
     = (- EBUSY, registered_state).
Proof.
  assert (Hlookup : lookup_name (H:=linux_x86_64) registered_state "test"
                    = Some 1%positive) by (vm_compute; reflexivity).
  assert (Hcnt : refcnt <$> events registered_state !! 1%positive = Some 2)
    by (vm_compute; reflexivity).
  split; [exact Hlookup|]. split; [exact Hcnt|].
  destruct (events registered_state !! 1%positive) as [user|] eqn:Hp;
    [|discriminate Hcnt].
  injection Hcnt as Hcnt.
  destruct (delete_event (H:=linux_x86_64) trace_ok registered_state "test")
    as [_ Hfound].
  destruct (Hfound 1%positive user Hlookup Hp) as [Hbusy _].
  apply Hbusy. lia.
Defined.

(** The counterexample to C5 as stated: [test] is referenced by the table
    alone, the credentials for the call into the trace core cannot be
    allocated, and [delete] returns [-ENOMEM] with the event still in the
    table. *)
Lemma delete_unreferenced_can_fail :
  ~ delete_as_specified (H:=linux_x86_64) no_creds idle_state "test".
Proof.
  intros Hspec.
  assert (Hlookup : lookup_name (H:=linux_x86_64) idle_state "test"
                    = Some 1%positive) by (vm_compute; reflexivity).
  assert (Hcnt : refcnt <$> events idle_state !! 1%positive = Some 1)
    by (vm_compute; reflexivity).
  destruct (events idle_state !! 1%positive) as [user|] eqn:Hp;
    [|discriminate Hcnt].
  injection Hcnt as Hcnt.
  assert (Hone : refcnt user <= 1) by lia.
  destruct (Hspec 1%positive user Hlookup Hp Hone) as [Hgone _].
  vm_compute in Hgone. discriminate Hgone.
Qed.

(** The witness of C6: registering [test] again with other fields. *)
Lemma register_existing_name_witness :
  lookup_name (H:=linux_x86_64) idle_state "test" = Some 1%positive
  /\ exists user st',
       events idle_state !! 1%positive = Some user
       /\ user_event_parse (H:=linux_x86_64) no_creds idle_state "test"
            (Some "u64 other") None
          = (0, Some 1%positive, st')
       /\ events st' = <[1%positive := set_refcnt (refcnt user + 1) user]>
                         (events idle_state)
       /\ register_table st' = register_table idle_state.
Proof.
  assert (Hlookup : lookup_name (H:=linux_x86_64) idle_state "test"
                    = Some 1%positive) by (vm_compute; reflexivity).
  split; [exact Hlookup|].
  destruct (register_existing_name (H:=linux_x86_64) no_creds idle_state "test"
              (Some "u64 other") None 1%positive Hlookup)
    as (user & st' & Hp & _ & Hparse & Hevents & Htable & _).
  exists user, st'. repeat split; assumption.
Defined.



(** The counterexample to C9 as stated. The count exceeds the cap: [test] is
    registered, and then 0 is written to the tunable; the one event stays.
    And the error at the cap is that of the first step to fail, the cap
    being looked at last: a well-formed registration whose event cannot be
    allocated gets [-ENOMEM], and one with a field of unknown type
    [-EINVAL]. *)
Lemma lowered_cap_is_exceeded :
  (~ count_within_cap_as_specified (H:=linux_x86_64) trace_ok)
  /\ (~ cap_error_as_specified (H:=linux_x86_64) trace_ok
          capped_state_no_memory "other" (Some "u64 x") None)
  /\ (~ cap_error_as_specified (H:=linux_x86_64) trace_ok capped_state "other"
          (Some "bogus x") None).
Proof.
  split; [|split].
  - intros Hspec.
    pose proof (Hspec _
      (reachable_step trace_ok _ _
         (reachable_step trace_ok _ _ (reachable_boot trace_ok)
            (step_register trace_ok boot_state "test" (Some "u64 x") None))
         (step_tunable trace_ok _ 0 ltac:(unfold UINT_MAX; lia)))) as Hle.
    vm_compute in Hle. apply Hle. reflexivity.
  - intros Hspec.
    assert (Hret : (user_event_parse (H:=linux_x86_64) trace_ok
                      capped_state_no_memory "other" (Some "u64 x") None).1.1
                   = - EMFILE).
    { apply Hspec; [vm_compute; reflexivity | vm_compute; discriminate]. }
    vm_compute in Hret. discriminate Hret.
  - intros Hspec.
    assert (Hret : (user_event_parse (H:=linux_x86_64) trace_ok capped_state
                      "other" (Some "bogus x") None).1.1 = - EMFILE).
    { apply Hspec; [vm_compute; reflexivity | vm_compute; discriminate]. }
    vm_compute in Hret. discriminate Hret.
Qed.

(** The witness of C9: at the cap, a well-formed new event is refused with
    [-EMFILE] and the count stays at the cap. *)
Lemma registration_cap_witness :
  lookup_name (H:=linux_x86_64) capped_state "other" = None
  /\ max_user_events capped_state <= current_user_events capped_state
  /\ exists st',
       user_event_parse (H:=linux_x86_64) trace_ok capped_state "other"
         (Some "u64 x") None
       = (- EMFILE, None, st')
       /\ events st' = events capped_state
       /\ current_user_events st' = current_user_events capped_state.
Proof.
  assert (Hnew : lookup_name (H:=linux_x86_64) capped_state "other" = None)
    by (vm_compute; reflexivity).
  assert (Hcap : max_user_events capped_state
                 <= current_user_events capped_state)
    by (vm_compute; discriminate).
  split; [exact Hnew|]. split; [exact Hcap|].
  destruct (registration_cap (H:=linux_x86_64) trace_ok capped_state "other"
              (Some "u64 x") None) as (_ & Hfull & _).
  specialize (Hfull Hnew Hcap).
  destruct (user_event_parse trace_ok capped_state "other" (Some "u64 x") None)
    as [[ret newuser] st'] eqn:Hparse.
  destruct Hfull as (Hret & _ & -> & Hevents & _ & _ & _ & Hcount & _).
  assert (Herr : cap_refusal (H:=linux_x86_64) "other" (Some "u64 x")
                   (mem capped_state) = - EMFILE)
    by (vm_compute; reflexivity).
  rewrite Herr in Hret.
  exists st'. subst ret. repeat split; assumption.
Defined.


(** * Further properties *)

(** ** Emission *)

Section FurtherEmission.
Context `{Platform}.

Lemma write_core_resolved (evs : gmap ptr user_event)
    (info : user_event_file_info) (i : iov_iter) (s : sinks) (idx : Z)
    (user : user_event) :
  write_index_of i = Some idx ->
  0 <= idx ->
  resolve evs info idx = Some user ->
  user_events_write_core evs info i s =
    let i' := (copy_from_iter 4 i).2 in
    if payload_count i <? u64 (min_size user) then Returned (- EINVAL) s
    else if tp_key_enabled (ue_tracepoint user) >? 0 then
      if negb (fault_in_iov_iter_readable i' (payload_count i) =? 0)
      then Returned (- EFAULT) s
      else
        let r := fold_left (call_probe user i') (tp_funcs (ue_tracepoint user))
                   (false, s) in
        if r.1 then Returned (- EFAULT) r.2 else Returned (iov_count i) r.2
    else Returned (iov_count i) s.
Proof.
  intros Hidx Hnonneg Hres.
  pose proof (copy_index_count i idx Hidx) as Hcount.
  unfold write_index_of in Hidx. unfold user_events_write_core.
  destruct (copy_from_iter 4 i) as [idx_bytes i'] eqn:Hcopy.
  cbn [fst snd] in Hidx, Hcount |- *.
  destruct (length idx_bytes =? 4)%nat; [|discriminate].
  injection Hidx as Hidx. rewrite Hidx. cbn [negb].
  unfold resolve in Hres.
  destruct (refs info) as [events|]; [|discriminate].
  cbn in Hres.
  destruct (events !! Z.to_nat idx) as [slot|] eqn:Hslot; [|discriminate].
  cbn in Hres. destruct slot as [p|]; [|discriminate]. cbn in Hres.
  apply lookup_lt_Some in Hslot as Hlen.
  destruct (idx <? Z.of_nat (length events)) eqn:Hlt; [|lia].
  destruct (0 <=? idx) eqn:Hle; [|lia].
  cbn [mjoin option_join]. cbn. rewrite Hres, Hcount.
  destruct (payload_count i <? u64 (min_size user)); [reflexivity|].
  destruct (tp_key_enabled (ue_tracepoint user) >? 0); [|reflexivity].
  destruct (negb (fault_in_iov_iter_readable i' (payload_count i) =? 0));
    [reflexivity|].
  destruct (fold_left (call_probe user i') (tp_funcs (ue_tracepoint user))
              (false, s)) as [faulted s'].
  reflexivity.
Qed.

Lemma write_core_unreadable_index (evs : gmap ptr user_event)
    (info : user_event_file_info) (i : iov_iter) (s : sinks) :
  write_index_of i = None ->
  user_events_write_core evs info i s = Returned (- EFAULT) s.
Proof.
  unfold write_index_of, user_events_write_core.
  destruct (copy_from_iter 4 i) as [idx_bytes i'] eqn:Hcopy. cbn [fst].
  destruct (length idx_bytes =? 4)%nat; [discriminate|]. reflexivity.
Qed.

(** X1. The checks a write goes through before any sink is touched: an index
    that cannot be read is [-EFAULT]; with an index that is not negative, an
    absent reference array, an index at or beyond its count and an empty slot
    are [-ENOENT], and a payload shorter than the event's minimum size is
    [-EINVAL]. In each case the sinks are as they were. *)
Theorem emit_rejections (evs : gmap ptr user_event)
    (info : user_event_file_info) (i : iov_iter) (s : sinks) :
  (write_index_of i = None ->
   user_events_write_core evs info i s = Returned (- EFAULT) s)
  /\ (forall idx,
        write_index_of i = Some idx ->
        0 <= idx ->
        (refs info = None
         \/ (exists events, refs info = Some events
               /\ (Z.of_nat (length events) <= idx
                   \/ events !! Z.to_nat idx = Some None)) ->
         user_events_write_core evs info i s = Returned (- ENOENT) s)
        /\ (forall user,
              resolve evs info idx = Some user ->
              payload_count i < u64 (min_size user) ->
              user_events_write_core evs info i s = Returned (- EINVAL) s)).
Proof.
  split.
  - apply write_core_unreadable_index.
  - intros idx Hidx Hnonneg.
    exact (emit_checks_nonnegative_index evs info i s idx Hidx Hnonneg).
Qed.

Lemma map_nth_seq (l : list Z) (a : nat) (d : Z) :
  map (fun k => nth (k - a) l d) (seq a (length l)) = l.
Proof.
  revert a. induction l as [|x l IH]; intros a; [reflexivity|].
  cbn [length seq map]. rewrite Nat.sub_diag. cbn [nth]. f_equal.
  rewrite <- (IH (S a)) at 2.
  apply map_ext_in. intros k Hk. apply in_seq in Hk.
  replace (k - a)%nat with (S (k - S a)) by lia. reflexivity.
Qed.

Lemma record_bytes_fill (mem : buffer) (bytes : list Z) :
  record_bytes (fill_entry mem bytes)
    (sizeof_trace_entry + Z.of_nat (length bytes))
  = record_bytes mem sizeof_trace_entry ++ bytes.
Proof.
  pose proof sizeof_trace_entry_range as Hhdr.
  unfold record_bytes, fill_entry, store_bytes.
  replace (Z.to_nat (sizeof_trace_entry + Z.of_nat (length bytes)))
    with (Z.to_nat sizeof_trace_entry + length bytes)%nat by lia.
  rewrite seq_app, map_app. f_equal.
  - apply map_ext_in. intros k Hk. apply in_seq in Hk.
    destruct (sizeof_trace_entry <=? Z.of_nat k) eqn:Hle; [lia|]. reflexivity.
  - cbn [Nat.add].
    etransitivity; [|apply (map_nth_seq bytes (Z.to_nat sizeof_trace_entry) 0)].
    apply map_ext_in. intros k Hk. apply in_seq in Hk.
    destruct (sizeof_trace_entry <=? Z.of_nat k) eqn:Hle; [|lia].
    destruct (Z.of_nat k <? sizeof_trace_entry + Z.of_nat (length bytes)) eqn:Hlt;
      [|lia].
    cbn [andb]. f_equal. lia.
Qed.


(** What [user_event_ftrace] does with a payload it can read whole. *)
Lemma ftrace_commits (user : user_event) (i : iov_iter)
    (file : trace_event_file) (faulted : bool) (rb : ring_buffer) :
  file_live file ->
  rb_reserve_ok rb = true ->
  (0 < length (iov_bytes i) <= iov_resident i)%nat ->
  Forall (fun v => ~ validator_rejects (fill_entry (rb_memory rb) (iov_bytes i))
                       (sizeof_trace_entry + iov_count i) v)
    (validators user) ->
  user_event_ftrace user i (Some file) faulted rb
  = (faulted,
     rb_commit (record_bytes (rb_memory rb) sizeof_trace_entry ++ iov_bytes i)
       (rb_reserve rb)).
Proof.
  intros [Hen Hsoft] Hok Hlen Hpass.
  unfold user_event_ftrace. rewrite Hen, Hsoft, Hok. cbn [negb orb].
  unfold copy_nofault, iov_count. rewrite Nat2Z.id.
  replace (length (iov_bytes i) `min` iov_resident i)%nat
    with (length (iov_bytes i)) by lia.
  rewrite firstn_all. cbn [rb_memory rb_reserve].
  destruct (length (iov_bytes i) =? 0)%nat eqn:Hz;
    [apply Nat.eqb_eq in Hz; lia|].
  assert (Hval : user_event_validate user
                   (fill_entry (rb_memory rb) (iov_bytes i))
                   (sizeof_trace_entry + Z.of_nat (length (iov_bytes i))) = 0).
  { unfold user_event_validate.
    destruct (validate_loop_spec (validators user)
                (fill_entry (rb_memory rb) (iov_bytes i))
                (sizeof_trace_entry + Z.of_nat (length (iov_bytes i))))
      as [[_ Hex] | [Hret _]]; [|exact Hret].
    exfalso. apply Exists_exists in Hex as (v & Hin & Hrej).
    rewrite Forall_forall in Hpass. exact (Hpass v Hin Hrej). }
  rewrite Hval. cbn [Z.eqb negb andb]. rewrite andb_false_r.
  rewrite record_bytes_fill. reflexivity.
Qed.


Lemma copy_index_rest (i : iov_iter) (idx : Z) :
  write_index_of i = Some idx ->
  (copy_from_iter 4 i).2 = iov_advance 4 i /\ (4 <= length (iov_bytes i))%nat
  /\ (4 <= iov_mapped i)%nat.
Proof.
  unfold write_index_of, copy_from_iter. cbn [fst snd].
  destruct (length (take (4 `min` iov_mapped i) (iov_bytes i)) =? 4)%nat eqn:Hlen;
    [|discriminate].
  intros _. apply Nat.eqb_eq in Hlen. rewrite Hlen.
  rewrite length_take in Hlen. repeat split; lia.
Qed.

(** X2. A write to an event that ftrace traces, with a payload that can be
    read whole and that the validators accept, returns the byte count and
    commits one record: the header followed by exactly the payload. *)
Theorem emit_publishes_payload (evs : gmap ptr user_event)
    (info : user_event_file_info) (i : iov_iter) (s : sinks) (idx : Z)
    (user : user_event) (file : trace_event_file) :
  write_index_of i = Some idx ->
  0 <= idx ->
  resolve evs info idx = Some user ->
  tp_key_enabled (ue_tracepoint user) > 0 ->
  tp_funcs (ue_tracepoint user) = [ftrace_probe file] ->
  file_live file ->
  rb_reserve_ok (ftrace_sink s) = true ->
  readable i ->
  payload_of i <> [] ->
  u64 (min_size user) <= payload_count i ->
  Forall (fun v =>
            ~ validator_rejects
                (fill_entry (rb_memory (ftrace_sink s)) (payload_of i))
                (sizeof_trace_entry + payload_count i) v)
    (validators user) ->
  user_events_write_core evs info i s
  = Returned (iov_count i)
      {| ftrace_sink :=
           rb_commit
             (record_bytes (rb_memory (ftrace_sink s)) sizeof_trace_entry
                ++ payload_of i)
             (rb_reserve (ftrace_sink s));
         perf_sink := perf_sink s |}.
Proof.
  intros Hidx Hnonneg Hres Hon Hfuncs Hfile Hok [Hmapped Hresident] Hsome Hmin
    Hpass.
  rewrite (write_core_resolved evs info i s idx user Hidx Hnonneg Hres).
  destruct (copy_index_rest i idx Hidx) as (Hrest & Hlen & Hmap4).
  rewrite Hrest. cbv zeta.
  assert (Hcount : payload_count i = Z.of_nat (length (payload_of i))).
  { unfold payload_count, payload_of, iov_count. rewrite length_drop. lia. }
  destruct (payload_count i <? u64 (min_size user)) eqn:Hshort; [lia|].
  destruct (tp_key_enabled (ue_tracepoint user) >? 0) eqn:Hgt; [|lia].
  assert (Hfault : fault_in_iov_iter_readable (iov_advance 4 i) (payload_count i)
                   = 0).
  { unfold fault_in_iov_iter_readable, iov_advance. cbn [iov_mapped].
    rewrite Hcount. unfold payload_of. rewrite length_drop. lia. }
  rewrite Hfault. cbn [Z.eqb negb].
  rewrite Hfuncs. cbn [fold_left call_probe ftrace_probe tf_func tf_data].
  assert (Hlen' : (0 < length (payload_of i))%nat).
  { destruct (payload_of i); [contradiction | cbn; lia]. }
  assert (Hb : iov_bytes (iov_advance 4 i) = payload_of i) by reflexivity.
  rewrite (ftrace_commits user (iov_advance 4 i) file false (ftrace_sink s)
             Hfile Hok).
  - rewrite Hb. reflexivity.
  - rewrite Hb. cbn [iov_advance iov_resident].
    unfold payload_of in Hlen' |- *. rewrite length_drop in Hlen' |- *. lia.
  - unfold iov_count. rewrite Hb, <- Hcount. exact Hpass.
Qed.

Lemma call_probe_keeps_fault (user : user_event) (i : iov_iter) (s : sinks)
    (probe : tracepoint_func) :
  (call_probe user i (true, s) probe).1 = true.
Proof.
  unfold call_probe. destruct (tf_func probe).
  - destruct (user_event_ftrace_cases user i (tf_data probe) true (ftrace_sink s))
      as [-> | [-> | [-> _]]]; reflexivity.
  - destruct (user_event_perf_cases user i true (perf_sink s))
      as [-> | [-> | [-> _]]]; reflexivity.
  - reflexivity.
Qed.

Lemma fold_probe_keeps_fault (user : user_event) (i : iov_iter)
    (probes : list tracepoint_func) (s : sinks) :
  (fold_left (call_probe user i) probes (true, s)).1 = true.
Proof.
  revert s. induction probes as [|probe probes IH]; intros s; [reflexivity|].
  cbn [fold_left].
  pose proof (call_probe_keeps_fault user i s probe) as Hk.
  destruct (call_probe user i (true, s) probe) as [f s']. cbn in Hk. subst f.
  apply IH.
Qed.

Lemma call_probe_reserve_ok (user : user_event) (i : iov_iter) (f : bool)
    (s : sinks) (probe : tracepoint_func) :
  rb_reserve_ok (ftrace_sink (call_probe user i (f, s) probe).2)
  = rb_reserve_ok (ftrace_sink s).
Proof.
  unfold call_probe. destruct (tf_func probe).
  - destruct (user_event_ftrace_cases user i (tf_data probe) f (ftrace_sink s))
      as [-> | [-> | [-> _]]]; reflexivity.
  - destruct (user_event_perf user i f (perf_sink s)). reflexivity.
  - reflexivity.
Qed.

(** With nothing after the index, [copy_nofault] copies nothing, which the
    probe takes for a fault. *)
Lemma ftrace_empty_payload (user : user_event) (i : iov_iter)
    (file : trace_event_file) (faulted : bool) (rb : ring_buffer) :
  file_live file ->
  rb_reserve_ok rb = true ->
  iov_bytes i = [] ->
  user_event_ftrace user i (Some file) faulted rb
  = (true, rb_discard (rb_reserve rb)).
Proof.
  intros [Hen Hsoft] Hok Hnil.
  unfold user_event_ftrace. rewrite Hen, Hsoft, Hok. cbn [negb orb].
  unfold copy_nofault. rewrite Hnil. rewrite take_nil. reflexivity.
Qed.

Lemma fold_probe_empty_payload (user : user_event) (i : iov_iter)
    (file : trace_event_file) (probes : list tracepoint_func) (f : bool)
    (s : sinks) :
  file_live file ->
  rb_reserve_ok (ftrace_sink s) = true ->
  iov_bytes i = [] ->
  In (ftrace_probe file) probes ->
  (fold_left (call_probe user i) probes (f, s)).1 = true.
Proof.
  intros Hfile Hok Hnil. revert f s Hok.
  induction probes as [|probe probes IH]; intros f s Hok Hin; [destruct Hin|].
  cbn [fold_left]. destruct Hin as [-> | Hin].
  - unfold call_probe at 2. cbn [ftrace_probe tf_func tf_data].
    rewrite (ftrace_empty_payload user i file f (ftrace_sink s) Hfile Hok Hnil).
    apply fold_probe_keeps_fault.
  - pose proof (call_probe_reserve_ok user i f s probe) as Hk.
    destruct (call_probe user i (f, s) probe) as [f' s']. cbn [snd] in Hk.
    apply IH; [congruence | exact Hin].
Qed.

Lemma call_probe_empty_payload_publishes (user : user_event) (i : iov_iter)
    (f : bool) (s : sinks) (probe : tracepoint_func) :
  iov_bytes i = [] ->
  published (call_probe user i (f, s) probe).2 = published s.
Proof.
  intros Hnil. unfold call_probe, published.
  destruct (tf_func probe); [| |reflexivity].
  - unfold user_event_ftrace, copy_nofault. rewrite Hnil, take_nil.
    destruct (tf_data probe) as [file|]; [|reflexivity].
    destruct (negb (file_enabled file) || file_soft_disabled file);
      [reflexivity|].
    destruct (negb (rb_reserve_ok (ftrace_sink s))); reflexivity.
  - unfold user_event_perf, copy_nofault. rewrite Hnil, take_nil.
    destruct (perf_has_events (perf_sink s)); [|reflexivity].
    destruct (negb (perf_alloc_ok (perf_sink s))); reflexivity.
Qed.

Lemma fold_probe_empty_payload_publishes (user : user_event) (i : iov_iter)
    (probes : list tracepoint_func) (f : bool) (s : sinks) :
  iov_bytes i = [] ->
  published (fold_left (call_probe user i) probes (f, s)).2 = published s.
Proof.
  intros Hnil. revert f s.
  induction probes as [|probe probes IH]; intros f s; [reflexivity|].
  cbn [fold_left].
  pose proof (call_probe_empty_payload_publishes user i f s probe Hnil) as Hk.
  destruct (call_probe user i (f, s) probe) as [f' s']. cbn [snd] in Hk.
  rewrite IH. exact Hk.
Qed.

(** X3. A write that carries the index and nothing else, to an event ftrace
    traces, is answered with [-EFAULT]: the probe reserves a record, copies
    no byte, and discards it as faulted. Nothing is published. So the
    write an event without fields calls for, the index alone, fails while
    ftrace traces the event. *)
Theorem emit_empty_payload_faults (evs : gmap ptr user_event)
    (info : user_event_file_info) (i : iov_iter) (s : sinks) (idx : Z)
    (user : user_event) (file : trace_event_file) :
  write_index_of i = Some idx ->
  0 <= idx ->
  resolve evs info idx = Some user ->
  payload_of i = [] ->
  u64 (min_size user) <= payload_count i ->
  tp_key_enabled (ue_tracepoint user) > 0 ->
  In (ftrace_probe file) (tp_funcs (ue_tracepoint user)) ->
  file_live file ->
  rb_reserve_ok (ftrace_sink s) = true ->
  exists s', user_events_write_core evs info i s = Returned (- EFAULT) s'
             /\ published s' = published s.
Proof.
  intros Hidx Hnonneg Hres Hnil Hmin Hon Hin Hfile Hok.
  rewrite (write_core_resolved evs info i s idx user Hidx Hnonneg Hres).
  destruct (copy_index_rest i idx Hidx) as (Hrest & Hlen & Hmap4).
  rewrite Hrest. cbv zeta.
  assert (Hb : iov_bytes (iov_advance 4 i) = []) by exact Hnil.
  assert (Hcount : payload_count i = 0).
  { unfold payload_count, iov_count. unfold payload_of in Hnil.
    apply (f_equal (@length Z)) in Hnil. rewrite length_drop in Hnil.
    cbn in Hnil. lia. }
  destruct (payload_count i <? u64 (min_size user)) eqn:Hshort; [lia|].
  destruct (tp_key_enabled (ue_tracepoint user) >? 0) eqn:Hgt; [|lia].
  rewrite Hcount. cbn [fault_in_iov_iter_readable].
  unfold fault_in_iov_iter_readable.
  replace (0 - Z.min 0 (Z.of_nat (iov_mapped (iov_advance 4 i)))) with 0 by lia.
  cbn [Z.eqb negb].
  rewrite (fold_probe_empty_payload user (iov_advance 4 i) file _ false s
             Hfile Hok Hb Hin).
  eexists. split; [reflexivity|].
  apply fold_probe_empty_payload_publishes. exact Hb.
Qed.

Lemma call_probe_publishes_more (user : user_event) (i : iov_iter) (f : bool)
    (s : sinks) (probe : tracepoint_func) :
  let s' := (call_probe user i (f, s) probe).2 in
  rb_committed (ftrace_sink s) `prefix_of` rb_committed (ftrace_sink s')
  /\ perf_submitted (perf_sink s) `prefix_of` perf_submitted (perf_sink s').
Proof.
  unfold call_probe. destruct (tf_func probe).
  - destruct (user_event_ftrace_cases user i (tf_data probe) f (ftrace_sink s))
      as [-> | [-> | [-> _]]]; cbn; split; try reflexivity.
    apply prefix_app_r. reflexivity.
  - destruct (user_event_perf_cases user i f (perf_sink s))
      as [-> | [-> | [-> _]]]; cbn; split; try reflexivity.
    apply prefix_app_r. reflexivity.
  - cbn. split; reflexivity.
Qed.

Lemma fold_probe_publishes_more (user : user_event) (i : iov_iter)
    (probes : list tracepoint_func) (f : bool) (s : sinks) :
  let s' := (fold_left (call_probe user i) probes (f, s)).2 in
  rb_committed (ftrace_sink s) `prefix_of` rb_committed (ftrace_sink s')
  /\ perf_submitted (perf_sink s) `prefix_of` perf_submitted (perf_sink s').
Proof.
  revert f s. induction probes as [|probe probes IH]; intros f s.
  - cbn. split; reflexivity.
  - cbn [fold_left].
    pose proof (call_probe_publishes_more user i f s probe) as [Hrb Hpf].
    destruct (call_probe user i (f, s) probe) as [f' s1]. cbn [snd] in Hrb, Hpf.
    destruct (IH f' s1) as [Hrb' Hpf'].
    split; etransitivity; eassumption.
Qed.

(** X4. Whatever is written with an index that is not negative, the write
    returns: the byte count, or one of [-EFAULT], [-ENOENT] and [-EINVAL];
    the records the sinks had published are still there, in order, with any
    new ones after them; and an answer of [-ENOENT] or [-EINVAL] leaves the
    sinks as they were. *)
Theorem emit_outcomes (evs : gmap ptr user_event)
    (info : user_event_file_info) (i : iov_iter) (s : sinks) :
  (forall idx, write_index_of i = Some idx -> 0 <= idx) ->
  refs_live evs info ->
  exists ret s',
    user_events_write_core evs info i s = Returned ret s'
    /\ (ret = iov_count i \/ ret = - EFAULT \/ ret = - ENOENT \/ ret = - EINVAL)
    /\ rb_committed (ftrace_sink s) `prefix_of` rb_committed (ftrace_sink s')
    /\ perf_submitted (perf_sink s) `prefix_of` perf_submitted (perf_sink s')
    /\ (ret = - ENOENT \/ ret = - EINVAL -> s' = s).
Proof.
  intros Hnonneg Hlive.
  destruct (write_index_of i) as [idx|] eqn:Hidx.
  2:{ rewrite (write_core_unreadable_index evs info i s Hidx).
      exists (- EFAULT), s. repeat split; try reflexivity; auto;
        try (intros [Hc | Hc]; discriminate Hc). }
  specialize (Hnonneg idx eq_refl).
  destruct (resolve evs info idx) as [user|] eqn:Hres.
  - rewrite (write_core_resolved evs info i s idx user Hidx Hnonneg Hres).
    cbv zeta.
    destruct (payload_count i <? u64 (min_size user)).
    { exists (- EINVAL), s. repeat split; try reflexivity; auto. }
    destruct (tp_key_enabled (ue_tracepoint user) >? 0).
    2:{ exists (iov_count i), s. repeat split; try reflexivity; auto. }
    destruct (negb (fault_in_iov_iter_readable _ _ =? 0)).
    { exists (- EFAULT), s. repeat split; try reflexivity; auto;
        try (intros [Hc | Hc]; discriminate Hc). }
    pose proof (fold_probe_publishes_more user (copy_from_iter 4 i).2
                  (tp_funcs (ue_tracepoint user)) false s) as [Hrb Hpf].
    destruct (fold_left _ _ _) as [f s']. cbn [fst snd] in Hrb, Hpf |- *.
    pose proof (iov_count_nonneg := Nat2Z.is_nonneg (length (iov_bytes i))).
    destruct f.
    + exists (- EFAULT), s'. repeat split; auto;
        try (intros [Hc | Hc]; discriminate Hc).
    + exists (iov_count i), s'. repeat split; auto.
      unfold iov_count. intros [Hc | Hc]; unfold ENOENT, EINVAL in Hc; lia.
  - exists (- ENOENT), s.
    split; [|repeat split; try reflexivity; auto].
    destruct (emit_checks_nonnegative_index evs info i s idx Hidx Hnonneg)
      as [Hnone _].
    apply Hnone. unfold resolve in Hres.
    destruct (refs info) as [events|] eqn:Hrefs; [|left; reflexivity].
    right. exists events. split; [reflexivity|]. cbn in Hres.
    destruct (events !! Z.to_nat idx) as [slot|] eqn:Hslot.
    + right. destruct slot as [p|]; [|reflexivity]. cbn in Hres.
      exfalso. destruct (Hlive events p Hrefs) as [user Huser].
      * eapply list_elem_of_lookup_2. exact Hslot.
      * rewrite Huser in Hres. discriminate.
    + left. apply lookup_ge_None in Hslot. lia.
Qed.

End FurtherEmission.

(** ** The field parser and registration *)

Section FurtherParser.
Context `{Platform}.

Lemma validators_for_snoc (declared : list ftrace_event_field)
    (f : ftrace_event_field) :
  validators_for (declared ++ [f])
  = validators_for declared
    ++ (if is_indirect_type (f_type f)
        then [{| v_offset := f_offset f; v_flags := validator_flags_of (f_type f) |}]
        else []).
Proof.
  unfold validators_for. rewrite flat_map_app. cbn [flat_map].
  rewrite app_nil_r. reflexivity.
Qed.

Lemma parse_fields_loop_validators (flds : list string) (ret0 : Z)
    (user user' : user_event) (offset : Z) (m m' : kmem) (ret : Z) :
  validators user = validators_for (rev (fields user)) ->
  parse_fields_loop flds ret0 user offset m = (ret, user', m') ->
  validators user' = validators_for (rev (fields user')).
Proof.
  revert ret0 user offset m.
  induction flds as [|field flds IH]; intros ret0 user offset m Hinv.
  - intros [= _ <- _]. exact Hinv.
  - cbn [parse_fields_loop].
    destruct (user_event_parse_field field user offset m)
      as [[[ret1 user1] offset1] m1] eqn:Hfield.
    destruct (ret1 =? 0) eqn:Hret1; cbn [negb].
    + apply Z.eqb_eq in Hret1. subst ret1.
      apply IH.
      destruct (parse_field_ok field user user1 offset offset1 m m1 Hfield)
        as [[-> _] | (f & Hfields & Hoff & _ & _ & _ & Hvals)]; [exact Hinv|].
      rewrite Hvals, Hfields, Hinv. cbn [rev].
      rewrite validators_for_snoc, Hoff. reflexivity.
    + intros [= _ <- _].
      apply parse_field_account in Hfield as (_ & _ & _ & _ & Hsame).
      apply Z.eqb_neq in Hret1. rewrite (Hsame Hret1). exact Hinv.
Qed.

(** X5. The validators of a parsed event are those its fields call for: one
    for each [__data_loc] or [__rel_loc] field, at that field's offset, in
    the order the fields were declared; relative for [__rel_loc], and
    requiring a terminating NUL when the type mentions [char]. *)
Theorem parsed_validators (name : string) (args : option string)
    (user' : user_event) (m m' : kmem) (ret : Z) :
  user_event_parse_fields (new_user_event name) args m = (ret, user', m') ->
  validators user' = validators_for (rev (fields user')).
Proof.
  unfold user_event_parse_fields. destruct args as [args|].
  - apply parse_fields_loop_validators. reflexivity.
  - intros [= _ <- _]. reflexivity.
Qed.


Lemma trace_register_ok (env : trace_env) (p : ptr) (st st' : kstate) :
  user_event_trace_register env p st = (0, st') ->
  register_trace_event_ret env <> 0
  /\ prepare_creds_ok env = true
  /\ trace_add_event_call_ret env = 0
  /\ st' = set_event_calls (p :: event_calls st)
             (set_trace_events (p :: trace_events st) st).
Proof.
  unfold user_event_trace_register, user_event_set_call_visible.
  destruct (register_trace_event_ret env =? 0) eqn:Hreg;
    [intros [= Hz]; unfold ENODEV in Hz; lia|].
  apply Z.eqb_neq in Hreg.
  destruct (prepare_creds_ok env); cbn [negb].
  2:{ cbn. intros [= Hz]. }
  destruct (trace_add_event_call_ret env =? 0) eqn:Hadd; cbn [negb].
  - apply Z.eqb_eq in Hadd. intros [= _ <-]. repeat split; auto.
  - apply Z.eqb_neq in Hadd. intros [= Hz]. contradiction.
Qed.

(** The state a successful registration of a new name leaves. *)
Lemma parse_new_ok (env : trace_env) (st st' : kstate) (name : string)
    (args flags : option string) (newuser : option ptr) :
  lookup_name st name = None ->
  user_event_parse env st name args flags = (0, newuser, st') ->
  let p := fresh (dom (events st)) in
  exists (m0 m1 m2 : kmem) (user1 : user_event),
    kmalloc (mem st) = (true, m0)
    /\ user_event_parse_fields (new_user_event name) args m0 = (0, user1, m1)
    /\ kmalloc m1 = (true, m2)
    /\ current_user_events st < max_user_events st
    /\ user_event_trace_register env p st
       = (0, set_event_calls (p :: event_calls st)
               (set_trace_events (p :: trace_events st) st))
    /\ newuser = Some p
    /\ events st !! p = None
    /\ st' = {| events :=
                  <[p := set_refcnt 2
                           (set_print_fmt (Some (user_event_set_print_fmt user1))
                              user1)]> (events st);
                register_table :=
                  hash_add (register_table st) p (user_event_key name);
                current_user_events := u32 (current_user_events st + 1);
                max_user_events := max_user_events st;
                dyn_events := p :: dyn_events st;
                trace_events := p :: trace_events st;
                event_calls := p :: event_calls st;
                mem := m2 |}.
Proof.
  intros Hlookup Hparse p. unfold lookup_name in Hlookup.
  unfold user_event_parse, find_user_event in Hparse. rewrite Hlookup in Hparse.
  fold (new_user_event name) in Hparse. fold p in Hparse.
  destruct (kmalloc (mem st)) as [ok m0] eqn:Hk0.
  destruct ok; cbn [negb] in Hparse;
    [|injection Hparse as Hz _ _; unfold ENOMEM in Hz; lia].
  destruct (user_event_parse_fields (new_user_event name) args m0)
    as [[ret1 user1] m1] eqn:Hfields.
  assert (Hput : forall ret user stx m, ret <> 0 ->
            put_user ret user stx m <> (0, newuser, st')).
  { intros ret user stx m Hret Heq.
    destruct (put_user_frees ret user stx m) as (mx & Hp & _).
    rewrite Hp in Heq. injection Heq as Hz _ _. contradiction. }
  destruct (ret1 =? 0) eqn:Hret1; cbn [negb] in Hparse.
  2:{ apply Z.eqb_neq in Hret1. exfalso. exact (Hput _ _ _ _ Hret1 Hparse). }
  apply Z.eqb_eq in Hret1. subst ret1.
  unfold user_event_create_print_fmt in Hparse.
  destruct (kmalloc m1) as [ok2 m2] eqn:Hk2.
  destruct ok2; cbn [negb Z.eqb] in Hparse.
  2:{ exfalso. eapply Hput; [|exact Hparse]. discriminate. }
  destruct (max_user_events st <=? current_user_events st) eqn:Hcap.
  { exfalso. eapply Hput; [|exact Hparse]. discriminate. }
  apply Z.leb_gt in Hcap.
  destruct (user_event_trace_register env p st) as [ret3 st_vis] eqn:Hreg.
  destruct (ret3 =? 0) eqn:Hret3; cbn [negb] in Hparse.
  2:{ apply Z.eqb_neq in Hret3. exfalso. exact (Hput _ _ _ _ Hret3 Hparse). }
  apply Z.eqb_eq in Hret3. subst ret3.
  destruct (trace_register_ok env p st st_vis Hreg) as (_ & _ & _ & ->).
  injection Hparse as <- <-.
  exists m0, m1, m2, user1. repeat split; try reflexivity; try assumption.
  apply not_elem_of_dom. apply is_fresh.
Qed.

Lemma add_field_keeps_status (user user' : user_event) (type name : string)
    (offset size is_signed filter_type ret : Z) (m m' : kmem) :
  user_event_add_field user type name offset size is_signed filter_type m
    = (ret, user', m') ->
  status user' = status user.
Proof.
  unfold user_event_add_field.
  destruct (kmalloc m) as [field_ok m1]. destruct field_ok; cbn [negb];
    [|intros [= _ <- _]; reflexivity].
  destruct (negb (str_has_prefix type "__data_loc " =? 0)%nat).
  { destruct (kmalloc m1) as [ok m2]. destruct ok; cbn [negb];
      intros [= _ <- _]; reflexivity. }
  destruct (negb (str_has_prefix type "__rel_loc " =? 0)%nat).
  { destruct (kmalloc m1) as [ok m2]. destruct ok; cbn [negb];
      intros [= _ <- _]; reflexivity. }
  intros [= _ <- _]. reflexivity.
Qed.

Lemma parse_field_keeps_status (field : string) (user user' : user_event)
    (offset offset' ret : Z) (m m' : kmem) :
  user_event_parse_field field user offset m = (ret, user', offset', m') ->
  status user' = status user.
Proof.
  unfold user_event_parse_field.
  destruct (split_field field) as [[err | parts]|];
    try (intros [= _ <- _ _]; reflexivity).
  destruct (fp_name parts) as [name|]; [|intros [= _ <- _ _]; reflexivity].
  destruct (fp_depth parts <? FIELD_DEPTH_SIZE);
    [intros [= _ <- _ _]; reflexivity|].
  destruct (_ =? 0); [intros [= _ <- _ _]; reflexivity|].
  destruct (_ <? 0); [intros [= _ <- _ _]; reflexivity|].
  destruct (user_event_add_field _ _ _ _ _ _ _ _) as [[ret1 user1] m1] eqn:Hadd.
  intros [= _ <- _ _]. exact (add_field_keeps_status _ _ _ _ _ _ _ _ _ _ _ Hadd).
Qed.

Lemma parse_fields_keeps_status (user user' : user_event) (args : option string)
    (ret : Z) (m m' : kmem) :
  user_event_parse_fields user args m = (ret, user', m') ->
  status user' = status user.
Proof.
  unfold user_event_parse_fields. destruct args as [args|];
    [|intros [= _ <- _]; reflexivity].
  generalize (- EINVAL) (u32 sizeof_trace_entry). revert user m.
  induction (strsep_all ";" args) as [|field flds IH]; intros user m ret0 offset.
  - intros [= _ <- _]. reflexivity.
  - cbn [parse_fields_loop].
    destruct (user_event_parse_field field user offset m)
      as [[[ret1 user1] offset1] m1] eqn:Hfield.
    apply parse_field_keeps_status in Hfield.
    destruct (negb (ret1 =? 0)).
    + intros [= _ <- _]. exact Hfield.
    + intros Hloop. rewrite <- Hfield. exact (IH _ _ _ _ Hloop).
Qed.

(** X6. The event a successful registration of a new name leaves in the
    table is the one parsed from the field specification: it is found under
    the name, holds two references, carries the validators its fields call
    for and the output format of its fields; and when the record (header
    and fields) is shorter than 2^31 bytes, its fields stand one after the
    other from the end of the header on and its minimum size is the sum of
    their sizes. *)
Theorem registered_event_layout (env : trace_env) (st st' : kstate)
    (name : string) (args flags : option string) (newuser : option ptr) :
  lookup_name st name = None ->
  user_event_parse env st name args flags = (0, newuser, st') ->
  exists (p : ptr) (user : user_event),
    newuser = Some p
    /\ lookup_name st' name = Some p
    /\ events st' !! p = Some user
    /\ EVENT_NAME user = name
    /\ refcnt user = 2
    /\ status user = 0
    /\ validators user = validators_for (rev (fields user))
    /\ print_fmt user = Some (user_event_set_print_fmt user)
    /\ (sizeof_trace_entry + sizes_sum (fields user) < 2 ^ 31 ->
        offsets_from sizeof_trace_entry (rev (fields user))
        /\ Forall field_sized (rev (fields user))
        /\ min_size user = sizes_sum (rev (fields user))).
Proof.
  intros Hlookup Hparse.
  destruct (parse_new_ok env st st' name args flags newuser Hlookup Hparse)
    as (m0 & m1 & m2 & user1 & _ & Hfields & _ & _ & _ & -> & Hfresh & ->).
  set (p := fresh (dom (events st))) in *.
  destruct (parse_fields_account _ _ _ _ _ _ Hfields) as (_ & _ & Hfmt & Htp).
  exists p, (set_refcnt 2
               (set_print_fmt (Some (user_event_set_print_fmt user1)) user1)).
  split; [reflexivity|]. split.
  { unfold lookup_name, hash_add. cbn [events register_table].
    rewrite Z.eqb_refl. cbn [find_in_chain]. rewrite lookup_insert_eq.
    unfold EVENT_NAME, strcmp_eq. cbn. rewrite Htp. cbn.
    rewrite String.eqb_refl. reflexivity. }
  split; [cbn; apply lookup_insert_eq|].
  split; [unfold EVENT_NAME; cbn; rewrite Htp; reflexivity|].
  split; [reflexivity|].
  split.
  { cbn. exact (parse_fields_keeps_status _ _ _ _ _ _ Hfields). }
  split.
  { cbn. revert Hfields. unfold user_event_parse_fields.
    destruct args as [args|];
      [apply parse_fields_loop_validators; reflexivity
      |intros [= <- _]; reflexivity]. }
  split; [reflexivity|].
  cbn [fields set_refcnt set_print_fmt min_size]. intros Hbound.
  exact (parse_fields_layout name args user1 m0 m1 Hfields Hbound).
Qed.


Lemma parse_blank_field (field : string) (user : user_event) (offset : Z)
    (m : kmem) :
  blank field ->
  user_event_parse_field field user offset m = (0, user, offset, m).
Proof.
  unfold blank, user_event_parse_field, split_field. intros ->. reflexivity.
Qed.

(** The value the loop starts from matters only when there is no field. *)
Lemma parse_fields_loop_start (flds : list string) (ret ret' : Z)
    (user : user_event) (offset : Z) (m : kmem) :
  flds <> [] ->
  parse_fields_loop flds ret user offset m
  = parse_fields_loop flds ret' user offset m.
Proof.
  destruct flds as [|field flds]; [contradiction|]. reflexivity.
Qed.

Lemma parse_fields_loop_blank (pre post : list string) (field : string)
    (ret : Z) (user : user_event) (offset : Z) (m : kmem) :
  blank field ->
  pre ++ post <> [] ->
  parse_fields_loop (pre ++ field :: post) ret user offset m
  = parse_fields_loop (pre ++ post) ret user offset m.
Proof.
  intros Hblank. revert ret user offset m.
  induction pre as [|first pre IH]; intros ret user offset m Hsome.
  - cbn [app parse_fields_loop] in *.
    rewrite (parse_blank_field field user offset m Hblank).
    cbn [Z.eqb negb]. apply parse_fields_loop_start. exact Hsome.
  - cbn [app parse_fields_loop].
    destruct (user_event_parse_field first user offset m)
      as [[[ret1 user1] offset1] m1].
    destruct (negb (ret1 =? 0)) eqn:Hret1; [reflexivity|].
    apply negb_false_iff, Z.eqb_eq in Hret1. subst ret1.
    destruct (decide (pre ++ post = [])) as [Hnil | Hsome'].
    + apply app_eq_nil in Hnil as [-> ->]. cbn [app parse_fields_loop].
      rewrite (parse_blank_field field user1 offset1 m1 Hblank). reflexivity.
    + apply IH. exact Hsome'.
Qed.

(** X7. A field with nothing in it but white space is passed over: a field
    list parses as the list without it does, and a list that is one blank
    field and nothing else, like an absent list, is accepted and declares no
    field. *)
Theorem blank_fields_skipped (user : user_event) (args : string)
    (pre post : list string) (field : string) (m : kmem) :
  strsep_all ";" args = pre ++ field :: post ->
  blank field ->
  (pre ++ post <> [] ->
   user_event_parse_fields user (Some args) m
   = parse_fields_loop (pre ++ post) (- EINVAL) user (u32 sizeof_trace_entry) m)
  /\ (pre ++ post = [] ->
      user_event_parse_fields user (Some args) m = (0, user, m))
  /\ user_event_parse_fields user None m = (0, user, m).
Proof.
  intros Hsplit Hblank. unfold user_event_parse_fields. rewrite Hsplit.
  split; [|split].
  - apply parse_fields_loop_blank. exact Hblank.
  - intros Hnil. apply app_eq_nil in Hnil as [-> ->].
    cbn [app parse_fields_loop].
    rewrite (parse_blank_field field user _ m Hblank). reflexivity.
  - reflexivity.
Qed.

End FurtherParser.

(** ** The registry *)

Section FurtherRegistry.
Context `{Platform}.

Lemma find_in_chain_answers (evs evs' : gmap ptr user_event) (chain : list ptr)
    (name : string) :
  (forall q, q ∈ chain -> answers_to evs' name q = answers_to evs name q) ->
  find_in_chain evs' chain name = find_in_chain evs chain name.
Proof.
  induction chain as [|q chain IH]; intros Hsame; [reflexivity|].
  cbn [find_in_chain].
  pose proof (Hsame q (list_elem_of_here _ _)) as Hq. unfold answers_to in Hq.
  assert (IH' : find_in_chain evs' chain name = find_in_chain evs chain name).
  { apply IH. intros r Hr. apply Hsame, list_elem_of_further, Hr. }
  destruct (evs' !! q) as [u'|], (evs !! q) as [u|]; rewrite ?Hq, ?IH';
    try reflexivity.
  - rewrite <- Hq. reflexivity.
Qed.

Lemma find_in_chain_unlink (evs : gmap ptr user_event) (chain : list ptr)
    (name : string) (p : ptr) :
  answers_to evs name p = false ->
  find_in_chain evs (unlink p chain) name = find_in_chain evs chain name.
Proof.
  intros Hp. induction chain as [|q chain IH]; [reflexivity|].
  cbn [unlink]. destruct (decide (q = p)) as [-> | Hne].
  - cbn [find_in_chain]. unfold answers_to in Hp.
    destruct (evs !! p) as [u|]; [rewrite Hp|]; reflexivity.
  - cbn [find_in_chain]. rewrite IH. reflexivity.
Qed.

(** What [delete_user_event] comes to: the name is not registered; or the
    event is referenced by more than the table; or it is destroyed. *)
Lemma delete_user_event_cases (env : trace_env) (st : kstate) (name : string) :
  (lookup_name st name = None
   /\ delete_user_event env st name = (- ENOENT, st))
  \/ exists p user,
       lookup_name st name = Some p
       /\ events st !! p = Some user
       /\ EVENT_NAME user = name
       /\ ((refcnt user <> 1 /\ delete_user_event env st name = (- EBUSY, st))
           \/ (refcnt user = 1
               /\ delete_user_event env st name = destroy_user_event env p st)).
Proof.
  unfold delete_user_event, find_user_event.
  destruct (lookup_name st name) as [p|] eqn:Hlookup;
    pose proof Hlookup as Hfind; unfold lookup_name in Hfind; rewrite Hfind.
  - right. destruct (find_in_chain_Some _ _ _ _ Hfind) as (_ & user & Hp & Hname).
    exists p, user. repeat split; try assumption.
    rewrite refcount_dec_inc. unfold user_event_last_ref. rewrite Hp.
    destruct (refcnt user =? 1) eqn:Hone.
    + right. apply Z.eqb_eq in Hone. split; [exact Hone | reflexivity].
    + left. apply Z.eqb_neq in Hone. split; [exact Hone | reflexivity].
  - left. split; reflexivity.
Qed.

(** The registry after a registration that failed for a new name. *)
Lemma parse_new_failed (env : trace_env) (st st' : kstate) (name : string)
    (args flags : option string) (newuser : option ptr) (ret : Z) :
  lookup_name st name = None ->
  user_event_parse env st name args flags = (ret, newuser, st') ->
  ret <> 0 ->
  newuser = None
  /\ events st' = events st
  /\ register_table st' = register_table st
  /\ dyn_events st' = dyn_events st
  /\ trace_events st' = trace_events st
  /\ event_calls st' = event_calls st
  /\ current_user_events st' = current_user_events st
  /\ max_user_events st' = max_user_events st.
Proof.
  intros Hlookup Hparse Hret. unfold lookup_name in Hlookup.
  unfold user_event_parse, find_user_event in Hparse. rewrite Hlookup in Hparse.
  destruct (kmalloc (mem st)) as [ok m0].
  destruct ok; cbn [negb] in Hparse;
    [|injection Hparse as _ <- <-; repeat split; reflexivity].
  assert (Hput : forall r user stx m,
            put_user r user stx m = (ret, newuser, st') ->
            newuser = None /\ exists m', st' = set_mem m' stx).
  { intros r user stx m Heq.
    destruct (put_user_frees r user stx m) as (m' & Hp & _).
    rewrite Hp in Heq. injection Heq as _ <- <-.
    split; [reflexivity | exists m'; reflexivity]. }
  assert (Hsame : forall r user m,
            put_user r user st m = (ret, newuser, st') ->
            newuser = None
            /\ events st' = events st
            /\ register_table st' = register_table st
            /\ dyn_events st' = dyn_events st
            /\ trace_events st' = trace_events st
            /\ event_calls st' = event_calls st
            /\ current_user_events st' = current_user_events st
            /\ max_user_events st' = max_user_events st).
  { intros r user m Heq. destruct (Hput r user st m Heq) as (-> & m' & ->).
    repeat split; reflexivity. }
  destruct (user_event_parse_fields _ args m0) as [[ret1 user1] m1].
  destruct (negb (ret1 =? 0)); [exact (Hsame _ _ _ Hparse)|].
  destruct (user_event_create_print_fmt user1 m1) as [[ret2 user2] m2].
  destruct (negb (ret2 =? 0)); [exact (Hsame _ _ _ Hparse)|].
  destruct (max_user_events st <=? current_user_events st);
    [exact (Hsame _ _ _ Hparse)|].
  destruct (user_event_trace_register env (fresh (dom (events st))) st)
    as [ret3 st_vis] eqn:Hreg.
  destruct (trace_register_result _ _ _ _ _ Hreg)
    as (Hev & Htab & Hcur & Hmax & Hdyn & _ & Hfail & _).
  destruct (ret3 =? 0) eqn:Hret3; cbn [negb] in Hparse.
  - injection Hparse as Hz _ _. apply Z.eqb_eq in Hret3. congruence.
  - apply Z.eqb_neq in Hret3. destruct (Hfail Hret3) as [Htr Hcalls].
    destruct (Hput _ _ _ _ Hparse) as (-> & m' & ->).
    cbn. repeat split; assumption.
Qed.

(** Registering [name] changes nothing for another name. *)
Lemma register_keeps_others (env : trace_env) (st : kstate)
    (name other : string) (args flags : option string) :
  other <> name ->
  let registered := (user_event_parse env st name args flags).2 in
  lookup_name registered other = lookup_name st other
  /\ forall q, lookup_name st other = Some q ->
       events registered !! q = events st !! q.
Proof.
  intros Hother registered.
  assert (Hq : forall q p user,
            lookup_name st other = Some q ->
            events st !! p = Some user -> EVENT_NAME user = name -> q <> p).
  { intros q p user Hfound Hp Hname ->.
    destruct (find_in_chain_Some _ _ _ _ Hfound) as (_ & u & Hu & Hn).
    rewrite Hp in Hu. injection Hu as <-. congruence. }
  assert (Hfalse : forall u, EVENT_NAME u = name ->
            strcmp_eq (EVENT_NAME u) other = false).
  { intros u ->. apply String.eqb_neq. congruence. }
  subst registered.
  destruct (lookup_name st name) as [p|] eqn:Hlookup.
  - destruct (find_in_chain_Some _ _ _ _ Hlookup) as (_ & user & Hp & Hname).
    unfold user_event_parse, find_user_event.
    pose proof Hlookup as Hfind. unfold lookup_name in Hfind. rewrite Hfind.
    cbn [snd]. split.
    + unfold lookup_name. cbn [events register_table set_mem refcount_inc
                                 set_events].
      apply find_in_chain_names. intros q _.
      destruct (decide (p = q)) as [<- | Hne].
      * rewrite lookup_alter_eq, Hp. reflexivity.
      * rewrite lookup_alter_ne by exact Hne. reflexivity.
    + intros q Hfound. cbn. apply lookup_alter_ne.
      intros ->. exact (Hq q q user Hfound Hp Hname eq_refl).
  - destruct (user_event_parse env st name args flags)
      as [[ret newuser] st'] eqn:Hparse. cbn [snd].
    destruct (Z.eq_dec ret 0) as [-> | Hret].
    + destruct (parse_new_ok env st st' name args flags newuser Hlookup Hparse)
        as (m0 & m1 & m2 & user1 & _ & Hfields & _ & _ & _ & _ & Hfresh & ->).
      set (p := fresh (dom (events st))) in *.
      destruct (parse_fields_account _ _ _ _ _ _ Hfields) as (_ & _ & _ & Htp).
      assert (Hsame : forall chain,
                find_in_chain
                  (<[p := set_refcnt 2
                            (set_print_fmt
                               (Some (user_event_set_print_fmt user1)) user1)]>
                     (events st)) chain other
                = find_in_chain (events st) chain other).
      { intros chain. apply find_in_chain_answers. intros q _.
        unfold answers_to. destruct (decide (p = q)) as [<- | Hne].
        - rewrite lookup_insert_eq, Hfresh. apply Hfalse.
          unfold EVENT_NAME. cbn. rewrite Htp. reflexivity.
        - rewrite lookup_insert_ne by exact Hne. reflexivity. }
      split.
      * unfold lookup_name, hash_add. cbn [events register_table].
        destruct (_ =? _).
        -- cbn [find_in_chain]. rewrite lookup_insert_eq.
           rewrite Hfalse by (unfold EVENT_NAME; cbn; rewrite Htp; reflexivity).
           apply Hsame.
        -- apply Hsame.
      * intros q Hfound. cbn. apply lookup_insert_ne. intros <-.
        destruct (find_in_chain_Some _ _ _ _ Hfound) as (_ & u & Hu & _).
        rewrite Hfresh in Hu. discriminate.
    + destruct (parse_new_failed env st st' name args flags newuser ret
                  Hlookup Hparse Hret) as (_ & Hev & Htab & _).
      unfold lookup_name. rewrite Hev, Htab. split; [reflexivity|].
      intros q _. reflexivity.
Qed.

(** Deleting [name] changes nothing for another name. *)
Lemma delete_keeps_others (env : trace_env) (st : kstate) (name other : string) :
  other <> name ->
  let deleted := (delete_user_event env st name).2 in
  lookup_name deleted other = lookup_name st other
  /\ forall q, lookup_name st other = Some q ->
       events deleted !! q = events st !! q.
Proof.
  intros Hother deleted.
  assert (Hq : forall q p user,
            lookup_name st other = Some q ->
            events st !! p = Some user -> EVENT_NAME user = name -> q <> p).
  { intros q p user Hfound Hp Hname ->.
    destruct (find_in_chain_Some _ _ _ _ Hfound) as (_ & u & Hu & Hn).
    rewrite Hp in Hu. injection Hu as <-. congruence. }
  assert (Hfalse : forall u, EVENT_NAME u = name ->
            strcmp_eq (EVENT_NAME u) other = false).
  { intros u ->. apply String.eqb_neq. congruence. }
  subst deleted.
  destruct (delete_user_event_cases env st name)
    as [[_ ->] | (p & user & Hlookup & Hp & Hname & [[_ ->] | [_ ->]])];
    cbn [snd]; try (split; [reflexivity | intros q _; reflexivity]).
  pose proof (destroy_user_event_result env p st user Hp) as Hdestroy.
  destruct (destroy_user_event env p st) as [ret st']. cbn [snd].
  cbv zeta in Hdestroy. destruct Hdestroy as [Hgone Hkept].
  destruct (prepare_creds_ok env && (trace_remove_event_call_ret env =? 0)).
  - destruct (Hgone eq_refl) as (_ & Hev & Htab & _).
    split.
    + unfold lookup_name. rewrite Hev, Htab. unfold hash_del.
      assert (Hp' : answers_to (delete p (events st)) other p = false).
      { unfold answers_to. rewrite lookup_delete_eq. reflexivity. }
      rewrite (find_in_chain_unlink _ _ _ _ Hp').
      apply find_in_chain_answers. intros q _. unfold answers_to.
      destruct (decide (p = q)) as [<- | Hne].
      * rewrite lookup_delete_eq, Hp. symmetry. apply Hfalse, Hname.
      * rewrite lookup_delete_ne by exact Hne. reflexivity.
    + intros q Hfound. rewrite Hev. apply lookup_delete_ne.
      intros ->. exact (Hq q q user Hfound Hp Hname eq_refl).
  - destruct (Hkept eq_refl) as (_ & _ & Htab & Hn & Hrest & _).
    split.
    + unfold lookup_name. rewrite Htab.
      apply find_in_chain_names. intros q _.
      destruct (decide (q = p)) as [-> | Hne].
      * rewrite Hn, Hp. reflexivity.
      * rewrite (Hrest q Hne). reflexivity.
    + intros q Hfound. apply Hrest.
      intros ->. exact (Hq p p user Hfound Hp Hname eq_refl).
Qed.

(** X8. Registering or deleting a name changes nothing for any other name:
    the event found under another name is the same, and its record, the
    reference count included, is untouched. *)
Theorem other_names_unaffected (env : trace_env) (st : kstate)
    (name other : string) (args flags : option string) :
  other <> name ->
  let registered := (user_event_parse env st name args flags).2 in
  let deleted := (delete_user_event env st name).2 in
  lookup_name registered other = lookup_name st other
  /\ lookup_name deleted other = lookup_name st other
  /\ (forall q, lookup_name st other = Some q ->
        events registered !! q = events st !! q
        /\ events deleted !! q = events st !! q).
Proof.
  intros Hother registered deleted.
  destruct (register_keeps_others env st name other args flags Hother)
    as [Hreg1 Hreg2].
  destruct (delete_keeps_others env st name other Hother) as [Hdel1 Hdel2].
  split; [exact Hreg1|]. split; [exact Hdel1|].
  intros q Hfound. split; [apply Hreg2 | apply Hdel2]; exact Hfound.
Qed.


Lemma unlink_NoDup (p q : ptr) (l : list ptr) :
  NoDup l -> q ∈ unlink p l -> q ∈ l /\ q <> p.
Proof.
  induction l as [|r l IH]; cbn [unlink]; intros Hnd Hin; [inversion Hin|].
  apply NoDup_cons in Hnd as [Hr Hnd].
  destruct (decide (r = p)) as [-> | Hne].
  - split; [apply list_elem_of_further, Hin|]. intros ->. contradiction.
  - apply elem_of_cons in Hin as [-> | Hin].
    + split; [apply list_elem_of_here | exact Hne].
    + destruct (IH Hnd Hin) as [Hl Hq].
      split; [apply list_elem_of_further, Hl | exact Hq].
Qed.

Lemma unlink_keeps_NoDup (p : ptr) (l : list ptr) : NoDup l -> NoDup (unlink p l).
Proof.
  induction l as [|r l IH]; cbn [unlink]; intros Hnd; [constructor|].
  apply NoDup_cons in Hnd as [Hr Hnd].
  destruct (decide (r = p)); [exact Hnd|].
  apply NoDup_cons. split; [|apply IH, Hnd].
  intros Hin. clear IH. induction l as [|x l IHl]; cbn [unlink] in Hin;
    [inversion Hin|].
  apply NoDup_cons in Hnd as [Hx Hnd].
  destruct (decide (x = p)).
  - apply Hr, list_elem_of_further, Hin.
  - apply elem_of_cons in Hin as [-> | Hin].
    + apply Hr, list_elem_of_here.
    + apply IHl; [|exact Hnd|exact Hin].
      intros Hrl. apply Hr, list_elem_of_further, Hrl.
Qed.

(** Well-formedness reads the state through its events' names and its
    table only. *)
Lemma registry_wf_names (st st' : kstate) :
  register_table st' = register_table st ->
  (forall q, EVENT_NAME <$> events st' !! q = EVENT_NAME <$> events st !! q) ->
  registry_wf st -> registry_wf st'.
Proof.
  intros Htab Hnames [Hnd Hwf]. split.
  - intros b. rewrite Htab. apply Hnd.
  - intros b p Hin. rewrite Htab in Hin.
    destruct (Hwf b p Hin) as (user & Hp & Hb & Hfound).
    pose proof (Hnames p) as Hn. rewrite Hp in Hn.
    destruct (events st' !! p) as [user'|] eqn:Hp'; [|discriminate].
    cbn in Hn. injection Hn as Hn.
    exists user'. split; [reflexivity|]. rewrite Hn. split; [exact Hb|].
    unfold lookup_name. rewrite Htab. rewrite <- Hfound.
    apply find_in_chain_names. intros q _. apply Hnames.
Qed.

Lemma register_keeps_wf (env : trace_env) (st : kstate) (name : string)
    (args flags : option string) :
  registry_wf st ->
  registry_wf (user_event_parse env st name args flags).2.
Proof.
  intros Hwf.
  destruct (lookup_name st name) as [p|] eqn:Hlookup.
  - (* an existing name: one more reference *)
    unfold user_event_parse, find_user_event.
    pose proof Hlookup as Hfind. unfold lookup_name in Hfind. rewrite Hfind.
    cbn [snd]. apply (registry_wf_names st); [reflexivity| |exact Hwf].
    intros q. cbn. destruct (decide (p = q)) as [<- | Hne].
    + rewrite lookup_alter_eq. destruct (events st !! p); reflexivity.
    + rewrite lookup_alter_ne by exact Hne. reflexivity.
  - destruct (user_event_parse env st name args flags)
      as [[ret newuser] st'] eqn:Hparse. cbn [snd].
    destruct (Z.eq_dec ret 0) as [-> | Hret].
    2:{ destruct (parse_new_failed env st st' name args flags newuser ret
                    Hlookup Hparse Hret) as (_ & Hev & Htab & _).
        apply (registry_wf_names st); [exact Htab| |exact Hwf].
        intros q. rewrite Hev. reflexivity. }
    pose proof (fun other Hne =>
                  register_keeps_others env st name other args flags Hne)
      as Hothers.
    cbv zeta in Hothers. rewrite Hparse in Hothers. cbn [snd] in Hothers.
    destruct (parse_new_ok env st st' name args flags newuser Hlookup Hparse)
      as (m0 & m1 & m2 & user1 & _ & Hfields & _ & _ & _ & _ & Hfresh & Hst).
    set (p := fresh (dom (events st))) in *.
    destruct (parse_fields_account _ _ _ _ _ _ Hfields) as (_ & _ & _ & Htp).
    destruct Hwf as [Hnd Hwf].
    assert (Hold : forall b q, q ∈ register_table st b -> q <> p).
    { intros b q Hin ->. destruct (Hwf b p Hin) as (u & Hu & _).
      rewrite Hfresh in Hu. discriminate. }
    assert (Htab : forall b,
              register_table st' b
              = if b =? hash_min (user_event_key name)
                then p :: register_table st b else register_table st b).
    { intros b. rewrite Hst. reflexivity. }
    assert (Hp : exists user, events st' !! p = Some user
                              /\ EVENT_NAME user = name).
    { rewrite Hst. cbn [events]. rewrite lookup_insert_eq. eexists.
      split; [reflexivity|]. unfold EVENT_NAME. cbn. rewrite Htp. reflexivity. }
    assert (Hnew : lookup_name st' name = Some p).
    { destruct Hp as (user & Hp & Hname).
      unfold lookup_name. rewrite Htab, Z.eqb_refl. cbn [find_in_chain].
      rewrite Hp. unfold strcmp_eq. rewrite Hname, String.eqb_refl.
      reflexivity. }
    split.
    + intros b. rewrite Htab. destruct (b =? _); [|apply Hnd].
      apply NoDup_cons. split; [|apply Hnd].
      intros Hin. exact (Hold b p Hin eq_refl).
    + intros b q Hin. rewrite Htab in Hin.
      assert (Hcase : (q = p /\ b = hash_min (user_event_key name))
                      \/ q ∈ register_table st b).
      { destruct (b =? hash_min (user_event_key name)) eqn:Hb; [|right; exact Hin].
        apply elem_of_cons in Hin as [-> | Hin]; [left | right; exact Hin].
        split; [reflexivity | apply Z.eqb_eq, Hb]. }
      destruct Hcase as [[-> ->] | Hq].
      * destruct Hp as (user & Hp & Hname). exists user.
        rewrite Hname. repeat split; assumption.
      * destruct (Hwf b q Hq) as (user & Hu & Hb & Hfound).
        assert (Hother : EVENT_NAME user <> name).
        { intros Heq. rewrite Heq, Hlookup in Hfound. discriminate. }
        destruct (Hothers (EVENT_NAME user) Hother) as [Hl He].
        exists user. split; [rewrite (He q Hfound); exact Hu|].
        split; [exact Hb|]. rewrite Hl. exact Hfound.
Qed.

Lemma delete_keeps_wf (env : trace_env) (st : kstate) (name : string) :
  registry_wf st ->
  registry_wf (delete_user_event env st name).2.
Proof.
  intros Hwf.
  pose proof (delete_keeps_others env st name) as Hothers.
  cbv zeta in Hothers.
  destruct (delete_user_event_cases env st name)
    as [[_ ->] | (p & user & Hlookup & Hp & Hname & [[_ ->] | [_ Heq]])];
    cbn [snd]; try exact Hwf.
  rewrite Heq in Hothers |- *.
  pose proof (destroy_user_event_result env p st user Hp) as Hdestroy.
  destruct (destroy_user_event env p st) as [ret st']. cbn [snd] in *.
  cbv zeta in Hdestroy. destruct Hdestroy as [Hgone Hkept].
  destruct (prepare_creds_ok env && (trace_remove_event_call_ret env =? 0)).
  - destruct (Hgone eq_refl) as (_ & Hev & Htab & _).
    destruct Hwf as [Hnd Hwf]. split.
    + intros b. rewrite Htab. apply unlink_keeps_NoDup, Hnd.
    + intros b q Hin. rewrite Htab in Hin. unfold hash_del in Hin.
      destruct (unlink_NoDup p q _ (Hnd b) Hin) as [Hq Hne].
      destruct (Hwf b q Hq) as (u & Hu & Hb & Hfound).
      assert (Hother : EVENT_NAME u <> name).
      { intros Hsame. rewrite Hsame, Hlookup in Hfound.
        injection Hfound as ->. contradiction. }
      destruct (Hothers (EVENT_NAME u) Hother) as [Hl He].
      exists u. split; [rewrite (He q Hfound); exact Hu|].
      split; [exact Hb|]. rewrite Hl. exact Hfound.
  - destruct (Hkept eq_refl) as (_ & _ & Htab & Hn & Hrest & _).
    apply (registry_wf_names st); [exact Htab| |exact Hwf].
    intros q. destruct (decide (q = p)) as [-> | Hne].
    + rewrite Hn, Hp. reflexivity.
    + rewrite (Hrest q Hne). reflexivity.
Qed.

(** X9. The table stays well formed through every registration and every
    deletion: no chain holds an event twice, and each registered event is
    live, sits in the bucket of its own name and is the one found under
    that name. *)
Theorem registry_wf_kept (env : trace_env) (st : kstate) (name : string)
    (args flags : option string) :
  registry_wf st ->
  registry_wf (user_event_parse env st name args flags).2
  /\ registry_wf (delete_user_event env st name).2.
Proof.
  intros Hwf. split.
  - apply register_keeps_wf, Hwf.
  - apply delete_keeps_wf, Hwf.
Qed.


Lemma unlink_absent (p : ptr) (l : list ptr) : p ∉ l -> unlink p l = l.
Proof.
  induction l as [|q l IH]; intros Hnot; [reflexivity|]. cbn [unlink].
  apply not_elem_of_cons in Hnot as [Hne Hnot].
  destruct (decide (q = p)); [congruence|]. rewrite (IH Hnot). reflexivity.
Qed.

(** X10. Registering a new name, dropping the reference the registration
    handed out, and deleting the name again brings the registry back: the
    events, every chain of the table, the trace core's lists and the event
    count are what they were. The name buffer the caller handed over is
    freed with the event. *)
Theorem register_delete_round_trip (env env' : trace_env) (st st1 : kstate)
    (name : string) (args flags : option string) (newuser : option ptr) :
  registry_wf st ->
  lookup_name st name = None ->
  0 <= current_user_events st ->
  max_user_events st <= UINT_MAX ->
  user_event_parse env st name args flags = (0, newuser, st1) ->
  prepare_creds_ok env' = true ->
  trace_remove_event_call_ret env' = 0 ->
  exists (p : ptr) (st2 : kstate),
    newuser = Some p
    /\ delete_user_event env' (refcount_dec p st1) name = (0, st2)
    /\ events st2 = events st
    /\ (forall b, register_table st2 b = register_table st b)
    /\ dyn_events st2 = dyn_events st
    /\ trace_events st2 = trace_events st
    /\ event_calls st2 = event_calls st
    /\ current_user_events st2 = current_user_events st
    /\ max_user_events st2 = max_user_events st
    /\ live (mem st2) = live (mem st) - 1.
Proof.
  intros [_ Hwf] Hlookup Hcount Hmax Hparse Hcreds Hremove.
  destruct (parse_new_ok env st st1 name args flags newuser Hlookup Hparse)
    as (m0 & m1 & m2 & user1 & Hk0 & Hfields & Hk2 & Hcap & _ & -> & Hfresh & ->).
  set (p := fresh (dom (events st))) in *.
  destruct (parse_fields_account _ _ _ _ _ _ Hfields) as (_ & Hlive1 & Hfmt & Htp).
  apply kmalloc_live in Hk0, Hk2.
  set (user := set_refcnt 2
                 (set_print_fmt (Some (user_event_set_print_fmt user1)) user1)).
  set (st1 := {| events := <[p := user]> (events st);
                 register_table := hash_add (register_table st) p
                                     (user_event_key name);
                 current_user_events := u32 (current_user_events st + 1);
                 max_user_events := max_user_events st;
                 dyn_events := p :: dyn_events st;
                 trace_events := p :: trace_events st;
                 event_calls := p :: event_calls st;
                 mem := m2 |}).
  set (st1' := refcount_dec p st1).
  assert (Hp : events st1' !! p = Some (set_refcnt 1 user)).
  { subst st1' st1. cbn. rewrite lookup_alter_eq, lookup_insert_eq. reflexivity. }
  assert (Hfound : lookup_name st1' name = Some p).
  { unfold lookup_name. subst st1' st1. cbn [refcount_dec set_events events
                                               register_table].
    unfold hash_add. rewrite Z.eqb_refl. cbn [find_in_chain].
    rewrite lookup_alter_eq, lookup_insert_eq. cbn.
    unfold strcmp_eq, EVENT_NAME. cbn. rewrite Htp. cbn.
    rewrite String.eqb_refl. reflexivity. }
  destruct (delete_user_event_cases env' st1' name)
    as [[Hnone _] | (q & u & Hq & Hu & _ & Hcases)];
    [rewrite Hfound in Hnone; discriminate|].
  rewrite Hfound in Hq. injection Hq as <-.
  rewrite Hp in Hu. injection Hu as <-.
  destruct Hcases as [[Hbusy _] | [_ Hdel]];
    [exfalso; apply Hbusy; reflexivity|].
  pose proof (destroy_user_event_result env' p st1' _ Hp) as Hdestroy.
  destruct (destroy_user_event env' p st1') as [ret st2]. cbv zeta in Hdestroy.
  destruct Hdestroy as [Hgone _].
  rewrite Hcreds, Hremove in Hgone.
  destruct (Hgone eq_refl)
    as (-> & Hev & Htab & Hdyn & Htr & Hcalls & Hlive & Hcur & Hmx).
  exists p, st2. split; [reflexivity|]. split; [exact Hdel|].
  subst st1' st1. cbn [refcount_dec set_events events register_table dyn_events
                         trace_events event_calls mem current_user_events
                         max_user_events] in *.
  rewrite unlink_head in Hdyn, Htr, Hcalls.
  repeat split; try assumption.
  - rewrite Hev. apply map_eq. intros q.
    destruct (decide (p = q)) as [<- | Hne].
    + rewrite lookup_delete_eq, Hfresh. reflexivity.
    + rewrite lookup_delete_ne, lookup_alter_ne, lookup_insert_ne by exact Hne.
      reflexivity.
  - intros b. rewrite Htab. unfold hash_del, hash_add.
    destruct (b =? hash_min (user_event_key name)); [apply unlink_head|].
    apply unlink_absent. intros Hin.
    destruct (Hwf b p Hin) as (u & Hu & _). rewrite Hfresh in Hu. discriminate.
  - rewrite Hcur. unfold u32, UINT_MAX in *.
    rewrite Z.mod_small by lia.
    destruct (current_user_events st + 1 >? 0) eqn:Hpos; lia.
  - rewrite Hlive. unfold owned in *. subst user. cbn in *.
    rewrite Hfmt in Hlive1. lia.
Qed.

End FurtherRegistry.

(** ** The data file *)

Section FurtherFile.
Context `{Platform}.

Lemma refs_index_Some (events : list (option ptr)) (user : ptr) (i0 i : Z) :
  refs_index events user i0 = Some i ->
  i0 <= i /\ events !! Z.to_nat (i - i0) = Some (Some user)
  /\ forall j, (j < Z.to_nat (i - i0))%nat -> events !! j <> Some (Some user).
Proof.
  revert i0. induction events as [|slot events IH]; intros i0; cbn [refs_index];
    [discriminate|].
  destruct (bool_decide (slot = Some user)) eqn:Hslot.
  - apply bool_decide_eq_true in Hslot. intros [= <-].
    rewrite Z.sub_diag. split; [lia|].
    split; [rewrite Hslot; reflexivity|]. intros j Hj. cbn in Hj. lia.
  - apply bool_decide_eq_false in Hslot.
    intros Hfind. destruct (IH _ Hfind) as (Hle & Hat & Hfirst).
    split; [lia|].
    replace (Z.to_nat (i - i0)) with (S (Z.to_nat (i - (i0 + 1)))) by lia.
    split; [exact Hat|]. intros [|j] Hj.
    + cbn. congruence.
    + cbn. apply Hfirst. lia.
Qed.

Lemma refs_index_None (events : list (option ptr)) (user : ptr) (i0 : Z) :
  refs_index events user i0 = None <-> Some user ∉ events.
Proof.
  revert i0. induction events as [|slot events IH]; intros i0; cbn [refs_index].
  - split; [intros _ Hin; inversion Hin | reflexivity].
  - destruct (bool_decide (slot = Some user)) eqn:Hslot.
    + apply bool_decide_eq_true in Hslot. subst slot.
      split; [discriminate|]. intros Hnot. exfalso. apply Hnot, list_elem_of_here.
    + apply bool_decide_eq_false in Hslot. rewrite IH, not_elem_of_cons.
      split; [intros Hnot; split; [congruence | exact Hnot] | intros [_ Hnot]; exact Hnot].
Qed.

(** The outcomes of [user_events_ref_add]. *)
Lemma ref_add_cases (info : user_event_file_info) (user : ptr) (st : kstate) :
  let old := default [] (refs info) in
  (exists i, 0 <= i /\ old !! Z.to_nat i = Some (Some user)
             /\ user_events_ref_add info user st = (i, info, st))
  \/ ((Some user ∉ old)
      /\ ((exists m, user_events_ref_add info user st
                     = (- ENOMEM, info, set_mem m st))
          \/ exists st',
               user_events_ref_add info user st
               = (Z.of_nat (length old),
                  {| refs := Some (old ++ [Some user]) |}, st')
               /\ events st' = events (refcount_inc user st)
               /\ register_table st' = register_table st)).
Proof.
  intros old. unfold user_events_ref_add. fold old.
  destruct (refs_index old user 0) as [i|] eqn:Hidx.
  - destruct (refs_index_Some _ _ _ _ Hidx) as (Hle & Hat & _).
    rewrite Z.sub_0_r in Hat. left. exists i. repeat split; assumption.
  - apply refs_index_None in Hidx. right. split; [exact Hidx|]. cbv zeta.
    destruct (kmalloc (mem st)) as [ok m]. destruct ok; cbn [negb].
    + right. eexists. split; [reflexivity|].
      destruct (refs info); cbn; split; reflexivity.
    + left. exists m. reflexivity.
Qed.


Lemma refcount_dec_lookup (q p : ptr) (st : kstate) :
  events (refcount_dec q st) !! p
  = (if decide (q = p) then drop_refs 1 else id) <$> events st !! p.
Proof.
  unfold refcount_dec. cbn [events set_events].
  destruct (decide (q = p)) as [<- | Hne].
  - rewrite lookup_alter_eq. reflexivity.
  - rewrite lookup_alter_ne by exact Hne.
    destruct (events st !! p); reflexivity.
Qed.

Lemma refcount_inc_lookup (q p : ptr) (st : kstate) :
  events (refcount_inc q st) !! p
  = (if decide (q = p) then drop_refs (-1) else id) <$> events st !! p.
Proof.
  unfold refcount_inc. cbn [events set_events].
  destruct (decide (q = p)) as [<- | Hne].
  - rewrite lookup_alter_eq. reflexivity.
  - rewrite lookup_alter_ne by exact Hne.
    destruct (events st !! p); reflexivity.
Qed.

Lemma drop_refs_drop_refs (a b : Z) (user : user_event) :
  drop_refs a (drop_refs b user) = drop_refs (b + a) user.
Proof. destruct user. unfold drop_refs, set_refcnt. cbn. f_equal. lia. Qed.

Lemma drop_refs_0 (user : user_event) : drop_refs 0 user = user.
Proof. destruct user. unfold drop_refs, set_refcnt. cbn. f_equal. lia. Qed.

Lemma release_refs_events (events_ : list (option ptr)) (st : kstate) (p : ptr) :
  events (release_refs events_ st) !! p
  = drop_refs (count_refs p events_) <$> events st !! p.
Proof.
  revert st. induction events_ as [|slot l IH]; intros st.
  - cbn. destruct (events st !! p) as [u|]; [|reflexivity].
    cbn. rewrite drop_refs_0. reflexivity.
  - unfold release_refs in *. cbn [fold_left]. rewrite IH.
    unfold count_refs. rewrite filter_cons.
    destruct slot as [q|].
    + rewrite refcount_dec_lookup.
      destruct (decide (q = p)) as [-> | Hne].
      * destruct (decide (Some p = Some p)); [|contradiction].
        destruct (events st !! p) as [u|]; [|reflexivity]. cbn [fmap option_fmap option_map].
        cbn. rewrite drop_refs_drop_refs. f_equal. f_equal. lia.
      * destruct (decide (Some q = Some p)) as [Heq|]; [congruence|].
        destruct (events st !! p); reflexivity.
    + destruct (decide (None = Some p)); [discriminate|]. reflexivity.
Qed.

Lemma release_refs_frame (events_ : list (option ptr)) (st : kstate) :
  register_table (release_refs events_ st) = register_table st
  /\ mem (release_refs events_ st) = mem st
  /\ current_user_events (release_refs events_ st) = current_user_events st
  /\ event_calls (release_refs events_ st) = event_calls st.
Proof.
  revert st. induction events_ as [|slot l IH]; intros st; [repeat split|].
  unfold release_refs in *. cbn [fold_left].
  destruct slot as [q|]; [|apply IH].
  destruct (IH (refcount_dec q st)) as (-> & -> & -> & ->). repeat split.
Qed.

(** The state a file leaves when it is closed. *)
Lemma release_state (info : user_event_file_info) (st : kstate) :
  let st' := (user_events_release (Some info) st).2 in
  (forall p, events st' !! p
             = drop_refs (count_refs p (default [] (refs info)))
                 <$> events st !! p)
  /\ register_table st' = register_table st
  /\ current_user_events st' = current_user_events st
  /\ live (mem st') = live (mem st) - 1 - has_refs info.
Proof.
  unfold user_events_release, has_refs. cbn [snd].
  destruct (refs info) as [events_|]; cbn [default].
  - destruct (release_refs_frame events_ st) as (Htab & Hmem & Hcur & _).
    split; [intros p; cbn; apply release_refs_events|].
    split; [cbn; exact Htab|]. split; [cbn; exact Hcur|].
    cbn. rewrite Hmem. lia.
  - split.
    + intros p. cbn. destruct (events st !! p) as [u|]; [|reflexivity].
      cbn. rewrite drop_refs_0. reflexivity.
    + split; [reflexivity|]. split; [reflexivity|]. cbn. lia.
Qed.

(** X12. Closing the data file drops one reference for every slot of its
    reference array that holds an event, and nothing else about the events
    or the table changes; the array and the file's record are freed. A file
    that was never opened is [-EINVAL]. *)
Theorem release_drops_refs (info : user_event_file_info) (st : kstate) :
  let slots := default [] (refs info) in
  let '(ret, data, st') := user_events_release (Some info) st in
  ret = 0
  /\ data = None
  /\ (forall p, events st' !! p
                = drop_refs (count_refs p slots) <$> events st !! p)
  /\ register_table st' = register_table st
  /\ current_user_events st' = current_user_events st
  /\ live (mem st')
     = live (mem st) - 1 - match refs info with Some _ => 1 | None => 0 end
  /\ user_events_release None st = (- EINVAL, None, st).
Proof.
  intros slots. unfold user_events_release. subst slots.
  destruct (refs info) as [events_|]; cbn [default].
  - destruct (release_refs_frame events_ st) as (Htab & Hmem & Hcur & _).
    repeat split; try reflexivity.
    + intros p. cbn. apply release_refs_events.
    + cbn. exact Htab.
    + cbn. exact Hcur.
    + cbn. rewrite Hmem. lia.
  - repeat split; try reflexivity.
    + intros p. cbn. destruct (events st !! p) as [u|]; [|reflexivity].
      cbn. rewrite drop_refs_0. reflexivity.
    + cbn. lia.
Qed.


Lemma count_refs_absent (p : ptr) (events_ : list (option ptr)) :
  Some p ∉ events_ -> count_refs p events_ = 0.
Proof.
  intros Hnot. unfold count_refs.
  induction events_ as [|slot l IH]; [reflexivity|].
  apply not_elem_of_cons in Hnot as [Hne Hnot]. rewrite filter_cons.
  destruct (decide (slot = Some p)); [congruence|]. exact (IH Hnot).
Qed.

Lemma count_refs_app (p : ptr) (l k : list (option ptr)) :
  count_refs p (l ++ k) = count_refs p l + count_refs p k.
Proof. unfold count_refs. rewrite filter_app, length_app. lia. Qed.

(** The event found under a name does not depend on reference counts. *)
Lemma lookup_name_refcounts (st st' : kstate) (name : string) :
  register_table st' = register_table st ->
  (forall q, EVENT_NAME <$> events st' !! q = EVENT_NAME <$> events st !! q) ->
  lookup_name st' name = lookup_name st name.
Proof.
  intros Htab Hnames. unfold lookup_name. rewrite Htab.
  apply find_in_chain_names. intros q _. apply Hnames.
Qed.

(** X13. A file's reference keeps an event from being deleted. An event
    that only the table references, once added to a file's reference array,
    cannot be deleted: [delete] is [-EBUSY] and changes nothing. When the
    file is closed the event is back to the table's reference alone, and
    [delete] goes on to destroy it. *)
Theorem file_reference_blocks_delete (env : trace_env) (st st' : kstate)
    (info info' : user_event_file_info) (name : string) (p : ptr)
    (user : user_event) (ret : Z) :
  lookup_name st name = Some p ->
  events st !! p = Some user ->
  refcnt user = 1 ->
  Some p ∉ default [] (refs info) ->
  user_events_ref_add info p st = (ret, info', st') ->
  0 <= ret ->
  let closed := (user_events_release (Some info') st').2 in
  delete_user_event env st' name = (- EBUSY, st')
  /\ refcnt <$> events closed !! p = Some 1
  /\ delete_user_event env closed name = destroy_user_event env p closed.
Proof.
  intros Hlookup Hp Hone Hnew Hadd Hret closed.
  assert (Hslot : refs info' = Some (default [] (refs info) ++ [Some p])
                  /\ events st' = events (refcount_inc p st)
                  /\ register_table st' = register_table st).
  { destruct (ref_add_cases info p st)
      as [(i & _ & Hat & _) | (_ & [(m & Hfail) | (st0 & Hok & Hev & Htab)])].
    - exfalso. apply Hnew. eapply list_elem_of_lookup_2, Hat.
    - rewrite Hfail in Hadd. injection Hadd as <- _ _.
      unfold ENOMEM in Hret. lia.
    - rewrite Hok in Hadd. injection Hadd as _ <- <-.
      split; [reflexivity|]. split; [exact Hev | exact Htab]. }
  destruct Hslot as (Hrefs & Hev & Htab).
  assert (Hp' : events st' !! p = Some (set_refcnt 2 user)).
  { rewrite Hev. cbn. rewrite lookup_alter_eq, Hp. cbn. rewrite Hone.
    reflexivity. }
  assert (Hnames : forall q, EVENT_NAME <$> events st' !! q
                             = EVENT_NAME <$> events st !! q).
  { intros q. rewrite Hev. cbn. destruct (decide (p = q)) as [<- | Hne].
    - rewrite lookup_alter_eq. destruct (events st !! p); reflexivity.
    - rewrite lookup_alter_ne by exact Hne. reflexivity. }
  assert (Hfound : lookup_name st' name = Some p).
  { rewrite (lookup_name_refcounts st st' name Htab Hnames). exact Hlookup. }
  destruct (release_state info' st') as (Hev2 & Htab2 & _).
  fold closed in Hev2, Htab2. set (st2 := closed) in *.
  assert (Hp2 : events st2 !! p = Some (set_refcnt 1 user)).
  { rewrite Hev2, Hp', Hrefs.
    change (default [] (Some (default [] (refs info) ++ [Some p])))
      with (default [] (refs info) ++ [Some p]).
    rewrite count_refs_app, (count_refs_absent p _ Hnew).
    unfold count_refs. rewrite filter_cons.
    destruct (decide (Some p = Some p)); [|contradiction]. cbn.
    destruct user. reflexivity. }
  assert (Hfound2 : lookup_name st2 name = Some p).
  { rewrite (lookup_name_refcounts st' st2 name Htab2); [exact Hfound|].
    intros q. rewrite Hev2. destruct (events st' !! q); reflexivity. }
  split; [|split].
  - destruct (delete_user_event_cases env st' name)
      as [[Hnone _] | (q & u & Hq & Hu & _ & [[_ Hbusy] | [Hlast _]])].
    + rewrite Hfound in Hnone. discriminate.
    + exact Hbusy.
    + rewrite Hfound in Hq. injection Hq as <-. rewrite Hp' in Hu.
      injection Hu as <-. discriminate Hlast.
  - rewrite Hp2. reflexivity.
  - destruct (delete_user_event_cases env st2 name)
      as [[Hnone _] | (q & u & Hq & Hu & _ & [[Hbusy _] | [_ Hdel]])].
    + rewrite Hfound2 in Hnone. discriminate.
    + rewrite Hfound2 in Hq. injection Hq as <-. rewrite Hp2 in Hu.
      injection Hu as <-. exfalso. apply Hbusy. reflexivity.
    + rewrite Hfound2 in Hq. injection Hq as <-. exact Hdel.
Qed.

End FurtherFile.

(** ** Unregistering *)

Section FurtherUnregister.
Context `{Platform}.

Lemma set_freeing_keeps_faulting (enabler : user_event_enabler) :
  Z.testbit (en_values (set_freeing enabler)) ENABLE_VAL_FAULTING_BIT
  = is_faulting enabler.
Proof.
  unfold set_freeing, is_faulting. cbn [en_values].
  rewrite Z.setbit_neq; [reflexivity | discriminate | discriminate].
Qed.

Lemma enabler_destroy_lookup (enabler : user_event_enabler) (st : kstate)
    (p : ptr) :
  events (user_event_enabler_destroy enabler st) !! p
  = (if decide (en_event enabler = p) then drop_refs 1 else id)
      <$> events st !! p.
Proof.
  unfold user_event_enabler_destroy. cbn [events set_mem].
  apply refcount_dec_lookup.
Qed.

Lemma unreg_loop_spec (enablers : list user_event_enabler) (reg : user_unreg)
    (ret0 : Z) (st : kstate) :
  let '(ret, kept, st') := unreg_loop enablers reg ret0 st in
  ret = (if existsb (unreg_matches reg) enablers then 0 else ret0)
  /\ kept = flat_map (after_unreg reg) enablers
  /\ (forall p, events st' !! p
                = drop_refs (count_enablers p (destroyed_by reg enablers))
                    <$> events st !! p)
  /\ register_table st' = register_table st
  /\ live (mem st')
     = live (mem st) - Z.of_nat (length (destroyed_by reg enablers)).
Proof.
  revert ret0 st. induction enablers as [|e l IH]; intros ret0 st.
  - cbn. repeat split; try lia.
    intros p. destruct (events st !! p) as [u|]; [|reflexivity].
    cbn. unfold count_enablers. cbn. rewrite drop_refs_0. reflexivity.
  - cbn [unreg_loop existsb flat_map]. unfold after_unreg at 1.
    unfold destroyed_by. rewrite filter_cons. fold (destroyed_by reg l).
    fold (unreg_matches reg e).
    destruct (unreg_matches reg e) eqn:Hm; cbn [orb andb].
    + rewrite set_freeing_keeps_faulting.
      destruct (is_faulting e) eqn:Hf; cbn [negb].
      * destruct (decide (false = true)); [discriminate|].
        specialize (IH 0 st). destruct (unreg_loop l reg 0 st) as [[r k] s'].
        destruct IH as (-> & -> & Hev & Htab & Hlive).
        split; [destruct (existsb _ l); reflexivity|].
        split; [reflexivity|]. repeat split; assumption.
      * destruct (decide (true = true)); [|contradiction].
        specialize (IH 0 (user_event_enabler_destroy (set_freeing e) st)).
        destruct (unreg_loop l reg 0 _) as [[r k] s'].
        destruct IH as (-> & -> & Hev & Htab & Hlive).
        split; [destruct (existsb _ l); reflexivity|].
        split; [reflexivity|]. split; [|split; [exact Htab|]].
        -- intros p. rewrite Hev, enabler_destroy_lookup.
           unfold count_enablers. rewrite filter_cons. cbn [set_freeing en_event].
           destruct (decide (en_event e = p)).
           ++ destruct (events st !! p) as [u|]; [|reflexivity]. cbn.
              rewrite drop_refs_drop_refs. f_equal. f_equal. lia.
           ++ destruct (events st !! p); reflexivity.
        -- rewrite Hlive. cbn. lia.
    + destruct (decide (false = true)); [discriminate|].
      specialize (IH ret0 st). destruct (unreg_loop l reg ret0 st) as [[r k] s'].
      destruct IH as (-> & -> & Hev & Htab & Hlive).
      repeat split; assumption.
Qed.


Lemma copy_struct_from_user_codes (um : user_memory) (ksize src usize : Z) :
  let ret := (copy_struct_from_user um ksize src usize).1 in
  ret = 0 \/ ret = - E2BIG \/ ret = - EFAULT.
Proof.
  unfold copy_struct_from_user.
  set (size := Z.min ksize usize). set (rest := Z.max ksize usize - size).
  assert (Hz : forall z, check_zeroed_user um (src + size) rest = z ->
                 z = 1 \/ z = 0 \/ z = - EFAULT).
  { intros z <-. unfold check_zeroed_user.
    destruct (user_read um (src + size) (Z.to_nat rest)) as [bytes|]; [|auto].
    destruct (forallb _ bytes); auto. }
  destruct (ksize <? usize).
  - destruct (Hz _ eq_refl) as [-> | [-> | ->]]; cbn.
    + destruct (user_read um src (Z.to_nat size)); cbn; auto.
    + auto.
    + auto.
  - cbn. destruct (user_read um src (Z.to_nat size)); cbn; auto.
Qed.

(** X14. What [user_unreg_get] accepts: it returns 0 only for a request of
    16 bytes to a page that can be copied in, whose trailing bytes beyond
    the structure are zero and whose two reserved fields are zero; every
    other request is answered with [-EFAULT], [-E2BIG] or [-EINVAL]. The
    reserved fields are looked at before the result of the copy: after a
    failed copy the error is the copy's only when what the kernel buffer
    holds then has them zero, and [-EINVAL] otherwise. *)
Theorem unreg_request_validated (um : user_memory) (ureg : Z)
    (stale : user_unreg) :
  let '(ret, kreg) := user_unreg_get um ureg stale in
  (ret = 0 ->
     exists size bytes,
       get_user_u32 um ureg = (0, size)
       /\ offsetofend_disable_addr <= size <= PAGE_SIZE
       /\ copy_struct_from_user um sizeof_user_unreg ureg size = (0, bytes)
       /\ kreg = user_unreg_of_bytes bytes
       /\ unreg_reserved kreg = 0 /\ unreg_reserved2 kreg = 0)
  /\ (ret = 0 \/ ret = - EFAULT \/ ret = - E2BIG \/ ret = - EINVAL)
  /\ (forall size err bytes,
        get_user_u32 um ureg = (0, size) ->
        offsetofend_disable_addr <= size <= PAGE_SIZE ->
        copy_struct_from_user um sizeof_user_unreg ureg size = (err, bytes) ->
        err <> 0 ->
        kreg = stale
        /\ ret = (if (unreg_reserved stale =? 0) && (unreg_reserved2 stale =? 0)
                  then err else - EINVAL)).
Proof.
  unfold user_unreg_get, get_user_u32.
  destruct (user_read um ureg 4) as [size_bytes|]; cbn [Z.eqb negb].
  2:{ split; [discriminate|]. split; [auto|]. intros ? ? ? [= Hz]. }
  set (size := le_value size_bytes).
  destruct (size >? PAGE_SIZE) eqn:Hbig.
  { split; [discriminate|]. split; [auto|].
    intros ? ? ? [= <-] Hrange. fold size in Hrange. lia. }
  destruct (size <? offsetofend_disable_addr) eqn:Hsmall.
  { split; [discriminate|]. split; [auto|].
    intros ? ? ? [= <-] Hrange. fold size in Hrange. lia. }
  pose proof (copy_struct_from_user_codes um sizeof_user_unreg ureg size) as Hcodes.
  destruct (copy_struct_from_user um sizeof_user_unreg ureg size)
    as [ret bytes] eqn:Hcopy. cbn [fst] in Hcodes.
  destruct (ret =? 0) eqn:Hret.
  - apply Z.eqb_eq in Hret. subst ret.
    destruct (unreg_reserved (user_unreg_of_bytes bytes) =? 0) eqn:Hr1;
      cbn [negb orb].
    + destruct (unreg_reserved2 (user_unreg_of_bytes bytes) =? 0) eqn:Hr2;
        cbn [negb].
      * split; [|split; [auto|]].
        -- intros _. exists size, bytes. apply Z.eqb_eq in Hr1, Hr2.
           repeat split; try assumption; try reflexivity; lia.
        -- intros ? ? ? [= <-]. fold size. rewrite Hcopy. intros _ [= <- _] Hne.
           contradiction.
      * split; [discriminate|]. split; [auto|].
        intros ? ? ? [= <-]. fold size. rewrite Hcopy. intros _ [= <- _] Hne.
        contradiction.
    + split; [discriminate|]. split; [auto|].
      intros ? ? ? [= <-]. fold size. rewrite Hcopy. intros _ [= <- _] Hne.
      contradiction.
  - apply Z.eqb_neq in Hret.
    destruct (unreg_reserved stale =? 0) eqn:Hr1; cbn [negb orb andb].
    + destruct (unreg_reserved2 stale =? 0) eqn:Hr2; cbn [negb].
      * split; [intros Hz; contradiction|].
        split; [destruct Hcodes as [-> | [-> | ->]]; auto|].
        intros ? ? ? [= <-]. fold size. rewrite Hcopy. intros _ [= <- _] _.
        split; reflexivity.
      * split; [discriminate|]. split; [auto|].
        intros ? ? ? [= <-]. fold size. rewrite Hcopy. intros _ [= <- _] _.
        split; reflexivity.
    + split; [discriminate|]. split; [auto|].
      intros ? ? ? [= <-]. fold size. rewrite Hcopy. intros _ [= <- _] _.
      split; reflexivity.
Qed.

(** X15. What an unregister request does. A request that is not accepted
    changes nothing. An accepted one, for a task that has no enablers or
    none at that address and bit, is [-ENOENT] and changes nothing. When
    some enabler matches the answer is 0: every matching enabler is marked
    as being freed; those without a pending fault-in are destroyed, each
    giving up its reference on its event; the other enablers stay as they
    were, in their order. *)
Theorem unregister_enabler (st : kstate) (t : task) (uarg : Z)
    (stale : user_unreg) :
  let '(ret, st', t') := user_events_ioctl_unreg st t uarg stale in
  let '(err, reg) := user_unreg_get (user_mem t) uarg stale in
  (err <> 0 -> ret = err /\ st' = st /\ t' = t)
  /\ (err = 0 -> task_mm t = None -> ret = - ENOENT /\ st' = st /\ t' = t)
  /\ (err = 0 ->
      forall mm, task_mm t = Some mm ->
        ret = (if existsb (unreg_matches reg) (mm_enablers mm) then 0
               else - ENOENT)
        /\ mm_enablers <$> task_mm t'
           = Some (flat_map (after_unreg reg) (mm_enablers mm))
        /\ (forall p,
              events st' !! p
              = drop_refs
                  (count_enablers p (destroyed_by reg (mm_enablers mm)))
                  <$> events st !! p)
        /\ register_table st' = register_table st
        /\ user_mem t' = user_mem t).
Proof.
  unfold user_events_ioctl_unreg.
  destruct (user_unreg_get (user_mem t) uarg stale) as [err reg].
  destruct (err =? 0) eqn:Herr; cbn [negb].
  - apply Z.eqb_eq in Herr. subst err.
    destruct (task_mm t) as [mm|] eqn:Hmm.
    + pose proof (unreg_loop_spec (mm_enablers mm) reg (- ENOENT) st) as Hloop.
      destruct (unreg_loop (mm_enablers mm) reg (- ENOENT) st) as [[r kept] s'].
      destruct Hloop as (-> & -> & Hev & Htab & _).
      split; [intros Hne; contradiction|]. split; [discriminate|].
      intros _ mm' [= <-]. repeat split; try assumption.
    + split; [intros Hne; contradiction|].
      split; [intros _ _; repeat split|]. intros _ mm' [=].
  - apply Z.eqb_neq in Herr.
    split; [intros _; repeat split|].
    split; intros Hz; contradiction.
Qed.

End FurtherUnregister.

(** ** Enablers *)

Section FurtherEnabler.
Context `{Platform}.

Lemma u8_range (z : Z) : 0 <= u8 z < 2 ^ 8.
Proof. unfold u8. apply Z.mod_pos_bound. lia. Qed.

Lemma u8_u8 (z : Z) : u8 (u8 z) = u8 z.
Proof. unfold u8. apply Z.mod_mod. lia. Qed.

Lemma le_value_nonneg (bytes : list Z) : 0 <= le_value bytes.
Proof.
  induction bytes as [|b bytes IH]; cbn [le_value]; [lia|].
  pose proof (u8_range b). lia.
Qed.

(** Bit [k] of a little-endian value is bit [k mod 8] of byte [k / 8]. *)
Lemma le_value_testbit (bytes : list Z) (k : Z) :
  0 <= k ->
  Z.testbit (le_value bytes) k
  = Z.testbit (u8 (nth (Z.to_nat (k / 8)) bytes 0)) (k mod 8).
Proof.
  revert k. induction bytes as [|b bytes IH]; intros k Hk.
  - cbn [le_value]. rewrite Z.bits_0.
    destruct (Z.to_nat (k / 8)); cbn [nth]; change (u8 0) with 0;
      rewrite Z.bits_0; reflexivity.
  - cbn [le_value]. pose proof (u8_range b) as Hb.
    pose proof (le_value_nonneg bytes) as Hv.
    assert (Hsum : u8 b + 2 ^ 8 * le_value bytes
                   = Z.lor (u8 b) (Z.shiftl (le_value bytes) 8)).
    { assert (Hland : Z.land (u8 b) (le_value bytes * 2 ^ 8) = 0).
      { apply Z.bits_inj'. intros j Hj. rewrite Z.land_spec, Z.bits_0.
        destruct (Z.lt_ge_cases j 8) as [Hlt | Hge].
        + rewrite Z.mul_pow2_bits_low by lia. apply andb_false_r.
        + unfold u8. rewrite Z.mod_pow2_bits_high by lia. reflexivity. }
      rewrite Z.shiftl_mul_pow2 by lia.
      rewrite <- (Z.lxor_lor _ _ Hland), <- (Z.add_nocarry_lxor _ _ Hland).
      ring. }
    rewrite Hsum, Z.lor_spec, Z.shiftl_spec by lia.
    destruct (Z.lt_ge_cases k 8) as [Hlt | Hge].
    + rewrite (Z.testbit_neg_r _ (k - 8)) by lia. rewrite orb_false_r.
      rewrite Z.div_small, Z.mod_small by lia. reflexivity.
    + replace (Z.testbit (u8 b) k) with false
        by (unfold u8; rewrite Z.mod_pow2_bits_high by lia; reflexivity).
      cbn [orb]. rewrite IH by lia.
      replace (k / 8) with ((k - 8) / 8 + 1).
      2:{ replace k with ((k - 8) + 1 * 8) at 2 by lia.
          rewrite Z.div_add by lia. reflexivity. }
      replace (k mod 8) with ((k - 8) mod 8).
      2:{ replace k with ((k - 8) + 1 * 8) at 2 by lia.
          rewrite Z.mod_add by lia. reflexivity. }
      assert (0 <= (k - 8) / 8) by (apply Z.div_pos; lia).
      replace (Z.to_nat ((k - 8) / 8 + 1)) with (S (Z.to_nat ((k - 8) / 8)))
        by lia.
      reflexivity.
Qed.


Lemma user_read_nth (um : user_memory) (n : nat) (addr : Z) (bytes : list Z) :
  user_read um addr n = Some bytes ->
  length bytes = n
  /\ forall j, (j < n)%nat ->
       exists b, um (addr + Z.of_nat j) = Some b /\ nth j bytes 0 = u8 b.
Proof.
  revert addr bytes. induction n as [|n IH]; intros addr bytes; cbn [user_read].
  - intros [= <-]. split; [reflexivity|]. intros j Hj. lia.
  - destruct (um addr) as [b|] eqn:Hb; [|discriminate].
    destruct (user_read um (addr + 1) n) as [bs|] eqn:Hbs; [|discriminate].
    intros [= <-]. destruct (IH _ _ Hbs) as [Hlen Hnth].
    split; [cbn; lia|]. intros [|j] Hj.
    + exists b. rewrite Z.add_0_r. split; [exact Hb | reflexivity].
    + destruct (Hnth j ltac:(lia)) as (c & Hc & Hn). exists c.
      replace (addr + Z.of_nat (S j)) with (addr + 1 + Z.of_nat j) by lia.
      split; [exact Hc | exact Hn].
Qed.

(** What a read sees after one byte has been rewritten. *)
Lemma user_read_update (um um' : user_memory) (f : Z -> Z) (at_ : Z) (n : nat)
    (addr : Z) (bytes : list Z) :
  (forall a, um' a = (fun b => if a =? at_ then f (u8 b) else b) <$> um a) ->
  user_read um addr n = Some bytes ->
  exists bytes',
    user_read um' addr n = Some bytes'
    /\ forall j, nth j bytes' 0
                 = if (j <? n)%nat && (addr + Z.of_nat j =? at_)
                   then u8 (f (nth j bytes 0)) else nth j bytes 0.
Proof.
  intros Hum'. revert addr bytes.
  induction n as [|n IH]; intros addr bytes; cbn [user_read].
  - intros [= <-]. exists []. split; [reflexivity|]. intros j. reflexivity.
  - rewrite (Hum' addr). destruct (um addr) as [b|] eqn:Hb; [|discriminate].
    destruct (user_read um (addr + 1) n) as [bs|] eqn:Hbs; [|discriminate].
    intros [= <-]. destruct (IH _ _ Hbs) as (bs' & -> & Hnth).
    cbn [fmap option_fmap option_map]. eexists. split; [reflexivity|].
    intros [|j].
    + cbn [nth]. rewrite Z.add_0_r. cbn [Nat.ltb Nat.leb andb].
      destruct (addr =? at_); [reflexivity|]. reflexivity.
    + cbn [nth]. rewrite Hnth.
      replace (addr + 1 + Z.of_nat j) with (addr + Z.of_nat (S j)) by lia.
      replace (S j <? S n)%nat with (j <? n)%nat; [reflexivity|].
      destruct (j <? n)%nat eqn:Hlt; symmetry;
        [apply Nat.ltb_lt; apply Nat.ltb_lt in Hlt
        |apply Nat.ltb_ge; apply Nat.ltb_ge in Hlt]; lia.
Qed.

Lemma byte_of_bit (k nr : Z) :
  0 <= k -> 0 <= nr ->
  (k =? nr) = (k / 8 =? nr / 8) && (k mod 8 =? nr mod 8).
Proof.
  intros Hk Hnr. destruct (k =? nr) eqn:Heq.
  - apply Z.eqb_eq in Heq. subst. rewrite !Z.eqb_refl. reflexivity.
  - apply Z.eqb_neq in Heq. symmetry. apply andb_false_iff.
    destruct (k / 8 =? nr / 8) eqn:Hq; [right | left; reflexivity].
    apply Z.eqb_eq in Hq. apply Z.eqb_neq. intros Hr. apply Heq.
    rewrite (Z.div_mod k 8), (Z.div_mod nr 8) by lia. congruence.
Qed.

(** A read succeeds where every byte is mapped. *)
Lemma user_read_mapped (um : user_memory) (n : nat) (addr : Z) :
  (forall j, (j < n)%nat -> is_Some (um (addr + Z.of_nat j))) ->
  is_Some (user_read um addr n).
Proof.
  revert addr. induction n as [|n IH]; intros addr Hmap; cbn [user_read].
  - eexists. reflexivity.
  - destruct (Hmap O ltac:(lia)) as [b Hb]. rewrite Z.add_0_r in Hb. rewrite Hb.
    destruct (IH (addr + 1)) as [bs ->]; [|eexists; reflexivity].
    intros j Hj. replace (addr + 1 + Z.of_nat j) with (addr + Z.of_nat (S j))
      by lia.
    apply Hmap. lia.
Qed.

Lemma le_value_le_bytes_4 (v : Z) : le_value (le_bytes 4 v) = u32 v.
Proof.
  unfold le_bytes. cbn [seq map le_value].
  rewrite !u8_u8. unfold u8, u32.
  rewrite !Z.shiftr_div_pow2 by lia.
  change (8 * Z.of_nat 0) with 0. change (8 * Z.of_nat 1) with 8.
  change (8 * Z.of_nat 2) with 16. change (8 * Z.of_nat 3) with 24.
  change (2 ^ 0) with 1. rewrite Z.div_1_r.
  change (2 ^ 32) with (2 ^ 8 * (2 ^ 8 * (2 ^ 8 * 2 ^ 8))).
  rewrite (Z.rem_mul_r v (2 ^ 8)) by lia.
  rewrite (Z.rem_mul_r (v / 2 ^ 8) (2 ^ 8)) by lia.
  rewrite (Z.rem_mul_r (v / 2 ^ 8 / 2 ^ 8) (2 ^ 8)) by lia.
  rewrite !Z.div_div by lia.
  change (2 ^ 8 * 2 ^ 8) with (2 ^ 16).
  change (2 ^ 16 * 2 ^ 8) with (2 ^ 24).
  lia.
Qed.

(** What [put_user] leaves of a mapped word: the value when the word may be
    written, and the memory as it was when not. *)
Lemma put_user_u32_mapped (menv : mm_env) (um : user_memory) (addr x : Z) :
  is_Some (user_read um addr 4) ->
  put_user_u32 menv um addr x
  = if user_word_writable menv addr
    then (0, user_write um addr (le_bytes 4 (u32 x)))
    else (- EFAULT, um).
Proof. intros [bs Hread]. unfold put_user_u32. rewrite Hread. reflexivity. Qed.

(** What [put_user] stores in a mapped word that may be written, [get_user]
    reads back. *)
Lemma put_get_user_u32 (menv : mm_env) (um : user_memory) (addr x : Z) :
  is_Some (user_read um addr 4) ->
  user_word_writable menv addr = true ->
  get_user_u32 (put_user_u32 menv um addr x).2 addr = (0, u32 x).
Proof.
  intros [bs Hread] Hw. unfold put_user_u32. rewrite Hread, Hw. cbn [snd].
  destruct (user_read_nth _ _ _ _ Hread) as [_ Hnth].
  unfold get_user_u32.
  assert (Hat : forall j, (j < 4)%nat ->
            user_write um addr (le_bytes 4 (u32 x)) (addr + Z.of_nat j)
            = Some (nth j (le_bytes 4 (u32 x)) 0)).
  { intros j Hj. destruct (Hnth j Hj) as (b & Hb & _).
    unfold user_write. rewrite Hb.
    change (Z.of_nat (length (le_bytes 4 (u32 x)))) with 4.
    replace ((addr <=? addr + Z.of_nat j) && (addr + Z.of_nat j <? addr + 4))
      with true by (symmetry; apply andb_true_iff; split;
                    [apply Z.leb_le | apply Z.ltb_lt]; lia).
    replace (Z.to_nat (addr + Z.of_nat j - addr)) with j by lia.
    reflexivity. }
  cbn [user_read].
  pose proof (Hat 0%nat ltac:(lia)) as H0. pose proof (Hat 1%nat ltac:(lia)) as H1.
  pose proof (Hat 2%nat ltac:(lia)) as H2. pose proof (Hat 3%nat ltac:(lia)) as H3.
  rewrite Z.add_0_r in H0.
  replace (addr + Z.of_nat 2) with (addr + 1 + 1) in H2 by lia.
  replace (addr + Z.of_nat 3) with (addr + 1 + 1 + 1) in H3 by lia.
  change (Z.of_nat 1) with 1 in H1.
  rewrite H0, H1, H2, H3.
  f_equal.
  unfold le_bytes. cbn [seq map nth le_value]. rewrite !u8_u8.
  pose proof (le_value_le_bytes_4 (u32 x)) as Hv.
  unfold le_bytes in Hv. cbn [seq map le_value] in Hv. rewrite !u8_u8 in Hv.
  rewrite Hv. unfold u32. apply Z.mod_mod. lia.
Qed.


Lemma write_bit_mapped (on : bool) (nr uaddr : Z) (um : user_memory) (a : Z) :
  is_Some (um a) -> is_Some (write_bit on nr uaddr um a).
Proof.
  intros [b Hb]. unfold write_bit. rewrite Hb.
  destruct (a =? uaddr + nr / 8); eexists; reflexivity.
Qed.

(** What a read of [n] bytes at [uaddr] sees once bit [nr] of the word
    there has been set or cleared. *)
Lemma write_bit_read (on : bool) (nr uaddr : Z) (um : user_memory) (n : nat)
    (bytes : list Z) :
  0 <= nr ->
  user_read um uaddr n = Some bytes ->
  exists bytes',
    user_read (write_bit on nr uaddr um) uaddr n = Some bytes'
    /\ (nr < 8 * Z.of_nat n -> Z.testbit (le_value bytes') nr = on)
    /\ forall k, 0 <= k -> k <> nr ->
         Z.testbit (le_value bytes') k = Z.testbit (le_value bytes) k.
Proof.
  intros Hnr Hread.
  set (f := fun x => if on then Z.setbit x (nr mod 8)
                     else Z.clearbit x (nr mod 8)).
  assert (Hum' : forall a,
            write_bit on nr uaddr um a
            = (fun b => if a =? uaddr + nr / 8 then f (u8 b) else b) <$> um a).
  { intros a. unfold write_bit. destruct (um a) as [b|]; [|reflexivity].
    cbn. destruct (a =? uaddr + nr / 8); reflexivity. }
  destruct (user_read_update um _ f (uaddr + nr / 8) n uaddr bytes Hum' Hread)
    as (bytes' & Hread' & Hnth).
  exists bytes'. split; [exact Hread'|].
  assert (Hmod : 0 <= nr mod 8 < 8) by (apply Z.mod_pos_bound; lia).
  assert (Hf : forall x j, 0 <= j < 8 ->
            Z.testbit (u8 (f x)) j
            = if j =? nr mod 8 then on else Z.testbit x j).
  { intros x j Hj. unfold u8. rewrite Z.mod_pow2_bits_low by lia.
    unfold f. destruct on.
    - destruct (j =? nr mod 8) eqn:Heq.
      + apply Z.eqb_eq in Heq. subst j. apply Z.setbit_eq. lia.
      + apply Z.eqb_neq in Heq. apply Z.setbit_neq; lia.
    - destruct (j =? nr mod 8) eqn:Heq.
      + apply Z.eqb_eq in Heq. subst j. apply Z.clearbit_eq.
      + apply Z.eqb_neq in Heq. apply Z.clearbit_neq. lia. }
  assert (Hbit : forall k, 0 <= k ->
            Z.testbit (le_value bytes') k
            = if (Z.to_nat (k / 8) <? n)%nat && (k =? nr)
              then on
              else Z.testbit (le_value bytes) k).
  { intros k Hk.
    assert (Hq : 0 <= k / 8) by (apply Z.div_pos; lia).
    assert (Hr : 0 <= k mod 8 < 8) by (apply Z.mod_pos_bound; lia).
    rewrite !le_value_testbit by exact Hk. rewrite Hnth.
    rewrite (byte_of_bit k nr Hk Hnr).
    replace (uaddr + Z.of_nat (Z.to_nat (k / 8)) =? uaddr + nr / 8)
      with (k / 8 =? nr / 8).
    2:{ destruct (k / 8 =? nr / 8) eqn:Heq; symmetry;
          [apply Z.eqb_eq; apply Z.eqb_eq in Heq
          |apply Z.eqb_neq; apply Z.eqb_neq in Heq]; lia. }
    destruct ((Z.to_nat (k / 8) <? n)%nat && (k / 8 =? nr / 8)) eqn:Hin.
    - apply andb_true_iff in Hin as [-> ->]. cbn [andb].
      rewrite u8_u8, Hf by exact Hr.
      destruct (k mod 8 =? nr mod 8); [reflexivity|].
      unfold u8. rewrite Z.mod_pow2_bits_low by lia. reflexivity.
    - replace ((Z.to_nat (k / 8) <? n)%nat
               && ((k / 8 =? nr / 8) && (k mod 8 =? nr mod 8)))
        with false; [reflexivity|].
      rewrite andb_assoc, Hin. reflexivity. }
  split.
  - intros Hinside. rewrite (Hbit nr Hnr), Z.eqb_refl.
    replace (Z.to_nat (nr / 8) <? n)%nat with true; [reflexivity|].
    symmetry. apply Nat.ltb_lt.
    assert (nr / 8 < Z.of_nat n) by (apply Z.div_lt_upper_bound; lia).
    assert (0 <= nr / 8) by (apply Z.div_pos; lia). lia.
  - intros k Hk Hne. rewrite (Hbit k Hk).
    replace (k =? nr) with false by (symmetry; apply Z.eqb_neq; exact Hne).
    rewrite andb_false_r. reflexivity.
Qed.

(** X16. Writing an enabler back to the process: when the write is made, it
    sets bit [nr] of the little-endian word at the enabler's address to
    whether the event is being traced, and changes no other bit of the
    process's memory; when it is refused (the process is gone, the enabler
    is being freed or faulted in, the page cannot be pinned) the memory is
    untouched. *)
Theorem enabler_write_bit (evs : gmap ptr user_event) (mm : user_event_mm)
    (enabler : user_event_enabler) (pin_ok : bool) (um : user_memory) :
  let nr := enabler_bit enabler in
  let '(ret, um') := user_event_enabler_write evs mm enabler pin_ok um in
  (ret <> 0 -> um' = um)
  /\ (ret = 0 ->
      (forall a, a <> en_addr enabler + nr / 8 -> um' a = um a)
      /\ forall (n : nat) (bytes : list Z),
           user_read um (en_addr enabler) n = Some bytes ->
           exists bytes',
             user_read um' (en_addr enabler) n = Some bytes'
             /\ (nr < 8 * Z.of_nat n ->
                 Z.testbit (le_value bytes') nr = event_on evs enabler)
             /\ forall k, 0 <= k -> k <> nr ->
                  Z.testbit (le_value bytes') k = Z.testbit (le_value bytes) k).
Proof.
  intros nr. unfold user_event_enabler_write.
  destruct (mm_tasks mm =? 0); [split; [reflexivity | discriminate]|].
  destruct (_ || _); [split; [reflexivity | discriminate]|].
  destruct pin_ok; cbn [negb]; [|split; [reflexivity | discriminate]].
  fold (event_on evs enabler). fold (enabler_bit enabler). fold nr.
  split; [intros Hne; contradiction|]. intros _.
  assert (Hnr : 0 <= nr).
  { subst nr. unfold enabler_bit. apply Z.land_nonneg. right. discriminate. }
  split.
  - intros a Ha. unfold write_bit. destruct (um a) as [b|]; [|reflexivity].
    destruct (a =? en_addr enabler + nr / 8) eqn:Heq; [|reflexivity].
    apply Z.eqb_eq in Heq. contradiction.
  - intros n bytes Hread. apply write_bit_read; assumption.
Qed.

(** The retry loop writes the memory once, when a write succeeds. *)
Lemma enabler_write_retry_result (pins : list bool) (faults : list Z)
    (evs : gmap ptr user_event) (mm : user_event_mm)
    (enabler : user_event_enabler) (um : user_memory) :
  let '(wr, um') := enabler_write_retry pins faults evs mm enabler um in
  (wr = 0
   /\ um' = write_bit (event_on evs enabler) (enabler_bit enabler)
              (en_addr enabler) um)
  \/ (wr <> 0 /\ um' = um).
Proof.
  assert (Hwrite : forall pin_ok,
            let '(wr, um') := user_event_enabler_write evs mm enabler pin_ok um in
            (wr = 0
             /\ um' = write_bit (event_on evs enabler) (enabler_bit enabler)
                        (en_addr enabler) um)
            \/ (wr <> 0 /\ um' = um)).
  { intros pin_ok. unfold user_event_enabler_write.
    destruct (mm_tasks mm =? 0); [right; split; [discriminate | reflexivity]|].
    destruct (_ || _); [right; split; [discriminate | reflexivity]|].
    destruct pin_ok; cbn [negb];
      [left; split; reflexivity | right; split; [discriminate | reflexivity]]. }
  revert faults. induction pins as [|pin_ok pins IH]; intros faults;
    cbn [enabler_write_retry].
  - apply Hwrite.
  - specialize (Hwrite pin_ok).
    destruct (user_event_enabler_write evs mm enabler pin_ok um) as [wr um1].
    destruct Hwrite as [[-> ->] | [Hwr ->]].
    + cbn [Z.eqb]. left. split; reflexivity.
    + destruct (wr =? 0) eqn:Hz; [apply Z.eqb_eq in Hz; contradiction|].
      destruct (user_event_mm_fault_in mm (hd (- EFAULT) faults) =? 0).
      * apply IH.
      * right. split; [exact Hwr | reflexivity].
Qed.

(** What [user_event_enabler_create] hands back, and what it leaves. *)
Lemma enabler_create_cases (reg : user_reg) (user : ptr) (menv : mm_env)
    (st : kstate) (t : task) :
  mm_referenced t ->
  let '(enabler, wr, st', t') := user_event_enabler_create reg user menv st t in
  register_table st' = register_table st
  /\ match enabler with
     | Some e =>
         wr = 0
         /\ e = enabler_of reg user
         /\ enablers_of t' = e :: enablers_of t
         /\ events st' = events (refcount_inc user st)
         /\ user_mem t'
            = write_bit (event_on (events st) e) (enabler_bit e) (en_addr e)
                (user_mem t)
     | None =>
         events st' = events st
         /\ enablers_of t' = enablers_of t
         /\ user_mem t' = user_mem t
     end.
Proof.
  intros Href. unfold user_event_enabler_create, current_user_event_mm.
  assert (Hput : forall mm s, 1 <= mm_refcnt mm - 1 ->
            user_event_mm_put mm s
            = (Some {| mm_enablers := mm_enablers mm;
                       mm_refcnt := mm_refcnt mm - 1;
                       mm_tasks := mm_tasks mm |}, s)).
  { intros mm s Hge. unfold user_event_mm_put.
    destruct (mm_refcnt mm - 1 =? 0) eqn:Hz; [lia | reflexivity]. }
  assert (Hcore : forall user_mm s,
            2 <= mm_refcnt user_mm ->
            mm_enablers user_mm = enablers_of t ->
            register_table s = register_table st ->
            events s = events st ->
            let '(enabler, wr, st', t') :=
              (let '(ok, m) := kmalloc (mem s) in
               let st0 := set_mem m s in
               if negb ok then
                 let '(mm, st1) := user_event_mm_put user_mm st0 in
                 (None, 0, st1, {| user_mem := user_mem t; task_mm := mm |})
               else
                 let enabler :=
                   {| en_event := user; en_addr := enable_addr reg;
                      en_values := enable_bit reg |} in
                 let '(write_result, um) :=
                   enabler_write_retry (pin_plan menv) (fault_in_plan menv)
                     (events st0) user_mm enabler (user_mem t) in
                 if write_result =? 0 then
                   let st1 := refcount_inc (en_event enabler) st0 in
                   let user_mm1 :=
                     {| mm_enablers := enabler :: mm_enablers user_mm;
                        mm_refcnt := mm_refcnt user_mm;
                        mm_tasks := mm_tasks user_mm |} in
                   let '(mm, st2) := user_event_mm_put user_mm1 st1 in
                   (Some enabler, write_result, st2,
                    {| user_mem := um; task_mm := mm |})
                 else
                   let st1 := set_mem (kfree 1 (mem st0)) st0 in
                   let '(mm, st2) := user_event_mm_put user_mm st1 in
                   (None, write_result, st2,
                    {| user_mem := um; task_mm := mm |})) in
            register_table st' = register_table st
            /\ match enabler with
               | Some e =>
                   wr = 0
                   /\ e = enabler_of reg user
                   /\ enablers_of t' = e :: enablers_of t
                   /\ events st' = events (refcount_inc user st)
                   /\ user_mem t'
                      = write_bit (event_on (events st) e) (enabler_bit e)
                          (en_addr e) (user_mem t)
               | None =>
                   events st' = events st
                   /\ enablers_of t' = enablers_of t
                   /\ user_mem t' = user_mem t
               end).
  { intros user_mm s Hcnt Hen Htab Hev.
    destruct (kmalloc (mem s)) as [ok m]. destruct ok; cbn [negb].
    - pose proof (enabler_write_retry_result (pin_plan menv) (fault_in_plan menv)
                    (events (set_mem m s)) user_mm (enabler_of reg user)
                    (user_mem t)) as Hretry.
      unfold enabler_of in Hretry at 1.
      destruct (enabler_write_retry _ _ _ _ _ _) as [wr um].
      destruct Hretry as [[-> ->] | [Hwr ->]].
      + cbn [Z.eqb]. rewrite Hput by (cbn; lia).
        cbn [enablers_of task_mm mm_enablers user_mem register_table
               refcount_inc set_events set_mem events].
        rewrite Hen, Htab, Hev. repeat split; reflexivity.
      + destruct (wr =? 0) eqn:Hz; [apply Z.eqb_eq in Hz; contradiction|].
        rewrite Hput by lia.
        cbn [enablers_of task_mm mm_enablers user_mem register_table
               set_mem events].
        rewrite Hen, Htab, Hev. repeat split; reflexivity.
    - rewrite Hput by lia.
      cbn [enablers_of task_mm mm_enablers user_mem register_table
             set_mem events].
      rewrite Hen, Htab, Hev. repeat split; reflexivity. }
  destruct (task_mm t) as [mm|] eqn:Hmm.
  - cbn [set_mem mem].
    apply (Hcore {| mm_enablers := mm_enablers mm; mm_refcnt := mm_refcnt mm + 1;
                    mm_tasks := mm_tasks mm |} (set_mem (mem st) st)).
    + cbn. specialize (Href mm Hmm). lia.
    + unfold enablers_of. rewrite Hmm. reflexivity.
    + reflexivity.
    + reflexivity.
  - destruct (kmalloc (mem st)) as [ok m]. destruct ok; cbn [negb].
    + apply (Hcore {| mm_enablers := []; mm_refcnt := 1 + 1; mm_tasks := 1 |}
               (set_mem m st)).
      * cbn. lia.
      * unfold enablers_of. rewrite Hmm. reflexivity.
      * reflexivity.
      * reflexivity.
    + cbn. unfold enablers_of. rewrite Hmm. repeat split; reflexivity.
Qed.


End FurtherEnabler.

(** Whether an event is being traced does not depend on its references. *)
Lemma event_on_refs (evs evs' : gmap ptr user_event) (e : user_event_enabler)
    (f : user_event -> user_event) :
  (forall u, status (f u) = status u) ->
  evs' !! en_event e = f <$> evs !! en_event e ->
  event_on evs' e = event_on evs e.
Proof.
  intros Hf Hl. unfold event_on. rewrite Hl.
  destruct (evs !! en_event e); cbn; [rewrite Hf|]; reflexivity.
Qed.

(** ** Registration requests *)

Section FurtherRegistration.
Context `{Platform}.

(** A descriptor that has been accepted was read from mapped memory. *)
Lemma user_reg_get_mapped (um : user_memory) (ureg : Z) (reg : user_reg) :
  user_reg_get um ureg = inr reg ->
  forall j, (j < 28)%nat -> is_Some (um (ureg + Z.of_nat j)).
Proof.
  unfold user_reg_get. destruct (get_user_u32 um ureg) as [ret size].
  destruct (negb (ret =? 0)); [discriminate|].
  destruct (size >? PAGE_SIZE); [discriminate|].
  destruct (size <? offsetofend_write_index) eqn:Hsmall; [discriminate|].
  apply Z.ltb_ge in Hsmall. unfold offsetofend_write_index in Hsmall.
  destruct (copy_struct_from_user um sizeof_user_reg ureg size) as [r bytes]
    eqn:Hcopy.
  destruct (negb (r =? 0)) eqn:Hr; [discriminate|]. intros _ j Hj.
  unfold copy_struct_from_user, sizeof_user_reg in Hcopy. cbv zeta in Hcopy.
  replace (Z.min 28 size) with 28 in Hcopy by lia.
  destruct (negb (_ =? 0)) eqn:Hne;
    [injection Hcopy as <- _; rewrite Hne in Hr; discriminate Hr|].
  change (Z.to_nat 28) with 28%nat in Hcopy.
  destruct (user_read um ureg 28) as [bs|] eqn:Hread;
    [|injection Hcopy as <- _; vm_compute in Hr; discriminate Hr].
  destruct (user_read_nth _ _ _ _ Hread) as [_ Hnth].
  destruct (Hnth j Hj) as (b & Hb & _). exists b. exact Hb.
Qed.

(** X18. A registration whose descriptor and command have been accepted, for
    the event at [p]. It returns 0 or [-ENOMEM], also when the enable bit
    could not be written. On 0 some index is a slot of the file's array that
    holds [p], the slots there were keep their place, an enabler for [p]
    heads the task's enablers, and [p] holds one reference more than before
    the call for the enabler, and one for the file when the file did not
    hold it. The index is stored in the descriptor's [write_index] when the
    process may write that word, and then reads back from it; when it may
    not (a read-only mapping) the store faults, its result is dropped, the
    call returns 0 all the same, and the memory is the caller's but for the
    enable bit: the index does not reach the caller. On [-ENOMEM] no enabler
    is added and the process's memory is untouched; either the file is as
    before and the reference the lookup took is dropped, or the file has
    gained the slot for [p] and keeps its reference, though the call
    failed. *)
Theorem registration_result (env : trace_env) (menv : mm_env) (st st1 : kstate)
    (info : user_event_file_info) (t : task) (uarg : Z) (reg : user_reg)
    (cmd : string) (m1 : kmem) (p : ptr) :
  mm_referenced t ->
  user_reg_get (user_mem t) uarg = inr reg ->
  strndup_user (user_mem t) (name_args reg) MAX_EVENT_DESC (mem st)
  = (inr cmd, m1) ->
  user_event_parse_cmd env (set_mem m1 st) cmd = (0, Some p, st1) ->
  let old := default [] (refs info) in
  let '(ret, st', info', t') := user_events_ioctl_reg env menv st info t uarg in
  (ret = 0 \/ ret = - ENOMEM)
  /\ register_table st' = register_table st1
  /\ (forall q, q <> p -> events st' !! q = events st1 !! q)
  /\ (ret = 0 ->
      exists (idx : Z) (slots : list (option ptr)),
        let e := enabler_of reg p in
        let um :=
          write_bit (event_on (events st1) e) (enabler_bit e) (en_addr e)
            (user_mem t) in
        user_mem t'
        = (if user_word_writable menv (uarg + offsetof_write_index)
           then user_write um (uarg + offsetof_write_index)
                  (le_bytes 4 (u32 idx))
           else um)
        /\ (user_word_writable menv (uarg + offsetof_write_index) = true ->
            get_user_u32 (user_mem t') (uarg + offsetof_write_index)
            = (0, u32 idx))
        /\ 0 <= idx
        /\ refs info' = Some slots
        /\ slots !! Z.to_nat idx = Some (Some p)
        /\ old `prefix_of` slots
        /\ enablers_of t' = enabler_of reg p :: enablers_of t
        /\ events st' !! p
           = drop_refs (if decide (Some p ∈ old) then 0 else -1)
               <$> events st1 !! p)
  /\ (ret = - ENOMEM ->
      enablers_of t' = enablers_of t
      /\ user_mem t' = user_mem t
      /\ ((info' = info /\ events st' !! p = drop_refs 1 <$> events st1 !! p)
          \/ ((Some p ∉ old)
              /\ refs info' = Some (old ++ [Some p])
              /\ events st' !! p = events st1 !! p))).
Proof.
  intros Href Hget Hdup Hparse old.
  unfold user_events_ioctl_reg. rewrite Hget, Hdup, Hparse. cbn [Z.eqb].
  assert (Hword : forall on nr a,
            is_Some (user_read (write_bit on nr a (user_mem t))
                       (uarg + offsetof_write_index) 4)).
  { intros on nr a. apply user_read_mapped. intros j Hj.
    apply write_bit_mapped. unfold offsetof_write_index.
    replace (uarg + 24 + Z.of_nat j) with (uarg + Z.of_nat (24 + j)) by lia.
    apply (user_reg_get_mapped _ _ _ Hget). lia. }
  assert (Hstored : forall (um3 : user_memory) on nr a idx,
            um3 = write_bit on nr a (user_mem t) ->
            let r := put_user_u32 menv um3 (uarg + offsetof_write_index) idx in
            r.2 = (if user_word_writable menv (uarg + offsetof_write_index)
                   then user_write (write_bit on nr a (user_mem t))
                          (uarg + offsetof_write_index) (le_bytes 4 (u32 idx))
                   else write_bit on nr a (user_mem t))
            /\ (user_word_writable menv (uarg + offsetof_write_index) = true ->
                get_user_u32 r.2 (uarg + offsetof_write_index) = (0, u32 idx))).
  { intros um3 on nr a idx -> r. subst r. split.
    - rewrite (put_user_u32_mapped _ _ _ _ (Hword on nr a)).
      destruct (user_word_writable menv (uarg + offsetof_write_index));
        reflexivity.
    - intros Hw. apply put_get_user_u32; [apply Hword | exact Hw]. }
  assert (Hdrop : forall (u : option user_event) a b,
            drop_refs a <$> (drop_refs b <$> u) = drop_refs (b + a) <$> u).
  { intros [u|] a b; [|reflexivity]. cbn. rewrite drop_refs_drop_refs.
    reflexivity. }
  assert (Hdrop0 : forall u : option user_event, drop_refs 0 <$> u = u).
  { intros [u|]; [|reflexivity]. cbn. rewrite drop_refs_0. reflexivity. }
  assert (Hid : forall u : option user_event, id <$> u = u).
  { intros [u|]; reflexivity. }
  destruct (ref_add_cases info p st1) as
    [(i & Hi & Hat & Hadd) | (Hnew & [(m & Hadd) | (st2 & Hadd & Hev2 & Htab2)])];
    fold old in Hat || fold old in Hnew; rewrite Hadd; fold old.
  - (* the file holds the event already *)
    destruct (i <? 0) eqn:Hneg; [apply Z.ltb_lt in Hneg; lia|].
    pose proof (enabler_create_cases reg p menv (refcount_dec p st1) t Href)
      as Hcases.
    destruct (user_event_enabler_create reg p menv (refcount_dec p st1) t)
      as [[[enabler wr] st3] t3].
    destruct Hcases as [Htab Hcases].
    assert (Hheld : Some p ∈ old) by (eapply list_elem_of_lookup_2, Hat).
    destruct enabler as [e|].
    + destruct Hcases as (-> & -> & Hen & Hev & Hmem). cbn [Z.eqb negb].
      assert (Hon : event_on (events (refcount_dec p st1)) (enabler_of reg p)
                    = event_on (events st1) (enabler_of reg p)).
      { apply (event_on_refs _ _ _ (drop_refs 1)); [reflexivity|].
        cbn [en_event enabler_of]. rewrite refcount_dec_lookup.
        destruct (decide (p = p)); [reflexivity | contradiction]. }
      rewrite Hon in Hmem.
      pose proof (Hstored _ _ _ _ i Hmem) as (Hum & Hback).
      destruct (put_user_u32 menv (user_mem t3) (uarg + offsetof_write_index) i)
        as [pr um3]. cbn [snd] in Hum, Hback.
      split; [left; reflexivity|]. split; [exact Htab|]. split.
      { intros q Hq. rewrite Hev, refcount_inc_lookup, refcount_dec_lookup.
        destruct (decide (p = q)); [congruence|]. rewrite !Hid. reflexivity. }
      split; [|intros [=]]. intros _. exists i, old.
      cbn [user_mem task_mm].
      split; [exact Hum|]. split; [exact Hback|]. split; [exact Hi|].
      assert (Hrefs : refs info = Some old).
      { subst old. destruct (refs info) as [l|]; [reflexivity|].
        cbn in Hheld. inversion Hheld. }
      split; [exact Hrefs|]. split; [exact Hat|]. split; [reflexivity|].
      split; [exact Hen|].
      rewrite Hev, refcount_inc_lookup, refcount_dec_lookup.
      destruct (decide (p = p)); [|contradiction].
      destruct (decide (Some p ∈ old)); [|contradiction].
      rewrite Hdrop. reflexivity.
    + destruct Hcases as (Hev & Hen & Hmem).
      split; [right; reflexivity|]. split; [exact Htab|]. split.
      { intros q Hq. rewrite Hev, refcount_dec_lookup.
        destruct (decide (p = q)); [congruence|]. apply Hid. }
      split; [intros [=]|]. intros _. split; [exact Hen|]. split; [exact Hmem|].
      left. split; [reflexivity|]. rewrite Hev, refcount_dec_lookup.
      destruct (decide (p = p)); [reflexivity | contradiction].
  - (* the new array cannot be allocated *)
    cbn [Z.ltb Z.compare Z.opp ENOMEM].
    replace (- ENOMEM <? 0) with true by reflexivity.
    split; [right; reflexivity|]. split; [reflexivity|]. split.
    { intros q Hq. rewrite refcount_dec_lookup.
      destruct (decide (p = q)); [congruence|]. apply Hid. }
    split; [intros [=]|]. intros _. split; [reflexivity|]. split; [reflexivity|].
    left. split; [reflexivity|]. rewrite refcount_dec_lookup.
    destruct (decide (p = p)); [reflexivity | contradiction].
  - (* a new slot *)
    destruct (Z.of_nat (length old) <? 0) eqn:Hneg; [apply Z.ltb_lt in Hneg; lia|].
    pose proof (enabler_create_cases reg p menv (refcount_dec p st2) t Href)
      as Hcases.
    destruct (user_event_enabler_create reg p menv (refcount_dec p st2) t)
      as [[[enabler wr] st3] t3].
    destruct Hcases as [Htab Hcases].
    assert (Hev2' : forall q, events (refcount_dec p st2) !! q
                              = (if decide (p = q) then drop_refs 0 else id)
                                  <$> events st1 !! q).
    { intros q. rewrite refcount_dec_lookup, Hev2, refcount_inc_lookup.
      destruct (decide (p = q)); [|rewrite !Hid; reflexivity].
      rewrite Hdrop. reflexivity. }
    destruct enabler as [e|].
    + destruct Hcases as (-> & -> & Hen & Hev & Hmem). cbn [Z.eqb negb].
      assert (Hon : event_on (events (refcount_dec p st2)) (enabler_of reg p)
                    = event_on (events st1) (enabler_of reg p)).
      { apply (event_on_refs _ _ _ (drop_refs 0)); [reflexivity|].
        cbn [en_event enabler_of]. rewrite Hev2'.
        destruct (decide (p = p)); [reflexivity | contradiction]. }
      rewrite Hon in Hmem.
      pose proof (Hstored _ _ _ _ (Z.of_nat (length old)) Hmem) as (Hum & Hback).
      destruct (put_user_u32 menv (user_mem t3) (uarg + offsetof_write_index)
                  (Z.of_nat (length old))) as [pr um3].
      cbn [snd] in Hum, Hback.
      split; [left; reflexivity|]. split; [rewrite Htab; exact Htab2|]. split.
      { intros q Hq. rewrite Hev, refcount_inc_lookup, Hev2'.
        destruct (decide (p = q)); [congruence|]. rewrite !Hid. reflexivity. }
      split; [|intros [=]]. intros _.
      exists (Z.of_nat (length old)), (old ++ [Some p]).
      cbn [user_mem task_mm refs].
      split; [exact Hum|]. split; [exact Hback|]. split; [lia|].
      split; [reflexivity|]. split.
      { rewrite Nat2Z.id. apply list_lookup_middle. reflexivity. }
      split; [apply prefix_app_r; reflexivity|]. split; [exact Hen|].
      rewrite Hev, refcount_inc_lookup, Hev2'.
      destruct (decide (p = p)); [|contradiction].
      destruct (decide (Some p ∈ old)); [contradiction|].
      rewrite Hdrop. reflexivity.
    + destruct Hcases as (Hev & Hen & Hmem).
      split; [right; reflexivity|]. split; [rewrite Htab; exact Htab2|]. split.
      { intros q Hq. rewrite Hev, Hev2'.
        destruct (decide (p = q)); [congruence|]. apply Hid. }
      split; [intros [=]|]. intros _. split; [exact Hen|]. split; [exact Hmem|].
      right. split; [exact Hnew|]. split; [reflexivity|].
      rewrite Hev, Hev2'. destruct (decide (p = p)); [|contradiction].
      apply Hdrop0.
Qed.

End FurtherRegistration.

(** ** The status byte *)

Section FurtherStatus.
Context `{Platform}.

Lemma status_fold_bits (probes : list tracepoint_func) (acc k : Z) :
  0 <= k ->
  Z.testbit
    (fold_left
       (fun status probe =>
          match tf_func probe with
          | user_event_ftrace_fn => Z.lor status EVENT_STATUS_FTRACE
          | user_event_perf_fn => Z.lor status EVENT_STATUS_PERF
          | other_probe_fn => Z.lor status EVENT_STATUS_OTHER
          end) probes acc) k
  = Z.testbit acc k
    || existsb (fun probe => status_bit (tf_func probe) =? k) probes.
Proof.
  intros Hk. revert acc. induction probes as [|probe probes IH]; intros acc.
  - cbn. rewrite orb_false_r. reflexivity.
  - cbn [fold_left existsb]. rewrite IH.
    assert (Hone : forall b, 0 <= b -> Z.testbit (2 ^ b) k = (b =? k)).
    { intros b Hb. destruct (b =? k) eqn:Heq.
      - apply Z.eqb_eq in Heq. subst. apply Z.pow2_bits_true. exact Hb.
      - apply Z.eqb_neq in Heq. apply Z.pow2_bits_false. congruence. }
    destruct (tf_func probe); rewrite Z.lor_spec; cbn [status_bit].
    + change EVENT_STATUS_FTRACE with (2 ^ 0). rewrite Hone by lia.
      rewrite orb_assoc. reflexivity.
    + change EVENT_STATUS_PERF with (2 ^ 1). rewrite Hone by lia.
      rewrite orb_assoc. reflexivity.
    + change EVENT_STATUS_OTHER with (2 ^ 7). rewrite Hone by lia.
      rewrite orb_assoc. reflexivity.
Qed.

(** X19. The status [update_enable_bit_for] computes: bit 0 is set when the
    tracepoint is enabled and carries an ftrace probe, bit 1 when it carries
    a perf probe, bit 7 when it carries a probe of another kind, and no
    other bit of the byte is set; it is 0 exactly when the tracepoint is
    disabled or carries no probe. *)
Theorem status_bits (tp : tracepoint) :
  (forall k, 0 <= k < 8 ->
     Z.testbit (tracepoint_status tp) k
     = (tp_key_enabled tp >? 0)
       && existsb (fun probe => status_bit (tf_func probe) =? k) (tp_funcs tp))
  /\ (tracepoint_status tp = 0
      <-> tp_key_enabled tp <= 0 \/ tp_funcs tp = []).
Proof.
  split.
  - intros k Hk. unfold tracepoint_status.
    destruct (tp_key_enabled tp >? 0); [|apply Z.bits_0].
    rewrite status_fold_bits by lia. rewrite Z.bits_0. reflexivity.
  - unfold tracepoint_status.
    destruct (tp_key_enabled tp >? 0) eqn:Hon.
    + apply Z.gtb_lt in Hon. split.
      * intros Hzero. right.
        destruct (tp_funcs tp) as [|probe probes]; [reflexivity|].
        exfalso. cbn [fold_left] in Hzero.
        pose proof (tracepoint_status_fold_pos probes
                      (match tf_func probe with
                       | user_event_ftrace_fn => Z.lor 0 EVENT_STATUS_FTRACE
                       | user_event_perf_fn => Z.lor 0 EVENT_STATUS_PERF
                       | other_probe_fn => Z.lor 0 EVENT_STATUS_OTHER
                       end)) as Hpos.
        rewrite Hzero in Hpos. apply (Z.lt_irrefl 0), Hpos.
        destruct (tf_func probe); reflexivity.
      * intros [Hoff | ->]; [lia | reflexivity].
    + split; [|reflexivity]. intros _. left.
      destruct (Z.gtb_spec (tp_key_enabled tp) 0); [discriminate | lia].
Qed.

End FurtherStatus.

(** ** The dynamic-event entry points *)

Section FurtherDynEvent.
Context `{Platform}.

Lemma parse_existing (env : trace_env) (st : kstate) (name : string)
    (args flags : option string) (p : ptr) :
  lookup_name st name = Some p ->
  user_event_parse env st name args flags
  = (0, Some p, set_mem (kfree 1 (mem st)) (refcount_inc p st)).
Proof.
  intros Hlookup. unfold lookup_name in Hlookup.
  unfold user_event_parse, find_user_event. rewrite Hlookup. reflexivity.
Qed.

(** X20. Creating an event through the dynamic-event interface. A command
    that does not start with [u:] is [-ECANCELED] and nothing changes. A
    create that fails leaves the events and the table as they were. One
    that succeeds keeps no reference of its own: the events of a name that
    was registered are as before, and a new event is found under its name
    with the table's reference only, so that it is not busy and
    [user_event_free] goes on to destroy it. *)
Theorem dyn_create_reference (env : trace_env) (st : kstate)
    (raw_command : string) :
  let name :=
    command_name
      (skip_spaces
         (string_drop (String.length USER_EVENTS_PREFIX) raw_command)) in
  let '(ret, st') := user_event_create env true st raw_command in
  (str_has_prefix raw_command USER_EVENTS_PREFIX = 0%nat ->
   ret = - ECANCELED /\ st' = st)
  /\ (ret <> 0 ->
      events st' = events st /\ register_table st' = register_table st)
  /\ (ret = 0 ->
      match lookup_name st name with
      | Some p =>
          events st' = events st /\ register_table st' = register_table st
      | None =>
          let p := fresh (dom (events st)) in
          lookup_name st' name = Some p
          /\ refcnt <$> events st' !! p = Some 1
          /\ user_event_is_busy p st' = false
          /\ forall env',
               user_event_free env' p st' = destroy_user_event env' p st'
      end).
Proof.
  intros name. unfold user_event_create.
  destruct (str_has_prefix raw_command USER_EVENTS_PREFIX =? 0)%nat eqn:Hpre.
  - split; [intros _; split; reflexivity|].
    split; [intros _; split; reflexivity|]. intros [=].
  - apply Nat.eqb_neq in Hpre.
    destruct (kmalloc (mem st)) as [ok m0]. destruct ok; cbn [negb].
    2:{ split; [intros Hz; contradiction|].
        split; [intros _; split; reflexivity|]. intros [=]. }
    unfold user_event_parse_cmd.
    set (body := skip_spaces
                   (string_drop (String.length USER_EVENTS_PREFIX) raw_command))
      in *.
    subst name. unfold command_name.
    destruct (strsep body " "%char) as [tok args]. cbn [fst].
    destruct (strsep tok ":"%char) as [name flags]. cbn [fst].
    assert (Hsame : lookup_name (set_mem m0 st) name = lookup_name st name)
      by reflexivity.
    destruct (lookup_name st name) as [p|] eqn:Hlookup.
    + rewrite (parse_existing env (set_mem m0 st) name args flags p Hsame).
      cbn [Z.eqb].
      assert (Hev : events (refcount_dec p
                              (set_mem (kfree 1 (mem (set_mem m0 st)))
                                 (refcount_inc p (set_mem m0 st))))
                    = events st).
      { change (events (refcount_dec p (refcount_inc p st)) = events st).
        rewrite refcount_dec_inc. reflexivity. }
      split; [intros Hz; contradiction|].
      split; [intros Hne; contradiction|]. intros _.
      split; [exact Hev | reflexivity].
    + destruct (user_event_parse env (set_mem m0 st) name args flags)
        as [[ret newuser] st1] eqn:Hparse.
      destruct (Z.eq_dec ret 0) as [-> | Hret].
      * destruct (parse_new_ok env _ st1 name args flags newuser Hsame Hparse)
          as (k0 & k1 & k2 & user1 & _ & Hfields & _ & _ & _ & -> & Hfresh & ->).
        cbn [events set_mem] in *.
        set (p := fresh (dom (events st))) in *.
        destruct (parse_fields_account _ _ _ _ _ _ Hfields) as (_ & _ & _ & Htp).
        cbn [Z.eqb].
        split; [intros Hz; contradiction|].
        split; [intros Hne; contradiction|]. intros _.
        assert (Hp : forall s, events (refcount_dec p s) !! p
                               = drop_refs 1 <$> events s !! p).
        { intros s. rewrite refcount_dec_lookup.
          destruct (decide (p = p)); [reflexivity | contradiction]. }
        assert (Hbusy : forall s,
                  events s !! p
                  = Some (set_refcnt 2
                            (set_print_fmt
                               (Some (user_event_set_print_fmt user1)) user1)) ->
                  user_event_last_ref p (refcount_dec p s) = true).
        { intros s Hs. unfold user_event_last_ref. rewrite Hp, Hs. reflexivity. }
        split.
        { unfold lookup_name. cbn [refcount_dec set_events events register_table].
          unfold hash_add. rewrite Z.eqb_refl. cbn [find_in_chain].
          rewrite lookup_alter_eq, lookup_insert_eq. cbn.
          unfold strcmp_eq, EVENT_NAME. cbn. rewrite Htp. cbn.
          rewrite String.eqb_refl. reflexivity. }
        split.
        { rewrite Hp. cbn [events]. rewrite lookup_insert_eq. reflexivity. }
        split.
        { unfold user_event_is_busy. rewrite Hbusy; [reflexivity|].
          cbn [events]. apply lookup_insert_eq. }
        intros env'. unfold user_event_free. rewrite Hbusy; [reflexivity|].
        cbn [events]. apply lookup_insert_eq.
      * destruct (parse_new_failed env _ st1 name args flags newuser ret
                    Hsame Hparse Hret) as (_ & Hev & Htab & _).
        replace (ret =? 0) with false by (symmetry; apply Z.eqb_neq; exact Hret).
        split; [intros Hz; contradiction|].
        split; [|intros Hz; contradiction]. intros _.
        split; [exact Hev | exact Htab].
Qed.

End FurtherDynEvent.

(** ** The life of a data file *)

Section FurtherLifecycle.
Context `{Platform}.

Lemma ref_add_all_events (ps : list ptr) (info info' : user_event_file_info)
    (st st' : kstate) :
  ref_add_all ps info st = (info', st') ->
  (forall p, events st' !! p
             = drop_refs (count_refs p (default [] (refs info))
                          - count_refs p (default [] (refs info')))
                 <$> events st !! p)
  /\ register_table st' = register_table st
  /\ current_user_events st' = current_user_events st
  /\ live (mem st') = live (mem st) + has_refs info' - has_refs info.
Proof.
  revert info st. induction ps as [|q ps IH]; intros info st; cbn [ref_add_all].
  - intros [= <- <-]. split; [|split; [reflexivity | split; [reflexivity | lia]]].
    intros p. rewrite Z.sub_diag. destruct (events st !! p) as [u|]; [|reflexivity].
    cbn. rewrite drop_refs_0. reflexivity.
  - unfold user_events_ref_add.
    destruct (refs_index (default [] (refs info)) q 0) as [i|] eqn:Hidx;
      [apply IH|].
    cbv zeta. destruct (kmalloc (mem st)) as [ok m] eqn:Hk.
    apply kmalloc_live in Hk. destruct ok; cbn [negb].
    + intros Hall. apply IH in Hall. cbn [refs default] in Hall.
      destruct Hall as (Hev & Htab & Hcur & Hlive).
      split; [|split; [|split]].
      * intros p. rewrite Hev.
        assert (Hinc : forall s,
                  events s !! p
                  = (if decide (q = p) then drop_refs (-1) else id)
                      <$> events st !! p ->
                  drop_refs (count_refs p (default [] (refs info) ++ [Some q])
                             - count_refs p (default [] (refs info')))
                    <$> events s !! p
                  = drop_refs (count_refs p (default [] (refs info))
                               - count_refs p (default [] (refs info')))
                      <$> events st !! p).
        { intros s ->. rewrite count_refs_app.
          destruct (events st !! p) as [u|]; [|destruct (decide (q = p)); reflexivity].
          unfold count_refs at 2. rewrite filter_cons, filter_nil.
          destruct (decide (q = p)) as [-> | Hne].
          - destruct (decide (Some p = Some p)); [|contradiction].
            cbn. rewrite drop_refs_drop_refs. do 2 f_equal. lia.
          - destruct (decide (Some q = Some p)); [congruence|].
            cbn. do 2 f_equal. lia. }
        apply Hinc.
        destruct (refs info); cbn [set_mem events set_events];
          apply (refcount_inc_lookup q p (set_mem m st)).
      * rewrite Htab. destruct (refs info); reflexivity.
      * rewrite Hcur. destruct (refs info); reflexivity.
      * rewrite Hlive. unfold has_refs. cbn [refs].
        destruct (refs info); cbn [set_mem mem refcount_inc set_events kfree live];
          lia.
    + intros Hall. apply IH in Hall. destruct Hall as (Hev & Htab & Hcur & Hlive).
      split; [exact Hev|]. split; [exact Htab|]. split; [exact Hcur|].
      rewrite Hlive. cbn. lia.
Qed.


(** X21. The life of a data file leaves no trace: a file that is opened,
    takes any events into its reference array, whether or not each addition
    succeeds, and is closed, leaves every event with the reference count it
    had, the table as it was, and as many allocations live as before. *)
Theorem file_lifecycle_balanced (ps : list ptr) (st : kstate) :
  let '(ret, data, opened) := user_events_open true st in
  match data with
  | None => ret = - ENOMEM /\ events opened = events st
            /\ live (mem opened) = live (mem st)
  | Some info =>
      let '(info', used) := ref_add_all ps info opened in
      let '(ret', data', closed) := user_events_release (Some info') used in
      ret = 0 /\ ret' = 0 /\ data' = None
      /\ events closed = events st
      /\ register_table closed = register_table st
      /\ current_user_events closed = current_user_events st
      /\ live (mem closed) = live (mem st)
  end.
Proof.
  unfold user_events_open. cbn [negb].
  destruct (kmalloc (mem st)) as [ok m] eqn:Hk. apply kmalloc_live in Hk.
  destruct ok; cbn [negb].
  2:{ split; [reflexivity|]. split; [reflexivity|]. cbn. lia. }
  destruct (ref_add_all ps {| refs := None |} (set_mem m st))
    as [info' used] eqn:Hall.
  apply ref_add_all_events in Hall. destruct Hall as (Hev & Htab & Hcur & Hlive).
  destruct (release_state info' used) as (Hev' & Htab' & Hcur' & Hlive').
  destruct (user_events_release (Some info') used) as [[ret' data'] closed]
    eqn:Hrel.
  cbn [snd] in Hev', Htab', Hcur', Hlive'.
  assert (Hret : ret' = 0 /\ data' = None).
  { unfold user_events_release in Hrel. injection Hrel as <- <- _.
    split; reflexivity. }
  destruct Hret as [-> ->].
  split; [reflexivity|]. split; [reflexivity|]. split; [reflexivity|].
  split; [|split; [|split]].
  - apply map_eq. intros p. rewrite Hev', Hev. cbn [refs default events set_mem].
    destruct (events st !! p) as [u|]; [|reflexivity]. cbn.
    rewrite drop_refs_drop_refs.
    replace (count_refs p [] - count_refs p (default [] (refs info'))
             + count_refs p (default [] (refs info'))) with 0
      by (unfold count_refs at 1; cbn; lia).
    rewrite drop_refs_0. reflexivity.
  - rewrite Htab', Htab. reflexivity.
  - rewrite Hcur', Hcur. reflexivity.
  - rewrite Hlive', Hlive. unfold has_refs at 2. cbn. lia.
Qed.

End FurtherLifecycle.

(** ** Forks *)

Section FurtherFork.
Context `{Platform}.

Lemma count_enablers_cons (p : ptr) (e : user_event_enabler)
    (l : list user_event_enabler) :
  count_enablers p (e :: l)
  = (if decide (en_event e = p) then 1 else 0) + count_enablers p l.
Proof.
  unfold count_enablers. rewrite filter_cons.
  destruct (decide (en_event e = p)); cbn [length]; lia.
Qed.

Lemma count_enablers_app (p : ptr) (l k : list user_event_enabler) :
  count_enablers p (l ++ k) = count_enablers p l + count_enablers p k.
Proof. unfold count_enablers. rewrite filter_app, length_app. lia. Qed.

Lemma count_enablers_rev_dup (p : ptr) (l : list user_event_enabler) :
  count_enablers p (rev (map dup_of l)) = count_enablers p l.
Proof.
  induction l as [|e l IH]; [reflexivity|].
  cbn [map rev]. rewrite count_enablers_app, IH, !count_enablers_cons.
  cbn [dup_of en_event]. unfold count_enablers at 2. cbn. lia.
Qed.

Lemma fmap_drop_refs (u : option user_event) (a b : Z) :
  drop_refs a <$> (drop_refs b <$> u) = drop_refs (b + a) <$> u.
Proof.
  destruct u as [u|]; [|reflexivity]. cbn. rewrite drop_refs_drop_refs.
  reflexivity.
Qed.

Lemma fmap_drop_refs_0 (u : option user_event) : drop_refs 0 <$> u = u.
Proof. destruct u as [u|]; [|reflexivity]. cbn. rewrite drop_refs_0. reflexivity. Qed.

(** Destroying the enablers of a descriptor gives back one reference and
    one allocation for each. *)
Lemma destroy_all_spec (l : list user_event_enabler) (st : kstate) :
  let st' := fold_right user_event_enabler_destroy st l in
  (forall p, events st' !! p
             = drop_refs (count_enablers p l) <$> events st !! p)
  /\ register_table st' = register_table st
  /\ live (mem st') = live (mem st) - Z.of_nat (length l).
Proof.
  induction l as [|e l IH]; cbn [fold_right].
  - split; [|split; [reflexivity | cbn; lia]].
    intros p. symmetry. apply fmap_drop_refs_0.
  - destruct IH as (Hev & Htab & Hlive). cbv zeta in *.
    set (s := fold_right user_event_enabler_destroy st l) in *.
    split; [|split].
    + intros p. rewrite enabler_destroy_lookup, Hev, count_enablers_cons.
      destruct (decide (en_event e = p)).
      * rewrite fmap_drop_refs. f_equal. f_equal. lia.
      * destruct (events st !! p); reflexivity.
    + rewrite <- Htab. reflexivity.
    + change (live (mem (user_event_enabler_destroy e s)))
        with (live (mem s) - 1).
      rewrite Hlive. cbn [length]. lia.
Qed.

(** What the loop of a fork has done when it stops: the enablers of a
    prefix of the old list have been duplicated, those being freed left
    out. *)
Lemma dup_loop_spec (enablers : list user_event_enabler) (mm : user_event_mm)
    (st : kstate) :
  let '(ok, mm', st') := dup_loop enablers mm st in
  exists done,
    done `prefix_of` duplicated enablers
    /\ (ok = true -> done = duplicated enablers)
    /\ mm_enablers mm' = rev (map dup_of done) ++ mm_enablers mm
    /\ mm_refcnt mm' = mm_refcnt mm
    /\ mm_tasks mm' = mm_tasks mm
    /\ (forall p, events st' !! p
                  = drop_refs (- count_enablers p done) <$> events st !! p)
    /\ register_table st' = register_table st
    /\ live (mem st') = live (mem st) + Z.of_nat (length done).
Proof.
  revert mm st. induction enablers as [|e es IH]; intros mm st; cbn [dup_loop].
  - exists []. split; [reflexivity|]. split; [reflexivity|].
    split; [reflexivity|]. split; [reflexivity|]. split; [reflexivity|].
    split; [|split; [reflexivity | cbn; lia]].
    intros p. symmetry. apply fmap_drop_refs_0.
  - unfold user_event_enabler_dup, duplicated. rewrite filter_cons.
    fold (is_freeing e). fold (duplicated es).
    destruct (is_freeing e) eqn:Hfree.
    + destruct (decide (true = false)) as [Hc|_]; [discriminate Hc|].
      cbn [negb]. apply IH.
    + destruct (decide (false = false)) as [_|Hc]; [|contradiction].
      destruct (kmalloc (mem st)) as [ok m] eqn:Hk. apply kmalloc_live in Hk.
      destruct ok; cbn [negb].
      * specialize (IH {| mm_enablers := dup_of e :: mm_enablers mm;
                          mm_refcnt := mm_refcnt mm; mm_tasks := mm_tasks mm |}
                       (refcount_inc (en_event e) (set_mem m st))).
        change {| en_event := en_event e; en_addr := en_addr e;
                  en_values := Z.land (en_values e) ENABLE_VAL_DUP_MASK |}
          with (dup_of e).
        cbn [en_event dup_of] in *.
        destruct (dup_loop es _ _) as [[ok mm'] st'].
        destruct IH as (done & Hpre & Hall & Hen & Hcnt & Htasks & Hev & Htab
                        & Hlive).
        exists (e :: done). split; [apply prefix_cons; exact Hpre|].
        split; [intros Hok; rewrite (Hall Hok); reflexivity|].
        split; [rewrite Hen; cbn [map rev mm_enablers];
                rewrite <- app_assoc; reflexivity|].
        split; [exact Hcnt|]. split; [exact Htasks|]. split; [|split].
        -- intros p. rewrite Hev, refcount_inc_lookup, count_enablers_cons.
           cbn [events set_mem].
           destruct (decide (en_event e = p)).
           ++ rewrite fmap_drop_refs. f_equal. f_equal. lia.
           ++ destruct (events st !! p); reflexivity.
        -- exact Htab.
        -- rewrite Hlive. cbn [length mem set_mem refcount_inc set_events].
           rewrite Hk. lia.
      * exists []. split; [apply prefix_nil|]. split; [discriminate|].
        split; [reflexivity|]. split; [reflexivity|]. split; [reflexivity|].
        split; [|split; [reflexivity | cbn [mem set_mem length]; rewrite Hk; lia]].
        intros p. symmetry. apply fmap_drop_refs_0.
Qed.


(** X22. What a fork hands to the child. When the duplication succeeds the
    child has a descriptor of its own, referenced once and used by one task,
    with one enabler for every enabler of the parent that is not being
    freed: same event, same address, of the values the bit number alone;
    every such event holds one more reference for each. When a duplication
    fails part-way the child is left without descriptor and the put of the
    unfinished one is queued; once that put has run, every event holds the
    references it held and as many allocations are live as before the fork. *)
Theorem fork_duplicates_enablers (old_mm : user_event_mm) (st : kstate) :
  let kept := duplicated (mm_enablers old_mm) in
  let '(child, queued, st') := user_event_mm_dup old_mm st in
  register_table st' = register_table st
  /\ match child with
     | Some mm =>
         queued = None
         /\ mm_enablers mm = rev (map dup_of kept)
         /\ mm_refcnt mm = 1
         /\ mm_tasks mm = 1
         /\ (forall p, events st' !! p
                       = drop_refs (- count_enablers p kept) <$> events st !! p)
         /\ live (mem st') = live (mem st) + 1 + Z.of_nat (length kept)
     | None =>
         match queued with
         | None => events st' = events st /\ live (mem st') = live (mem st)
         | Some mm =>
             let '(rest, st'') := delayed_user_event_mm_put mm st' in
             rest = None
             /\ events st'' = events st
             /\ register_table st'' = register_table st
             /\ live (mem st'') = live (mem st)
         end
     end.
Proof.
  intros kept. unfold user_event_mm_dup, user_event_mm_create.
  destruct (kmalloc (mem st)) as [ok m] eqn:Hk. apply kmalloc_live in Hk.
  destruct ok; cbn [negb].
  2:{ split; [reflexivity|]. split; [reflexivity|]. cbn. lia. }
  cbv zeta.
  pose proof (dup_loop_spec (mm_enablers old_mm)
                {| mm_enablers := []; mm_refcnt := 1; mm_tasks := 1 |}
                (set_mem m st)) as Hloop.
  destruct (dup_loop (mm_enablers old_mm) _ _) as [[ok mm'] st'].
  destruct Hloop as (done & Hpre & Hall & Hen & Hcnt & Htasks & Hev & Htab
                     & Hlive).
  cbn [mm_enablers mm_refcnt mm_tasks events set_mem register_table mem]
    in Hen, Hcnt, Htasks, Hev, Htab, Hlive.
  rewrite app_nil_r in Hen.
  destruct ok.
  - split; [exact Htab|].
    rewrite (Hall eq_refl) in *. fold kept in Hen, Hev, Hlive.
    split; [reflexivity|]. split; [exact Hen|]. split; [exact Hcnt|].
    split; [exact Htasks|]. split; [exact Hev|]. lia.
  - unfold user_event_mm_remove. cbn [mm_tasks]. rewrite Htasks.
    cbn [Z.sub Z.add Z.opp Z.pos_sub Z.eqb].
    split; [exact Htab|].
    unfold delayed_user_event_mm_put, user_event_mm_put.
    cbn [mm_refcnt mm_enablers]. rewrite Hcnt. cbn [Z.sub Z.add Z.opp Z.pos_sub Z.eqb].
    destruct (destroy_all_spec (mm_enablers mm') st') as (Hev' & Htab' & Hlive').
    cbv zeta in Hev', Htab', Hlive'.
    set (s := fold_right user_event_enabler_destroy st' (mm_enablers mm')) in *.
    split; [reflexivity|]. split; [|split].
    + change (events s = events st). apply map_eq. intros p.
      rewrite Hev', Hev, Hen, count_enablers_rev_dup, fmap_drop_refs.
      replace (- count_enablers p done + count_enablers p done) with 0 by lia.
      apply fmap_drop_refs_0.
    + change (register_table s = register_table st).
      rewrite Htab', Htab. reflexivity.
    + change (live (mem s) - 1 = live (mem st)). rewrite Hlive', Hlive, Hen.
      rewrite length_rev, length_map. lia.
Qed.

End FurtherFork.

(** ** The status fan-out *)

Section FurtherFanOut.
Context `{Platform}.

(** One bit written: that bit changes, and no other. *)
Lemma byte_bit_write_bit (on : bool) (nr uaddr : Z) (um : user_memory)
    (a k : Z) :
  0 <= nr -> 0 <= k < 8 ->
  byte_bit (write_bit on nr uaddr um) a k
  = if (a =? uaddr + nr / 8) && (k =? nr mod 8)
    then (fun _ => on) <$> byte_bit um a k
    else byte_bit um a k.
Proof.
  intros Hnr Hk. unfold byte_bit, write_bit.
  assert (Hmod : 0 <= nr mod 8 < 8) by (apply Z.mod_pos_bound; lia).
  destruct (um a) as [b|]; [|destruct (_ && _); reflexivity].
  destruct (a =? uaddr + nr / 8); cbn [andb fmap option_fmap option_map];
    [|reflexivity].
  destruct (k =? nr mod 8) eqn:Heq; cbn [fmap option_fmap option_map]; f_equal;
    unfold u8 at 1; rewrite Z.mod_pow2_bits_low by lia.
  - apply Z.eqb_eq in Heq. subst k.
    destruct on; [apply Z.setbit_eq; lia | apply Z.clearbit_eq].
  - apply Z.eqb_neq in Heq.
    destruct on; [apply Z.setbit_neq; lia | apply Z.clearbit_neq; lia].
Qed.


Lemma enabler_bit_nonneg (e : user_event_enabler) : 0 <= enabler_bit e.
Proof. unfold enabler_bit. apply Z.land_nonneg. right. discriminate. Qed.

(** What the enablers of an event leave of a bit of the process. *)
Lemma write_enablers_bits (user : ptr) (st : kstate) (mm : user_event_mm)
    (es : list user_event_enabler) (um : user_memory) (a k : Z) :
  0 <= k < 8 ->
  byte_bit (write_enablers user st mm es um) a k
  = if negb (mm_tasks mm =? 0)
       && existsb (fun e => bool_decide (en_event e = user) && usable e
                            && points_at a k e) es
    then (fun _ => traced st user) <$> byte_bit um a k
    else byte_bit um a k.
Proof.
  intros Hk. unfold write_enablers. revert um.
  induction es as [|e es IH]; intros um; cbn [fold_left existsb].
  - rewrite andb_false_r. reflexivity.
  - rewrite IH. clear IH. unfold write_enabler.
    destruct (negb (mm_tasks mm =? 0)); cbn [andb];
      [|destruct (bool_decide _); reflexivity].
    destruct (bool_decide (en_event e = user)) eqn:Hev; cbn [andb];
      [|reflexivity].
    apply bool_decide_eq_true in Hev.
    destruct (usable e); cbn [andb]; [|reflexivity].
    rewrite byte_bit_write_bit by (try apply enabler_bit_nonneg; exact Hk).
    fold (points_at a k e).
    assert (Hon : event_on (events st) e = traced st user).
    { unfold event_on, traced. rewrite Hev. reflexivity. }
    rewrite Hon.
    destruct (points_at a k e); cbn [orb]; [|reflexivity].
    destruct (existsb _ es); [|reflexivity].
    destruct (byte_bit um a k); reflexivity.
Qed.

(** A walk by places is a walk of the list. *)
Lemma fold_left_places {A B : Type} (g : A -> B -> A) (l : list B) (a : A) :
  fold_left (fun acc i => match l !! i with Some e => g acc e | None => acc end)
    (seq 0 (length l)) a
  = fold_left g l a.
Proof.
  assert (Hgen : forall pre a,
            fold_left
              (fun acc i =>
                 match (pre ++ l) !! i with Some e => g acc e | None => acc end)
              (seq (length pre) (length l)) a
            = fold_left g l a).
  { induction l as [|e l IH]; intros pre b; [reflexivity|].
    cbn [length seq fold_left].
    rewrite list_lookup_middle by reflexivity.
    specialize (IH (pre ++ [e]) (g b e)).
    rewrite <- app_assoc, length_app in IH. cbn [app length] in IH.
    replace (length pre + 1)%nat with (S (length pre)) in IH by lia.
    exact IH. }
  exact (Hgen [] a).
Qed.

Lemma write_fixup_pinned (scheduled : bool) (pins : list bool)
    (mm : user_event_mm) (i : nat) (e : user_event_enabler)
    (um : user_memory) (st : kstate) :
  Forall (fun b => b = true) pins ->
  exists ret pins',
    user_event_enabler_write_fixup scheduled pins mm i e um st
    = (ret, Some mm, write_enabler st mm um e, pins', st)
    /\ Forall (fun b => b = true) pins'.
Proof.
  intros Hpins. unfold user_event_enabler_write_fixup, write_enabler, usable.
  destruct (mm_tasks mm =? 0); cbn [negb andb];
    [eexists _, _; split; [reflexivity | exact Hpins]|].
  destruct (_ || _); cbn [negb];
    [eexists _, _; split; [reflexivity | exact Hpins]|].
  assert (Hhd : hd true pins = true)
    by (destruct Hpins as [|b pins Hb _]; [reflexivity | exact Hb]).
  rewrite Hhd. cbn [negb]. eexists _, _. split; [reflexivity|].
  destruct Hpins; [constructor | assumption].
Qed.

Lemma update_enablers_pinned (user : ptr) (scheduled : bool)
    (places : list nat) (pins : list bool) (m : user_event_mm)
    (um : user_memory) (st : kstate) :
  Forall (fun b => b = true) pins ->
  exists pins',
    update_enablers user scheduled places pins (Some m) um st
    = (Some m,
       fold_left
         (fun um i =>
            match mm_enablers m !! i with
            | Some e =>
                if bool_decide (en_event e = user)
                then write_enabler st m um e else um
            | None => um
            end) places um,
       pins', st)
    /\ Forall (fun b => b = true) pins'.
Proof.
  revert pins um. induction places as [|i places IH]; intros pins um Hpins;
    cbn [update_enablers fold_left].
  - exists pins. split; [reflexivity | exact Hpins].
  - destruct (mm_enablers m !! i) as [e|]; [|apply IH; exact Hpins].
    destruct (bool_decide (en_event e = user)); [|apply IH; exact Hpins].
    destruct (write_fixup_pinned scheduled pins m i e um st Hpins)
      as (ret & pins1 & -> & Hpins1).
    apply IH. exact Hpins1.
Qed.


Lemma update_process_pinned (user : ptr) (scheduled : bool) (pins : list bool)
    (t : task) (mm : user_event_mm) (st : kstate) :
  Forall (fun b => b = true) pins ->
  task_mm t = Some mm ->
  has_enabler user t = true ->
  1 <= mm_refcnt mm ->
  exists pins',
    update_process user scheduled pins (got user t) st
    = (updated user st t, pins', st)
    /\ Forall (fun b => b = true) pins'.
Proof.
  intros Hpins Hmm Hhas Href. unfold update_process, got, updated.
  rewrite Hhas, Hmm. cbn [task_mm user_mem fmap option_fmap option_map].
  destruct (update_enablers_pinned user scheduled
              (seq 0 (length (mm_enablers (user_event_mm_get mm)))) pins
              (user_event_mm_get mm) (user_mem t) st Hpins)
    as (pins' & -> & Hpins').
  exists pins'. split; [|exact Hpins'].
  rewrite (fold_left_places
             (fun um e => if bool_decide (en_event e = user)
                          then write_enabler st (user_event_mm_get mm) um e
                          else um)).
  unfold user_event_mm_put, user_event_mm_get. cbn [mm_refcnt mm_enablers mm_tasks].
  destruct (mm_refcnt mm + 1 - 1 =? 0) eqn:Hz; [lia|].
  replace (mm_refcnt mm + 1 - 1) with (mm_refcnt mm) by lia.
  destruct mm as [es cnt tasks]. reflexivity.
Qed.

Lemma mm_get_all_from_spec (user : ptr) (i : nat) (world : list task)
    (found : list nat) :
  let '(found', world') := mm_get_all_from user i world found in
  world' = map (got user) world
  /\ exists new,
       found' = new ++ found
       /\ NoDup new
       /\ forall j, j ∈ new
                    <-> (i <= j)%nat
                        /\ exists t, world !! (j - i)%nat = Some t
                                     /\ has_enabler user t = true.
Proof.
  revert i found. induction world as [|t world IH]; intros i found;
    cbn [mm_get_all_from map].
  - split; [reflexivity|]. exists []. split; [reflexivity|].
    split; [constructor|]. intros j. split; [intros Hin; inversion Hin|].
    intros (_ & t & Ht & _). discriminate Ht.
  - unfold got at 1. destruct (has_enabler user t) eqn:Hhas.
    + specialize (IH (S i) (i :: found)).
      destruct (mm_get_all_from user (S i) world (i :: found)) as [found' world'].
      destruct IH as (-> & new & -> & Hnd & Hin).
      split; [reflexivity|]. exists (new ++ [i]).
      split; [rewrite <- app_assoc; reflexivity|]. split.
      * apply NoDup_app. split; [exact Hnd|]. split; [|apply NoDup_singleton].
        intros j Hj Hji. apply list_elem_of_singleton in Hji. subst j.
        apply Hin in Hj. lia.
      * intros j. rewrite elem_of_app, list_elem_of_singleton, Hin. split.
        -- intros [(Hle & u & Hu & Hhu) | ->].
           ++ split; [lia|]. exists u. split; [|exact Hhu].
              replace (j - i)%nat with (S (j - S i)) by lia. exact Hu.
           ++ split; [lia|]. exists t. rewrite Nat.sub_diag.
              split; [reflexivity | exact Hhas].
        -- intros (Hle & u & Hu & Hhu).
           destruct (decide (j = i)) as [-> | Hne]; [right; reflexivity|].
           left. split; [lia|]. exists u. split; [|exact Hhu].
           replace (j - i)%nat with (S (j - S i)) in Hu by lia. exact Hu.
    + specialize (IH (S i) found).
      destruct (mm_get_all_from user (S i) world found) as [found' world'].
      destruct IH as (-> & new & -> & Hnd & Hin).
      split; [reflexivity|]. exists new. split; [reflexivity|].
      split; [exact Hnd|]. intros j. rewrite Hin. split.
      * intros (Hle & u & Hu & Hhu). split; [lia|]. exists u.
        split; [|exact Hhu].
        replace (j - i)%nat with (S (j - S i)) by lia. exact Hu.
      * intros (Hle & u & Hu & Hhu).
        destruct (decide (j = i)) as [-> | Hne].
        -- rewrite Nat.sub_diag in Hu. injection Hu as <-. congruence.
        -- split; [lia|]. exists u. split; [|exact Hhu].
           replace (j - i)%nat with (S (j - S i)) in Hu by lia. exact Hu.
Qed.


(** The turns of the fan-out, one for each process found. *)
Lemma update_turns (user : ptr) (scheduled : bool) (found : list nat)
    (world w : list task) (pins : list bool) (st : kstate) :
  NoDup found ->
  Forall (fun b => b = true) pins ->
  (forall j, j ∈ found ->
     exists t mm,
       world !! j = Some t /\ task_mm t = Some mm
       /\ has_enabler user t = true /\ 1 <= mm_refcnt mm
       /\ w !! j = Some (got user t)) ->
  exists w' pins',
    fold_left
      (fun '(world, pins, st) i =>
         match world !! i with
         | Some t =>
             let '(t, pins, st) := update_process user scheduled pins t st in
             (<[i := t]> world, pins, st)
         | None => (world, pins, st)
         end)
      found (w, pins, st)
    = (w', pins', st)
    /\ Forall (fun b => b = true) pins'
    /\ length w' = length w
    /\ forall j, w' !! j = if decide (j ∈ found)
                           then updated user st <$> world !! j
                           else w !! j.
Proof.
  revert w pins. induction found as [|i found IH]; intros w pins Hnd Hpins Hin.
  - exists w, pins. split; [reflexivity|]. split; [exact Hpins|].
    split; [reflexivity|]. intros j.
    destruct (decide (j ∈ [])) as [Hj|]; [inversion Hj | reflexivity].
  - apply NoDup_cons in Hnd as [Hi Hnd]. cbn [fold_left].
    destruct (Hin i (list_elem_of_here _ _))
      as (t & mm & Ht & Hmm & Hhas & Href & Hw).
    rewrite Hw.
    destruct (update_process_pinned user scheduled pins t mm st Hpins Hmm Hhas
                Href) as (pins1 & -> & Hpins1).
    destruct (IH (<[i := updated user st t]> w) pins1 Hnd Hpins1)
      as (w' & pins' & Hfold & Hpins' & Hlen & Hw').
    { intros j Hj. destruct (Hin j (list_elem_of_further _ _ _ Hj))
        as (u & um & Hu & Hum & Hhu & Hru & Hwu).
      exists u, um. split; [exact Hu|]. split; [exact Hum|].
      split; [exact Hhu|]. split; [exact Hru|].
      rewrite list_lookup_insert_ne by (intros ->; contradiction). exact Hwu. }
    exists w', pins'. split; [exact Hfold|]. split; [exact Hpins'|].
    split; [rewrite Hlen; apply length_insert|]. intros j. rewrite Hw'.
    destruct (decide (j = i)) as [-> | Hne].
    + destruct (decide (i ∈ found)); [contradiction|].
      destruct (decide (i ∈ i :: found)) as [_|Hn];
        [|exfalso; apply Hn, list_elem_of_here].
      rewrite list_lookup_insert_eq by (eapply lookup_lt_Some, Hw).
      rewrite Ht. reflexivity.
    + rewrite list_lookup_insert_ne by congruence.
      destruct (decide (j ∈ found)) as [Hj|Hj].
      * destruct (decide (j ∈ i :: found)) as [_|Hn];
          [reflexivity | exfalso; apply Hn, list_elem_of_further, Hj].
      * destruct (decide (j ∈ i :: found)) as [Hc|_]; [|reflexivity].
        apply elem_of_cons in Hc as [Hc|Hc]; contradiction.
Qed.

(** The fan-out when every page can be pinned. *)
Lemma enabler_update_pinned (user : ptr) (scheduled : bool) (pins : list bool)
    (world : list task) (st : kstate) :
  Forall (fun b => b = true) pins ->
  Forall mm_referenced world ->
  let '(world', pins', st') :=
    user_event_enabler_update user scheduled pins world st in
  st' = st
  /\ length world' = length world
  /\ forall i t,
       world !! i = Some t ->
       exists t',
         world' !! i = Some t'
         /\ task_mm t' = task_mm t
         /\ forall a k, 0 <= k < 8 ->
              byte_bit (user_mem t') a k
              = if tracks user t a k
                then (fun _ => traced st user) <$> byte_bit (user_mem t) a k
                else byte_bit (user_mem t) a k.
Proof.
  intros Hpins Href. unfold user_event_enabler_update, user_event_mm_get_all.
  pose proof (mm_get_all_from_spec user 0 world []) as Hall.
  destruct (mm_get_all_from user 0 world []) as [found w].
  destruct Hall as (-> & new & -> & Hnd & Hin). rewrite app_nil_r.
  assert (Hfound : forall j, j ∈ new
                             <-> exists t, world !! j = Some t
                                           /\ has_enabler user t = true).
  { intros j. rewrite Hin, Nat.sub_0_r. split; [intros [_ Hj]; exact Hj|].
    intros Hj. split; [lia | exact Hj]. }
  assert (Hhas : forall t, has_enabler user t = true ->
                           exists mm, task_mm t = Some mm).
  { intros t. unfold has_enabler. destruct (task_mm t) as [mm|]; [|discriminate].
    intros _. exists mm. reflexivity. }
  destruct (update_turns user scheduled new world (map (got user) world) pins st
              Hnd Hpins) as (w' & pins' & -> & _ & Hlen & Hw').
  { intros j Hj. apply Hfound in Hj as (t & Ht & Hht).
    destruct (Hhas t Hht) as [mm Hmm]. exists t, mm.
    split; [exact Ht|]. split; [exact Hmm|]. split; [exact Hht|].
    split.
    - rewrite Forall_forall in Href.
      apply (Href t); [eapply list_elem_of_lookup_2, Ht | exact Hmm].
    - rewrite list_lookup_fmap, Ht. reflexivity. }
  split; [reflexivity|]. split; [rewrite Hlen; apply length_map|].
  intros i t Ht. rewrite Hw', list_lookup_fmap, Ht.
  cbn [fmap option_fmap option_map].
  destruct (has_enabler user t) eqn:Hht.
  - destruct (decide (i ∈ new)) as [_|Hn];
      [|exfalso; apply Hn, Hfound; exists t; split; assumption].
    destruct (Hhas t Hht) as [mm Hmm].
    exists (updated user st t). split; [reflexivity|].
    unfold updated, tracks. rewrite Hmm, Hht. cbn [task_mm user_mem].
    split; [reflexivity|]. intros a k Hk. apply write_enablers_bits. exact Hk.
  - destruct (decide (i ∈ new)) as [Hc|_].
    { apply Hfound in Hc as (u & Hu & Hhu). congruence. }
    exists t. split; [unfold got; rewrite Hht; reflexivity|].
    split; [reflexivity|]. intros a k Hk.
    replace (tracks user t a k) with false; [reflexivity|].
    symmetry. unfold tracks. unfold has_enabler in Hht.
    destruct (task_mm t) as [mm|]; [|reflexivity].
    apply andb_false_iff. right.
    induction (mm_enablers mm) as [|e es IH]; [reflexivity|].
    cbn [existsb] in *. apply orb_false_iff in Hht as [He Hes].
    rewrite He. cbn [andb orb]. exact (IH Hes).
Qed.


(** X23. A change of what traces an event reaches every process, every page
    being pinned. [update_enable_bit_for] stores the status computed from
    the tracepoint in the event and touches no other event. Then in every
    process each bit that a usable enabler of the process tracks for the
    event says whether that status is non-zero, provided the process still
    has tasks; every other bit of every process is as it was, and the
    descriptors, their enablers and their reference counts are as before. *)
Theorem status_fan_out (user : ptr) (scheduled : bool) (pins : list bool)
    (world : list task) (st : kstate) :
  Forall (fun b => b = true) pins ->
  Forall mm_referenced world ->
  let '(world', pins', st') :=
    update_enable_bit_for user scheduled pins world st in
  (forall q,
     events st' !! q
     = (if decide (q = user)
        then fun u => set_status (tracepoint_status (ue_tracepoint u)) u
        else id) <$> events st !! q)
  /\ register_table st' = register_table st
  /\ mem st' = mem st
  /\ length world' = length world
  /\ forall i t,
       world !! i = Some t ->
       exists t',
         world' !! i = Some t'
         /\ task_mm t' = task_mm t
         /\ forall a k, 0 <= k < 8 ->
              byte_bit (user_mem t') a k
              = if tracks user t a k
                then (fun _ => traced st' user) <$> byte_bit (user_mem t) a k
                else byte_bit (user_mem t) a k.
Proof.
  intros Hpins Href. unfold update_enable_bit_for.
  set (st1 := set_events _ st).
  pose proof (enabler_update_pinned user scheduled pins world st1 Hpins Href)
    as Hupdate.
  destruct (user_event_enabler_update user scheduled pins world st1)
    as [[world' pins'] st'].
  destruct Hupdate as (-> & Hlen & Hbits).
  split; [|split; [reflexivity|split; [reflexivity|split; [exact Hlen|exact Hbits]]]].
  intros q. subst st1. cbn [events set_events].
  destruct (decide (q = user)) as [-> | Hne].
  - rewrite lookup_alter_eq. reflexivity.
  - rewrite lookup_alter_ne by congruence.
    destruct (events st !! q); reflexivity.
Qed.


Lemma mm_put_get (mm : user_event_mm) (st : kstate) :
  1 <= mm_refcnt mm ->
  user_event_mm_put (user_event_mm_get mm) st = (Some mm, st).
Proof.
  intros Href. unfold user_event_mm_put, user_event_mm_get.
  cbn [mm_refcnt mm_enablers mm_tasks].
  destruct (mm_refcnt mm + 1 - 1 =? 0) eqn:Hz; [lia|].
  replace (mm_refcnt mm + 1 - 1) with (mm_refcnt mm) by lia.
  destruct mm. reflexivity.
Qed.

Lemma alter_alter_id {A : Type} (f g : A -> A) (i : nat) (l : list A) :
  (forall x, l !! i = Some x -> g (f x) = x) ->
  alter g i (alter f i l) = l.
Proof.
  revert i. induction l as [|x l IH]; intros i Hid; [reflexivity|].
  destruct i as [|i]; cbn.
  - rewrite (Hid x eq_refl). reflexivity.
  - f_equal. apply IH. intros y Hy. apply Hid. exact Hy.
Qed.

(** X24. A bit whose page cannot be pinned, during the fan-out. The write
    returns [-EFAULT] and leaves the memory of the process and the events
    alone. When a fault record can be allocated and the work is scheduled,
    the enabler is marked as faulting, which keeps later writes away from
    it, the descriptor holds one reference more for the work, and one
    allocation more is live. Otherwise the descriptor, its enablers and the
    live allocations are exactly as they were. *)
Theorem failed_pin_queues_fault (scheduled : bool) (pins : list bool)
    (mm : user_event_mm) (i : nat) (e : user_event_enabler)
    (um : user_memory) (st : kstate) :
  mm_enablers mm !! i = Some e ->
  1 <= mm_refcnt mm ->
  mm_tasks mm <> 0 ->
  usable e = true ->
  hd true pins = false ->
  let '(ret, mm', um', pins', st') :=
    user_event_enabler_write_fixup scheduled pins mm i e um st in
  ret = - EFAULT
  /\ um' = um
  /\ pins' = tl pins
  /\ events st' = events st
  /\ register_table st' = register_table st
  /\ if (kmalloc (mem st)).1 && scheduled then
       mm' = Some {| mm_enablers := alter set_faulting i (mm_enablers mm);
                     mm_refcnt := mm_refcnt mm + 1;
                     mm_tasks := mm_tasks mm |}
       /\ usable (set_faulting e) = false
       /\ live (mem st') = live (mem st) + 1
     else mm' = Some mm /\ live (mem st') = live (mem st).
Proof.
  intros Hi Href Htasks Huse Hpin. unfold user_event_enabler_write_fixup.
  destruct (mm_tasks mm =? 0) eqn:Hz; [apply Z.eqb_eq in Hz; contradiction|].
  unfold usable in Huse. apply negb_true_iff in Huse. rewrite Huse, Hpin.
  cbn [negb]. unfold user_event_enabler_queue_fault.
  destruct (kmalloc (mem st)) as [ok m] eqn:Hk. apply kmalloc_live in Hk.
  cbn [fst]. destruct ok; cbn [negb andb].
  2:{ repeat split; try reflexivity. cbn. lia. }
  destruct scheduled; cbn [negb].
  - repeat split; try reflexivity.
    + unfold usable, set_faulting. cbn [en_values].
      rewrite Z.setbit_eq by (unfold ENABLE_VAL_FAULTING_BIT; lia). reflexivity.
    + cbn. lia.
  - assert (Hback : set_values i
                      (fun v => Z.clearbit v ENABLE_VAL_FAULTING_BIT)
                      (set_values i
                         (fun v => Z.setbit v ENABLE_VAL_FAULTING_BIT)
                         (user_event_mm_get mm))
                    = user_event_mm_get mm).
    { unfold set_values, user_event_mm_get.
      cbn [mm_enablers mm_refcnt mm_tasks]. f_equal.
      apply alter_alter_id. intros x Hx. rewrite Hi in Hx. injection Hx as <-.
      destruct e as [ev addr v]. cbn [en_event en_addr en_values]. f_equal.
      apply orb_false_iff in Huse as [Hf _]. cbn [en_values] in Hf.
      apply Z.bits_inj'. intros n Hn.
      rewrite Z.clearbit_eqb, Z.setbit_eqb by (unfold ENABLE_VAL_FAULTING_BIT; lia).
      destruct (ENABLE_VAL_FAULTING_BIT =? n) eqn:Hn6.
      - apply Z.eqb_eq in Hn6. subst n. rewrite Hf. reflexivity.
      - cbn. rewrite andb_true_r. reflexivity. }
    rewrite Hback, (mm_put_get mm _ Href).
    repeat split; try reflexivity. cbn. lia.
Qed.


Lemma clear_faulting_bit (v : Z) :
  Z.land (Z.clearbit v ENABLE_VAL_FAULTING_BIT) ENABLE_VAL_BIT_MASK
  = Z.land v ENABLE_VAL_BIT_MASK.
Proof.
  apply Z.bits_inj'. intros n Hn. rewrite !Z.land_spec, Z.clearbit_eqb.
  destruct (ENABLE_VAL_FAULTING_BIT =? n) eqn:Hn6; cbn [negb].
  - apply Z.eqb_eq in Hn6. subst n. rewrite andb_false_r. cbn.
    rewrite andb_false_r. reflexivity.
  - rewrite andb_true_r. reflexivity.
Qed.

(** X25. The queued fault-in when it runs, for an enabler of a descriptor
    that the task and the work both reference, every page being pinned. An
    enabler that was unregistered meanwhile is taken off the list and
    destroyed, giving up its reference on its event, and the memory of the
    process is untouched. Otherwise the enabler is no longer marked as
    faulting, and its bit is written into the process exactly when the page
    came in and the process still has tasks. In each case the work gives
    back its reference on the descriptor and its fault record. *)
Theorem fault_fixup_result (fixup : Z) (scheduled : bool) (pins : list bool)
    (mm : user_event_mm) (i : nat) (e : user_event_enabler)
    (um : user_memory) (st : kstate) :
  mm_enablers mm !! i = Some e ->
  2 <= mm_refcnt mm ->
  Forall (fun b => b = true) pins ->
  let '(mm', um', pins', st') :=
    user_event_enabler_fault_fixup fixup scheduled pins mm i um st in
  register_table st' = register_table st
  /\ if is_freeing e then
       mm' = Some {| mm_enablers := delete i (mm_enablers mm);
                     mm_refcnt := mm_refcnt mm - 1;
                     mm_tasks := mm_tasks mm |}
       /\ um' = um
       /\ (forall p,
             events st' !! p
             = (if decide (en_event e = p) then drop_refs 1 else id)
                 <$> events st !! p)
       /\ live (mem st') = live (mem st) - 2
     else
       mm' = Some {| mm_enablers := alter clear_faulting i (mm_enablers mm);
                     mm_refcnt := mm_refcnt mm - 1;
                     mm_tasks := mm_tasks mm |}
       /\ events st' = events st
       /\ live (mem st') = live (mem st) - 1
       /\ um' = if (fixup =? 0) && negb (mm_tasks mm =? 0)
                then write_bit (event_on (events st) e) (enabler_bit e)
                       (en_addr e) um
                else um.
Proof.
  intros Hi Href Hpins. unfold user_event_enabler_fault_fixup. rewrite Hi.
  assert (Hput : forall es s,
            user_event_mm_put
              {| mm_enablers := es; mm_refcnt := mm_refcnt mm;
                 mm_tasks := mm_tasks mm |} s
            = (Some {| mm_enablers := es; mm_refcnt := mm_refcnt mm - 1;
                       mm_tasks := mm_tasks mm |}, s)).
  { intros es s. unfold user_event_mm_put. cbn [mm_refcnt mm_enablers mm_tasks].
    destruct (mm_refcnt mm - 1 =? 0) eqn:Hz; [lia | reflexivity]. }
  unfold is_freeing.
  destruct (Z.testbit (en_values e) ENABLE_VAL_FREEING_BIT) eqn:Hfree.
  - cbv zeta. rewrite Hput. split; [reflexivity|]. split; [reflexivity|].
    split; [reflexivity|]. split.
    + intros p. cbn [events set_mem]. apply enabler_destroy_lookup.
    + cbn. lia.
  - unfold user_event_mm_fault_in, set_values.
    change (fun e0 : user_event_enabler =>
              {| en_event := en_event e0; en_addr := en_addr e0;
                 en_values := Z.clearbit (en_values e0) ENABLE_VAL_FAULTING_BIT |})
      with clear_faulting.
    destruct (mm_tasks mm =? 0) eqn:Htasks.
    + replace (- ENOENT =? 0) with false by reflexivity.
      rewrite andb_false_r. cbv zeta. rewrite Hput.
      split; [reflexivity|]. split; [reflexivity|]. split; [reflexivity|].
      split; [cbn; lia | reflexivity].
    + cbn [negb]. rewrite andb_true_r.
      destruct (fixup =? 0) eqn:Hfix.
      * unfold user_event_enabler_write_fixup.
        cbn [mm_tasks en_values en_event en_addr]. rewrite Htasks.
        rewrite Z.clearbit_eq.
        rewrite Z.clearbit_neq by (unfold ENABLE_VAL_FAULTING_BIT,
                                     ENABLE_VAL_FREEING_BIT; lia).
        rewrite Hfree. cbn [orb].
        assert (Hhd : hd true pins = true)
          by (destruct Hpins as [|b pins Hb _]; [reflexivity | exact Hb]).
        rewrite Hhd. cbn [negb]. rewrite Hput. rewrite clear_faulting_bit.
        split; [reflexivity|]. split; [reflexivity|]. split; [reflexivity|].
        split; [cbn; lia | reflexivity].
      * cbv zeta. rewrite Hput.
        split; [reflexivity|]. split; [reflexivity|]. split; [reflexivity|].
        split; [cbn; lia | reflexivity].
Qed.

End FurtherFanOut.

(** ** Matching a dynamic-event command *)

Section FurtherMatch.
Context `{Platform}.

Lemma string_app_nil_r (s : string) : (s ++ "")%string = s.
Proof.
  induction s as [|a s IH]; [reflexivity|].
  change (String a (s ++ "")%string = String a s). f_equal. exact IH.
Qed.

Lemma concat_spaced (a : string) (l : list string) :
  String.concat " " (a :: l) = (a ++ spaced l)%string.
Proof.
  revert a. induction l as [|b l IH]; intros a.
  - cbn. symmetry. apply string_app_nil_r.
  - change (String.concat " " (a :: b :: l))
      with (a ++ " " ++ String.concat " " (b :: l))%string.
    rewrite IH. reflexivity.
Qed.

(** The loop stops behind the first word with a semicolon, or at the end. *)
Lemma dyn_field_loop_semi (ws : list string) (w : string) (rest : list string) :
  Forall no_semi ws -> has_semi w ->
  dyn_field_loop (ws ++ w :: rest) false
  = (spaced (ws ++ [w]), length (ws ++ [w]), true).
Proof.
  intros Hws Hw. induction Hws as [|a ws Ha _ IH]; cbn [app dyn_field_loop].
  - unfold has_semi in Hw. destruct (split_at ";" w); [|contradiction].
    cbn. rewrite string_app_nil_r. reflexivity.
  - unfold no_semi in Ha. rewrite Ha, IH. reflexivity.
Qed.

Lemma dyn_field_loop_end (ws : list string) :
  Forall no_semi ws ->
  dyn_field_loop ws false = (spaced ws, length ws, false).
Proof.
  intros Hws. induction Hws as [|a ws Ha _ IH]; cbn [dyn_field_loop];
    [reflexivity|].
  unfold no_semi in Ha. rewrite Ha, IH. reflexivity.
Qed.

Lemma dyn_field_loop_spec (args : list string) :
  let '(text, n, colon) := dyn_field_loop args false in
  exists span rest,
    args = span ++ rest
    /\ n = length span
    /\ text = spaced span
    /\ ((colon = true
         /\ exists ws w, span = ws ++ [w] /\ Forall no_semi ws /\ has_semi w)
        \/ (colon = false /\ rest = [] /\ Forall no_semi span)).
Proof.
  induction args as [|a args IH]; cbn [dyn_field_loop].
  - exists [], []. split; [reflexivity|]. split; [reflexivity|].
    split; [reflexivity|]. right. split; [reflexivity|].
    split; [reflexivity | constructor].
  - destruct (split_at ";" a) as [cut|] eqn:Ha.
    + exists [a], args. split; [reflexivity|]. split; [reflexivity|].
      split; [cbn; rewrite string_app_nil_r; reflexivity|].
      left. split; [reflexivity|]. exists [], a. split; [reflexivity|].
      split; [constructor|]. unfold has_semi. rewrite Ha. discriminate.
    + destruct (dyn_field_loop args false) as [[text n] colon].
      destruct IH as (span & rest & -> & -> & -> & Hcase).
      exists (a :: span), rest. split; [reflexivity|]. split; [reflexivity|].
      split; [reflexivity|].
      destruct Hcase as [(-> & ws & w & -> & Hws & Hw) | (-> & -> & Hspan)].
      * left. split; [reflexivity|]. exists (a :: ws), w.
        split; [reflexivity|]. split; [constructor; assumption | exact Hw].
      * right. split; [reflexivity|]. split; [reflexivity|].
        constructor; assumption.
Qed.

(** The same from the first argument on, which has no space before it. *)
Lemma dyn_field_first (a : string) (args : list string) :
  dyn_field_loop (a :: args) true
  = let '(text, n, colon) := dyn_field_loop (a :: args) false in
    (string_drop 1 text, n, colon).
Proof.
  cbn [dyn_field_loop]. destruct (split_at ";" a); [reflexivity|].
  destruct (dyn_field_loop args false) as [[text n] colon]. reflexivity.
Qed.

Lemma string_drop_spaced (a : string) (l : list string) :
  string_drop 1 (spaced (a :: l)) = String.concat " " (a :: l).
Proof. rewrite concat_spaced. reflexivity. Qed.


(** What [user_dyn_field_set_string] takes from the arguments. *)
Lemma dyn_field_set_string_spec (argv : list string) (i : nat) :
  (i < length argv)%nat ->
  let '(text, i', colon) := user_dyn_field_set_string argv i in
  exists span,
    span <> []
    /\ drop i argv = span ++ drop i' argv
    /\ i' = (i + length span)%nat
    /\ text = String.concat " " span
    /\ ((colon = true
         /\ exists ws w, span = ws ++ [w] /\ Forall no_semi ws /\ has_semi w)
        \/ (colon = false /\ i' = length argv /\ Forall no_semi span)).
Proof.
  intros Hi. unfold user_dyn_field_set_string.
  destruct (drop i argv) as [|a args] eqn:Hdrop.
  { apply (f_equal length) in Hdrop. rewrite length_drop in Hdrop.
    cbn in Hdrop. lia. }
  rewrite dyn_field_first.
  pose proof (dyn_field_loop_spec (a :: args)) as Hspec.
  destruct (dyn_field_loop (a :: args) false) as [[text n] colon].
  destruct Hspec as (span & rest & Hsplit & -> & -> & Hcase).
  assert (Hrest : drop (i + length span) argv = rest).
  { rewrite <- drop_drop, Hdrop, Hsplit. apply drop_app_length. }
  assert (Hne : span <> []).
  { destruct Hcase as [(_ & ws & w & -> & _) | (_ & -> & _)].
    - destruct ws; discriminate.
    - rewrite app_nil_r in Hsplit. subst span. discriminate. }
  exists span. split; [exact Hne|]. split; [rewrite Hrest; exact Hsplit|].
  split; [reflexivity|]. split.
  { destruct span as [|b span]; [contradiction|]. apply string_drop_spaced. }
  destruct Hcase as [Hsemi | (-> & -> & Hspan)]; [left; exact Hsemi|].
  right. split; [reflexivity|]. split; [|exact Hspan].
  rewrite app_nil_r in Hsplit. apply (f_equal length) in Hdrop.
  rewrite length_drop, Hsplit in Hdrop. lia.
Qed.

Lemma dyn_field_set_string_semi (argv : list string) (i : nat)
    (ws : list string) (w : string) (rest : list string) :
  drop i argv = ws ++ w :: rest ->
  Forall no_semi ws -> has_semi w ->
  user_dyn_field_set_string argv i
  = (String.concat " " (ws ++ [w]), (i + length (ws ++ [w]))%nat, true).
Proof.
  intros Hdrop Hws Hw. unfold user_dyn_field_set_string. rewrite Hdrop.
  pose proof (dyn_field_loop_semi ws w rest Hws Hw) as Hloop.
  destruct ws as [|a ws]; cbn [app] in *;
    rewrite dyn_field_first, Hloop, string_drop_spaced; reflexivity.
Qed.

Lemma dyn_field_set_string_end (argv : list string) (i : nat)
    (ws : list string) :
  ws <> [] ->
  drop i argv = ws ->
  Forall no_semi ws ->
  user_dyn_field_set_string argv i
  = (String.concat " " ws, (i + length ws)%nat, false).
Proof.
  intros Hne Hdrop Hws. unfold user_dyn_field_set_string. rewrite Hdrop.
  destruct ws as [|a ws]; [contradiction|].
  rewrite dyn_field_first, (dyn_field_loop_end (a :: ws) Hws).
  rewrite string_drop_spaced. reflexivity.
Qed.

Lemma kmalloc_allocates (m : kmem) :
  allocates m ->
  exists m', kmalloc m = (true, m') /\ allocates m'.
Proof.
  unfold allocates, kmalloc. intros Hplan.
  destruct (alloc_plan m) as [|b plan] eqn:Hp.
  - eexists. split; [reflexivity|]. cbn. constructor.
  - inversion Hplan as [|? ? Hb Hrest]; subst. eexists.
    split; [reflexivity|]. cbn. exact Hrest.
Qed.

(** A field matcher frees what it allocates. *)
Lemma user_field_match_live (f : ftrace_event_field) (argv : list string)
    (i : nat) (m : kmem) :
  live (user_field_match f argv i m).2 = live m.
Proof.
  unfold user_field_match. destruct (length argv <=? i)%nat; [reflexivity|].
  destruct (user_dyn_field_set_string argv i) as [[text i'] colon].
  destruct (negb _); [reflexivity|].
  destruct (kmalloc m) as [ok1 m1] eqn:Hk1. apply kmalloc_live in Hk1.
  destruct (kmalloc m1) as [ok2 m2] eqn:Hk2. apply kmalloc_live in Hk2.
  destruct ok1, ok2; cbn in *; lia.
Qed.

Lemma user_field_match_true (f : ftrace_event_field) (argv : list string)
    (i i' : nat) (m m' : kmem) :
  user_field_match f argv i m = (true, i', m') ->
  exists span,
    span <> []
    /\ drop i argv = span ++ drop i' argv
    /\ i' = (i + length span)%nat
    /\ ((exists ws w, span = ws ++ [w] /\ Forall no_semi ws /\ has_semi w
                      /\ String.concat " " span = user_field_set_string f true)
        \/ (i' = length argv /\ Forall no_semi span
            /\ String.concat " " span = user_field_set_string f false)).
Proof.
  unfold user_field_match.
  destruct (length argv <=? i)%nat eqn:Hlen; [discriminate|].
  apply Nat.leb_gt in Hlen.
  pose proof (dyn_field_set_string_spec argv i Hlen) as Hspec.
  destruct (user_dyn_field_set_string argv i) as [[text i1] colon].
  destruct Hspec as (span & Hne & Hdrop & -> & -> & Hcase).
  destruct (negb _); [discriminate|].
  destruct (kmalloc m) as [ok1 m1]. destruct (kmalloc m1) as [ok2 m2].
  destruct (negb ok1 || negb ok2); [discriminate|].
  intros [= Heq <- _]. apply String.eqb_eq in Heq.
  exists span. split; [exact Hne|]. split; [exact Hdrop|].
  split; [reflexivity|].
  destruct Hcase as [(-> & ws & w & Hspan & Hws & Hw) | (-> & Hend & Hspan)].
  - left. exists ws, w. repeat split; assumption.
  - right. repeat split; assumption.
Qed.

Lemma user_field_match_complete (f : ftrace_event_field) (argv : list string)
    (i : nat) (m : kmem) (span : list string) (colon : bool) :
  allocates m ->
  (i < length argv)%nat ->
  user_dyn_field_set_string argv i
  = (String.concat " " span, (i + length span)%nat, colon) ->
  String.concat " " span = user_field_set_string f colon ->
  exists m',
    user_field_match f argv i m = (true, (i + length span)%nat, m')
    /\ allocates m'.
Proof.
  intros Halloc Hi Hdyn Hspell. unfold user_field_match.
  destruct (length argv <=? i)%nat eqn:Hlen; [apply Nat.leb_le in Hlen; lia|].
  rewrite Hdyn, <- Hspell, Z.eqb_refl. cbn [negb].
  destruct (kmalloc_allocates m Halloc) as (m1 & -> & Halloc1).
  destruct (kmalloc_allocates m1 Halloc1) as (m2 & -> & Halloc2).
  cbn [negb orb]. unfold strcmp_eq. rewrite String.eqb_refl.
  eexists. split; [reflexivity|]. exact Halloc2.
Qed.


Lemma fields_match_loop_live (fs : list ftrace_event_field)
    (argv : list string) (i : nat) (m : kmem) :
  live (fields_match_loop fs argv i m).2 = live m.
Proof.
  revert i m. induction fs as [|f fs IH]; intros i m; [reflexivity|].
  cbn [fields_match_loop].
  pose proof (user_field_match_live f argv i m) as Hlive.
  destruct (user_field_match f argv i m) as [[ok i1] m1]. cbn [snd] in Hlive.
  destruct ok; cbn [negb]; [|exact Hlive]. rewrite IH. exact Hlive.
Qed.

Lemma drop_span (argv span rest : list string) (i : nat) :
  (i <= length argv)%nat ->
  drop i argv = span ++ rest ->
  (i + length span <= length argv)%nat
  /\ drop (i + length span) argv = rest.
Proof.
  intros Hi Hdrop. split.
  - apply (f_equal length) in Hdrop. rewrite length_drop, length_app in Hdrop.
    lia.
  - rewrite <- drop_drop, Hdrop. apply drop_app_length.
Qed.

Lemma fields_match_loop_sound (fs : list ftrace_event_field)
    (argv : list string) (i : nat) (m m' : kmem) :
  fields_match_loop fs argv i m = (true, length argv, m') ->
  spells_fields fs (drop i argv).
Proof.
  revert i m. induction fs as [|f fs IH]; intros i m; cbn [fields_match_loop].
  - intros [= -> _]. rewrite drop_all. constructor.
  - destruct (user_field_match f argv i m) as [[ok i1] m1] eqn:Hmatch.
    destruct ok; cbn [negb]; [|discriminate].
    destruct (user_field_match_true _ _ _ _ _ _ Hmatch)
      as (span & Hne & Hdrop & -> & Hcase).
    intros Hloop. rewrite Hdrop.
    destruct Hcase as [(ws & w & -> & Hws & Hw & Hspell)
                      | (Hend & Hspan & Hspell)].
    + rewrite <- app_assoc. cbn [app].
      apply spells_cons; [exact Hws | exact Hw | exact Hspell|].
      exact (IH _ _ Hloop).
    + rewrite Hend, drop_all, app_nil_r.
      destruct fs as [|f2 fs].
      * apply spells_last; assumption.
      * exfalso. cbn [fields_match_loop] in Hloop. unfold user_field_match in Hloop.
        rewrite Hend in Hloop.
        replace (length argv <=? length argv)%nat with true in Hloop
          by (symmetry; apply Nat.leb_le; lia).
        discriminate Hloop.
Qed.

Lemma fields_match_loop_complete (fs : list ftrace_event_field)
    (argv : list string) (i : nat) (m : kmem) :
  allocates m ->
  (i <= length argv)%nat ->
  spells_fields fs (drop i argv) ->
  exists m',
    fields_match_loop fs argv i m = (true, length argv, m') /\ allocates m'.
Proof.
  intros Halloc Hi Hspells. remember (drop i argv) as args eqn:Hargs.
  revert i m Halloc Hi Hargs.
  induction Hspells as [|f ws Hne Hws Hspell
                        |f fs ws w rest Hws Hw Hspell Hrest IH];
    intros i m Halloc Hi Hargs; cbn [fields_match_loop].
  - apply (f_equal length) in Hargs. rewrite length_drop in Hargs.
    cbn in Hargs. replace i with (length argv) by lia.
    exists m. split; [reflexivity | exact Halloc].
  - symmetry in Hargs.
    assert (Hlen : (i + length ws)%nat = length argv).
    { apply (f_equal length) in Hargs. rewrite length_drop in Hargs.
      destruct ws; [contradiction|]. cbn in *. lia. }
    assert (Hlt : (i < length argv)%nat).
    { destruct ws; [contradiction|]. cbn in Hlen. lia. }
    destruct (user_field_match_complete f argv i m ws false Halloc Hlt
                (dyn_field_set_string_end argv i ws Hne Hargs Hws) Hspell)
      as (m' & -> & Halloc').
    cbn [negb]. rewrite Hlen. exists m'. split; [reflexivity | exact Halloc'].
  - symmetry in Hargs.
    assert (Hargs' : drop i argv = (ws ++ [w]) ++ rest).
    { rewrite Hargs, <- app_assoc. reflexivity. }
    destruct (drop_span argv (ws ++ [w]) rest i Hi Hargs') as [Hle Hdrop].
    assert (Hlt : (i < length argv)%nat).
    { rewrite length_app in Hle. cbn in Hle. lia. }
    destruct (user_field_match_complete f argv i m (ws ++ [w]) true Halloc Hlt
                (dyn_field_set_string_semi argv i ws w rest Hargs Hws Hw)
                Hspell) as (m1 & -> & Halloc1).
    cbn [negb]. apply IH; [exact Halloc1 | exact Hle |].
    symmetry. exact Hdrop.
Qed.

(** X26. When an event answers to a dynamic-event command. The matcher
    frees what it allocates, whatever it answers. It answers yes only for a
    command that gives the name of the event and, if it gives a system, the
    system of user events, and whose arguments, if it has any, spell the
    fields of the event in the order they were declared: type, space, name
    and semicolon for each, a semicolon only at the end of a word, the last
    one optional. With the allocations succeeding, every such command is
    answered yes. *)
Theorem event_match_spelled (system : option string) (event : string)
    (argv : list string) (user : user_event) (m : kmem) :
  let named :=
    EVENT_NAME user = event
    /\ (system = None \/ system = Some USER_EVENTS_SYSTEM) in
  let spelled := argv = [] \/ spells_fields (rev (fields user)) argv in
  let '(r, m') := user_event_match system event argv user m in
  live m' = live m
  /\ (r = true -> named /\ spelled)
  /\ (allocates m -> named -> spelled -> r = true).
Proof.
  intros named spelled. unfold user_event_match.
  set (matched := strcmp_eq (EVENT_NAME user) event
                  && match system with
                     | Some s => strcmp_eq s USER_EVENTS_SYSTEM
                     | None => true
                     end).
  assert (Hnamed : matched = true <-> named).
  { subst matched named. unfold strcmp_eq. rewrite andb_true_iff, String.eqb_eq.
    destruct system as [s|].
    - rewrite String.eqb_eq. split.
      + intros [-> ->]. split; [reflexivity | right; reflexivity].
      + intros [-> [Hc | [= ->]]]; [discriminate | split; reflexivity].
    - split; [intros [-> _]; split; [reflexivity | left; reflexivity]|].
      intros [-> _]. split; reflexivity. }
  destruct matched.
  2:{ cbn [andb]. split; [reflexivity|]. split; [discriminate|].
      intros _ Hn. apply Hnamed in Hn. discriminate Hn. }
  cbn [andb]. destruct argv as [|a argv].
  { cbn. split; [reflexivity|]. split.
    - intros _. split; [apply Hnamed; reflexivity | left; reflexivity].
    - reflexivity. }
  change (0 <? length (a :: argv))%nat with true. cbv iota.
  unfold user_fields_match.
  pose proof (fields_match_loop_live (rev (fields user)) (a :: argv) 0 m)
    as Hlive.
  destruct (fields_match_loop (rev (fields user)) (a :: argv) 0 m)
    as [[ok i] m1] eqn:Hloop. cbn [snd] in Hlive.
  destruct ok; cbn [negb].
  2:{ split; [exact Hlive|]. split; [discriminate|].
      intros Halloc _ [Hnil | Hspells]; [discriminate Hnil|].
      destruct (fields_match_loop_complete (rev (fields user)) (a :: argv) 0 m
                  Halloc ltac:(lia) Hspells) as (m2 & Hloop2 & _).
      rewrite Hloop in Hloop2. discriminate Hloop2. }
  destruct (i =? length (a :: argv))%nat eqn:Hi; cbn [negb].
  - apply Nat.eqb_eq in Hi. subst i. split; [exact Hlive|]. split.
    + intros _. split; [apply Hnamed; reflexivity|]. right.
      exact (fields_match_loop_sound _ _ _ _ _ Hloop).
    + reflexivity.
  - split; [exact Hlive|]. split; [discriminate|].
    intros Halloc _ [Hnil | Hspells]; [discriminate Hnil|].
    destruct (fields_match_loop_complete (rev (fields user)) (a :: argv) 0 m
                Halloc ltac:(lia) Hspells) as (m2 & Hloop2 & _).
    rewrite Hloop in Hloop2. injection Hloop2 as Hi2 _.
    apply Nat.eqb_neq in Hi. contradiction.
Qed.

End FurtherMatch.

(** ** The further properties at concrete inputs *)

(** The witness of X1: an index beyond the one slot of the array. *)
Lemma emit_rejections_witness :
  user_events_write_core (H:=linux_x86_64) traced_events one_ref
    (iter_of [5; 0; 0; 0; 1; 2; 3; 4]) empty_sinks
  = Returned (- ENOENT) empty_sinks.
Proof.
  destruct (emit_rejections (H:=linux_x86_64) traced_events one_ref
              (iter_of [5; 0; 0; 0; 1; 2; 3; 4]) empty_sinks) as [_ Hidx].
  destruct (Hidx 5 eq_refl ltac:(lia)) as [Hnone _].
  apply Hnone. right. exists [Some 1%positive].
  split; [reflexivity|]. left. cbn. lia.
Defined.

(** The witness of X2: the string [a] written to [string_event]. *)
Lemma emit_publishes_payload_witness :
  exists s',
    user_events_write_core (H:=linux_x86_64) traced_events one_ref
      (iter_of ([0; 0; 0; 0] ++ string_payload)) empty_sinks
    = Returned 10 s'
    /\ published s' = [[0; 0; 0; 0; 0; 0; 0; 0; 0; 0; 2; 0; 97; 0]].
Proof.
  eexists. split.
  - apply (emit_publishes_payload (H:=linux_x86_64) traced_events one_ref
             (iter_of ([0; 0; 0; 0] ++ string_payload)) empty_sinks 0
             string_event file_on).
    + reflexivity.
    + lia.
    + reflexivity.
    + reflexivity.
    + reflexivity.
    + split; reflexivity.
    + reflexivity.
    + split; cbn; lia.
    + discriminate.
    + vm_compute. discriminate.
    + repeat constructor. intros [Hend | [_ Hnul]].
      * vm_compute in Hend. discriminate Hend.
      * vm_compute in Hnul. apply Hnul. reflexivity.
  - reflexivity.
Defined.

(** The witness of X3: the index alone, written to [bare_event]. *)
Lemma emit_empty_payload_faults_witness :
  exists s',
    user_events_write_core (H:=linux_x86_64) {[ 1%positive := bare_event ]}
      one_ref (iter_of [0; 0; 0; 0]) empty_sinks
    = Returned (- EFAULT) s'
    /\ published s' = [].
Proof.
  apply (emit_empty_payload_faults (H:=linux_x86_64) {[ 1%positive := bare_event ]}
           one_ref (iter_of [0; 0; 0; 0]) empty_sinks 0 bare_event file_on).
  - reflexivity.
  - lia.
  - reflexivity.
  - reflexivity.
  - vm_compute. discriminate.
  - reflexivity.
  - left. reflexivity.
  - split; reflexivity.
  - reflexivity.
Defined.

(** The witness of X4: a write to [string_event] in the registry where it
    is the one event. *)
Lemma emit_outcomes_witness :
  exists ret s',
    user_events_write_core (H:=linux_x86_64) traced_events one_ref
      (iter_of ([0; 0; 0; 0] ++ string_payload)) empty_sinks
    = Returned ret s'
    /\ (ret = 10 \/ ret = - EFAULT \/ ret = - ENOENT \/ ret = - EINVAL).
Proof.
  destruct (emit_outcomes (H:=linux_x86_64) traced_events one_ref
              (iter_of ([0; 0; 0; 0] ++ string_payload)) empty_sinks)
    as (ret & s' & Hret & Hrange & _).
  - intros idx Hidx. vm_compute in Hidx. injection Hidx as <-. lia.
  - intros events p [= <-] Hin.
    apply list_elem_of_singleton in Hin. injection Hin as ->.
    eexists. reflexivity.
  - exists ret, s'. split; [exact Hret | exact Hrange].
Defined.

(** The witness of X5: a string field and a number. *)
Lemma parsed_validators_witness :
  let r := user_event_parse_fields (H:=linux_x86_64) (new_user_event "log")
             (Some "__rel_loc char[] s;u32 n") mem0 in
  validators r.1.2 = [{| v_offset := 8; v_flags := 3 |}].
Proof.
  intros r.
  rewrite (parsed_validators (H:=linux_x86_64) "log"
             (Some "__rel_loc char[] s;u32 n") r.1.2 mem0 r.2 r.1.1).
  - vm_compute. reflexivity.
  - subst r. destruct (user_event_parse_fields _ _ _) as [[ret user'] m'].
    reflexivity.
Defined.

(** The witness of X6: [test] registered in the empty registry. *)
Lemma registered_event_layout_witness :
  exists (user : user_event),
    events registered_state !! 1%positive = Some user
    /\ EVENT_NAME user = "test"
    /\ refcnt user = 2
    /\ min_size user = 24.
Proof.
  destruct (user_event_parse (H:=linux_x86_64) trace_ok boot_state "test"
              (Some "char[20] msg;unsigned int id") None)
    as [[ret newuser] st'] eqn:Hparse.
  assert (Hret : ret = 0).
  { apply (f_equal (fun r => r.1.1)) in Hparse. vm_compute in Hparse.
    symmetry. exact Hparse. }
  assert (Hst : st' = registered_state).
  { apply (f_equal snd) in Hparse. symmetry. exact Hparse. }
  subst ret.
  destruct (registered_event_layout (H:=linux_x86_64) trace_ok boot_state st'
              "test" (Some "char[20] msg;unsigned int id") None newuser
              eq_refl Hparse)
    as (p & user & Hnew & Hfound & Hp & Hname & Hcnt & _ & _ & _ & Hlayout).
  assert (Hone : p = 1%positive).
  { rewrite Hst in Hfound. vm_compute in Hfound. injection Hfound as <-.
    reflexivity. }
  subst p st'. exists user.
  split; [exact Hp|]. split; [exact Hname|]. split; [exact Hcnt|].
  destruct Hlayout as (_ & _ & Hmin).
  - pose proof Hp as Hp'. vm_compute in Hp'. injection Hp' as <-.
    vm_compute. reflexivity.
  - rewrite Hmin. pose proof Hp as Hp'. vm_compute in Hp'. injection Hp' as <-.
    vm_compute. reflexivity.
Defined.

(** The witness of X7: a blank field between two others. *)
Lemma blank_fields_skipped_witness :
  user_event_parse_fields (H:=linux_x86_64) (new_user_event "e")
    (Some "u32 a; ;u8 b") mem0
  = user_event_parse_fields (H:=linux_x86_64) (new_user_event "e")
      (Some "u32 a;u8 b") mem0.
Proof.
  destruct (blank_fields_skipped (H:=linux_x86_64) (new_user_event "e")
              "u32 a; ;u8 b" ["u32 a"] ["u8 b"] " " mem0 eq_refl eq_refl)
    as (Hskip & _).
  rewrite Hskip by discriminate. reflexivity.
Defined.

(** The witness of X8: registering [other] beside [test]. *)
Lemma other_names_unaffected_witness :
  lookup_name (H:=linux_x86_64)
    (user_event_parse (H:=linux_x86_64) trace_ok idle_state "other"
       (Some "u32 x") None).2 "test"
  = Some 1%positive.
Proof.
  destruct (other_names_unaffected (H:=linux_x86_64) trace_ok idle_state
              "other" "test" (Some "u32 x") None ltac:(discriminate))
    as (Hregistered & _).
  rewrite Hregistered. vm_compute. reflexivity.
Defined.

(** The witness of X9: the table after the first registration. *)
Lemma registry_wf_kept_witness :
  registry_wf (H:=linux_x86_64)
    (user_event_parse (H:=linux_x86_64) trace_ok boot_state "test"
       (Some "char[20] msg;unsigned int id") None).2.
Proof.
  assert (Hboot : registry_wf (H:=linux_x86_64) boot_state).
  { split.
    - intros b. constructor.
    - intros b p Hin. inversion Hin. }
  exact (proj1 (registry_wf_kept (H:=linux_x86_64) trace_ok boot_state "test"
                  (Some "char[20] msg;unsigned int id") None Hboot)).
Defined.

(** The witness of X10: [test] registered in the empty registry, released
    and deleted. *)
Lemma register_delete_round_trip_witness :
  exists st2,
    delete_user_event (H:=linux_x86_64) trace_ok idle_state "test" = (0, st2)
    /\ events st2 = ∅
    /\ current_user_events st2 = 0.
Proof.
  assert (Hboot : registry_wf (H:=linux_x86_64) boot_state).
  { split.
    - intros b. constructor.
    - intros b p Hin. inversion Hin. }
  destruct (user_event_parse (H:=linux_x86_64) trace_ok boot_state "test"
              (Some "char[20] msg;unsigned int id") None)
    as [[ret newuser] st1] eqn:Hparse.
  assert (Hret : ret = 0).
  { apply (f_equal (fun r => r.1.1)) in Hparse. vm_compute in Hparse.
    symmetry. exact Hparse. }
  assert (Hnew : newuser = Some 1%positive).
  { apply (f_equal (fun r => r.1.2)) in Hparse. vm_compute in Hparse.
    symmetry. exact Hparse. }
  assert (Hst : st1 = registered_state).
  { apply (f_equal snd) in Hparse. symmetry. exact Hparse. }
  subst ret.
  destruct (register_delete_round_trip (H:=linux_x86_64) trace_ok trace_ok
              boot_state st1 "test" (Some "char[20] msg;unsigned int id") None
              newuser Hboot eq_refl ltac:(reflexivity) ltac:(vm_compute; discriminate)
              Hparse eq_refl eq_refl)
    as (p & st2 & Hp & Hdel & Hev & _ & _ & _ & _ & Hcount & _).
  rewrite Hnew in Hp. injection Hp as <-. subst st1.
  exists st2. split; [exact Hdel|]. split; [exact Hev | exact Hcount].
Defined.

(** The witness of X13: [test], idle, taken by a file. *)
Lemma file_reference_blocks_delete_witness :
  let st' := (user_events_ref_add fresh_file 1%positive idle_state).2 in
  delete_user_event (H:=linux_x86_64) trace_ok st' "test" = (- EBUSY, st').
Proof.
  intros st'.
  destruct (events idle_state !! 1%positive) as [user|] eqn:Hp;
    [|vm_compute in Hp; discriminate Hp].
  assert (Hone : refcnt user = 1).
  { pose proof Hp as Hp'. vm_compute in Hp'. injection Hp' as <-. reflexivity. }
  destruct (user_events_ref_add fresh_file 1%positive idle_state)
    as [[ret info'] st1] eqn:Hadd.
  assert (Hret : 0 <= ret).
  { apply (f_equal (fun r => r.1.1)) in Hadd. vm_compute in Hadd.
    subst ret. discriminate. }
  exact (proj1 (file_reference_blocks_delete (H:=linux_x86_64) trace_ok
                  idle_state st1 fresh_file info' "test" 1%positive user ret
                  eq_refl Hp Hone ltac:(intros Hin; inversion Hin) Hadd Hret)).
Defined.


(** The witness of X18: [test] registered from [reg_memory], which the
    process may write, and from a descriptor in a read-only mapping: the
    call returns 0 both times and the event is in slot 0 of the file, but the
    [write_index] of the read-only descriptor still holds the 7 it held. *)
Lemma registration_result_witness :
  let r := user_events_ioctl_reg (H:=linux_x86_64) trace_ok pins_ok boot_state
             fresh_file reg_task 4096 in
  let c := user_events_ioctl_reg (H:=linux_x86_64) trace_ok const_descriptor
             boot_state fresh_file const_reg_task 4096 in
  (r.1.1.1 = 0
   /\ enablers_of r.2 = [enabler_of test_reg 1%positive]
   /\ exists idx, get_user_u32 (user_mem r.2) 4120 = (0, u32 idx))
  /\ (c.1.1.1 = 0
      /\ refs c.1.2 = Some [Some 1%positive]
      /\ get_user_u32 (user_mem c.2) 4120 = (0, 7)).
Proof.
  intros r c.
  assert (Href : mm_referenced reg_task) by (intros mm [=]).
  assert (Hcref : mm_referenced const_reg_task) by (intros mm [=]).
  pose proof (registration_result (H:=linux_x86_64) trace_ok pins_ok boot_state
                (user_event_parse_cmd (H:=linux_x86_64) trace_ok
                   (set_mem {| alloc_plan := []; live := 1 |} boot_state)
                   "test").2
                fresh_file reg_task 4096 test_reg "test"
                {| alloc_plan := []; live := 1 |} 1%positive Href
                ltac:(vm_compute; reflexivity) ltac:(vm_compute; reflexivity)
                ltac:(vm_compute; reflexivity)) as Hres.
  pose proof (registration_result (H:=linux_x86_64) trace_ok const_descriptor
                boot_state
                (user_event_parse_cmd (H:=linux_x86_64) trace_ok
                   (set_mem {| alloc_plan := []; live := 1 |} boot_state)
                   "test").2
                fresh_file const_reg_task 4096 const_reg "test"
                {| alloc_plan := []; live := 1 |} 1%positive Hcref
                ltac:(vm_compute; reflexivity) ltac:(vm_compute; reflexivity)
                ltac:(vm_compute; reflexivity)) as Hcres.
  cbv zeta in Hres, Hcres. fold r in Hres. fold c in Hcres.
  assert (Hret : r.1.1.1 = 0) by (vm_compute; reflexivity).
  assert (Hcret : c.1.1.1 = 0) by (vm_compute; reflexivity).
  assert (Hcrefs : refs c.1.2 = Some [Some 1%positive])
    by (vm_compute; reflexivity).
  destruct r as [[[ret st'] info'] t']. destruct c as [[[cret cst] cinfo] ct].
  cbn [fst snd] in *.
  destruct Hres as (_ & _ & _ & Hok & _).
  destruct (Hok Hret) as (idx & slots & _ & Hidx & _ & _ & _ & _ & Hen & _).
  destruct Hcres as (_ & _ & _ & Hcok & _).
  destruct (Hcok Hcret) as (cidx & cslots & Hmem & _).
  split.
  - split; [exact Hret|]. split; [exact Hen|]. exists idx. apply Hidx.
    vm_compute. reflexivity.
  - split; [exact Hcret|]. split; [exact Hcrefs|]. rewrite Hmem.
    vm_compute. reflexivity.
Defined.

(** The witness of X23: the traced event reaches the process that tracks it
    with bit 31 of the word at 8192, which is bit 7 of the byte at 8195. *)
Lemma status_fan_out_witness :
  exists t',
    (update_enable_bit_for 1%positive true [] [tracking_task] tracing_state).1.1
      !! 0%nat = Some t'
    /\ byte_bit (user_mem t') 8195 7 = Some true.
Proof.
  assert (Href : Forall mm_referenced [tracking_task]).
  { constructor; [|constructor]. intros mm [= <-]. cbn. lia. }
  pose proof (status_fan_out 1%positive true [] [tracking_task]
                tracing_state ltac:(constructor) Href) as Hres.
  destruct (update_enable_bit_for 1%positive true [] [tracking_task]
              tracing_state) as [[world' pins'] st'].
  destruct Hres as (Hev & _ & _ & _ & Hbits).
  destruct (Hbits 0%nat tracking_task eq_refl) as (t' & Ht' & _ & Hb).
  exists t'. split; [exact Ht'|].
  rewrite (Hb 8195 7) by lia.
  assert (Hon : traced st' 1%positive = true).
  { unfold traced. rewrite Hev. vm_compute. reflexivity. }
  rewrite Hon. vm_compute. reflexivity.
Defined.

(** The witness of X24: the page of the tracked word cannot be pinned. *)
Lemma failed_pin_queues_fault_witness :
  (user_event_enabler_write_fixup true [false] tracking_mm 0
     (enabler_of test_reg 1%positive) reg_memory tracing_state).1.1.1.2
  = Some {| mm_enablers := [set_faulting (enabler_of test_reg 1%positive)];
            mm_refcnt := 2; mm_tasks := 1 |}.
Proof.
  pose proof (failed_pin_queues_fault true [false] tracking_mm
                0 (enabler_of test_reg 1%positive) reg_memory tracing_state
                eq_refl ltac:(cbn; lia) ltac:(discriminate) eq_refl eq_refl)
    as Hres.
  destruct (user_event_enabler_write_fixup true [false] tracking_mm 0
              (enabler_of test_reg 1%positive) reg_memory tracing_state)
    as [[[[ret mm'] um'] pins'] st'].
  destruct Hres as (_ & _ & _ & _ & _ & Hmm). cbn [fst snd].
  change ((kmalloc (mem tracing_state)).1 && true) with true in Hmm.
  destruct Hmm as (-> & _). reflexivity.
Defined.

(** The witness of X25: the fault-in of that page, queued and run. *)
Lemma fault_fixup_result_witness :
  (user_event_enabler_fault_fixup 0 true [] faulting_mm 0 reg_memory
     tracing_state).1.1.1
  = Some tracking_mm.
Proof.
  pose proof (fault_fixup_result 0 true [] faulting_mm 0
                (set_faulting (enabler_of test_reg 1%positive)) reg_memory
                tracing_state eq_refl ltac:(cbn; lia) ltac:(constructor)) as Hres.
  destruct (user_event_enabler_fault_fixup 0 true [] faulting_mm 0 reg_memory
              tracing_state) as [[[mm' um'] pins'] st'].
  destruct Hres as (_ & Hmm). cbn [fst].
  change (is_freeing (set_faulting (enabler_of test_reg 1%positive)))
    with false in Hmm.
  destruct Hmm as (-> & _). reflexivity.
Defined.

(** The witness of X26: the example event answers to its own declaration,
    a space behind the semicolon. *)
Lemma event_match_spelled_witness :
  (user_event_match None "test" ["char[20]"; "msg;"; "unsigned"; "int"; "id"]
     declared_event mem0).1
  = true.
Proof.
  pose proof (event_match_spelled None "test"
                ["char[20]"; "msg;"; "unsigned"; "int"; "id"] declared_event
                mem0) as Hres.
  cbv zeta in Hres.
  destruct (user_event_match None "test"
              ["char[20]"; "msg;"; "unsigned"; "int"; "id"] declared_event mem0)
    as [r m']. cbn [fst].
  destruct Hres as (_ & _ & Hyes). apply Hyes.
  - constructor.
  - split; [reflexivity | left; reflexivity].
  - right.
    assert (Hfields : rev (fields declared_event)
                      = [{| f_type := "char[20]"; f_name := "msg"; f_offset := 8;
                            f_size := 20; f_is_signed := 1; f_filter_type := 0 |};
                         {| f_type := "unsigned int"; f_name := "id";
                            f_offset := 28; f_size := 4; f_is_signed := 0;
                            f_filter_type := 0 |}])
      by (vm_compute; reflexivity).
    rewrite Hfields.
    apply (spells_cons _ _ ["char[20]"] "msg;" ["unsigned"; "int"; "id"]).
    + repeat constructor.
    + discriminate.
    + reflexivity.
    + apply spells_last; [discriminate | repeat constructor | reflexivity].
Defined.
